(** * My Local Cinema: discovery, identity resolution, enrichment and caching

    A shallow embedding of [cinema.py] and the properties its specification
    states about it.

    Conventions of the model.
    - Python [str] values are [text], a list of characters.  Characters are
      ASCII: the classes [\s], [\w], [\d] of Python's [re] and the methods
      [str.lower], [str.strip], [str.split], [str.isdigit] are given on the
      code points 0..127 exactly as Python has them (so [\s] contains the
      separators 0x1c..0x1f next to blank, tab, newline, vertical tab, form
      feed and carriage return); code points above 127 are outside the model
      and are treated as symbols that are neither blank, word nor digit.
    - Python [int] is [Z]; [None] is [None]; Python truthiness is written out
      ([not year] holds for [None] and for [0], [not s] for the empty string
      and the empty list).
    - Python computes similarity scores in binary64 floating point.  The model
      computes them over the rationals [Q]: every literal stands for the
      decimal fraction it denotes and no rounding is modelled.
    - The file system and the metadata provider are passed as explicit
      functions (oracles); the cache file is the dictionary it serialises,
      kept as an association list in insertion order. *)

From Stdlib Require Import Ascii String DecimalString DecimalZ DecimalPos.
From Stdlib Require Import List ZArith QArith Qround Lia Bool Arith Lqa ListSet Permutation Sorted.
Import ListNotations.

Local Open Scope char_scope.
Local Open Scope list_scope.

(** ** Text and character classes *)

Definition text := list ascii.

Definition txt (s : string) : text := list_ascii_of_string s.

Definition code (c : ascii) : nat := nat_of_ascii c.

Definition in_range (lo hi : nat) (c : ascii) : bool :=
  (lo <=? code c)%nat && (code c <=? hi)%nat.

(** [\s] / [str.isspace] *)
Definition is_space (c : ascii) : bool :=
  in_range 9 13 c || in_range 28 32 c.

(** [\d] / [str.isdigit] *)
Definition is_digit (c : ascii) : bool := in_range 48 57 c.

Definition is_upper (c : ascii) : bool := in_range 65 90 c.
Definition is_lower (c : ascii) : bool := in_range 97 122 c.

(** [\w] *)
Definition is_word (c : ascii) : bool :=
  is_digit c || is_upper c || is_lower c || Ascii.eqb c "_".

Definition lower_char (c : ascii) : ascii :=
  if is_upper c then ascii_of_nat (code c + 32) else c.

Definition upper_char (c : ascii) : ascii :=
  if is_lower c then ascii_of_nat (code c - 32) else c.

(** [str.lower] and [str.upper] *)
Definition lower (s : text) : text := map lower_char s.
Definition upper (s : text) : text := map upper_char s.

Definition text_eqb (a b : text) : bool :=
  if list_eq_dec ascii_dec a b then true else false.

Definition one_of (cs : text) (c : ascii) : bool := existsb (Ascii.eqb c) cs.

(** [str.replace(a, b)] for single characters, and [str.replace(a, "")] *)
Definition replace_char (a b : ascii) (s : text) : text :=
  map (fun c => if Ascii.eqb c a then b else c) s.

Definition remove_char (a : ascii) (s : text) : text :=
  filter (fun c => negb (Ascii.eqb c a)) s.

(** [re.sub("[cls]", " ", s)]: every character of the class becomes a blank *)
Definition sub_each (cls : ascii -> bool) (s : text) : text :=
  map (fun c => if cls c then " " else c) s.

(** [re.sub("[cls]+", " ", s)]: every maximal run of the class becomes one
    blank.  [in_run] records that the previous character was in the class. *)
Fixpoint sub_runs_from (cls : ascii -> bool) (in_run : bool) (s : text) : text :=
  match s with
  | [] => []
  | c :: s' =>
      if cls c
      then (if in_run then sub_runs_from cls true s'
            else " " :: sub_runs_from cls true s')
      else c :: sub_runs_from cls false s'
  end.

Definition sub_runs (cls : ascii -> bool) (s : text) : text :=
  sub_runs_from cls false s.

(** [re.sub(r"\s+", " ", s)] *)
Definition collapse_ws (s : text) : text := sub_runs is_space s.

Fixpoint lstrip (s : text) : text :=
  match s with
  | [] => []
  | c :: s' => if is_space c then lstrip s' else s
  end.

Fixpoint rstrip (s : text) : text :=
  match s with
  | [] => []
  | c :: s' =>
      match rstrip s' with
      | [] => if is_space c then [] else [c]
      | r => c :: r
      end
  end.

(** [str.strip()] *)
Definition strip (s : text) : text := rstrip (lstrip s).

(** [str.split()]: the maximal blank-free pieces, in order.  The source also
    uses [[t for t in re.split(r"\s+", s) if t]], which is the same list. *)
Fixpoint split_ws (s : text) : list text :=
  match s with
  | [] => []
  | c :: s' =>
      if is_space c then split_ws s'
      else match s' with
           | [] => [[c]]
           | c' :: _ =>
               if is_space c' then [c] :: split_ws s'
               else match split_ws s' with
                    | w :: ws => (c :: w) :: ws
                    | [] => [[c]]
                    end
           end
  end.

(** [" ".join(ws)] *)
Fixpoint join_sp (ws : list text) : text :=
  match ws with
  | [] => []
  | [w] => w
  | w :: ws' => w ++ " " :: join_sp ws'
  end.

Fixpoint starts_with (p s : text) : bool :=
  match p, s with
  | [], _ => true
  | a :: p', b :: s' => Ascii.eqb a b && starts_with p' s'
  | _ :: _, [] => false
  end.

(** [p in s] on strings *)
Fixpoint is_infix (p s : text) : bool :=
  starts_with p s ||
  match s with
  | [] => false
  | _ :: s' => is_infix p s'
  end.

Definition last_char (s : text) : option ascii := hd_error (rev s).

(** [int(s)] on a string of decimal digits *)
Definition digit_val (c : ascii) : Z := Z.of_nat (code c - 48).

Definition int_of_digits (s : text) : Z :=
  fold_left (fun acc c => 10 * acc + digit_val c)%Z s 0%Z.

(** ** Movie-like identity: [parse_title_year_from_folder] *)

(** [YEAR_RE = (19\d{2}|20\d{2})] matched at the head of [s] *)
Definition year_at (s : text) : option Z :=
  match s with
  | c1 :: c2 :: c3 :: c4 :: _ =>
      if ((Ascii.eqb c1 "1" && Ascii.eqb c2 "9") || (Ascii.eqb c1 "2" && Ascii.eqb c2 "0"))
         && is_digit c3 && is_digit c4
      then Some (int_of_digits [c1; c2; c3; c4])
      else None
  | _ => None
  end.

(** [YEAR_RE.search(s)]: the leftmost position where the pattern matches,
    as [(m.start(), int(m.group(1)))]; [i] is the offset of [s]. *)
Fixpoint year_search_from (i : nat) (s : text) : option (nat * Z) :=
  match year_at s with
  | Some y => Some (i, y)
  | None =>
      match s with
      | [] => None
      | _ :: s' => year_search_from (S i) s'
      end
  end.

Definition year_search (s : text) : option (nat * Z) := year_search_from 0 s.

(** The three normalising statements that open [parse_title_year_from_folder] *)
Definition folder_separators : text := txt "()[]{}_+".

Definition normalize_folder_name (name : text) : text :=
  let s := replace_char "." " " name in
  let s := sub_runs (one_of folder_separators) s in
  strip (collapse_ws s).

Definition parse_title_year_from_folder (name : text) : text * option Z :=
  let s := normalize_folder_name name in
  match year_search s with
  | None => (s, None)
  | Some (start, year) =>
      let title := strip (firstn start s) in
      let title := collapse_ws title in
      (title, Some year)
  end.

(** ** Show identity: [parse_show_from_string] *)

Definition clean_name (s : text) : text :=
  let s := replace_char "." " " (replace_char "_" " " s) in
  let s := sub_runs (one_of (txt "()[]{}")) s in
  strip (collapse_ws s).

Definition is_word_opt (c : option ascii) : bool :=
  match c with
  | Some c => is_word c
  | None => false
  end.

(** [\b] between the character before and the character after a position;
    the ends of the string count as non-word. *)
Definition word_boundary (before after : option ascii) : bool :=
  xorb (is_word_opt before) (is_word_opt after).

(** The separator class [[.\-_ ]] of [SxxEyy_RE] *)
Definition is_sep (c : ascii) : bool := one_of (txt ".-_ ") c.

Section Backtracking.
Context {A : Type}.

(** [cls*] followed by the rest of the pattern [k]: greedy, giving back one
    character at a time when the rest fails. *)
Fixpoint re_star (cls : ascii -> bool) (k : text -> option A) (s : text) : option A :=
  match s with
  | c :: s' =>
      if cls c
      then match re_star cls k s' with
           | Some r => Some r
           | None => k s
           end
      else k s
  | [] => k s
  end.

(** [(\d{1,2})] followed by [k]: two digits are tried before one; [k]
    receives the captured group. *)
Definition re_digits12 (k : text -> text -> option A) (s : text) : option A :=
  match s with
  | d1 :: s1 =>
      if is_digit d1
      then match s1 with
           | d2 :: s2 =>
               if is_digit d2
               then match k [d1; d2] s2 with
                    | Some r => Some r
                    | None => k [d1] s1
                    end
               else k [d1] s1
           | [] => k [d1] s1
           end
      else None
  | [] => None
  end.

(** one character of a class followed by [k] *)
Definition re_char (cls : ascii -> bool) (k : text -> option A) (s : text) : option A :=
  match s with
  | c :: s' => if cls c then k s' else None
  | [] => None
  end.
End Backtracking.

(** A match of [SxxEyy_RE]: the two captured groups and the text after the
    match, [s[m.end():]]. *)
Record sxxeyy_match := {
  m_season : text;
  m_episode : text;
  m_rest : text
}.

(** [SxxEyy_RE = \b[Ss]\s*(\d{1,2})\s*[.\-_ ]*[Ee]\s*(\d{1,2})\b] tried at
    the head of [s], [prev] being the character before it. *)
Definition sxxeyy_at (prev : option ascii) (s : text) : option sxxeyy_match :=
  if word_boundary prev (hd_error s) then
    re_char (one_of (txt "Ss"))
      (re_star is_space
        (re_digits12 (fun season =>
          re_star is_space
            (re_star is_sep
              (re_char (one_of (txt "Ee"))
                (re_star is_space
                  (re_digits12 (fun episode rest =>
                    if word_boundary (last_char episode) (hd_error rest)
                    then Some {| m_season := season; m_episode := episode; m_rest := rest |}
                    else None)))))))) s
  else None.

(** [SxxEyy_RE.search(s)]: the leftmost position with a match, as
    [(m.start(), match)]. *)
Fixpoint sxxeyy_search_from (i : nat) (prev : option ascii) (s : text)
  : option (nat * sxxeyy_match) :=
  match sxxeyy_at prev s with
  | Some m => Some (i, m)
  | None =>
      match s with
      | [] => None
      | c :: s' => sxxeyy_search_from (S i) (Some c) s'
      end
  end.

Definition sxxeyy_search (s : text) : option (nat * sxxeyy_match) :=
  sxxeyy_search_from 0 None s.

Definition QUALITY_SET : list text :=
  [txt "2160P"; txt "1080P"; txt "720P"; txt "480P"].

Definition mem_text (t : text) (l : list text) : bool := existsb (text_eqb t) l.

(** the loop collecting [ep_title_tokens] up to the first quality token *)
Fixpoint ep_title_tokens (tokens : list text) : list text :=
  match tokens with
  | [] => []
  | t :: ts => if mem_text (upper t) QUALITY_SET then [] else t :: ep_title_tokens ts
  end.

Record parsed_show := {
  show : text;
  season : Z;
  episode : Z;
  ep_title : text
}.

Definition parse_show_from_string (t : text) : option parsed_show :=
  let s := clean_name t in
  match sxxeyy_search s with
  | None => None
  | Some (start, m) =>
      let show_name := strip (firstn start s) in
      let tail := strip (m_rest m) in
      let tokens := split_ws tail in
      Some {| show := show_name;
              season := int_of_digits (m_season m);
              episode := int_of_digits (m_episode m);
              ep_title := strip (join_sp (ep_title_tokens tokens)) |}
  end.

(** ** Dictionaries

    A Python [dict] is an association list in insertion order: assigning to
    a key that is present replaces its value in place, assigning to a new
    key appends it (this is the order [json.dump] writes). *)

Section Dict.
Context {K V : Type} (keq : K -> K -> bool).

Fixpoint dict_get (d : list (K * V)) (k : K) : option V :=
  match d with
  | [] => None
  | (k', v) :: d' => if keq k k' then Some v else dict_get d' k
  end.

Fixpoint dict_set (d : list (K * V)) (k : K) (v : V) : list (K * V) :=
  match d with
  | [] => [(k, v)]
  | (k', v') :: d' =>
      if keq k k' then (k', v) :: d' else (k', v') :: dict_set d' k v
  end.

Definition dict_keys (d : list (K * V)) : list K := map fst d.
End Dict.

(** [str(n)] for an integer, and [f"{n:02d}"] *)
Definition str_of_int (n : Z) : text :=
  list_ascii_of_string (NilZero.string_of_int (Z.to_int n)).

Definition fmt_02d (n : Z) : text :=
  let s := str_of_int n in
  if (length s <? 2)%nat then "0" :: s else s.

(** [str(y)] for [y : int | None] *)
Definition str_of_year (y : option Z) : text :=
  match y with
  | Some v => str_of_int v
  | None => txt "None"
  end.

(** ** Episodes: [_add_or_update_episode] and [discover_shows] *)

(** What the scan reads from the file system.  [fs_size] and [fs_mtime] are
    [safe_size] and [safe_mtime] (zero when the file cannot be read);
    [fs_realpath] is [None] when [os.path.realpath] raises. *)
Record filesystem := {
  fs_size : text -> Z;
  fs_mtime : text -> Z;
  fs_isfile : text -> bool;
  fs_isdir : text -> bool;
  fs_realpath : text -> option text
}.

Definition safe_size (fs : filesystem) (path : text) : Z := fs_size fs path.
Definition safe_mtime (fs : filesystem) (path : text) : Z := fs_mtime fs path.

Record episode_item := {
  it_eid : option text;
  it_s : Z;
  it_e : Z;
  it_title : text;
  it_file : text;
  it_size : Z;
  it_mtime : Z
}.

(** The entry of [shows_meta] for one show.  The metadata fields that
    discovery initialises empty play no part in discovery and are left to
    the enrichment records below. *)
Record show_meta := {
  sm_title : text;
  sm_seasons : list (Z * list episode_item)
}.

(** The body of [if item["e"] == epnum:], the update of the episode already
    listed: the larger file replaces the smaller, a title fills an empty one. *)
Definition merge_episode (item : episode_item) (title file_path : text) (size mtime : Z)
  : episode_item :=
  let item1 :=
    if (size >? it_size item)%Z
    then {| it_eid := it_eid item; it_s := it_s item; it_e := it_e item;
            it_title := it_title item; it_file := file_path;
            it_size := size; it_mtime := mtime |}
    else item in
  match it_title item1, title with
  | [], _ :: _ =>
      {| it_eid := it_eid item1; it_s := it_s item1; it_e := it_e item1;
         it_title := title; it_file := it_file item1;
         it_size := it_size item1; it_mtime := it_mtime item1 |}
  | _, _ => item1
  end.

(** The [for item in lst] loop of [_add_or_update_episode]: [None] when the
    loop ends without finding the episode number. *)
Fixpoint update_episode (lst : list episode_item) (epnum : Z) (title file_path : text)
    (size mtime : Z) : option (list episode_item) :=
  match lst with
  | [] => None
  | item :: rest =>
      if (it_e item =? epnum)%Z then
        Some (merge_episode item title file_path size mtime :: rest)
      else
        match update_episode rest epnum title file_path size mtime with
        | Some rest' => Some (item :: rest')
        | None => None
        end
  end.

(** The season dictionary is keyed by [str(season)]; the model keys it by
    the integer itself ([str] is injective and the source reads the key back
    with [int(skey)]). *)
Definition season_list (seasons : list (Z * list episode_item)) (sn : Z) : list episode_item :=
  match dict_get Z.eqb seasons sn with
  | Some l => l
  | None => []
  end.

Definition _add_or_update_episode (fs : filesystem) (meta_for_show : show_meta)
    (sn epnum : Z) (title file_path : text) : show_meta :=
  let lst := season_list (sm_seasons meta_for_show) sn in
  let size := safe_size fs file_path in
  let mtime := safe_mtime fs file_path in
  let lst' :=
    match update_episode lst epnum title file_path size mtime with
    | Some l => l
    | None =>
        lst ++ [{| it_eid := None; it_s := sn; it_e := epnum; it_title := title;
                   it_file := file_path; it_size := size; it_mtime := mtime |}]
    end in
  {| sm_title := sm_title meta_for_show;
     sm_seasons := dict_set Z.eqb (sm_seasons meta_for_show) sn lst' |}.

Definition VIDEO_EXTS : list text :=
  [txt ".mkv"; txt ".mp4"; txt ".mov"; txt ".m4v"; txt ".avi"; txt ".wmv";
   txt ".ts"; txt ".m2ts"; txt ".webm"].

(** the suffix of [s] that starts at its last dot *)
Fixpoint last_dot_suffix (s : text) : option text :=
  match s with
  | [] => None
  | c :: s' =>
      match last_dot_suffix s' with
      | Some e => Some e
      | None => if Ascii.eqb c "." then Some s else None
      end
  end.

(** [os.path.splitext(name)[1]] for a directory entry (no path separator):
    the suffix from the last dot, unless only dots precede it. *)
Definition splitext_ext (name : text) : text :=
  match last_dot_suffix name with
  | Some e =>
      let stem := firstn (length name - length e) name in
      if existsb (fun c => negb (Ascii.eqb c ".")) stem then e else []
  | None => []
  end.

Record discovery := {
  shows_map : list (text * text);
  shows_meta : list (text * show_meta);
  show_id_seq : Z
}.

Definition handle_file (fs : filesystem) (st : discovery) (fp fname : text) : discovery :=
  if negb (fs_isfile fs fp && mem_text (lower (splitext_ext fname)) VIDEO_EXTS) then st
  else
    match parse_show_from_string fname with
    | None => st
    | Some parsed =>
        let show_title := show parsed in
        let key := lower show_title in
        let st1 :=
          match dict_get text_eqb (shows_map st) key with
          | Some _ => st
          | None =>
              let sid := txt "tv" ++ str_of_int (show_id_seq st) in
              {| shows_map := dict_set text_eqb (shows_map st) key sid;
                 shows_meta := dict_set text_eqb (shows_meta st) sid
                                 {| sm_title := show_title; sm_seasons := [] |};
                 show_id_seq := show_id_seq st + 1 |}
          end in
        match dict_get text_eqb (shows_map st1) key with
        | None => st1
        | Some sid =>
            match dict_get text_eqb (shows_meta st1) sid with
            | None => st1
            | Some meta =>
                {| shows_map := shows_map st1;
                   shows_meta := dict_set text_eqb (shows_meta st1) sid
                     (_add_or_update_episode fs meta (season parsed) (episode parsed)
                        (ep_title parsed) fp);
                   show_id_seq := show_id_seq st1 |}
            end
        end
    end.

(** [eps.sort(key=lambda x: x["e"])]: a stable insertion sort *)
Fixpoint insert_by_e (x : episode_item) (l : list episode_item) : list episode_item :=
  match l with
  | [] => [x]
  | y :: l' => if (it_e x <=? it_e y)%Z then x :: l else y :: insert_by_e x l'
  end.

Definition sort_by_e (l : list episode_item) : list episode_item :=
  fold_right insert_by_e [] l.

(** [f"{sid}_S{int(skey):02d}E{item['e']:02d}"] *)
Definition episode_key (sid : text) (sn en : Z) : text :=
  sid ++ txt "_S" ++ fmt_02d sn ++ txt "E" ++ fmt_02d en.

Definition set_eid (sid : text) (sn : Z) (item : episode_item) : episode_item :=
  {| it_eid := Some (episode_key sid sn (it_e item)); it_s := it_s item; it_e := it_e item;
     it_title := it_title item; it_file := it_file item;
     it_size := it_size item; it_mtime := it_mtime item |}.

Definition assign_eids_season (sid : text) (season_entry : Z * list episode_item)
  : Z * list episode_item :=
  let (sn, eps) := season_entry in
  (sn, map (set_eid sid sn) (sort_by_e eps)).

Definition assign_eids (entry : text * show_meta) : text * show_meta :=
  let (sid, meta) := entry in
  (sid, {| sm_title := sm_title meta;
           sm_seasons := map (assign_eids_season sid) (sm_seasons meta) |}).

(** [episodes_index[eid] = item["file"]] over all shows, seasons and episodes *)
Definition index_items (idx : list (text * text)) (eps : list episode_item) : list (text * text) :=
  fold_left (fun idx item =>
               match it_eid item with
               | Some eid => dict_set text_eqb idx eid (it_file item)
               | None => idx
               end) eps idx.

Definition build_episodes_index (meta : list (text * show_meta)) : list (text * text) :=
  fold_left (fun idx entry =>
               fold_left (fun idx se => index_items idx (snd se))
                         (sm_seasons (snd entry)) idx) meta [].

(** [discover_shows], given the [(fp, fname)] pairs in the order in which the
    directory walk hands them to [handle_file].  The result is the card list
    as [(id, title)] pairs, [shows_meta] and [episodes_index]. *)
Definition discover_shows (fs : filesystem) (files : list (text * text))
  : list (text * text) * list (text * show_meta) * list (text * text) :=
  let st := fold_left (fun st f => handle_file fs st (fst f) (snd f)) files
              {| shows_map := []; shows_meta := []; show_id_seq := 1 |} in
  let meta := map assign_eids (shows_meta st) in
  let shows_list :=
    map (fun ks => (snd ks,
                    match dict_get text_eqb meta (snd ks) with
                    | Some m => sm_title m
                    | None => []
                    end)) (shows_map st) in
  (shows_list, meta, build_episodes_index meta).

(** ** Matching and scoring *)

(** one alternative of [^(the|a|an)\s+]: the article followed by at least
    one blank, removed together with all the blanks after it *)
Definition drop_prefix_ws (art s : text) : option text :=
  if starts_with art s then
    match skipn (length art) s with
    | c :: r => if is_space c then Some (lstrip r) else None
    | [] => None
    end
  else None.

(** [re.sub(r"^(the|a|an)\s+", "", t)] *)
Definition drop_article (t : text) : text :=
  match drop_prefix_ws (txt "the") t with
  | Some r => r
  | None =>
      match drop_prefix_ws (txt "a") t with
      | Some r => r
      | None =>
          match drop_prefix_ws (txt "an") t with
          | Some r => r
          | None => t
          end
      end
  end.

Definition _norm_title (t : text) : text :=
  let t := lower t in
  let t := sub_each (fun c => negb (is_word c || is_space c)) t in
  let t := strip (collapse_ws t) in
  drop_article t.

(** A Python [set] of strings of which only membership and cardinality are
    used: a list without duplicates. *)
Definition dedup (l : list text) : list text := nodup (list_eq_dec ascii_dec) l.

Definition _token_set (t : text) : list text := dedup (split_ws (_norm_title t)).

(** [len(qs & cs)] and [len(qs | cs)] *)
Definition inter_size (qs cs : list text) : nat :=
  length (filter (fun w => mem_text w cs) qs).

Definition union_size (qs cs : list text) : nat :=
  length (dedup (qs ++ cs)).

(** Python truthiness of an [int | None] *)
Definition truthy_int (y : option Z) : bool :=
  match y with
  | Some v => negb (v =? 0)%Z
  | None => false
  end.

Definition _year_score (query_year cand_year : option Z) : Q :=
  match query_year, cand_year with
  | Some q, Some c =>
      if negb (truthy_int query_year) || negb (truthy_int cand_year) then 0
      else
        let diff := Z.abs (q - c) in
        if (diff =? 0)%Z then 0.25
        else if (diff <=? 1)%Z then 0.18
        else if (diff =? 2)%Z then 0.1
        else -0.1
  | _, _ => 0
  end.

Definition _sim_score (qtitle ctitle : text) (qyear cyear : option Z) (has_poster : bool) : Q :=
  let qs := _token_set qtitle in
  let cs := _token_set ctitle in
  let inter := inter_size qs cs in
  let union := Nat.max 1 (union_size qs cs) in
  let jacc := (Z.of_nat inter # Pos.of_nat union) in
  let y := _year_score qyear cyear in
  let poster_bonus := if has_poster then 0.05 else 0 in
  let colon_bonus :=
    if is_infix (remove_char ":" (_norm_title qtitle)) (remove_char ":" (_norm_title ctitle))
       || is_infix (remove_char ":" (_norm_title ctitle)) (remove_char ":" (_norm_title qtitle))
    then 0.08 else 0 in
  jacc + y + poster_bonus + colon_bonus.

(** ** The provider

    JSON objects of the provider are records of the fields the code reads; a
    field is [None] when the key is missing or [null].  A result object has
    at least one key, so that it is truthy.  A search response is
    [None] when the request fails, the credentials are missing or the
    document is empty, and otherwise the list under ["results"] (empty when
    that key is missing). *)

Record movie_result := {
  mr_id : option Z;
  mr_title : option text;
  mr_original_title : option text;
  mr_release_date : option text;
  mr_poster_path : option text;
  mr_overview : option text
}.

Record tv_result := {
  tr_id : option Z;
  tr_name : option text;
  tr_original_name : option text;
  tr_first_air_date : option text;
  tr_poster_path : option text;
  tr_overview : option text
}.

(** [x or d] for an optional string: the empty string is falsy *)
Definition text_or (x : option text) (d : text) : text :=
  match x with
  | Some (c :: s) => c :: s
  | _ => d
  end.

Definition truthy_text (x : option text) : bool :=
  match x with
  | Some (_ :: _) => true
  | _ => false
  end.

(** [int(d[:4]) if d[:4].isdigit() else None] *)
Definition year_prefix (d : text) : option Z :=
  let p := firstn 4 d in
  match p with
  | [] => None
  | _ :: _ => if forallb is_digit p then Some (int_of_digits p) else None
  end.

(** [sc > best_score] *)
Definition Qgtb (a b : Q) : bool := negb (Qle_bool a b).

Definition movie_score (query_title : text) (query_year : option Z) (r : movie_result) : Q :=
  let cand_title := text_or (mr_title r) (text_or (mr_original_title r) []) in
  let release_date := text_or (mr_release_date r) [] in
  let cyear := year_prefix release_date in
  let poster := truthy_text (mr_poster_path r) in
  _sim_score query_title cand_title query_year cyear poster.

Definition tv_score (query_title : text) (r : tv_result) : Q :=
  let cand_title := text_or (tr_name r) (text_or (tr_original_name r) []) in
  let first_air := text_or (tr_first_air_date r) [] in
  let cyear := year_prefix first_air in
  let poster := truthy_text (tr_poster_path r) in
  _sim_score query_title cand_title None cyear poster.

(** The loop shared by both pickers: [best, best_score] start as
    [None, -1] and are replaced by every strictly better candidate. *)
Section Pick.
Context {R : Type} (score : R -> Q).

Definition pick_step (acc : option R * Q) (r : R) : option R * Q :=
  let sc := score r in
  if Qgtb sc (snd acc) then (Some r, sc) else acc.

Definition pick_loop (results : list R) : option R * Q :=
  fold_left pick_step (firstn 10 results) (None, -1).
End Pick.

Definition _pick_best_movie (result_json : option (list movie_result))
    (query_title : text) (query_year : option Z) : option movie_result :=
  match result_json with
  | None => None
  | Some results => fst (pick_loop (movie_score query_title query_year) results)
  end.

Definition _pick_best_tv (result_json : option (list tv_result)) (query_title : text)
  : option tv_result :=
  match result_json with
  | None => None
  | Some results => fst (pick_loop (tv_score query_title) results)
  end.

(** One request to the movie search endpoint: the query text and the
    [year] parameter, present only when a year constrains the search. *)
Record search_query := {
  sq_title : text;
  sq_year : option Z
}.

Record movie_details := {
  md_genres : list text;               (* the "name" of every genre, empty when missing *)
  md_runtime : option Z;
  md_vote_average : option Q;
  md_tagline : option text;
  md_backdrop_path : option text;
  md_release_dates : list (text * list text);
                                       (* per country code, its certifications *)
  md_cast : list text                  (* the "name" of every cast member *)
}.

Record tv_details := {
  td_genres : list text;
  td_vote_average : option Q;
  td_tagline : option text;
  td_backdrop_path : option text;
  td_first_air_date : option text;
  td_cast : list text
}.

(** The provider as the pipeline sees it.  [p_try_tv_variants] stands for
    the whole of [try_tv_variants(title)], the variant search of a show. *)
Record provider := {
  p_search_movie : search_query -> option (list movie_result);
  p_movie_details : Z -> option movie_details;
  p_try_tv_variants : text -> option tv_result;
  p_tv_details : Z -> option tv_details
}.

(** [tmdb_search_movie]: [params["year"]] is set only [if year] *)
Definition tmdb_search_query (title : text) (year : option Z) : search_query :=
  {| sq_title := title; sq_year := if truthy_int year then year else None |}.

Definition tmdb_search_movie (prov : provider) (title : text) (year : option Z)
  : option (list movie_result) :=
  p_search_movie prov (tmdb_search_query title year).

(** ** Query variants: [try_search_variants] *)

(** [\b(19\d{2}|20\d{2})\b] at the head of [s], [prev] before it *)
Definition year_token_at (prev : option ascii) (s : text) : bool :=
  word_boundary prev (hd_error s)
  && match year_at s with Some _ => true | None => false end
  && word_boundary (nth_error s 3) (nth_error s 4).

(** [re.sub(r"\b(19\d{2}|20\d{2})\b", "", s)]; [skip] counts the characters
    of a match still to be dropped. *)
Fixpoint strip_year_tokens_from (skip : nat) (prev : option ascii) (s : text) : text :=
  match s with
  | [] => []
  | c :: s' =>
      match skip with
      | S k => strip_year_tokens_from k (Some c) s'
      | O =>
          if year_token_at prev s then strip_year_tokens_from 3 (Some c) s'
          else c :: strip_year_tokens_from 0 (Some c) s'
      end
  end.

Definition strip_year_tokens (s : text) : text := strip_year_tokens_from 0 None s.

Definition title_variants (title : text) (force_yearless : bool) : list text :=
  let t_base :=
    if force_yearless then strip (collapse_ws (strip_year_tokens title)) else title in
  let variants :=
    [ t_base;
      sub_runs (one_of (txt "._")) t_base;
      strip (sub_each (fun c => negb (is_word c || is_space c || Ascii.eqb c ":")) t_base) ] in
  if force_yearless && negb (one_of t_base ":") then
    match split_ws (collapse_ws t_base) with
    | [w0; w1] => variants ++ [w0 ++ txt ": " ++ w1]
    | w0 :: w1 :: rest => variants ++ [w0 ++ " " :: w1 ++ txt ": " ++ join_sp rest]
    | _ => variants
    end
  else variants.

(** The state of one [try_search_variants] call: the [seen] set of
    attempted keys and, for the properties below, the requests sent so far
    (oldest first). *)
Record attempts := {
  seen : list text;
  sent : list search_query
}.

Definition attempt_key (qtitle : text) (y : option Z) : text :=
  lower qtitle ++ "|" :: str_of_year y.

Definition attempt (prov : provider) (force_yearless : bool) (st : attempts)
    (qtitle : text) (y : option Z) : option (movie_result * text) * attempts :=
  let key := attempt_key qtitle y in
  match qtitle with
  | [] => (None, st)
  | _ :: _ =>
      if mem_text key (seen st) then (None, st)
      else
        let use_year := if force_yearless then None else y in
        let st' := {| seen := key :: seen st;
                      sent := sent st ++ [tmdb_search_query qtitle use_year] |} in
        let data := tmdb_search_movie prov qtitle use_year in
        match data with
        | Some (_ :: _) =>
            match _pick_best_movie data qtitle use_year with
            | Some best => (Some (best, qtitle), st')
            | None => (None, st')
            end
        | _ => (None, st')
        end
  end.

(** a sequence of attempts that returns at the first one that succeeds *)
Fixpoint attempt_each (prov : provider) (force_yearless : bool) (st : attempts)
    (qs : list (text * option Z)) : option (movie_result * text) * attempts :=
  match qs with
  | [] => (None, st)
  | (t, y) :: qs' =>
      match attempt prov force_yearless st t y with
      | (Some res, st') => (Some res, st')
      | (None, st') => attempt_each prov force_yearless st' qs'
      end
  end.

(** the attempts of [try_search_variants] in the order the nested loops make
    them, ending with the colon-free fallback *)
Definition attempt_schedule (title : text) (year : option Z) (force_yearless : bool)
  : list (text * option Z) :=
  let variants := title_variants title force_yearless in
  let t0 := strip (collapse_ws (replace_char ":" " " (hd [] variants))) in
  if force_yearless then
    map (fun t => (t, None)) variants ++ [(t0, None)]
  else
    let year_sweep :=
      match year with
      | Some y => if truthy_int year
                  then [y; y - 1; y + 1; y - 2; y + 2]%Z else []
      | None => []
      end in
    flat_map (fun y => map (fun t => (t, Some y)) variants) year_sweep
    ++ map (fun t => (t, None)) variants
    ++ [(t0, None)].

Definition try_search_variants (prov : provider) (title : text) (year : option Z)
    (force_yearless : bool) : option (movie_result * text) * attempts :=
  attempt_each prov force_yearless {| seen := []; sent := [] |}
    (attempt_schedule title year force_yearless).

(** ** Enrichment of movie-like entries: [enrich_movies] *)

(** One record of [tmdb_movie_cache.json].  A list field that is missing or
    [null] reads as the empty list (both are falsy and are written back as
    [[]]); a string field that is missing reads as the empty string. *)
Record movie_entry := {
  me_movie_id : option Z;
  me_poster_url : text;
  me_overview : text;
  me_genres : list text;
  me_runtime : option Z;
  me_vote : option Q;
  me_certification : option text;
  me_cast : list text;
  me_backdrop_url : text;
  me_tagline : text
}.

(** [cache.get(key, {}) or {}] read field by field *)
Definition no_movie_entry : movie_entry :=
  {| me_movie_id := None; me_poster_url := []; me_overview := []; me_genres := [];
     me_runtime := None; me_vote := None; me_certification := None; me_cast := [];
     me_backdrop_url := []; me_tagline := [] |}.

Definition is_some {A : Type} (x : option A) : bool :=
  match x with Some _ => true | None => false end.

Definition nonempty {A : Type} (l : list A) : bool :=
  match l with [] => false | _ :: _ => true end.

Definition TMDB_IMG_BASE : text := txt "https://image.tmdb.org/t/p".
Definition POSTER_SIZE : text := txt "w342".
Definition BACKDROP_SIZE : text := txt "w1280".

Definition image_url (size path : text) : text := TMDB_IMG_BASE ++ "/" :: size ++ path.

(** the names kept by [[g.get("name") for g in ... if g.get("name")]] *)
Definition names_of (l : list text) : list text := filter (@nonempty ascii) l.

Fixpoint first_certification (rels : list text) : option text :=
  match rels with
  | [] => None
  | r :: rs =>
      match strip r with
      | [] => first_certification rs
      | c :: cert => Some (c :: cert)
      end
  end.

Fixpoint extract_cert_from_movie_release_dates (results : list (text * list text))
  : option text :=
  match results with
  | [] => None
  | (iso, rels) :: rest =>
      if text_eqb iso (txt "US") then
        match first_certification rels with
        | Some cert => Some cert
        | None => extract_cert_from_movie_release_dates rest
        end
      else extract_cert_from_movie_release_dates rest
  end.

Definition need_details_movie (c : movie_entry) : bool :=
  negb (nonempty (me_genres c) && is_some (me_runtime c) && is_some (me_vote c)
        && is_some (me_certification c) && nonempty (me_cast c)).

Definition needs_search_movie (c : movie_entry) : bool :=
  negb (truthy_int (me_movie_id c)) || need_details_movie c
  || negb (nonempty (me_poster_url c)) || negb (nonempty (me_overview c)).

(** the assignments under [if best:] *)
Definition merge_best_movie (c : movie_entry) (best : option movie_result) : movie_entry :=
  match best with
  | None => c
  | Some b =>
      {| me_movie_id := if truthy_int (mr_id b) then mr_id b else me_movie_id c;
         me_poster_url :=
           match mr_poster_path b with
           | Some (ch :: pp) => image_url POSTER_SIZE (ch :: pp)
           | _ => me_poster_url c
           end;
         me_overview := strip (text_or (mr_overview b) (me_overview c));
         me_genres := me_genres c; me_runtime := me_runtime c; me_vote := me_vote c;
         me_certification := me_certification c; me_cast := me_cast c;
         me_backdrop_url := me_backdrop_url c; me_tagline := me_tagline c |}
  end.

(** the assignments under [if det:] *)
Definition merge_details_movie (c : movie_entry) (det : movie_details) : movie_entry :=
  {| me_movie_id := me_movie_id c;
     me_poster_url := me_poster_url c;
     me_overview := me_overview c;
     me_genres := if nonempty (me_genres c) then me_genres c else names_of (md_genres det);
     me_runtime := match me_runtime c with None => md_runtime det | Some r => Some r end;
     me_vote := match me_vote c with None => md_vote_average det | Some v => Some v end;
     me_certification :=
       if truthy_text (me_certification c) then me_certification c
       else extract_cert_from_movie_release_dates (md_release_dates det);
     me_cast := if nonempty (me_cast c) then me_cast c
                else firstn 5 (names_of (md_cast det));
     me_backdrop_url :=
       match md_backdrop_path det with
       | Some (ch :: bp) =>
           if nonempty (me_backdrop_url c) then me_backdrop_url c
           else image_url BACKDROP_SIZE (ch :: bp)
       | _ => me_backdrop_url c
       end;
     me_tagline := strip (text_or (md_tagline det) (me_tagline c)) |}.

Definition needs_details_fetch_movie (need_details : bool) (c : movie_entry) : bool :=
  truthy_int (me_movie_id c)
  && (need_details || negb (nonempty (me_backdrop_url c)) || negb (nonempty (me_tagline c))).

Definition fetch_details_movie (prov : provider) (need_details : bool) (c : movie_entry)
  : movie_entry :=
  if needs_details_fetch_movie need_details c then
    match me_movie_id c with
    | Some mid =>
        match p_movie_details prov mid with
        | Some det => merge_details_movie c det
        | None => c
        end
    | None => c
    end
  else c.

Record catalog_item := {
  ci_id : text;
  ci_title : text;
  ci_year : option Z;
  ci_source : text;
  ci_archived : bool
}.

(** The body of the loop of [enrich_movies] up to the cache write, for the
    cached record [c] of the item: the new record and the requests sent to
    the search endpoint.  The call is [try_search_variants(title, year)]:
    [force_yearless] keeps its default [False]. *)
Definition enrich_movie_entry (prov : provider) (item : catalog_item) (c : movie_entry)
  : movie_entry * list search_query :=
  let need_details := need_details_movie c in
  let '(best, requests) :=
    if needs_search_movie c then
      let '(res, st) := try_search_variants prov (ci_title item) (ci_year item) false in
      (option_map fst res, sent st)
    else (None, []) in
  let c1 := merge_best_movie c best in
  (fetch_details_movie prov need_details c1, requests).

Definition movie_cache := list (text * movie_entry).

(** [f"{item['title']}|{item['year']}"] *)
Definition movie_key (item : catalog_item) : text :=
  ci_title item ++ "|" :: str_of_year (ci_year item).

Definition cached_movie (cache : movie_cache) (key : text) : movie_entry :=
  match dict_get text_eqb cache key with
  | Some c => c
  | None => no_movie_entry
  end.

(** [enrich_movies]: the cache as [save_cache] leaves it on disk after the
    last item (every write is taken to succeed), and the search requests
    sent, in order. *)
Fixpoint enrich_movies (prov : provider) (items : list catalog_item) (cache : movie_cache)
  : movie_cache * list search_query :=
  match items with
  | [] => (cache, [])
  | item :: items' =>
      let key := movie_key item in
      let '(c, requests) := enrich_movie_entry prov item (cached_movie cache key) in
      let '(cache', requests') := enrich_movies prov items' (dict_set text_eqb cache key c) in
      (cache', requests ++ requests')
  end.

(** ** Discovery of movie-like categories and the passes of [build_site] *)

Inductive entry_kind := IsDir | IsFile | IsOther.

Definition OUTPUT_DIR_NAME : text := txt "_cinema_site".
Definition ARCHIVED_DIR_NAME : text := txt "0-ARCHIVED".
Definition EXCLUDED_DIRS : list text := [OUTPUT_DIR_NAME].

(** [os.path.splitext(name)[0]] for a directory entry *)
Definition splitext_base (name : text) : text :=
  firstn (length name - length (splitext_ext name)) name.

(** [discover_video_pool] over the sorted listing of [base_dir], each entry
    with its kind; paths, sizes and times of the items are not modelled. *)
Fixpoint discover_video_pool (listing : list (text * entry_kind)) (archived : bool)
    (start_id : Z) (skip_archived_folder_in_root : bool) (id_prefix : text)
  : list catalog_item * Z :=
  match listing with
  | [] => ([], start_id)
  | (entry, kind) :: rest =>
      let skip := discover_video_pool rest archived start_id
                    skip_archived_folder_in_root id_prefix in
      let take (name : text) :=
        let '(title, year) := parse_title_year_from_folder name in
        let '(items, i) := discover_video_pool rest archived (start_id + 1)
                             skip_archived_folder_in_root id_prefix in
        ({| ci_id := id_prefix ++ str_of_int start_id; ci_title := title; ci_year := year;
            ci_source := entry; ci_archived := archived |} :: items, i) in
      if starts_with (txt ".") entry || mem_text entry EXCLUDED_DIRS then skip
      else if skip_archived_folder_in_root && text_eqb entry ARCHIVED_DIR_NAME then skip
      else
        match kind with
        | IsDir => take entry
        | IsFile =>
            if mem_text (lower (splitext_ext entry)) VIDEO_EXTS
            then take (splitext_base entry) else skip
        | IsOther => skip
        end
  end.

(** [discover_category]: the listing of the root and of its archive folder
    (empty when there is none) *)
Definition discover_category (root_listing archived_listing : list (text * entry_kind))
    (id_prefix : text) : list catalog_item :=
  let '(items, next_id) := discover_video_pool root_listing false 1 true id_prefix in
  let '(arch_items, _) := discover_video_pool archived_listing true next_id false id_prefix in
  items ++ arch_items.

Inductive category := Movies | Standup | Docs.

Definition id_prefix_of (cat : category) : text :=
  match cat with
  | Movies => txt "m"
  | Standup => txt "s"
  | Docs => txt "d"
  end.

(** One of the three movie-like passes of [build_site]:
    [items = discover_category(root, id_prefix); enrich_movies(items, site_dir)].
    All three use the same cache file under the movies site directory. *)
Definition enrich_category (prov : provider) (cat : category)
    (root_listing archived_listing : list (text * entry_kind)) (cache : movie_cache)
  : movie_cache * list search_query :=
  enrich_movies prov (discover_category root_listing archived_listing (id_prefix_of cat)) cache.


(** ** Enrichment of shows: [enrich_shows] *)

Record tv_entry := {
  te_tv_id : option Z;
  te_poster_url : text;
  te_overview : text;
  te_genres : list text;
  te_vote : option Q;
  te_first_year : option Z;
  te_cast : list text;
  te_backdrop_url : text;
  te_tagline : text
}.

Definition no_tv_entry : tv_entry :=
  {| te_tv_id := None; te_poster_url := []; te_overview := []; te_genres := [];
     te_vote := None; te_first_year := None; te_cast := [];
     te_backdrop_url := []; te_tagline := [] |}.

(** the text before the first ["-"], [date_str.split("-")[0]] *)
Fixpoint before_dash (s : text) : text :=
  match s with
  | [] => []
  | c :: s' => if Ascii.eqb c "-" then [] else c :: before_dash s'
  end.

(** [first_air_year_from]: [int] of the text before the first dash, [None]
    when that fails.  Provider dates are plain digits there; the other
    spellings [int] accepts (sign, blanks, underscores) are not modelled. *)
Definition first_air_year_from (date_str : option text) : option Z :=
  match date_str with
  | Some (c :: s) =>
      let p := before_dash (c :: s) in
      if nonempty p && forallb is_digit p then Some (int_of_digits p) else None
  | _ => None
  end.

Definition need_details_tv (c : tv_entry) : bool :=
  negb (nonempty (te_genres c) && is_some (te_vote c) && is_some (te_first_year c)
        && nonempty (te_cast c)).

Definition needs_search_tv (c : tv_entry) : bool :=
  negb (truthy_int (te_tv_id c)) || need_details_tv c
  || negb (nonempty (te_poster_url c)) || negb (nonempty (te_overview c)).

Definition merge_best_tv (c : tv_entry) (best : option tv_result) : tv_entry :=
  match best with
  | None => c
  | Some b =>
      {| te_tv_id := if truthy_int (tr_id b) then tr_id b else te_tv_id c;
         te_poster_url :=
           match tr_poster_path b with
           | Some (ch :: pp) => image_url POSTER_SIZE (ch :: pp)
           | _ => te_poster_url c
           end;
         te_overview := strip (text_or (tr_overview b) (te_overview c));
         te_genres := te_genres c; te_vote := te_vote c;
         te_first_year := first_air_year_from (tr_first_air_date b);
         te_cast := te_cast c; te_backdrop_url := te_backdrop_url c;
         te_tagline := te_tagline c |}
  end.

Definition merge_details_tv (c : tv_entry) (det : tv_details) : tv_entry :=
  {| te_tv_id := te_tv_id c;
     te_poster_url := te_poster_url c;
     te_overview := te_overview c;
     te_genres := if nonempty (te_genres c) then te_genres c else names_of (td_genres det);
     te_vote := match te_vote c with None => td_vote_average det | Some v => Some v end;
     te_first_year :=
       if truthy_int (te_first_year c) then te_first_year c
       else first_air_year_from (td_first_air_date det);
     te_cast := if nonempty (te_cast c) then te_cast c
                else firstn 5 (names_of (td_cast det));
     te_backdrop_url :=
       match td_backdrop_path det with
       | Some (ch :: bp) =>
           if nonempty (te_backdrop_url c) then te_backdrop_url c
           else image_url BACKDROP_SIZE (ch :: bp)
       | _ => te_backdrop_url c
       end;
     te_tagline := strip (text_or (td_tagline det) (te_tagline c)) |}.

Definition fetch_details_tv (prov : provider) (need_details : bool) (c : tv_entry) : tv_entry :=
  if truthy_int (te_tv_id c)
     && (need_details || negb (nonempty (te_backdrop_url c)) || negb (nonempty (te_tagline c)))
  then
    match te_tv_id c with
    | Some tvid =>
        match p_tv_details prov tvid with
        | Some det => merge_details_tv c det
        | None => c
        end
    | None => c
    end
  else c.

(** the body of the loop of [enrich_shows] up to the cache write *)
Definition enrich_tv_entry (prov : provider) (title : text) (c : tv_entry) : tv_entry :=
  let need_details := need_details_tv c in
  let best := if needs_search_tv c then p_try_tv_variants prov title else None in
  fetch_details_tv prov need_details (merge_best_tv c best).

Definition tv_cache := list (text * tv_entry).

Definition cached_tv (cache : tv_cache) (key : text) : tv_entry :=
  match dict_get text_eqb cache key with
  | Some c => c
  | None => no_tv_entry
  end.

(** [enrich_shows] on the titles of [shows_list]: the cache it leaves *)
Fixpoint enrich_shows (prov : provider) (titles : list text) (cache : tv_cache) : tv_cache :=
  match titles with
  | [] => cache
  | title :: titles' =>
      let key := lower title in
      enrich_shows prov titles'
        (dict_set text_eqb cache key (enrich_tv_entry prov title (cached_tv cache key)))
  end.

(** ** Playback: [do_GET], [launch_and_render], [launch_episode], [_launch] *)

(** What the handler is configured with and reads while it serves one
    request: the library roots, the JSON documents of the site directory as
    [load_cache] returns them, the file system, and whether [Popen] starts
    the process (it raises otherwise, which [_launch] swallows). *)
Record server := {
  sv_movies_root : text;
  sv_shows_root : text;
  sv_standup_root : text;
  sv_docs_root : text;
  sv_json : text -> list (text * text);
  sv_fs : filesystem;
  sv_popen_ok : list text -> bool
}.

Definition PREFER_VLC : bool := true.

Definition Popen (sv : server) (cmd : list text) : list (list text) :=
  if sv_popen_ok sv cmd then [cmd] else [].

(** [_launch]: the processes it starts *)
Definition _launch (sv : server) (filepath base_root : text) : list (list text) :=
  match fs_realpath (sv_fs sv) filepath, fs_realpath (sv_fs sv) base_root with
  | Some rp, Some base =>
      if negb (starts_with base rp) then []
      else if PREFER_VLC && fs_isdir (sv_fs sv) (txt "/Applications/VLC.app")
      then Popen sv [txt "open"; txt "-a"; txt "VLC"; filepath]
      else Popen sv [txt "open"; filepath]
  | _, _ => []
  end.

Definition root_of (sv : server) (cat : category) : text :=
  match cat with
  | Movies => sv_movies_root sv
  | Standup => sv_standup_root sv
  | Docs => sv_docs_root sv
  end.

Definition index_json_of (cat : category) : text :=
  match cat with
  | Movies => txt "movies_index.json"
  | Standup => txt "standup_index.json"
  | Docs => txt "docs_index.json"
  end.

(** [mapping.get(mid, "")] *)
Definition index_path (sv : server) (idx_json mid : text) : text :=
  match dict_get text_eqb (sv_json sv idx_json) mid with
  | Some p => p
  | None => []
  end.

(** [launch_and_render]: the processes started before the page is rendered;
    [mid] is the [id] parameter of the request *)
Definition launch_and_render (sv : server) (cat : category) (mid : text) : list (list text) :=
  let filepath := index_path sv (index_json_of cat) mid in
  if nonempty filepath && fs_isfile (sv_fs sv) filepath
  then _launch sv filepath (root_of sv cat)
  else [].

Definition launch_episode (sv : server) (eid : text) : list (list text) :=
  let filepath := index_path sv (txt "episodes_index.json") eid in
  if nonempty filepath && fs_isfile (sv_fs sv) filepath
  then _launch sv filepath (sv_shows_root sv)
  else [].

(** [do_GET] for the request path [p] whose [id] query parameter is [qid]:
    the processes started while the request is handled.  Pages and static
    files start none. *)
Definition do_GET (sv : server) (p qid : text) : list (list text) :=
  let starts (s : text) := starts_with s p in
  if text_eqb p (txt "/movies") || starts (txt "/movies?") then []
  else if text_eqb p (txt "/shows") || starts (txt "/shows?") then []
  else if text_eqb p (txt "/standup") || starts (txt "/standup?") then []
  else if text_eqb p (txt "/documentary") || starts (txt "/documentary?") then []
  else if starts (txt "/movie") then []
  else if starts (txt "/standup_item") then []
  else if starts (txt "/doc_item") then []
  else if starts (txt "/play_movie?id=") then launch_and_render sv Movies qid
  else if starts (txt "/play_standup?id=") then launch_and_render sv Standup qid
  else if starts (txt "/play_doc?id=") then launch_and_render sv Docs qid
  else if starts (txt "/show") then []
  else if starts (txt "/play_ep") then launch_episode sv qid
  else [].

(** * Vocabulary of the properties *)

(** ** Playback *)

(** The index document and library root a playback route resolves through. *)
Inductive play_route (sv : server) (p : text) : text -> text -> Prop :=
| route_movie :
    starts_with (txt "/play_movie?id=") p = true ->
    play_route sv p (txt "movies_index.json") (sv_movies_root sv)
| route_standup :
    starts_with (txt "/play_standup?id=") p = true ->
    play_route sv p (txt "standup_index.json") (sv_standup_root sv)
| route_doc :
    starts_with (txt "/play_doc?id=") p = true ->
    play_route sv p (txt "docs_index.json") (sv_docs_root sv)
| route_episode :
    starts_with (txt "/play_ep") p = true ->
    play_route sv p (txt "episodes_index.json") (sv_shows_root sv).

(** the guard a started process has passed *)
Definition guarded (sv : server) (idx_json root qid : text) : Prop :=
  exists filepath rp base suffix,
    dict_get text_eqb (sv_json sv idx_json) qid = Some filepath
    /\ filepath <> []
    /\ fs_isfile (sv_fs sv) filepath = true
    /\ fs_realpath (sv_fs sv) filepath = Some rp
    /\ fs_realpath (sv_fs sv) root = Some base
    /\ rp = base ++ suffix.

(** a server with one movie in its index, the file inside the movies root *)
Definition demo_server : server :=
  {| sv_movies_root := txt "/lib/movies";
     sv_shows_root := txt "/lib/shows";
     sv_standup_root := txt "/lib/standup";
     sv_docs_root := txt "/lib/docs";
     sv_json := fun name =>
       if text_eqb name (txt "movies_index.json")
       then [(txt "m1", txt "/lib/movies/A (2019)/a.mkv")] else [];
     sv_fs := {| fs_size := fun _ => 1%Z; fs_mtime := fun _ => 0%Z;
                 fs_isfile := fun p => text_eqb p (txt "/lib/movies/A (2019)/a.mkv");
                 fs_isdir := fun _ => false;
                 fs_realpath := fun p => Some p |};
     sv_popen_ok := fun _ => true |}.

(** ** Episodes *)

Definition find_episode (meta : show_meta) (sn en : Z) : option episode_item :=
  find (fun it => (it_e it =? en)%Z) (season_list (sm_seasons meta) sn).

(** within every season the episode numbers are pairwise different *)
Definition unique_episodes (meta : show_meta) : Prop :=
  forall sn, NoDup (map it_e (season_list (sm_seasons meta) sn)).

(** a file system in which every file has its path length as size *)
Definition demo_fs : filesystem :=
  {| fs_size := fun p => Z.of_nat (length p); fs_mtime := fun _ => 0%Z;
     fs_isfile := fun _ => true; fs_isdir := fun _ => true;
     fs_realpath := fun p => Some p |}.

Definition no_episodes : show_meta := {| sm_title := txt "Show Name"; sm_seasons := [] |}.

(** ** Candidate selection *)

(** [r], at position [i] of [cands], has the highest score of [cands] and
    is the earliest candidate that has it. *)
Definition first_best {R : Type} (score : R -> Q) (cands : list R) (i : nat) (r : R) : Prop :=
  nth_error cands i = Some r
  /\ (forall j r', nth_error cands j = Some r' -> score r' <= score r)
  /\ (forall j r', (j < i)%nat -> nth_error cands j = Some r' -> score r' < score r).

Definition movie_titled (title date : string) (poster : bool) : movie_result :=
  {| mr_id := Some 1%Z; mr_title := Some (txt title); mr_original_title := None;
     mr_release_date := Some (txt date);
     mr_poster_path := if poster then Some (txt "/p.jpg") else None;
     mr_overview := None |}.

(** the provider answers the request with at least one result *)
Definition has_results (prov : provider) (q : search_query) : bool :=
  match p_search_movie prov q with
  | Some (_ :: _) => true
  | _ => false
  end.

(** What [try_search_variants] returned, given the requests it sent: either
    no request was answered with results and nothing is returned, or the
    last request is the first one answered with results and the pick among
    its results is returned with the query text of that request. *)
Definition first_answer_accepted (prov : provider) (requests : list search_query)
    (res : option (movie_result * text)) : Prop :=
  match res with
  | None => Forall (fun q => has_results prov q = false) requests
  | Some (best, used_title) =>
      exists earlier y,
        requests = earlier ++ [tmdb_search_query used_title y]
        /\ Forall (fun q => has_results prov q = false) earlier
        /\ has_results prov (tmdb_search_query used_title y) = true
        /\ _pick_best_movie (p_search_movie prov (tmdb_search_query used_title y))
             used_title y = Some best
  end.

(** the candidates of the specification's scenario *)
Definition demo_results : list movie_result :=
  [ movie_titled "The Movie" "2019-03-01" false;
    movie_titled "The Movie Part 2" "2019-05-01" false ].

(** a provider that answers only the query "The Movie" without a year *)
Definition demo_provider : provider :=
  {| p_search_movie := fun q =>
       if text_eqb (sq_title q) (txt "The Movie") && negb (is_some (sq_year q))
       then Some demo_results else Some [];
     p_movie_details := fun _ => None;
     p_try_tv_variants := fun _ => None;
     p_tv_details := fun _ => None |}.

(** ** The similarity score as the specification words it *)

Definition text_dec : forall a b : text, {a = b} + {a <> b} := list_eq_dec ascii_dec.

(** the Jaccard index of two finite sets of words, as lists without
    duplicates; the index of two empty sets is 0 *)
Definition jaccard (a b : list text) : Q :=
  inject_Z (Z.of_nat (length (ListSet.set_inter text_dec a b)))
  / inject_Z (Z.of_nat (length (ListSet.set_union text_dec a b))).

Definition is_punctuation (c : ascii) : bool := negb (is_word c || is_space c).

Definition is_article (w : text) : bool := mem_text w [txt "the"; txt "a"; txt "an"].

(** a leading article is dropped when words follow it *)
Definition without_leading_article (ws : list text) : list text :=
  match ws with
  | w :: (_ :: _) as rest => if is_article w then rest else ws
  | _ => ws
  end.

(** the words of the lower-cased title, punctuation read as blanks, without
    one leading article; as a set *)
Definition token_set (title : text) : list text :=
  dedup (without_leading_article
           (split_ws (map (fun c => if is_punctuation c then " " else c) (lower title)))).

(** [a] occurs in [b] as a contiguous piece *)
Definition substring (a b : text) : Prop := exists pre post, b = pre ++ a ++ post.

(** the normalised title without colons *)
Definition colon_stripped (title : text) : text := remove_char ":" (_norm_title title).

Definition colon_variant (qtitle ctitle : text) : Prop :=
  substring (colon_stripped qtitle) (colon_stripped ctitle)
  \/ substring (colon_stripped ctitle) (colon_stripped qtitle).

(** the year term as the specification states it: by the distance of the
    two years, and 0 when either is absent *)
Definition year_term_as_stated (qyear cyear : option Z) : Q :=
  match qyear, cyear with
  | Some q, Some c =>
      let d := Z.abs (q - c) in
      if (d =? 0)%Z then 0.25
      else if (d =? 1)%Z then 0.18
      else if (d =? 2)%Z then 0.1
      else -0.1
  | _, _ => 0
  end.

(** the year term of the code: a year of 0 counts as absent *)
Definition year_term (qyear cyear : option Z) : Q :=
  match qyear, cyear with
  | Some q, Some c =>
      if (q =? 0)%Z || (c =? 0)%Z then 0 else year_term_as_stated qyear cyear
  | _, _ => 0
  end.

Definition poster_bonus (has_poster : bool) : Q := if has_poster then 0.05 else 0.

Definition colon_variant_bonus (qtitle ctitle : text) : Q :=
  if is_infix (colon_stripped qtitle) (colon_stripped ctitle)
     || is_infix (colon_stripped ctitle) (colon_stripped qtitle)
  then 0.08 else 0.

Definition score_as_stated (qtitle ctitle : text) (qyear cyear : option Z) (has_poster : bool) : Q :=
  jaccard (token_set qtitle) (token_set ctitle)
  + year_term_as_stated qyear cyear + poster_bonus has_poster
  + colon_variant_bonus qtitle ctitle.

(** ** Enrichment *)

(** a record that carries everything except a certification, as for a film
    without a US rating, with a stale overview *)
Definition stale_entry : movie_entry :=
  {| me_movie_id := Some 11%Z;
     me_poster_url := image_url POSTER_SIZE (txt "/old.jpg");
     me_overview := txt "An old overview.";
     me_genres := [txt "Drama"]; me_runtime := Some 100%Z; me_vote := Some 7.5;
     me_certification := None; me_cast := [txt "A. Actor"];
     me_backdrop_url := image_url BACKDROP_SIZE (txt "/b.jpg");
     me_tagline := txt "A tagline." |}.

(** a provider whose search now returns another id, poster and overview *)
Definition fresh_provider : provider :=
  {| p_search_movie := fun _ =>
       Some [ {| mr_id := Some 12%Z; mr_title := Some (txt "The Movie");
                 mr_original_title := None; mr_release_date := Some (txt "2019-03-01");
                 mr_poster_path := Some (txt "/new.jpg");
                 mr_overview := Some (txt "A new overview.") |} ];
     p_movie_details := fun _ => None;
     p_try_tv_variants := fun _ => None;
     p_tv_details := fun _ => None |}.

Definition the_movie : catalog_item :=
  {| ci_id := txt "m1"; ci_title := txt "The Movie"; ci_year := Some 2019%Z;
     ci_source := txt "The.Movie.2019.1080p.BluRay.x264-GROUP"; ci_archived := false |}.

(** a complete show record that lacks only its overview, and a provider
    whose match for the show carries no first-air date *)
Definition dated_show : tv_entry :=
  {| te_tv_id := Some 7%Z; te_poster_url := image_url POSTER_SIZE (txt "/s.jpg");
     te_overview := []; te_genres := [txt "Drama"]; te_vote := Some 8.1;
     te_first_year := Some 2008%Z; te_cast := [txt "A. Actor"];
     te_backdrop_url := image_url BACKDROP_SIZE (txt "/b.jpg");
     te_tagline := txt "A tagline." |}.

Definition undated_provider : provider :=
  {| p_search_movie := fun _ => None;
     p_movie_details := fun _ => None;
     p_try_tv_variants := fun _ =>
       Some {| tr_id := Some 7%Z; tr_name := Some (txt "Show Name");
               tr_original_name := None; tr_first_air_date := None;
               tr_poster_path := None; tr_overview := None |};
     p_tv_details := fun _ => None |}.

(** a provider without any match *)
Definition silent_provider : provider :=
  {| p_search_movie := fun _ => Some [];
     p_movie_details := fun _ => None;
     p_try_tv_variants := fun _ => None;
     p_tv_details := fun _ => None |}.


(** the fields whose merge never changes a value that is set *)
Definition details_kept_movie (c c' : movie_entry) : Prop :=
  (me_genres c <> [] -> me_genres c' = me_genres c)
  /\ (me_runtime c <> None -> me_runtime c' = me_runtime c)
  /\ (me_vote c <> None -> me_vote c' = me_vote c)
  /\ (truthy_text (me_certification c) = true -> me_certification c' = me_certification c)
  /\ (me_cast c <> [] -> me_cast c' = me_cast c)
  /\ (me_backdrop_url c <> [] -> me_backdrop_url c' = me_backdrop_url c).

(** the fields that a merge may replace, but never by an empty value *)
Definition identity_not_emptied_movie (c c' : movie_entry) : Prop :=
  (truthy_int (me_movie_id c) = true -> truthy_int (me_movie_id c') = true)
  /\ (me_poster_url c <> [] -> me_poster_url c' <> []).

Definition details_kept_tv (c c' : tv_entry) : Prop :=
  (te_genres c <> [] -> te_genres c' = te_genres c)
  /\ (te_vote c <> None -> te_vote c' = te_vote c)
  /\ (te_cast c <> [] -> te_cast c' = te_cast c)
  /\ (te_backdrop_url c <> [] -> te_backdrop_url c' = te_backdrop_url c).

Definition identity_not_emptied_tv (c c' : tv_entry) : Prop :=
  (truthy_int (te_tv_id c) = true -> truthy_int (te_tv_id c') = true)
  /\ (te_poster_url c <> [] -> te_poster_url c' <> []).

(** the cache the pipeline writes never holds an empty certification: it
    stores [None] or a stripped non-empty string *)
Definition entry_wf (c : movie_entry) : Prop := me_certification c <> Some [].

Definition cache_wf (cache : movie_cache) : Prop :=
  forall key c, dict_get text_eqb cache key = Some c -> entry_wf c.

(** ** Movie-like identity *)

(** every character of [seps] read as a blank *)
Definition separators_as_blanks (seps : text) (s : text) : text :=
  map (fun c => if one_of seps c then " " else c) s.

(** the words of a text joined by single blanks *)
Definition words_joined (s : text) : text := join_sp (split_ws s).




(** ** Show identity *)

Definition all_of (cls : ascii -> bool) (s : text) : Prop := forallb cls s = true.

(** one or two decimal digits *)
Definition digits12 (d : text) : Prop :=
  (length d = 1 \/ length d = 2)%nat /\ all_of is_digit d.

(** [tok] is a season/episode token: S or s, the season digits [sd], blanks
    and separators, E or e, and the episode digits [ed], with optional
    blanks before the digits *)
Definition sxxeyy_token (tok sd ed : text) : Prop :=
  exists cs ws1 ws2 sep ce ws3,
    tok = cs :: ws1 ++ sd ++ ws2 ++ sep ++ ce :: ws3 ++ ed
    /\ (cs = "S" \/ cs = "s") /\ (ce = "E" \/ ce = "e")
    /\ all_of is_space ws1 /\ all_of is_space ws2 /\ all_of is_space ws3
    /\ all_of is_sep sep
    /\ digits12 sd /\ digits12 ed.

(** the token stands in [s] at position [i], delimited on both sides by a
    non-word character or an end of the text, with [post] after it *)
Definition sxxeyy_token_at (s : text) (i : nat) (sd ed post : text) : Prop :=
  exists pre tok,
    s = pre ++ tok ++ post /\ length pre = i
    /\ sxxeyy_token tok sd ed
    /\ is_word_opt (last_char pre) = false
    /\ is_word_opt (hd_error post) = false.

Definition first_sxxeyy_token_at (s : text) (i : nat) (sd ed post : text) : Prop :=
  sxxeyy_token_at s i sd ed post
  /\ forall j sd' ed' post', (j < i)%nat -> ~ sxxeyy_token_at s j sd' ed' post'.

(** the episode title the parser derives from the text after the token *)
Definition episode_title_of (post : text) : text :=
  strip (join_sp (ep_title_tokens (split_ws (strip post)))).

(** every episode of [meta] carries the key of its show, season and number *)
Definition keyed (sid : text) (meta : show_meta) : Prop :=
  forall sn eps item,
    In (sn, eps) (sm_seasons meta) -> In item eps ->
    it_eid item = Some (episode_key sid sn (it_e item)).

(** the longest suffix that does not start with a character of the class *)
Fixpoint drop_while (cls : ascii -> bool) (s : text) : text :=
  match s with
  | c :: s' => if cls c then drop_while cls s' else s
  | [] => []
  end.

(** the record of the item is present and is a fixed point of its update *)
Definition settled (prov : provider) (cache : movie_cache) (item : catalog_item) : Prop :=
  exists c,
    dict_get text_eqb cache (movie_key item) = Some c
    /\ fst (enrich_movie_entry prov item c) = c.

(** * The rest of the program: pages, sizes, selection, title search *)

(** ** Escaping: [html_text], [html_attr] *)

(** [s.replace(a, r)] for a single character [a] *)
Definition replace_with (a : ascii) (r : text) (s : text) : text :=
  flat_map (fun c => if Ascii.eqb c a then r else [c]) s.

(** the double quote *)
Definition dquote : ascii := ascii_of_nat 34.

(** [html_text]: [(s or "")] and then the five replacements in the order of
    the source, the ampersand first. *)
Definition html_text (s : option text) : text :=
  let s := text_or s [] in
  let s := replace_with "&" (txt "&amp;") s in
  let s := replace_with "<" (txt "&lt;") s in
  let s := replace_with ">" (txt "&gt;") s in
  let s := replace_with dquote (txt "&quot;") s in
  replace_with "'" (txt "&#39;") s.

Definition html_attr (s : option text) : text := html_text s.

(** ** Durations and sizes: [minutes_to_hm], [format_size_lower] *)

(** [minutes_to_hm]: [m // 60] and [m % 60] are the floor division and its
    remainder, which is what [Z.div] and [Z.modulo] are for a positive
    divisor. *)
Definition minutes_to_hm (m : option Z) : option text :=
  match m with
  | Some v =>
      if negb (truthy_int m) then None
      else
        let h := (v / 60)%Z in
        let mm := (v mod 60)%Z in
        Some (if truthy_int (Some h)
              then str_of_int h ++ txt "h " ++ str_of_int mm ++ txt "m"
              else str_of_int mm ++ txt "m")
  | None => None
  end.

(** [round(val)] : the nearest integer, the even one of the two on a tie *)
Definition round_half_even (q : Q) : Z :=
  let f := Qfloor q in
  match Qcompare (q - inject_Z f) (1 # 2) with
  | Lt => f
  | Gt => (f + 1)%Z
  | Eq => if Z.even f then f else (f + 1)%Z
  end.

(** [f"{val:.1f}"] for a value that is not negative: the nearest multiple of
    one tenth (the even one on a tie), written with one decimal. *)
Definition fmt_1f (val : Q) : text :=
  let t := round_half_even (val * 10) in
  str_of_int (t / 10) ++ "." :: str_of_int (t mod 10).

Definition size_units : list (text * Z) :=
  [(txt "tb", 1024 ^ 4); (txt "gb", 1024 ^ 3); (txt "mb", 1024 ^ 2); (txt "kb", 1024)]%Z.

(** [format_size_lower].  [nbytes / base] is a binary64 division by a power
    of two: it is exact for every [nbytes] below [2^53], and the model, which
    computes it over [Q], is the function on that range. *)
Fixpoint format_size_in (units : list (text * Z)) (nbytes : Z) : text :=
  match units with
  | [] => txt "0b"
  | (name, base) :: units' =>
      if (nbytes >=? base)%Z then
        let val := inject_Z nbytes / inject_Z base in
        if Qle_bool 10 val then str_of_int (round_half_even val) ++ name
        else fmt_1f val ++ name
      else format_size_in units' nbytes
  end.

Definition format_size_lower (nbytes : Z) : text := format_size_in size_units nbytes.

(** ** The video of a folder: [find_video_in_folder] *)

(** [os.path.join(a, b)] on POSIX paths *)
Definition path_join (a b : text) : text :=
  if starts_with (txt "/") b then b
  else match last_char a with
       | None => b
       | Some c => if Ascii.eqb c "/" then a ++ b else a ++ "/" :: b
       end.

(** the loop over the files of the top level of the folder: [best] and
    [best_size], replaced by every strictly larger video *)
Definition video_step (fs : filesystem) (root : text) (acc : option text * Z) (f : text)
  : option text * Z :=
  if mem_text (lower (splitext_ext f)) VIDEO_EXTS then
    let fp := path_join root f in
    let size := safe_size fs fp in
    if (size >? snd acc)%Z then (Some fp, size) else acc
  else acc.

(** [find_video_in_folder], given the file names [os.walk] lists for the
    top level of the folder (none when the folder cannot be read) *)
Definition find_video_in_folder (fs : filesystem) (folder_path : text) (files : list text)
  : option text :=
  fst (fold_left (video_step fs folder_path) files (None, (-1)%Z)).

(** ** Title search for shows: [try_tv_variants] *)

Section BacktrackingWithContext.
Context {A : Type}.

(** [cls*] followed by the rest of the pattern [k], which also receives the
    character before the position it starts at (for a [\b] that opens it) *)
Fixpoint re_star_prev (cls : ascii -> bool) (k : option ascii -> text -> option A)
    (prev : option ascii) (s : text) : option A :=
  match s with
  | c :: s' =>
      if cls c
      then match re_star_prev cls k (Some c) s' with
           | Some r => Some r
           | None => k prev s
           end
      else k prev s
  | [] => k prev s
  end.
End BacktrackingWithContext.

Definition newline : ascii := ascii_of_nat 10.

(** [$]: the end of the text, or the newline that ends it *)
Definition at_end (s : text) : bool :=
  match s with
  | [] => true
  | [c] => Ascii.eqb c newline
  | _ => false
  end.

Definition matched (r : option unit) : bool := is_some r.

(** [\s*$] at the head of [s] *)
Definition blank_tail (s : text) : bool :=
  matched (re_star is_space (fun r => if at_end r then Some tt else None) s).

(** [\s*\(\d{4}\)\s*$] at the head of [s] *)
Definition paren_year_tail_at (prev : option ascii) (s : text) : bool :=
  matched (re_star is_space
             (fun r =>
                match r with
                | c0 :: d1 :: d2 :: d3 :: d4 :: c5 :: r' =>
                    if Ascii.eqb c0 "(" && is_digit d1 && is_digit d2 && is_digit d3
                       && is_digit d4 && Ascii.eqb c5 ")" && blank_tail r'
                    then Some tt else None
                | _ => None
                end) s).

(** [\b(19\d{2}|20\d{2})\b\s*$] at the head of [s], [prev] before it *)
Definition year_tail_at (prev : option ascii) (s : text) : bool :=
  year_token_at prev s && blank_tail (skipn 4 s).

(** [[.\s]*\b(19\d{2}|20\d{2})\b\s*$] at the head of [s] *)
Definition dotted_year_tail_at (prev : option ascii) (s : text) : bool :=
  matched (re_star_prev (fun c => Ascii.eqb c "." || is_space c)
             (fun prev' r => if year_tail_at prev' r then Some tt else None) prev s).

(** [re.sub(pattern, "", s)] for a pattern that ends in [\s*$] and cannot
    match the empty text: a match runs to the end of the text, so the result
    is the text before the leftmost position at which the pattern matches. *)
Fixpoint cut_at_match (m : option ascii -> text -> bool) (prev : option ascii) (s : text)
  : text :=
  if m prev s then []
  else match s with
       | [] => []
       | c :: s' => c :: cut_at_match m (Some c) s'
       end.

Definition normalize_title_for_search (t : text) : text :=
  let t := replace_char "_" " " (replace_char "." " " t) in
  let t := cut_at_match paren_year_tail_at None t in
  let t := cut_at_match year_tail_at None t in
  let t := sub_each (fun c => negb (is_word c || is_space c)) t in
  strip (collapse_ws t).

Definition strip_trailing_year (title : text) : text :=
  strip (cut_at_match dotted_year_tail_at None title).

(** The state of one [try_tv_variants] call: the [seen] set and, for the
    properties below, the queries sent so far (oldest first). *)
Record tv_attempts := {
  tv_seen : list text;
  tv_sent : list text
}.

(** the loop over the variants; [search] is [tmdb_search_tv] *)
Fixpoint tv_variants_loop (search : text -> option (list tv_result)) (variants : list text)
    (st : tv_attempts) : option (tv_result * text) * tv_attempts :=
  match variants with
  | [] => (None, st)
  | t :: rest =>
      let t := strip t in
      if negb (nonempty t) || mem_text (lower t) (tv_seen st)
      then tv_variants_loop search rest st
      else
        let st' := {| tv_seen := lower t :: tv_seen st; tv_sent := tv_sent st ++ [t] |} in
        let data := search t in
        match data with
        | Some (_ :: _) =>
            match _pick_best_tv data t with
            | Some best => (Some (best, t), st')
            | None => tv_variants_loop search rest st'
            end
        | _ => tv_variants_loop search rest st'
        end
  end.

Definition tv_title_variants (title_in : text) : list text :=
  [ title_in;
    strip_trailing_year title_in;
    normalize_title_for_search title_in;
    normalize_title_for_search (strip_trailing_year title_in) ].

Definition try_tv_variants (search : text -> option (list tv_result)) (title_in : text)
  : option (tv_result * text) * tv_attempts :=
  tv_variants_loop search (tv_title_variants title_in) {| tv_seen := []; tv_sent := [] |}.

(** ** Episode titles from the provider: [fill_episode_titles_from_tmdb] *)

(** an entry of [shows_meta] after enrichment: the provider id of the show
    and what discovery recorded *)
Record show_entry := {
  se_tv_id : option Z;
  se_meta : show_meta
}.

(** the answer of the episode endpoint: the fields the code reads *)
Record episode_details := {
  ed_name : option text
}.

(** [tmdb_tv_episode_cache.json]: the episode name under ["tv_id|season|episode"] *)
Definition ep_cache := list (text * text).

(** what the pass threads through its loops: the cache file and, for the
    properties below, the episodes requested so far (oldest first) *)
Record ep_fill := {
  ef_cache : ep_cache;
  ef_requested : list (Z * Z * Z)
}.

(** [f"{tv_id}|{season}|{epnum}"] *)
Definition ep_cache_key (tv_id sn epnum : Z) : text :=
  str_of_int tv_id ++ "|" :: str_of_int sn ++ "|" :: str_of_int epnum.

Definition set_title (ep : episode_item) (title : text) : episode_item :=
  {| it_eid := it_eid ep; it_s := it_s ep; it_e := it_e ep; it_title := title;
     it_file := it_file ep; it_size := it_size ep; it_mtime := it_mtime ep |}.

(** the body of [for ep in eps] *)
Definition fill_episode (details : Z -> Z -> Z -> option episode_details)
    (tv_id sn : Z) (st : ep_fill) (ep : episode_item) : ep_fill * episode_item :=
  if nonempty (it_title ep) then (st, ep)
  else
    let epnum := it_e ep in
    let ckey := ep_cache_key tv_id sn epnum in
    let cached := dict_get text_eqb (ef_cache st) ckey in
    let '(name, st') :=
      if truthy_text cached then (text_or cached [], st)
      else
        let det := details tv_id sn epnum in
        let name := text_or (match det with Some d => ed_name d | None => None end) [] in
        (name, {| ef_cache := dict_set text_eqb (ef_cache st) ckey name;
                  ef_requested := ef_requested st ++ [(tv_id, sn, epnum)] |}) in
    (st', if nonempty name then set_title ep name else ep).

Fixpoint fill_episodes (details : Z -> Z -> Z -> option episode_details)
    (tv_id sn : Z) (st : ep_fill) (eps : list episode_item)
  : ep_fill * list episode_item :=
  match eps with
  | [] => (st, [])
  | ep :: eps' =>
      let '(st1, ep') := fill_episode details tv_id sn st ep in
      let '(st2, eps'') := fill_episodes details tv_id sn st1 eps' in
      (st2, ep' :: eps'')
  end.

(** the loop over the seasons of one show *)
Fixpoint fill_seasons (details : Z -> Z -> Z -> option episode_details)
    (tv_id : Z) (st : ep_fill) (seasons : list (Z * list episode_item))
  : ep_fill * list (Z * list episode_item) :=
  match seasons with
  | [] => (st, [])
  | (sn, eps) :: seasons' =>
      let '(st1, eps') := fill_episodes details tv_id sn st eps in
      let '(st2, seasons'') := fill_seasons details tv_id st1 seasons' in
      (st2, (sn, eps') :: seasons'')
  end.

(** the body of [for sid, meta in shows_meta.items()] *)
Definition fill_show (details : Z -> Z -> Z -> option episode_details)
    (st : ep_fill) (entry : show_entry) : ep_fill * show_entry :=
  if negb (truthy_int (se_tv_id entry)) then (st, entry)
  else
    match se_tv_id entry with
    | Some tv_id =>
        let '(st', seasons') := fill_seasons details tv_id st (sm_seasons (se_meta entry)) in
        (st', {| se_tv_id := se_tv_id entry;
                 se_meta := {| sm_title := sm_title (se_meta entry);
                               sm_seasons := seasons' |} |})
    | None => (st, entry)
    end.

(** [fill_episode_titles_from_tmdb]: the shows with their titles filled, the
    cache file it leaves and the episodes it requested *)
Fixpoint fill_episode_titles_from_tmdb (details : Z -> Z -> Z -> option episode_details)
    (st : ep_fill) (shows : list (text * show_entry)) : ep_fill * list (text * show_entry) :=
  match shows with
  | [] => (st, [])
  | (sid, entry) :: shows' =>
      let '(st1, entry') := fill_show details st entry in
      let '(st2, shows'') := fill_episode_titles_from_tmdb details st1 shows' in
      (st2, (sid, entry') :: shows'')
  end.

(** ** The "New" home of [build_site]: the newest sixteen *)

(** an entry of a movie-like category, with the fields the selection reads *)
Record media_item := {
  mi_id : text;
  mi_abs_path : text;
  mi_mtime : Z
}.

Section SortedDescending.
Context {A : Type} (key : A -> Z).

(** [sorted(l, key=key, reverse=True)]: by descending key, entries with equal
    keys in their original order (the sort is stable). *)
Fixpoint insert_desc (x : A) (l : list A) : list A :=
  match l with
  | [] => [x]
  | y :: l' => if (key x <? key y)%Z then y :: insert_desc x l' else x :: l
  end.

Definition sorted_desc (l : list A) : list A := fold_right insert_desc [] l.
End SortedDescending.

(** [sorted([m for m in items if m.get("abs_path")], key=mtime, reverse=True)[:16]] *)
Definition newest (items : list media_item) : list media_item :=
  firstn 16 (sorted_desc mi_mtime (filter (fun m => nonempty (mi_abs_path m)) items)).

(** [m["is_new"] = m["id"] in {x["id"] for x in newest}] *)
Definition is_new (items : list media_item) (m : media_item) : bool :=
  mem_text (mi_id m) (map mi_id (newest items)).

(** ** Sizes of folders: [folder_size], [sizes_for_category] *)

(** What [os.walk] meets below a directory.  A file entry carries what
    [safe_size] returns for it and whether it is a symbolic link; a directory
    entry (for [os.walk]: anything [is_dir()] holds of, a link to a directory
    included) carries whether it is a symbolic link and its entries. *)
Inductive fs_node :=
| FileNode (name : text) (size : Z) (is_link : bool)
| DirNode (name : text) (is_link : bool) (children : list fs_node).

Definition node_name (n : fs_node) : text :=
  match n with
  | FileNode name _ _ => name
  | DirNode name _ _ => name
  end.

(** What one entry adds to [total]: a file that is neither hidden nor a link
    adds its size; a directory is pruned when its name is excluded or hidden,
    is not entered when it is a link ([followlinks] is off), and otherwise
    adds what its entries add. *)
Fixpoint node_total (exclude_names : list text) (n : fs_node) : Z :=
  match n with
  | FileNode name size is_link =>
      if starts_with (txt ".") name || is_link then 0%Z else size
  | DirNode name is_link children =>
      if mem_text name exclude_names || starts_with (txt ".") name || is_link then 0%Z
      else fold_right (fun c acc => (node_total exclude_names c + acc)%Z) 0%Z children
  end.

(** [folder_size(root, exclude_names)], [root] being what the path names:
    nothing, a file, or a directory (possibly through a link, which
    [os.walk] follows for the directory it starts from).  The path is taken
    to be non-empty. *)
Definition folder_size (root : option fs_node) (exclude_names : list text) : Z :=
  match root with
  | Some (DirNode _ _ children) =>
      fold_right (fun c acc => (node_total exclude_names c + acc)%Z) 0%Z children
  | _ => 0%Z
  end.

(** what [os.path.join(root, name)] names *)
Definition child_named (root : option fs_node) (name : text) : option fs_node :=
  match root with
  | Some (DirNode _ _ children) => find (fun c => text_eqb (node_name c) name) children
  | _ => None
  end.

(** [sizes_for_category(root)] of [build_site] *)
Definition sizes_for_category (root : option fs_node) : Z * Z * Z :=
  let active_bytes := folder_size root [OUTPUT_DIR_NAME; ARCHIVED_DIR_NAME] in
  let archived_bytes := folder_size (child_named root ARCHIVED_DIR_NAME) [OUTPUT_DIR_NAME] in
  let total_bytes := (active_bytes + archived_bytes)%Z in
  (active_bytes, archived_bytes, total_bytes).

(** ** The index documents of [build_site] *)

(** [{m["id"]: m["abs_path"] for m in items if m["abs_path"]}], the content
    of [movies_index.json], [standup_index.json] and [docs_index.json] *)
Definition category_index (items : list media_item) : list (text * text) :=
  fold_left (fun d m =>
               if nonempty (mi_abs_path m)
               then dict_set text_eqb d (mi_id m) (mi_abs_path m)
               else d) items [].

(** ** The shows of the "New" home of [build_site] *)

(** one entry of [eps_flat] (the fields copied from the show's metadata,
    which the selection does not read, are left out) *)
Record flat_episode := {
  fe_sid : text;
  fe_eid : text;
  fe_s : Z;
  fe_e : Z;
  fe_title : text;
  fe_mtime : Z;
  fe_size : Z
}.

(** [ep["eid"]] raises [KeyError] for an episode without an id: [None] *)
Definition flat_episode_of (sid : text) (skey : Z) (ep : episode_item) : option flat_episode :=
  match it_eid ep with
  | Some eid =>
      Some {| fe_sid := sid; fe_eid := eid; fe_s := skey; fe_e := it_e ep;
              fe_title := it_title ep; fe_mtime := it_mtime ep; fe_size := it_size ep |}
  | None => None
  end.

(** a loop that appends [f x] for each [x], stopped by the first error *)
Fixpoint collect {A B : Type} (f : A -> option B) (l : list A) : option (list B) :=
  match l with
  | [] => Some []
  | x :: l' =>
      match f x with
      | None => None
      | Some y =>
          match collect f l' with
          | None => None
          | Some ys => Some (y :: ys)
          end
      end
  end.

(** the three nested loops that fill [eps_flat] *)
Definition eps_flat (meta : list (text * show_meta)) : option (list flat_episode) :=
  collect (fun t => flat_episode_of (fst (fst t)) (snd (fst t)) (snd t))
    (flat_map (fun entry =>
                 flat_map (fun se => map (fun ep => (fst entry, fst se, ep)) (snd se))
                          (sm_seasons (snd entry)))
              meta).

(** [by_show.setdefault(e["sid"], []).append(e)] *)
Definition by_show_add (d : list (text * list flat_episode)) (e : flat_episode)
  : list (text * list flat_episode) :=
  dict_set text_eqb d (fe_sid e)
    (match dict_get text_eqb d (fe_sid e) with
     | Some l => l
     | None => []
     end ++ [e]).

(** [by_show] once each list is sorted by [mtime], newest first *)
Definition by_show (flat : list flat_episode) : list (text * list flat_episode) :=
  map (fun kv => (fst kv, sorted_desc fe_mtime (snd kv)))
      (fold_left by_show_add flat []).

(** [by_show[sid]]; the key is always present where it is read *)
Definition episodes_by_show (d : list (text * list flat_episode)) (sid : text)
  : list flat_episode :=
  match dict_get text_eqb d sid with
  | Some l => l
  | None => []
  end.

(** the sort key of [ordered_shows] *)
Definition show_mtime (d : list (text * list flat_episode)) (sid : text) : Z :=
  match episodes_by_show d sid with
  | e :: _ => fe_mtime e
  | [] => 0%Z
  end.

Definition ordered_shows (d : list (text * list flat_episode)) : list text :=
  firstn 16 (sorted_desc (show_mtime d) (map fst d)).

(** What the loop over [ordered_shows] builds: the payload (show id,
    [has_more] and the [latest] episodes of each show), the set
    [included_ep_eids], kept as the list of the ids added, and
    [new_shows_bytes]. *)
Record new_shows := {
  ns_payload : list (text * bool * list flat_episode);
  ns_included_ep_eids : list text;
  ns_bytes : Z
}.

Definition new_shows_step (d : list (text * list flat_episode)) (acc : new_shows)
    (sid : text) : new_shows :=
  let episodes := episodes_by_show d sid in
  let latest5 := firstn 5 episodes in
  {| ns_payload := ns_payload acc ++ [(sid, (5 <? length episodes)%nat, latest5)];
     ns_included_ep_eids :=
       fold_left (fun s e => s ++ [fe_eid e]) latest5 (ns_included_ep_eids acc);
     ns_bytes := fold_left (fun b e => (b + fe_size e)%Z) latest5 (ns_bytes acc) |}.

Definition new_shows_of (flat : list flat_episode) : list text * new_shows :=
  let d := by_show flat in
  let ordered := ordered_shows d in
  (ordered,
   fold_left (new_shows_step d) ordered
     {| ns_payload := []; ns_included_ep_eids := []; ns_bytes := 0%Z |}).

(** [s["is_new"] = s["id"] in set(ordered_shows)] *)
Definition show_is_new (flat : list flat_episode) (sid : text) : bool :=
  mem_text sid (fst (new_shows_of flat)).

(** [ep["is_new"] = ep["eid"] in included_ep_eids] *)
Definition episode_is_new (flat : list flat_episode) (eid : text) : bool :=
  mem_text eid (ns_included_ep_eids (snd (new_shows_of flat))).

(** * The scene-filename utilities *)

(** ** [dedupe_preserve_order] (movie-scene-filenames.py) *)

Section Dedupe.
Context {A : Type} (key : A -> text).

(** one turn of the loop: the state is [(seen, out)] *)
Definition dedupe_step (st : list text * list A) (item : A) : list text * list A :=
  let k := key item in
  if mem_text k (fst st) then st else (k :: fst st, snd st ++ [item]).

Definition dedupe_preserve_order_by (seq : list A) : list A :=
  snd (fold_left dedupe_step seq ([], [])).
End Dedupe.

(** the default key, [lambda x: x.lower()] *)
Definition dedupe_preserve_order (seq : list text) : list text :=
  dedupe_preserve_order_by lower seq.

(** [dedup] of [compose_name] (tv-scene-filenames.py): the items themselves
    are the keys *)
Definition compose_dedup (seq : list text) : list text :=
  dedupe_preserve_order_by (fun x => x) seq.

(** ** [unique_target_path] and [ensure_unique] *)

Section FreePath.
(** [os.path.exists] *)
Variable path_exists : text -> bool.

(** The [while True] loop of both functions, from the counter [n]: the first
    candidate that does not exist.  [fuel] bounds the number of turns;
    [None] when it runs out. *)
Fixpoint first_free (cand : Z -> text) (fuel : nat) (n : Z) : option text :=
  match fuel with
  | O => None
  | S fuel' =>
      if negb (path_exists (cand n)) then Some (cand n)
      else first_free cand fuel' (n + 1)%Z
  end.

(** [f"{target_name}.{n}"] under [dirpath] *)
Definition with_suffix (dirpath target_name : text) (n : Z) : text :=
  path_join dirpath (target_name ++ "." :: str_of_int n).

Definition unique_target_path (dirpath target_name : text) (fuel : nat) : option text :=
  let candidate := path_join dirpath target_name in
  if negb (path_exists candidate) then Some candidate
  else first_free (with_suffix dirpath target_name) fuel 1%Z.

(** the last component of a POSIX path *)
Fixpoint basename (p : text) : text :=
  match p with
  | [] => []
  | c :: p' =>
      if one_of p' "/" then basename p'
      else if Ascii.eqb c "/" then p' else c :: p'
  end.

(** [os.path.splitext(path)] for a path: the extension is that of the last
    component *)
Definition splitext (path : text) : text * text :=
  let ext := splitext_ext (basename path) in
  (firstn (length path - length ext) path, ext).

(** [f"{base}._{i}{ext}"] *)
Definition numbered (base ext : text) (i : Z) : text :=
  base ++ txt "._" ++ str_of_int i ++ ext.

Definition ensure_unique (path : text) (fuel : nat) : option text :=
  if negb (path_exists path) then Some path
  else
    let '(base, ext) := splitext path in
    first_free (numbered base ext) fuel 1%Z.
End FreePath.

(** ** [normalize_token] (tv-scene-filenames.py) *)

Definition QUALITY : list text :=
  [txt "2160P"; txt "1080P"; txt "720P"; txt "480P"; txt "540P"].

(** [tok.upper().replace(" ", "").replace("_", "").replace("-", "")] *)
Definition squeezed (tok : text) : text :=
  replace_with "-" [] (replace_with "_" [] (replace_with " " [] (upper tok))).

Definition normalize_token (tok : text) : text :=
  let t := squeezed tok in
  if mem_text t [txt "WEB"; txt "WEBDL"; txt "WEBRIP"] then txt "WEB-DL"
  else if mem_text t [txt "BLURAY"; txt "BRRIP"] then txt "BluRay"
  else if text_eqb t (txt "HDTV") then txt "HDTV"
  else if text_eqb t (txt "AMZN") then txt "AMZN"
  else if text_eqb t (txt "NF") then txt "NF"
  else if mem_text t [txt "H264"; txt "H.264"] then txt "H.264"
  else if text_eqb t (txt "X264") then txt "x264"
  else if text_eqb t (txt "X265") then txt "x265"
  else if text_eqb t (txt "HEVC") then txt "HEVC"
  else if text_eqb t (txt "XVID") then txt "XviD"
  else if mem_text t [txt "AAC"; txt "AC3"; txt "EAC3"; txt "DTS"; txt "FLAC"] then t
  else if starts_with (txt "DDP") t then txt "DDP5.1"
  else if text_eqb t (txt "TRUEHD") then txt "TrueHD"
  else if mem_text t QUALITY then t
  else tok.

(** ** [norm_spaces] and [dotify] (tv-scene-filenames.py) *)

Definition norm_spaces (s : text) : text :=
  let s := sub_each (one_of (txt "()[]{}")) s in
  let s := replace_char "_" " " s in
  strip (collapse_ws s).

(** [re.sub(r"\.{2,}", ".", s)]: a dot followed by a dot is dropped, which
    leaves one dot of every run *)
Fixpoint squeeze_dots (s : text) : text :=
  match s with
  | [] => []
  | c :: s' =>
      if Ascii.eqb c "." && starts_with ["."] s' then squeeze_dots s'
      else c :: squeeze_dots s'
  end.

(** [re.sub(r"\.-", "-", s)] *)
Fixpoint sub_dot_dash (s : text) : text :=
  match s with
  | [] => []
  | c :: s' =>
      match s' with
      | d :: s'' =>
          if Ascii.eqb c "." && Ascii.eqb d "-" then "-" :: sub_dot_dash s''
          else c :: sub_dot_dash s'
      | [] => [c]
      end
  end.

(** [re.sub(r"-\.", "-", s)] *)
Fixpoint sub_dash_dot (s : text) : text :=
  match s with
  | [] => []
  | c :: s' =>
      match s' with
      | d :: s'' =>
          if Ascii.eqb c "-" && Ascii.eqb d "." then "-" :: sub_dash_dot s''
          else c :: sub_dash_dot s'
      | [] => [c]
      end
  end.

(** [s.lstrip(chars)], [s.rstrip(chars)] and [s.strip(chars)] *)
Fixpoint lstrip_of (cls : ascii -> bool) (s : text) : text :=
  match s with
  | [] => []
  | c :: s' => if cls c then lstrip_of cls s' else s
  end.

Fixpoint rstrip_of (cls : ascii -> bool) (s : text) : text :=
  match s with
  | [] => []
  | c :: s' =>
      match rstrip_of cls s' with
      | [] => if cls c then [] else [c]
      | r => c :: r
      end
  end.

Definition strip_of (cls : ascii -> bool) (s : text) : text :=
  rstrip_of cls (lstrip_of cls s).

Definition dotify (s : text) : text :=
  let s := replace_char " " "." (norm_spaces s) in
  let s := squeeze_dots s in
  let s := sub_dot_dash s in
  let s := sub_dash_dot s in
  strip_of (one_of (txt ".")) s.

(** * Vocabulary of the further properties *)

(** ** Escaping *)

(** the characters that open or close markup or an attribute value *)
Definition is_markup (c : ascii) : bool := one_of ("<" :: ">" :: dquote :: "'" :: nil) c.

(** the entity or character that stands for [c] in escaped text *)
Definition escape_char (c : ascii) : text :=
  if Ascii.eqb c "&" then txt "&amp;"
  else if Ascii.eqb c "<" then txt "&lt;"
  else if Ascii.eqb c ">" then txt "&gt;"
  else if Ascii.eqb c dquote then txt "&quot;"
  else if Ascii.eqb c "'" then txt "&#39;"
  else [c].

(** ** Sizes *)

(** the size in units of [base] *)
Definition size_value (nbytes base : Z) : Q := inject_Z nbytes / inject_Z base.

(** the text of a size that reaches the unit [base] *)
Definition size_text (name : text) (base nbytes : Z) : text :=
  let val := size_value nbytes base in
  if Qle_bool 10 val then str_of_int (round_half_even val) ++ name
  else fmt_1f val ++ name.

(** ** The video of a folder *)

Definition is_video (f : text) : bool := mem_text (lower (splitext_ext f)) VIDEO_EXTS.

(** [r], at position [i] of [cands], has the largest size of [cands] and is
    the earliest candidate that has it *)
Definition first_largest {R : Type} (size : R -> Z) (cands : list R) (i : nat) (r : R) : Prop :=
  nth_error cands i = Some r
  /\ (forall j r', nth_error cands j = Some r' -> (size r' <= size r)%Z)
  /\ (forall j r', (j < i)%nat -> nth_error cands j = Some r' -> (size r' < size r)%Z).

(** the running choice of the largest candidate, by [size], kept as [value] *)
Definition largest_step {R : Type} (size : R -> Z) (value : R -> text)
    (acc : option text * Z) (r : R) : option text * Z :=
  if (size r >? snd acc)%Z then (Some (value r), size r) else acc.

(** ** Discovery of shows *)

(** the id of the [i]-th show that discovery meets *)
Definition show_sid (i : nat) : text := txt "tv" ++ str_of_int (Z.of_nat i).

(** the seasons of a show as discovery keeps them: season numbers listed
    once and not negative, episode numbers not negative and, within a season,
    pairwise different *)
Definition seasons_ok (meta : show_meta) : Prop :=
  NoDup (map fst (sm_seasons meta))
  /\ Forall (fun se => (0 <= fst se)%Z
                       /\ NoDup (map it_e (snd se))
                       /\ Forall (fun e => (0 <= e)%Z) (map it_e (snd se))) (sm_seasons meta).

(** the state of the scan between two files: shows are numbered in the
    order in which they were met, the two dictionaries list the same shows
    in that order, and a show is keyed by its lower-cased title *)
Definition discovery_ok (st : discovery) : Prop :=
  map snd (shows_map st) = map show_sid (seq 1 (length (shows_map st)))
  /\ show_id_seq st = (Z.of_nat (length (shows_map st)) + 1)%Z
  /\ map fst (shows_meta st) = map snd (shows_map st)
  /\ map (fun e => lower (sm_title (snd e))) (shows_meta st) = map fst (shows_map st)
  /\ NoDup (map fst (shows_map st))
  /\ Forall (fun e => seasons_ok (snd e)) (shows_meta st).

(** the file [fp], parsed as [p], is represented in the state: its show is
    known and lists its episode with a file that is at least as large *)
Definition represented (fs : filesystem) (st : discovery) (p : parsed_show) (fp : text) : Prop :=
  exists sid meta item,
    dict_get text_eqb (shows_map st) (lower (show p)) = Some sid
    /\ dict_get text_eqb (shows_meta st) sid = Some meta
    /\ find_episode meta (season p) (episode p) = Some item
    /\ (safe_size fs fp <= it_size item)%Z.

(** the scan accepts the file: it is a regular file with a video extension
    whose name parses *)
Definition accepted (fs : filesystem) (fp fname : text) (p : parsed_show) : Prop :=
  fs_isfile fs fp = true /\ is_video fname = true /\ parse_show_from_string fname = Some p.

(** the files of the scan, as a state transformer *)
Definition handle_files (fs : filesystem) (files : list (text * text)) (st : discovery)
  : discovery :=
  fold_left (fun st f => handle_file fs st (fst f) (snd f)) files st.

Definition no_shows : discovery := {| shows_map := []; shows_meta := []; show_id_seq := 1 |}.

(** the state once the show of a parsed file is known: a show met for the
    first time takes the next id and an entry with no season *)
Definition with_show (st : discovery) (show_title : text) : discovery :=
  match dict_get text_eqb (shows_map st) (lower show_title) with
  | Some _ => st
  | None =>
      let sid := txt "tv" ++ str_of_int (show_id_seq st) in
      {| shows_map := dict_set text_eqb (shows_map st) (lower show_title) sid;
         shows_meta := dict_set text_eqb (shows_meta st) sid
                         {| sm_title := show_title; sm_seasons := [] |};
         show_id_seq := show_id_seq st + 1 |}
  end.

(** the state after an accepted file whose show [sid] has the entry [meta] *)
Definition with_episode (fs : filesystem) (st : discovery) (sid : text) (meta : show_meta)
    (p : parsed_show) (fp : text) : discovery :=
  {| shows_map := shows_map st;
     shows_meta := dict_set text_eqb (shows_meta st) sid
                     (_add_or_update_episode fs meta (season p) (episode p) (ep_title p) fp);
     show_id_seq := show_id_seq st |}.

(** the (key, file) pairs that [build_episodes_index] enters, in its order *)
Definition index_pairs (meta : list (text * show_meta)) : list (text * text) :=
  flat_map (fun entry =>
    flat_map (fun se =>
      flat_map (fun item =>
        match it_eid item with
        | Some eid => [(eid, it_file item)]
        | None => []
        end) (snd se)) (sm_seasons (snd entry))) meta.

(** ** Discovery of movie-like categories *)

(** the entries of a listing that become items: not hidden, not the site
    directory, not the archive folder where that is skipped, and either a
    folder or a file with a video extension *)
Definition listed (skip_archived : bool) (e : text * entry_kind) : bool :=
  negb (starts_with (txt ".") (fst e) || mem_text (fst e) EXCLUDED_DIRS)
  && negb (skip_archived && text_eqb (fst e) ARCHIVED_DIR_NAME)
  && match snd e with
     | IsDir => true
     | IsFile => is_video (fst e)
     | IsOther => false
     end.

(** the name an item's title and year are parsed from: the folder name, or
    the file name without its extension *)
Definition item_name (e : text * entry_kind) : text :=
  match snd e with
  | IsDir => fst e
  | _ => splitext_base (fst e)
  end.

(** the item of the entry [e] under the number [i] *)
Definition pool_item (prefix : text) (archived : bool) (i : Z) (e : text * entry_kind)
  : catalog_item :=
  {| ci_id := prefix ++ str_of_int i;
     ci_title := fst (parse_title_year_from_folder (item_name e));
     ci_year := snd (parse_title_year_from_folder (item_name e));
     ci_source := fst e; ci_archived := archived |}.

(** the items of the entries [es], numbered from [start] *)
Fixpoint number_from (prefix : text) (archived : bool) (start : Z)
    (es : list (text * entry_kind)) : list catalog_item :=
  match es with
  | [] => []
  | e :: es' => pool_item prefix archived start e :: number_from prefix archived (start + 1) es'
  end.

(** ** Requests of a title search *)

(** the key under which [attempt] remembers a request *)
Definition request_key (q : search_query) : text := attempt_key (sq_title q) (sq_year q).

(** a year that the sweep [year-2 .. year+2] keeps away from 0 *)
Definition sweepable (year : option Z) : Prop :=
  match year with
  | Some y => (2 < y)%Z
  | None => True
  end.

(** the state of a search between two attempts: every request sent is
    remembered under its key, no key twice, and no request has an empty
    query *)
Definition attempts_ok (force_yearless : bool) (st : attempts) : Prop :=
  seen st = rev (map request_key (sent st))
  /\ NoDup (seen st)
  /\ Forall (fun q => sq_title q <> []) (sent st)
  /\ (force_yearless = true -> Forall (fun q => sq_year q = None) (sent st)).

(** a year of the schedule under which the request that is sent carries
    the year it is remembered with *)
Definition year_kept (force_yearless : bool) (y : option Z) : Prop :=
  if force_yearless then y = None else y <> Some 0%Z.

(** ** Title search for shows *)




(** ** Episode titles from the provider *)

(** [ep'] is [ep], or [ep] with the title it lacked *)
Definition title_filled (ep ep' : episode_item) : Prop :=
  ep' = ep \/ (it_title ep = [] /\ it_title ep' <> [] /\ ep' = set_title ep (it_title ep')).

Definition season_filled (se se' : Z * list episode_item) : Prop :=
  fst se' = fst se /\ Forall2 title_filled (snd se) (snd se').

Definition show_filled (e e' : text * show_entry) : Prop :=
  fst e' = fst e
  /\ se_tv_id (snd e') = se_tv_id (snd e)
  /\ sm_title (se_meta (snd e')) = sm_title (se_meta (snd e))
  /\ Forall2 season_filled (sm_seasons (se_meta (snd e))) (sm_seasons (se_meta (snd e')))
  /\ (truthy_int (se_tv_id (snd e)) = false -> e' = e).

(** the episode [(tv_id, sn, en)] is an untitled episode of a show of
    [shows] that has the provider id [tv_id] *)
Definition untitled_episode (shows : list (text * show_entry)) (r : Z * Z * Z) : Prop :=
  exists sid entry eps ep,
    In (sid, entry) shows
    /\ se_tv_id entry = Some (fst (fst r)) /\ fst (fst r) <> 0%Z
    /\ In (snd (fst r), eps) (sm_seasons (se_meta entry))
    /\ In ep eps /\ it_e ep = snd r /\ it_title ep = [].

(** ** The newest sixteen *)

Definition has_path (m : media_item) : bool := nonempty (mi_abs_path m).

(** a list in descending order of [key] *)
Definition descending {A : Type} (key : A -> Z) (l : list A) : Prop :=
  StronglySorted (fun a b => (key b <= key a)%Z) l.

(** ** Sizes of folders *)

(** a directory named [name] occurs in the tree of [n] *)
Fixpoint has_dir_named (name : text) (n : fs_node) : bool :=
  match n with
  | FileNode _ _ _ => false
  | DirNode nm _ children => text_eqb nm name || existsb (has_dir_named name) children
  end.

(** no entry of the tree reports a negative size *)
Fixpoint sizes_nonneg (n : fs_node) : bool :=
  match n with
  | FileNode _ size _ => (0 <=? size)%Z
  | DirNode _ _ children => forallb sizes_nonneg children
  end.

(** the sum of what the entries add *)
Definition dir_total (exclude_names : list text) (children : list fs_node) : Z :=
  fold_right (fun c acc => (node_total exclude_names c + acc)%Z) 0%Z children.

(** ** Complete cache records *)

(** every field the search step of [enrich_movies] looks at is present *)
Definition identified_movie (c : movie_entry) : Prop :=
  truthy_int (me_movie_id c) = true /\ me_poster_url c <> [] /\ me_overview c <> []
  /\ me_genres c <> [] /\ me_runtime c <> None /\ me_vote c <> None
  /\ me_certification c <> None /\ me_cast c <> [].

Definition complete_movie (c : movie_entry) : Prop :=
  identified_movie c /\ me_backdrop_url c <> [] /\ me_tagline c <> [].

Definition identified_tv (c : tv_entry) : Prop :=
  truthy_int (te_tv_id c) = true /\ te_poster_url c <> [] /\ te_overview c <> []
  /\ te_genres c <> [] /\ te_vote c <> None /\ te_first_year c <> None
  /\ te_cast c <> [].

Definition complete_tv (c : tv_entry) : Prop :=
  identified_tv c /\ te_backdrop_url c <> [] /\ te_tagline c <> [].

(** ** The shows of the "New" home *)

(** the episodes of one show, in the order of [eps_flat] *)
Definition episodes_of (flat : list flat_episode) (sid : text) : list flat_episode :=
  filter (fun e => text_eqb (fe_sid e) sid) flat.

Definition total_size (l : list flat_episode) : Z :=
  fold_right (fun e acc => (fe_size e + acc)%Z) 0%Z l.

(** the episodes of [eps_flat] flagged as new *)
Definition new_episode (flat : list flat_episode) (e : flat_episode) : bool :=
  episode_is_new flat (fe_eid e).

(** [d] holds, for each show, its episodes among [p], in their order *)
Definition grouped (d : list (text * list flat_episode)) (p : list flat_episode) : Prop :=
  NoDup (map fst d)
  /\ forall sid, dict_get text_eqb d sid
                 = match episodes_of p sid with [] => None | e :: l => Some (e :: l) end.

(** the [latest] episodes of a show: the first five of its episodes, newest first *)
Definition latest_of (flat : list flat_episode) (sid : text) : list flat_episode :=
  firstn 5 (sorted_desc fe_mtime (episodes_of flat sid)).

(** ** The scene-filename utilities *)

(** the spellings [normalize_token] gives to the tokens it knows *)
Definition canonical_tokens : list text :=
  [txt "WEB-DL"; txt "BluRay"; txt "HDTV"; txt "AMZN"; txt "NF"; txt "H.264";
   txt "x264"; txt "x265"; txt "HEVC"; txt "XviD"; txt "AAC"; txt "AC3"; txt "EAC3";
   txt "DTS"; txt "FLAC"; txt "DDP5.1"; txt "TrueHD"] ++ QUALITY.

(** [p] is the first of the numbered candidates, counted from 1, that does
    not exist *)
Definition first_numbered (path_exists : text -> bool) (cand : Z -> text) (p : text) : Prop :=
  exists n, (1 <= n)%Z /\ p = cand n
            /\ forall j, (1 <= j < n)%Z -> path_exists (cand j) = true.

(** the character [a] immediately followed by [b] somewhere in [s] *)
Fixpoint adjacent (a b : ascii) (s : text) : bool :=
  match s with
  | [] => false
  | c :: s' =>
      (Ascii.eqb c a && match hd_error s' with Some d => Ascii.eqb d b | None => false end)
      || adjacent a b s'
  end.

(** a name as [dotify] writes it: no blank, bracket or underscore, no dot
    next to a dot or a dash, no dot at either end *)
Definition dotted_name (s : text) : Prop :=
  (forall c, In c s -> is_space c = false /\ one_of (txt "()[]{}_") c = false)
  /\ adjacent "." "." s = false
  /\ adjacent "." "-" s = false
  /\ adjacent "-" "." s = false
  /\ hd_error s <> Some "."
  /\ last_char s <> Some ".".

(** * Properties *)

(** ** Text *)

Lemma text_eqb_eq (a b : text) : text_eqb a b = true <-> a = b.
Proof. unfold text_eqb; destruct (list_eq_dec ascii_dec a b); split; congruence. Qed.

Lemma text_eqb_refl (a : text) : text_eqb a a = true.
Proof. apply text_eqb_eq; reflexivity. Qed.

Lemma text_eqb_neq (a b : text) : text_eqb a b = false <-> a <> b.
Proof. unfold text_eqb; destruct (list_eq_dec ascii_dec a b); split; congruence. Qed.

Lemma starts_with_prefix (p s : text) :
  starts_with p s = true <-> exists suffix, s = p ++ suffix.
Proof.
  revert s; induction p as [|a p IH]; intros s; simpl.
  - split; eauto.
  - destruct s as [|b s]; simpl.
    + split; [discriminate | intros [x Hx]; discriminate].
    + rewrite andb_true_iff, Ascii.eqb_eq, IH. split.
      * intros [-> [x ->]]; eauto.
      * intros [x Hx]; injection Hx as -> ->; eauto.
Qed.


Lemma _launch_guard sv filepath root cmd :
  In cmd (_launch sv filepath root) ->
  exists rp base suffix,
    fs_realpath (sv_fs sv) filepath = Some rp
    /\ fs_realpath (sv_fs sv) root = Some base
    /\ rp = base ++ suffix.
Proof.
  unfold _launch.
  destruct (fs_realpath (sv_fs sv) filepath) as [rp|]; [|intros []].
  destruct (fs_realpath (sv_fs sv) root) as [base|]; [|intros []].
  destruct (starts_with base rp) eqn:Hp; simpl; [|intros []].
  intros _. apply starts_with_prefix in Hp as [suffix ->].
  exists (base ++ suffix), base, suffix. repeat split.
Qed.

Lemma index_launch_guard sv idx_json root qid cmd :
  In cmd (let filepath := index_path sv idx_json qid in
          if nonempty filepath && fs_isfile (sv_fs sv) filepath
          then _launch sv filepath root else []) ->
  guarded sv idx_json root qid.
Proof.
  cbv zeta. unfold index_path.
  destruct (dict_get text_eqb (sv_json sv idx_json) qid) as [fp|] eqn:Hget;
    [|simpl; intros []].
  destruct fp as [|c fp]; [simpl; intros []|].
  simpl nonempty. rewrite andb_true_l.
  destruct (fs_isfile (sv_fs sv) (c :: fp)) eqn:Hf; [|intros []].
  intros Hin. apply _launch_guard in Hin as (rp & base & suffix & H1 & H2 & H3).
  exists (c :: fp), rp, base, suffix. repeat split; auto. discriminate.
Qed.

Lemma _launch_at_most_one sv filepath root : (length (_launch sv filepath root) <= 1)%nat.
Proof.
  unfold _launch, Popen.
  repeat match goal with
         | |- context [match ?x with _ => _ end] => destruct x
         end; simpl; lia.
Qed.

(** a playback route: its guard holds of whatever it starts, and it starts
    at most one process *)
Ltac playback_route H idx root :=
  split;
  [ exists idx, root; split;
    [ constructor; assumption | eapply index_launch_guard; exact H ]
  | unfold launch_and_render, launch_episode; cbv zeta;
    destruct (_ && _); [ apply _launch_at_most_one | simpl; lia ] ].

(** C10.  Handling a request starts a player process only when the request
    is a playback route whose id is found in that route's index document,
    the path stored there is non-empty and names an existing file, and the
    file's canonical path has the canonical path of that route's library
    root as a string prefix; at most one process is started. *)
Theorem launch_is_guarded (sv : server) (p qid : text) (cmd : list text) :
  In cmd (do_GET sv p qid) ->
  (exists idx_json root, play_route sv p idx_json root /\ guarded sv idx_json root qid)
  /\ (length (do_GET sv p qid) <= 1)%nat.
Proof.
  unfold do_GET.
  repeat match goal with
         | |- context [if ?b then _ else _] =>
             match b with
             | context [starts_with] => let E := fresh "E" in destruct b eqn:E
             end
         end; try (intros []); intros H.
  - playback_route H (txt "movies_index.json") (sv_movies_root sv).
  - playback_route H (txt "standup_index.json") (sv_standup_root sv).
  - playback_route H (txt "docs_index.json") (sv_docs_root sv).
  - playback_route H (txt "episodes_index.json") (sv_shows_root sv).
Qed.

Lemma launch_is_guarded_witness :
  (exists idx_json root,
      play_route demo_server (txt "/play_movie?id=m1") idx_json root
      /\ guarded demo_server idx_json root (txt "m1"))
  /\ (length (do_GET demo_server (txt "/play_movie?id=m1") (txt "m1")) <= 1)%nat.
Proof.
  apply (launch_is_guarded demo_server (txt "/play_movie?id=m1") (txt "m1")
           [txt "open"; txt "/lib/movies/A (2019)/a.mkv"]).
  vm_compute. left. reflexivity.
Defined.

(** ** Dictionaries *)

Section DictFacts.
Context {K V : Type} (keq : K -> K -> bool).
Hypothesis keq_spec : forall a b, keq a b = true <-> a = b.

Lemma dict_get_set_same (d : list (K * V)) k v : dict_get keq (dict_set keq d k v) k = Some v.
Proof.
  induction d as [|[k' v'] d IH]; simpl.
  - rewrite (proj2 (keq_spec k k) eq_refl). reflexivity.
  - destruct (keq k k') eqn:E; simpl; rewrite E; auto.
Qed.

Lemma dict_get_set_other (d : list (K * V)) k k' v :
  k' <> k -> dict_get keq (dict_set keq d k v) k' = dict_get keq d k'.
Proof.
  intros Hne. induction d as [|[k0 v0] d IH]; simpl.
  - destruct (keq k' k) eqn:E; auto. apply keq_spec in E. contradiction.
  - destruct (keq k k0) eqn:E; simpl.
    + apply keq_spec in E. subst k0.
      destruct (keq k' k) eqn:E'; auto. apply keq_spec in E'. contradiction.
    + rewrite IH. reflexivity.
Qed.

Lemma dict_set_same_value (d : list (K * V)) k v :
  dict_get keq d k = Some v -> dict_set keq d k v = d.
Proof.
  induction d as [|[k' v'] d IH]; simpl; [discriminate|].
  destruct (keq k k') eqn:E.
  - intros [= ->]. reflexivity.
  - intros H. rewrite IH; auto.
Qed.
End DictFacts.

Lemma Z_eqb_spec' (a b : Z) : (a =? b)%Z = true <-> a = b.
Proof. apply Z.eqb_eq. Qed.

(** ** Episodes *)

Lemma season_list_set seasons sn l sn' :
  season_list (dict_set Z.eqb seasons sn l) sn' =
  if (sn' =? sn)%Z then l else season_list seasons sn'.
Proof.
  unfold season_list. destruct (sn' =? sn)%Z eqn:E.
  - apply Z.eqb_eq in E. subst. rewrite (dict_get_set_same Z.eqb Z_eqb_spec'). reflexivity.
  - apply Z.eqb_neq in E. rewrite (dict_get_set_other Z.eqb Z_eqb_spec'); auto.
Qed.

Lemma update_episode_none lst en title file size mtime :
  update_episode lst en title file size mtime = None <->
  find (fun it => (it_e it =? en)%Z) lst = None.
Proof.
  induction lst as [|x lst IH]; simpl; [tauto|].
  destruct (it_e x =? en)%Z; [split; discriminate|].
  destruct (update_episode lst en title file size mtime); split; intros H;
    try discriminate; try reflexivity.
  - apply IH in H. discriminate.
  - apply IH. reflexivity.
Qed.

Lemma find_none_not_in lst en :
  find (fun it => (it_e it =? en)%Z) lst = None <-> ~ In en (map it_e lst).
Proof.
  induction lst as [|x lst IH]; simpl; [tauto|].
  destruct (it_e x =? en)%Z eqn:E.
  - apply Z.eqb_eq in E. split; [discriminate | intros H; exfalso; apply H; auto].
  - apply Z.eqb_neq in E. rewrite IH. tauto.
Qed.

Lemma merge_episode_fields (old : episode_item) title file size mtime :
  let new := merge_episode old title file size mtime in
  it_e new = it_e old /\ it_s new = it_s old /\ it_eid new = it_eid old
  /\ it_file new = (if (size >? it_size old)%Z then file else it_file old)
  /\ it_size new = (if (size >? it_size old)%Z then size else it_size old)
  /\ it_mtime new = (if (size >? it_size old)%Z then mtime else it_mtime old)
  /\ it_title new = match it_title old with [] => title | _ :: _ => it_title old end.
Proof.
  unfold merge_episode.
  destruct (size >? it_size old)%Z; simpl;
    destruct (it_title old) as [|c t] eqn:Ht; destruct title as [|c' t']; simpl;
    rewrite ?Ht; repeat split; reflexivity.
Qed.

Lemma update_episode_some lst en title file size mtime lst' :
  update_episode lst en title file size mtime = Some lst' ->
  map it_e lst' = map it_e lst
  /\ (forall en', en' <> en ->
        find (fun it => (it_e it =? en')%Z) lst' = find (fun it => (it_e it =? en')%Z) lst)
  /\ exists old,
       find (fun it => (it_e it =? en)%Z) lst = Some old
       /\ find (fun it => (it_e it =? en)%Z) lst' = Some (merge_episode old title file size mtime).
Proof.
  revert lst'. induction lst as [|x lst IH]; simpl; intros lst'; [discriminate|].
  destruct (it_e x =? en)%Z eqn:E.
  - intros [= <-]. apply Z.eqb_eq in E.
    destruct (merge_episode_fields x title file size mtime) as (He & _).
    simpl. rewrite He. split; [reflexivity|]. split.
    + intros en' Hne. destruct (it_e x =? en')%Z eqn:E'; auto.
      apply Z.eqb_eq in E'. congruence.
    + exists x. rewrite E, Z.eqb_refl. auto.
  - destruct (update_episode lst en title file size mtime) as [rest'|] eqn:Hu; [|discriminate].
    intros [= <-]. destruct (IH rest' eq_refl) as (Hm & Ho & old & H1 & H2).
    simpl. rewrite E. split; [f_equal; exact Hm|]. split.
    + intros en' Hne. destruct (it_e x =? en')%Z; auto.
    + exists old. tauto.
Qed.

Lemma NoDup_snoc {A : Type} (l : list A) (x : A) :
  NoDup l -> ~ In x l -> NoDup (l ++ [x]).
Proof.
  induction l as [|y l IH]; simpl; intros Hn Hx.
  - constructor; [intros [] | constructor].
  - inversion Hn as [|? ? Hy Hl]; subst. constructor.
    + rewrite in_app_iff. simpl. intros [H|[H|[]]]; [auto | subst; auto].
    + apply IH; auto.
Qed.

Lemma find_app_new lst (x : episode_item) en :
  find (fun it => (it_e it =? en)%Z) (lst ++ [x]) =
  match find (fun it => (it_e it =? en)%Z) lst with
  | Some y => Some y
  | None => if (it_e x =? en)%Z then Some x else None
  end.
Proof.
  induction lst as [|y lst IH]; simpl; [reflexivity|].
  destruct (it_e y =? en)%Z; auto.
Qed.

(** what [_add_or_update_episode] does to the episode it is called for, to
    the others, and to the uniqueness of episode numbers *)
Lemma add_or_update_episode_step fs meta sn en title file :
  unique_episodes meta ->
  let meta' := _add_or_update_episode fs meta sn en title file in
  unique_episodes meta'
  /\ (forall sn' en', (sn', en') <> (sn, en) ->
        find_episode meta' sn' en' = find_episode meta sn' en')
  /\ match find_episode meta sn en with
     | None =>
         find_episode meta' sn en =
         Some {| it_eid := None; it_s := sn; it_e := en; it_title := title;
                 it_file := file; it_size := safe_size fs file;
                 it_mtime := safe_mtime fs file |}
     | Some old =>
         exists new,
           find_episode meta' sn en = Some new
           /\ it_e new = en
           /\ it_file new = (if (safe_size fs file >? it_size old)%Z then file else it_file old)
           /\ it_size new = (if (safe_size fs file >? it_size old)%Z
                             then safe_size fs file else it_size old)
           /\ it_title new = match it_title old with [] => title | _ :: _ => it_title old end
     end.
Proof.
  intros Hu meta'. subst meta'. unfold _add_or_update_episode, find_episode, unique_episodes.
  simpl sm_seasons.
  set (lst := season_list (sm_seasons meta) sn).
  destruct (update_episode lst en title file (safe_size fs file) (safe_mtime fs file))
    as [lst'|] eqn:Hupd.
  - destruct (update_episode_some _ _ _ _ _ _ _ Hupd) as (Hm & Ho & old & H1 & H2).
    destruct (merge_episode_fields old title file (safe_size fs file) (safe_mtime fs file))
      as (H3 & _ & _ & H4 & H5 & _ & H6).
    split; [|split].
    + intros sn'. rewrite season_list_set. destruct (sn' =? sn)%Z eqn:E; [|apply Hu].
      rewrite Hm. apply Hu.
    + intros sn' en' Hne. rewrite season_list_set. destruct (sn' =? sn)%Z eqn:E; auto.
      apply Z.eqb_eq in E. subst sn'. apply Ho. congruence.
    + rewrite season_list_set, Z.eqb_refl. fold lst. rewrite H1.
      eexists. split; [exact H2|].
      repeat split; auto. rewrite H3.
      apply find_some in H1 as [_ H1]. apply Z.eqb_eq in H1. exact H1.
  - apply update_episode_none in Hupd.
    split; [|split].
    + intros sn'. rewrite season_list_set. destruct (sn' =? sn)%Z eqn:E; [|apply Hu].
      rewrite map_app. simpl. apply NoDup_snoc; [apply Hu|].
      apply find_none_not_in. exact Hupd.
    + intros sn' en' Hne. rewrite season_list_set. destruct (sn' =? sn)%Z eqn:E; auto.
      apply Z.eqb_eq in E. subst sn'. rewrite find_app_new. fold lst.
      destruct (find (fun it => (it_e it =? en')%Z) lst); auto. simpl.
      destruct (en =? en')%Z eqn:E'; auto. apply Z.eqb_eq in E'. congruence.
    + rewrite season_list_set, Z.eqb_refl. fold lst. rewrite Hupd.
      rewrite find_app_new, Hupd. simpl. rewrite Z.eqb_refl. reflexivity.
Qed.

Lemma add_episode_numbers fs meta sn en title file :
  map it_e (season_list (sm_seasons (_add_or_update_episode fs meta sn en title file)) sn)
  = match find_episode meta sn en with
    | Some _ => map it_e (season_list (sm_seasons meta) sn)
    | None => map it_e (season_list (sm_seasons meta) sn) ++ [en]
    end.
Proof.
  unfold _add_or_update_episode, find_episode. simpl sm_seasons.
  rewrite season_list_set, Z.eqb_refl.
  set (lst := season_list (sm_seasons meta) sn).
  destruct (update_episode lst en title file (safe_size fs file) (safe_mtime fs file))
    as [lst'|] eqn:Hupd.
  - destruct (update_episode_some _ _ _ _ _ _ _ Hupd) as (Hm & _ & old & H1 & _).
    rewrite H1. exact Hm.
  - apply update_episode_none in Hupd. rewrite Hupd, map_app. reflexivity.
Qed.

(** *** Uniqueness through discovery *)

Lemma insert_by_e_perm x l : Permutation (insert_by_e x l) (x :: l).
Proof.
  induction l as [|y l IH]; simpl; [reflexivity|].
  destruct (it_e x <=? it_e y)%Z; [reflexivity|].
  rewrite IH. apply perm_swap.
Qed.

Lemma sort_by_e_perm l : Permutation (sort_by_e l) l.
Proof.
  induction l as [|x l IH]; simpl; [reflexivity|].
  rewrite insert_by_e_perm. constructor. exact IH.
Qed.

Lemma season_list_assign_eids sid seasons sn :
  season_list (map (assign_eids_season sid) seasons) sn
  = map (set_eid sid sn) (sort_by_e (season_list seasons sn)).
Proof.
  unfold season_list. induction seasons as [|[k eps] seasons IH]; simpl; [reflexivity|].
  destruct (sn =? k)%Z eqn:E; [|exact IH].
  apply Z.eqb_eq in E. subst k. reflexivity.
Qed.

Lemma map_it_e_set_eid sid sn l : map it_e (map (set_eid sid sn) l) = map it_e l.
Proof. rewrite map_map. reflexivity. Qed.

Lemma assign_eids_unique sid meta :
  unique_episodes meta -> unique_episodes (snd (assign_eids (sid, meta))).
Proof.
  unfold unique_episodes. intros Hu sn. simpl.
  rewrite season_list_assign_eids, map_it_e_set_eid.
  apply (Permutation_NoDup (l := map it_e (season_list (sm_seasons meta) sn))); [|apply Hu].
  apply Permutation_map. symmetry. apply sort_by_e_perm.
Qed.

Section DictForall.
Context {K V : Type} (keq : K -> K -> bool) (P : V -> Prop).

Lemma dict_get_Forall (d : list (K * V)) k v :
Forall (fun kv => P (snd kv)) d -> dict_get keq d k = Some v -> P v.
Proof.
induction d as [|[k' v'] d IH]; simpl; [discriminate|].
intros Hall. inversion Hall as [|? ? Hv Hd]; subst. simpl in Hv.
destruct (keq k k'); [intros [= <-]; exact Hv | apply IH; exact Hd].
Qed.

Lemma dict_set_Forall (d : list (K * V)) k v :
Forall (fun kv => P (snd kv)) d -> P v -> Forall (fun kv => P (snd kv)) (dict_set keq d k v).
Proof.
intros Hall Hv. induction d as [|[k' v'] d IH]; simpl.
- constructor; [exact Hv | constructor].
- inversion Hall as [|? ? Hv' Hd]; subst.
  destruct (keq k k'); constructor; auto.
Qed.
End DictForall.

Lemma handle_file_unique fs st fp fname :
  Forall (fun e => unique_episodes (snd e)) (shows_meta st) ->
  Forall (fun e => unique_episodes (snd e)) (shows_meta (handle_file fs st fp fname)).
Proof.
  intros Hall. unfold handle_file.
  destruct (negb _); [exact Hall|].
  destruct (parse_show_from_string fname) as [parsed|]; [|exact Hall].
  set (st1 := match dict_get text_eqb (shows_map st) (lower (show parsed)) with
              | Some _ => st
              | None => _
              end).
  assert (Hall1 : Forall (fun e => unique_episodes (snd e)) (shows_meta st1)).
  { subst st1. destruct (dict_get text_eqb (shows_map st) (lower (show parsed))); [exact Hall|].
    simpl. apply (dict_set_Forall text_eqb unique_episodes); [exact Hall|].
    intros sn. simpl. constructor. }
  destruct (dict_get text_eqb (shows_map st1) (lower (show parsed))) as [sid|]; [|exact Hall1].
  destruct (dict_get text_eqb (shows_meta st1) sid) as [meta|] eqn:Hget; [|exact Hall1].
  simpl. apply (dict_set_Forall text_eqb unique_episodes); [exact Hall1|].
  apply add_or_update_episode_step.
  exact (dict_get_Forall text_eqb unique_episodes _ _ _ Hall1 Hget).
Qed.

Lemma handle_files_unique fs files :
  forall st,
    Forall (fun e => unique_episodes (snd e)) (shows_meta st) ->
    Forall (fun e => unique_episodes (snd e))
      (shows_meta (fold_left (fun st f => handle_file fs st (fst f) (snd f)) files st)).
Proof.
  induction files as [|f files IH]; intros st Hst; [exact Hst|].
  simpl. apply IH. apply handle_file_unique. exact Hst.
Qed.

Lemma discover_shows_unique fs files sid meta :
  In (sid, meta) (snd (fst (discover_shows fs files))) -> unique_episodes meta.
Proof.
  unfold discover_shows. cbv zeta. simpl. intros Hin.
  apply in_map_iff in Hin as ([sid0 meta0] & Heq & Hin0).
  pose proof (handle_files_unique fs files
                {| shows_map := []; shows_meta := []; show_id_seq := 1 |} (Forall_nil _)) as Hall.
  rewrite Forall_forall in Hall. specialize (Hall _ Hin0). simpl in Hall.
  pose proof (assign_eids_unique sid0 meta0 Hall) as Hu.
  rewrite Heq in Hu. exact Hu.
Qed.

(** C7.  In every show that discovery returns, the episode numbers of a
    season are pairwise different; adding a file keeps them so; a second file
    for an episode already listed replaces the listed file exactly when it
    is strictly larger (the first-seen file stays on a tie), and its title is
    used only when the listed episode has none.  In particular, for two
    files of one (season, episode) the retained path is the larger file's
    and the title comes from whichever file has one, the first file's
    being kept. *)
Theorem episode_merge_keeps_larger_file
    (fs : filesystem) (meta : show_meta) (sn en : Z) (t1 f1 t2 f2 : text) :
  unique_episodes meta ->
  find_episode meta sn en = None ->
  let m1 := _add_or_update_episode fs meta sn en t1 f1 in
  let m2 := _add_or_update_episode fs m1 sn en t2 f2 in
  (forall files sid found,
      In (sid, found) (snd (fst (discover_shows fs files))) -> unique_episodes found)
  /\ unique_episodes m1 /\ unique_episodes m2
  /\ map it_e (season_list (sm_seasons m2) sn)
     = map it_e (season_list (sm_seasons meta) sn) ++ [en]
  /\ (forall sn' en', (sn', en') <> (sn, en) ->
        find_episode m2 sn' en' = find_episode meta sn' en')
  /\ exists item,
       find_episode m2 sn en = Some item
       /\ it_file item = (if (safe_size fs f2 >? safe_size fs f1)%Z then f2 else f1)
       /\ it_size item = Z.max (safe_size fs f1) (safe_size fs f2)
       /\ it_title item = match t1 with [] => t2 | _ :: _ => t1 end.
Proof.
  intros Hu Hnone m1 m2.
  destruct (add_or_update_episode_step fs meta sn en t1 f1 Hu) as (Hu1 & Ho1 & Hf1).
  fold m1 in Hu1, Ho1, Hf1. rewrite Hnone in Hf1.
  destruct (add_or_update_episode_step fs m1 sn en t2 f2 Hu1) as (Hu2 & Ho2 & Hf2).
  fold m2 in Hu2, Ho2, Hf2. rewrite Hf1 in Hf2.
  destruct Hf2 as (new & Hn & He & Hfile & Hsize & Htitle). simpl in Hfile, Hsize, Htitle.
  split; [intros files sid found; apply discover_shows_unique|].
  split; [exact Hu1|]. split; [exact Hu2|]. split; [|split].
  - subst m2. rewrite add_episode_numbers. rewrite Hf1.
    subst m1. rewrite add_episode_numbers. rewrite Hnone. reflexivity.
  - intros sn' en' Hne. rewrite Ho2, Ho1; auto.
  - exists new. repeat split; auto.
    rewrite Hsize. destruct (safe_size fs f2 >? safe_size fs f1)%Z eqn:E; lia.
Qed.

Lemma episode_merge_keeps_larger_file_witness :
  let m1 := _add_or_update_episode demo_fs no_episodes 1 2 [] (txt "/s/a.mkv") in
  let m2 := _add_or_update_episode demo_fs m1 1 2 (txt "Pilot") (txt "/s/a.1080p.mkv") in
  (forall files sid found,
      In (sid, found) (snd (fst (discover_shows demo_fs files))) -> unique_episodes found)
  /\ unique_episodes m1 /\ unique_episodes m2
  /\ map it_e (season_list (sm_seasons m2) 1) = map it_e (season_list (sm_seasons no_episodes) 1) ++ [2%Z]
  /\ (forall sn' en', (sn', en') <> (1%Z, 2%Z) ->
        find_episode m2 sn' en' = find_episode no_episodes sn' en')
  /\ exists item,
       find_episode m2 1 2 = Some item
       /\ it_file item = (if (safe_size demo_fs (txt "/s/a.1080p.mkv") >? safe_size demo_fs (txt "/s/a.mkv"))%Z
                          then txt "/s/a.1080p.mkv" else txt "/s/a.mkv")
       /\ it_size item = Z.max (safe_size demo_fs (txt "/s/a.mkv")) (safe_size demo_fs (txt "/s/a.1080p.mkv"))
       /\ it_title item = txt "Pilot".
Proof.
  apply (episode_merge_keeps_larger_file demo_fs no_episodes 1 2 [] (txt "/s/a.mkv")
           (txt "Pilot") (txt "/s/a.1080p.mkv")).
  - intros sn. simpl. constructor.
  - reflexivity.
Defined.

(** ** Scores and candidate selection *)

Lemma _year_score_lower qy cy : -0.1 <= _year_score qy cy.
Proof.
  unfold _year_score. destruct qy as [q|], cy as [c|]; try (vm_compute; discriminate).
  destruct (negb _ || negb _); [vm_compute; discriminate|].
  repeat match goal with |- context [if ?b then _ else _] => destruct b end;
    vm_compute; discriminate.
Qed.

Lemma jaccard_nonneg (n : nat) (p : positive) : 0 <= Z.of_nat n # p.
Proof. unfold Qle. simpl. lia. Qed.

(** every score lies above the value the running best starts from *)
Lemma _sim_score_lower qtitle ctitle qyear cyear has_poster :
  -0.1 <= _sim_score qtitle ctitle qyear cyear has_poster.
Proof.
  unfold _sim_score. cbv zeta.
  pose proof (_year_score_lower qyear cyear) as Hy.
  match goal with |- context [Z.of_nat ?n # ?p] => pose proof (jaccard_nonneg n p) as Hj end.
  destruct has_poster;
    match goal with |- context [if ?b then 0.08 else 0] => destruct b end; lra.
Qed.

Lemma Qgtb_true a b : Qgtb a b = true <-> b < a.
Proof.
  unfold Qgtb. rewrite negb_true_iff. split.
  - intros H. apply Qnot_le_lt. intros Hle. apply Qle_bool_iff in Hle. congruence.
  - intros H. destruct (Qle_bool a b) eqn:E; auto.
    apply Qle_bool_iff in E. exfalso. apply (Qlt_not_le _ _ H E).
Qed.

Lemma Qgtb_false a b : Qgtb a b = false <-> a <= b.
Proof.
  unfold Qgtb. rewrite negb_false_iff. apply Qle_bool_iff.
Qed.

Section PickFacts.
Context {R : Type} (score : R -> Q).
Hypothesis score_lower : forall r, -1 < score r.

Lemma pick_fold_first_best (l : list R) :
  l <> [] ->
  exists i r,
    fold_left (pick_step score) l (None, -1) = (Some r, score r)
    /\ first_best score l i r.
Proof.
  induction l as [|x l IH] using rev_ind; [congruence|]. intros _.
  rewrite fold_left_app. simpl.
  assert (Hl : l = [] \/ l <> []) by (destruct l; [left | right]; congruence).
  destruct Hl as [->|Hl].
  - simpl. unfold pick_step. simpl.
    rewrite (proj2 (Qgtb_true _ _) (score_lower x)).
    exists 0%nat, x. split; [reflexivity|]. split; [reflexivity|]. split.
    + intros [|[|j]] r'; simpl; try discriminate. intros [= <-]. apply Qle_refl.
    + intros j r' Hj. lia.
  - destruct (IH Hl) as (i & r & Hfold & Hnth & Hmax & Hfirst).
    rewrite Hfold. unfold pick_step. simpl.
    assert (Hi : (i < length l)%nat) by (apply nth_error_Some; congruence).
    destruct (Qgtb (score x) (score r)) eqn:E.
    + apply Qgtb_true in E. exists (length l), x. split; [reflexivity|]. split; [|split].
      * rewrite nth_error_app2, Nat.sub_diag; auto.
      * intros j r' Hj. destruct (Nat.lt_ge_cases j (length l)) as [Hlt|Hge].
        -- rewrite nth_error_app1 in Hj by assumption.
           apply Qlt_le_weak. eapply Qle_lt_trans; [apply (Hmax j r' Hj) | exact E].
        -- rewrite nth_error_app2 in Hj by assumption.
           destruct (j - length l)%nat as [|[|k]]; simpl in Hj; try discriminate.
           injection Hj as <-. apply Qle_refl.
      * intros j r' Hlt Hj. rewrite nth_error_app1 in Hj by assumption.
        eapply Qle_lt_trans; [apply (Hmax j r' Hj) | exact E].
    + apply Qgtb_false in E. exists i, r. split; [reflexivity|]. split; [|split].
      * rewrite nth_error_app1; auto.
      * intros j r' Hj. destruct (Nat.lt_ge_cases j (length l)) as [Hlt|Hge].
        -- rewrite nth_error_app1 in Hj by assumption. apply (Hmax j r' Hj).
        -- rewrite nth_error_app2 in Hj by assumption.
           destruct (j - length l)%nat as [|[|k]]; simpl in Hj; try discriminate.
           injection Hj as <-. exact E.
      * intros j r' Hlt Hj. rewrite nth_error_app1 in Hj by lia.
        apply (Hfirst j r' Hlt Hj).
Qed.

Lemma pick_loop_first_best (results : list R) :
  results <> [] ->
  exists i r,
    fst (pick_loop score results) = Some r
    /\ (i < 10)%nat
    /\ nth_error results i = Some r
    /\ first_best score (firstn 10 results) i r.
Proof.
  intros Hne. unfold pick_loop.
  destruct (pick_fold_first_best (firstn 10 results)) as (i & r & Hfold & Hbest).
  { destruct results; [congruence | simpl; discriminate]. }
  exists i, r. rewrite Hfold. split; [reflexivity|].
  destruct Hbest as (Hnth & Hrest).
  assert (Hi : (i < length (firstn 10 results))%nat) by (apply nth_error_Some; congruence).
  rewrite length_firstn in Hi.
  split; [lia|]. split; [|split; assumption].
  rewrite nth_error_firstn in Hnth. destruct (i <? 10)%nat eqn:E; [exact Hnth|].
  apply Nat.ltb_ge in E. lia.
Qed.

End PickFacts.

Lemma movie_score_lower qt qy r : -1 < movie_score qt qy r.
Proof.
  unfold movie_score. cbv zeta.
  eapply Qlt_le_trans; [|apply _sim_score_lower]. reflexivity.
Qed.




(** the scenario of the specification: the candidate with the perfect token
    overlap is selected *)
Example pick_the_movie :
  _pick_best_movie (Some demo_results) (txt "The Movie") (Some 2019%Z)
  = Some (movie_titled "The Movie" "2019-03-01" false).
Proof. vm_compute. reflexivity. Qed.

(** two candidates with the same score: the earlier one is kept *)
Example pick_tie_keeps_first :
  movie_score (txt "The Movie") (Some 2019%Z) (movie_titled "The Movie" "2019-03-01" false)
  = movie_score (txt "The Movie") (Some 2019%Z) (movie_titled "the movie!" "2019-11-30" false)
  /\ _pick_best_movie
       (Some [movie_titled "The Movie Part 2" "2019-05-01" true;
              movie_titled "The Movie" "2019-03-01" false;
              movie_titled "the movie!" "2019-11-30" false])
       (txt "The Movie") (Some 2019%Z)
     = Some (movie_titled "The Movie" "2019-03-01" false).
Proof. vm_compute. split; reflexivity. Qed.

(** ** Acceptance of search results *)

Lemma _pick_best_movie_none resp qt qy :
  _pick_best_movie resp qt qy = None <-> resp = None \/ resp = Some [].
Proof.
  destruct resp as [[|r l]|]; simpl.
  - split; auto.
  - split.
    + intros H.
      destruct (pick_loop_first_best (movie_score qt qy) (movie_score_lower qt qy) (r :: l))
        as (i & r' & Hp & _); [discriminate|].
      rewrite Hp in H. discriminate.
    + intros [H|H]; discriminate.
  - split; auto.
Qed.


(** one attempt either sends nothing, or sends one request that is answered
    without results, or sends one request with results and returns the pick *)
Lemma attempt_outcome prov fy st t y :
  let '(res, st') := attempt prov fy st t y in
  (res = None /\ sent st' = sent st)
  \/ (exists q, res = None /\ sent st' = sent st ++ [q] /\ has_results prov q = false)
  \/ (exists best y',
        res = Some (best, t)
        /\ sent st' = sent st ++ [tmdb_search_query t y']
        /\ has_results prov (tmdb_search_query t y') = true
        /\ _pick_best_movie (p_search_movie prov (tmdb_search_query t y')) t y' = Some best).
Proof.
  unfold attempt. destruct t as [|c t]; [left; auto|].
  destruct (mem_text _ (seen st)); [left; auto|].
  set (uy := if fy then None else y).
  unfold tmdb_search_movie.
  destruct (p_search_movie prov (tmdb_search_query (c :: t) uy)) as [[|r l]|] eqn:Hs.
  - right; left. eexists. split; [reflexivity|]. split; [reflexivity|].
    unfold has_results. rewrite Hs. reflexivity.
  - destruct (_pick_best_movie (Some (r :: l)) (c :: t) uy) as [best|] eqn:Hp.
    + right; right. exists best, uy. split; [reflexivity|]. split; [reflexivity|].
      unfold has_results. rewrite Hs. auto.
    + apply _pick_best_movie_none in Hp as [Hp|Hp]; discriminate.
  - right; left. eexists. split; [reflexivity|]. split; [reflexivity|].
    unfold has_results. rewrite Hs. reflexivity.
Qed.

Lemma attempt_each_outcome prov fy qs :
  forall st,
  let '(res, st') := attempt_each prov fy st qs in
  exists requests,
    sent st' = sent st ++ requests /\ first_answer_accepted prov requests res.
Proof.
  induction qs as [|[t y] qs IH]; intros st; simpl.
  - exists []. rewrite app_nil_r. split; [reflexivity | constructor].
  - pose proof (attempt_outcome prov fy st t y) as Ha.
    destruct (attempt prov fy st t y) as [res st1].
    destruct Ha as [(-> & Hs) | [(q & -> & Hs & Hq) | (best & y' & -> & Hs & Hq & Hp)]].
    + specialize (IH st1). destruct (attempt_each prov fy st1 qs) as [res' st'].
      destruct IH as (requests & Hr & Hacc). exists requests. rewrite Hr, Hs. auto.
    + specialize (IH st1). destruct (attempt_each prov fy st1 qs) as [res' st'].
      destruct IH as (requests & Hr & Hacc). exists (q :: requests).
      rewrite Hr, Hs, <- app_assoc. split; [reflexivity|].
      destruct res' as [[best used]|]; simpl in *.
      * destruct Hacc as (earlier & y' & -> & Hall & Hlast).
        exists (q :: earlier), y'. split; [reflexivity|]. split; [constructor; auto | exact Hlast].
      * constructor; auto.
    + exists [tmdb_search_query t y']. split; [exact Hs|]. simpl.
      exists [], y'. repeat split; auto.
Qed.


(** the five year-constrained requests find nothing; the yearless one is
    answered and its pick is returned *)
Example first_answer_demo :
  fst (try_search_variants demo_provider (txt "The Movie") (Some 2019%Z) false)
  = Some (movie_titled "The Movie" "2019-03-01" false, txt "The Movie")
  /\ sent (snd (try_search_variants demo_provider (txt "The Movie") (Some 2019%Z) false))
     = [ {| sq_title := txt "The Movie"; sq_year := Some 2019%Z |};
         {| sq_title := txt "The Movie"; sq_year := Some 2018%Z |};
         {| sq_title := txt "The Movie"; sq_year := Some 2020%Z |};
         {| sq_title := txt "The Movie"; sq_year := Some 2017%Z |};
         {| sq_title := txt "The Movie"; sq_year := Some 2021%Z |};
         {| sq_title := txt "The Movie"; sq_year := None |} ].
Proof. vm_compute. split; reflexivity. Qed.

(** ** Words of a text *)

Lemma split_ws_lstrip s : split_ws (lstrip s) = split_ws s.
Proof.
  induction s as [|c s IH]; simpl; [reflexivity|].
  destruct (is_space c) eqn:E; [exact IH|]. simpl. rewrite E. reflexivity.
Qed.

Lemma rstrip_nil_head c s : rstrip (c :: s) = [] -> is_space c = true.
Proof.
  simpl. destruct (rstrip s); [|discriminate]. destruct (is_space c); [reflexivity | discriminate].
Qed.

Lemma rstrip_head c s r : rstrip (c :: s) = r -> r <> [] -> hd_error r = Some c.
Proof.
  simpl. destruct (rstrip s).
  - destruct (is_space c); intros <-; [congruence | reflexivity].
  - intros <- _. reflexivity.
Qed.

Lemma split_ws_cons_word c s s' :
  is_space c = false -> hd_error s = hd_error s' -> split_ws s = split_ws s' ->
  split_ws (c :: s) = split_ws (c :: s').
Proof.
  intros Hc Hh Hs. simpl. rewrite Hc.
  destruct s as [|a s]; destruct s' as [|a' s']; simpl in Hh; try discriminate; auto.
  injection Hh as ->. rewrite Hs. reflexivity.
Qed.

Lemma split_ws_nil_head c s : split_ws (c :: s) = [] -> is_space c = true.
Proof.
  simpl. destruct (is_space c); [reflexivity|].
  destruct s as [|c' s]; [discriminate|].
  destruct (is_space c'); [discriminate|]. destruct (split_ws (c' :: s)); discriminate.
Qed.

Lemma split_ws_rstrip s : split_ws (rstrip s) = split_ws s.
Proof.
  induction s as [|c s IH]; [reflexivity|].
  destruct (rstrip s) as [|a r] eqn:Hr.
  - simpl rstrip. rewrite Hr. simpl in IH.
    destruct (is_space c) eqn:E.
    + simpl. rewrite E. exact IH.
    + simpl. rewrite E. destruct s as [|c' s]; [reflexivity|].
      rewrite (rstrip_nil_head _ _ Hr). rewrite <- IH. reflexivity.
  - simpl rstrip. rewrite Hr.
    destruct (is_space c) eqn:E.
    + simpl. rewrite E. exact IH.
    + apply split_ws_cons_word; auto.
      destruct s as [|c' s]; [discriminate|].
      rewrite (rstrip_head c' s (a :: r) Hr); [reflexivity | discriminate].
Qed.

Lemma split_ws_strip s : split_ws (strip s) = split_ws s.
Proof. unfold strip. rewrite split_ws_rstrip. apply split_ws_lstrip. Qed.

Lemma sub_runs_from_head b s :
  match s with
  | [] => sub_runs_from is_space b s = []
  | c :: _ =>
      if is_space c
      then (b = false -> exists r, sub_runs_from is_space b s = " " :: r)
      else exists r, sub_runs_from is_space b s = c :: r
  end.
Proof.
  destruct s as [|c s]; simpl; [reflexivity|].
  destruct (is_space c); [intros ->|]; eauto.
Qed.

Lemma split_ws_collapse_from b s :
  split_ws (sub_runs_from is_space b s) = split_ws s.
Proof.
  revert b. induction s as [|c s IH]; intros b; simpl; [reflexivity|].
  destruct (is_space c) eqn:E.
  - destruct b; [apply IH|]. simpl. rewrite (IH true). reflexivity.
  - simpl. rewrite E. rewrite (IH false).
    pose proof (sub_runs_from_head false s) as Hh.
    destruct s as [|c' s]; [rewrite Hh; reflexivity|].
    destruct (is_space c') eqn:E'.
    + destruct (Hh eq_refl) as (r & ->). reflexivity.
    + destruct Hh as (r & Hr). rewrite Hr, E'. reflexivity.
Qed.

Lemma split_ws_collapse s : split_ws (collapse_ws s) = split_ws s.
Proof. apply split_ws_collapse_from. Qed.

Lemma rstrip_length s : (length (rstrip s) <= length s)%nat.
Proof.
  induction s as [|c s IH]; simpl; [lia|].
  destruct (rstrip s); [destruct (is_space c)|]; simpl in *; lia.
Qed.

Lemma rstrip_app_blank a b : rstrip b = [] -> rstrip (a ++ b) = rstrip a.
Proof.
  intros Hb. induction a as [|c a IH]; simpl; [exact Hb|]. rewrite IH. reflexivity.
Qed.

Lemma split_ws_nil_rstrip s : split_ws s = [] -> rstrip s = [].
Proof.
  induction s as [|c s IH]; [reflexivity|]. intros H.
  pose proof (split_ws_nil_head _ _ H) as Hc. simpl in H. rewrite Hc in H.
  simpl. rewrite (IH H), Hc. reflexivity.
Qed.

Lemma split_ws_cons c s :
  split_ws (c :: s) =
  if is_space c then split_ws s
  else match s with
       | [] => [[c]]
       | c' :: _ =>
           if is_space c' then [c] :: split_ws s
           else match split_ws s with
                | w :: ws => (c :: w) :: ws
                | [] => [[c]]
                end
       end.
Proof. reflexivity. Qed.

Lemma split_ws_word_then_blank_cons w a c r :
  is_space a = false -> (forall x, In x w -> is_space x = false) -> is_space c = true ->
  split_ws (a :: w ++ c :: r) = (a :: w) :: split_ws r.
Proof.
  intros Ha Hw Hc. revert a Ha. induction w as [|b w IH]; intros a Ha.
  - rewrite split_ws_cons, Ha. cbn [app]. rewrite Hc.
    rewrite (split_ws_cons c r), Hc. reflexivity.
  - assert (Hb : is_space b = false) by (apply Hw; left; reflexivity).
    rewrite split_ws_cons, Ha. cbn [app]. rewrite Hb.
    rewrite IH; [reflexivity | intros x Hx; apply Hw; right; exact Hx | exact Hb].
Qed.

Lemma split_ws_word_then_blank w c r :
  w <> [] -> (forall x, In x w -> is_space x = false) -> is_space c = true ->
  split_ws (w ++ c :: r) = w :: split_ws r.
Proof.
  intros Hne Hw Hc. destruct w as [|a w]; [congruence|].
  apply split_ws_word_then_blank_cons; auto.
  - apply Hw. left. reflexivity.
  - intros x Hx. apply Hw. right. exact Hx.
Qed.

(** a text that does not start with a blank starts with its first word,
    and a blank follows when more words come *)
Lemma first_word_decomposition t w w2 rest :
  (forall c r, t = c :: r -> is_space c = false) ->
  split_ws t = w :: w2 :: rest ->
  exists c r, t = w ++ c :: r /\ is_space c = true.
Proof.
  revert w. induction t as [|a t IH]; intros w Hhd Hs; [discriminate|].
  pose proof (Hhd a t eq_refl) as Ha. simpl in Hs. rewrite Ha in Hs.
  destruct t as [|b t]; [discriminate|].
  destruct (is_space b) eqn:Hb.
  - injection Hs as <- _. exists b, t. auto.
  - destruct (split_ws (b :: t)) as [|w' ws'] eqn:Hw'; [discriminate|].
    injection Hs as <- ->.
    destruct (IH w') as (c & r & Ht & Hc).
    + intros c r [= <- <-]. exact Hb.
    + reflexivity.
    + exists c, r. rewrite Ht. auto.
Qed.

Lemma drop_prefix_ws_some art t r :
  drop_prefix_ws art t = Some r ->
  exists c r', t = art ++ c :: r' /\ is_space c = true /\ r = lstrip r'.
Proof.
  unfold drop_prefix_ws. destruct (starts_with art t) eqn:Hs; [|discriminate].
  apply starts_with_prefix in Hs as [suffix ->].
  rewrite skipn_app, Nat.sub_diag, skipn_all. simpl.
  destruct suffix as [|c r']; [discriminate|].
  destruct (is_space c) eqn:Hc; [|discriminate]. intros [= <-]. eauto.
Qed.

Lemma drop_prefix_ws_none art t c r' :
  drop_prefix_ws art t = None -> t = art ++ c :: r' -> is_space c = true -> False.
Proof.
  unfold drop_prefix_ws. intros H -> Hc.
  rewrite (proj2 (starts_with_prefix art (art ++ c :: r'))) in H by eauto.
  rewrite skipn_app, Nat.sub_diag, skipn_all in H. simpl in H. rewrite Hc in H. discriminate.
Qed.

Lemma article_words t art c r' :
  is_article art = true ->
  rstrip t = t -> t = art ++ c :: r' -> is_space c = true ->
  split_ws (lstrip r') = without_leading_article (split_ws t).
Proof.
  intros Hart Hr Ht Hc.
  assert (Hw : art <> [] /\ forall x, In x art -> is_space x = false).
  { unfold is_article, mem_text in Hart. simpl in Hart.
    repeat rewrite orb_true_iff in Hart.
    destruct Hart as [H|[H|[H|H]]]; try discriminate;
      apply text_eqb_eq in H; subst art; (split; [discriminate|]);
      intros x Hx; simpl in Hx; repeat destruct Hx as [<-|Hx]; try reflexivity; contradiction. }
  destruct Hw as (Hne & Hns).
  rewrite split_ws_lstrip. rewrite Ht at 1.
  rewrite split_ws_word_then_blank; auto.
  destruct (split_ws r') as [|w2 rest] eqn:Hr'.
  - exfalso. apply split_ws_nil_rstrip in Hr'.
    assert (Hb : rstrip (c :: r') = []) by (simpl; rewrite Hr', Hc; reflexivity).
    pose proof (rstrip_app_blank art _ Hb) as Happ. rewrite <- Ht, Hr in Happ.
    pose proof (rstrip_length art) as Hlen. rewrite <- Happ, Ht in Hlen.
    rewrite length_app in Hlen. simpl in Hlen. lia.
  - simpl. rewrite Hart. reflexivity.
Qed.

Lemma split_ws_drop_article t :
  (forall c r, t = c :: r -> is_space c = false) -> rstrip t = t ->
  split_ws (drop_article t) = without_leading_article (split_ws t).
Proof.
  intros Hhd Hr. unfold drop_article.
  destruct (drop_prefix_ws (txt "the") t) as [r|] eqn:H1.
  { apply drop_prefix_ws_some in H1 as (c & r' & Ht & Hc & ->).
    apply (article_words t (txt "the") c r'); auto. }
  destruct (drop_prefix_ws (txt "a") t) as [r|] eqn:H2.
  { apply drop_prefix_ws_some in H2 as (c & r' & Ht & Hc & ->).
    apply (article_words t (txt "a") c r'); auto. }
  destruct (drop_prefix_ws (txt "an") t) as [r|] eqn:H3.
  { apply drop_prefix_ws_some in H3 as (c & r' & Ht & Hc & ->).
    apply (article_words t (txt "an") c r'); auto. }
  destruct (split_ws t) as [|w [|w2 rest]] eqn:Hs; try reflexivity.
  simpl. destruct (is_article w) eqn:Hart; [|reflexivity]. exfalso.
  destruct (first_word_decomposition t w w2 rest Hhd Hs) as (c & r & Ht & Hc).
  unfold is_article, mem_text in Hart. simpl in Hart.
  repeat rewrite orb_true_iff in Hart.
  destruct Hart as [H|[H|[H|H]]]; try discriminate; apply text_eqb_eq in H; subst w.
  - exact (drop_prefix_ws_none _ _ _ _ H1 Ht Hc).
  - exact (drop_prefix_ws_none _ _ _ _ H2 Ht Hc).
  - exact (drop_prefix_ws_none _ _ _ _ H3 Ht Hc).
Qed.

Lemma rstrip_idempotent s : rstrip (rstrip s) = rstrip s.
Proof.
  induction s as [|c s IH]; [reflexivity|]. simpl.
  destruct (rstrip s) as [|a r] eqn:Hr.
  - destruct (is_space c) eqn:Hc; [reflexivity|]. simpl. rewrite Hc. reflexivity.
  - simpl in *. rewrite IH. reflexivity.
Qed.

Lemma lstrip_head s c r : lstrip s = c :: r -> is_space c = false.
Proof.
  induction s as [|a s IH]; simpl; [discriminate|].
  destruct (is_space a) eqn:Ha; [exact IH|]. intros [= <- _]. exact Ha.
Qed.

Lemma strip_head s c r : strip s = c :: r -> is_space c = false.
Proof.
  unfold strip. intros H. destruct (lstrip s) as [|a l] eqn:Hl; [discriminate|].
  pose proof (rstrip_head a l (c :: r) H) as Hh. simpl in Hh.
  assert (Some c = Some a) by (apply Hh; discriminate).
  injection H0 as ->. eapply lstrip_head; eauto.
Qed.

Lemma strip_rstrip s : rstrip (strip s) = strip s.
Proof. unfold strip. apply rstrip_idempotent. Qed.

(** the token set of the code is the token set of the specification *)
Lemma _token_set_spec title : _token_set title = token_set title.
Proof.
  unfold _token_set, token_set, _norm_title. cbv zeta. f_equal.
  rewrite split_ws_drop_article.
  - rewrite split_ws_strip, split_ws_collapse. reflexivity.
  - intros c r H. eapply strip_head; eauto.
  - apply strip_rstrip.
Qed.

(** ** The score formula *)

Lemma dedup_NoDup l : NoDup (dedup l).
Proof. apply NoDup_nodup. Qed.

Lemma mem_text_In w l : mem_text w l = true <-> In w l.
Proof.
  unfold mem_text. rewrite existsb_exists. split.
  - intros (x & Hx & He). apply text_eqb_eq in He. subst. exact Hx.
  - intros H. exists w. split; [exact H | apply text_eqb_refl].
Qed.

Lemma inter_size_set_inter qs cs :
  inter_size qs cs = length (set_inter text_dec qs cs).
Proof.
  unfold inter_size. f_equal. induction qs as [|q qs IH]; simpl; [reflexivity|].
  assert (H : mem_text q cs = set_mem text_dec q cs).
  { destruct (set_mem text_dec q cs) eqn:E.
    - apply mem_text_In. apply (set_mem_correct1 text_dec). exact E.
    - destruct (mem_text q cs) eqn:E'; auto. apply mem_text_In in E'.
      apply (set_mem_complete1 text_dec) in E. contradiction. }
  rewrite H. destruct (set_mem text_dec q cs); rewrite IH; reflexivity.
Qed.

Lemma union_size_set_union qs cs :
  NoDup qs -> NoDup cs -> union_size qs cs = length (set_union text_dec qs cs).
Proof.
  intros Hq Hc. unfold union_size. apply Permutation_length.
  apply NoDup_Permutation.
  - apply dedup_NoDup.
  - apply set_union_nodup; assumption.
  - intros w. unfold dedup. rewrite nodup_In, in_app_iff, set_union_iff. reflexivity.
Qed.

Lemma inter_le_union qs cs :
  NoDup qs -> NoDup cs ->
  (length (set_inter text_dec qs cs) <= length (set_union text_dec qs cs))%nat.
Proof.
  intros Hq Hc. apply NoDup_incl_length.
  - apply set_inter_nodup; assumption.
  - intros w Hw. apply set_inter_iff in Hw. apply set_union_iff. tauto.
Qed.

(** the quotient the code computes is the Jaccard index of the token sets *)
Lemma jaccard_of_sizes qs cs :
  NoDup qs -> NoDup cs ->
  Z.of_nat (inter_size qs cs) # Pos.of_nat (Nat.max 1 (union_size qs cs)) == jaccard qs cs.
Proof.
  intros Hq Hc. unfold jaccard.
  rewrite inter_size_set_inter, union_size_set_union by assumption.
  pose proof (inter_le_union qs cs Hq Hc) as Hle.
  set (i := length (set_inter text_dec qs cs)) in *.
  set (u := length (set_union text_dec qs cs)) in *.
  destruct u as [|u'].
  - assert (i = 0)%nat by lia. subst i. rewrite H. reflexivity.
  - replace (Nat.max 1 (S u')) with (S u') by lia.
    rewrite (Qmake_Qdiv (Z.of_nat i) (Pos.of_nat (S u'))).
    replace (Z.pos (Pos.of_nat (S u'))) with (Z.of_nat (S u')) by lia. reflexivity.
Qed.

Lemma is_infix_substring a b : is_infix a b = true <-> substring a b.
Proof.
  unfold substring. induction b as [|c b IH]; simpl.
  - rewrite orb_false_r, starts_with_prefix. split.
    + intros (suffix & H). exists [], suffix. exact H.
    + intros (pre & post & H). destruct pre; [|discriminate]. eauto.
  - rewrite orb_true_iff, starts_with_prefix, IH. split.
    + intros [(suffix & H) | (pre & post & H)].
      * exists [], suffix. exact H.
      * exists (c :: pre), post. rewrite H. reflexivity.
    + intros (pre & post & H). destruct pre as [|x pre].
      * left. eauto.
      * right. injection H as _ H. eauto.
Qed.

Lemma colon_variant_bonus_spec qtitle ctitle :
  (colon_variant qtitle ctitle -> colon_variant_bonus qtitle ctitle = 0.08)
  /\ (~ colon_variant qtitle ctitle -> colon_variant_bonus qtitle ctitle = 0).
Proof.
  unfold colon_variant, colon_variant_bonus.
  destruct (is_infix (colon_stripped qtitle) (colon_stripped ctitle)) eqn:E1;
    destruct (is_infix (colon_stripped ctitle) (colon_stripped qtitle)) eqn:E2; simpl;
    split; intros H; try reflexivity; exfalso.
  - apply H. left. apply is_infix_substring. exact E1.
  - apply H. left. apply is_infix_substring. exact E1.
  - apply H. right. apply is_infix_substring. exact E2.
  - destruct H as [H|H]; apply is_infix_substring in H; congruence.
Qed.

Lemma _year_score_year_term qyear cyear : _year_score qyear cyear = year_term qyear cyear.
Proof.
  unfold _year_score, year_term, year_term_as_stated, truthy_int.
  destruct qyear as [q|], cyear as [c|]; try reflexivity.
  destruct (q =? 0)%Z, (c =? 0)%Z; simpl; try reflexivity.
  destruct (Z.abs (q - c) =? 0)%Z eqn:E0; [reflexivity|].
  destruct (Z.abs (q - c) =? 1)%Z eqn:E1.
  - apply Z.eqb_eq in E1. rewrite E1. reflexivity.
  - destruct (Z.abs (q - c) <=? 1)%Z eqn:E1'; [|reflexivity].
    apply Z.leb_le in E1'. apply Z.eqb_neq in E0, E1. lia.
Qed.

(** C3, as amended.  The score is the Jaccard index of the two token sets
    plus the year term, the poster bonus and the colon-variant bonus; the
    token set of a title is the set of words of the lower-cased title with
    punctuation read as blanks and one leading article dropped; the bonus is
    0.08 exactly when one normalised colon-free title occurs in the other;
    and the year term treats a year of 0 like an absent year. *)
Theorem sim_score_formula (qtitle ctitle : text) (qyear cyear : option Z) (has_poster : bool) :
  _sim_score qtitle ctitle qyear cyear has_poster
  == jaccard (token_set qtitle) (token_set ctitle)
     + year_term qyear cyear + poster_bonus has_poster + colon_variant_bonus qtitle ctitle
  /\ (colon_variant qtitle ctitle -> colon_variant_bonus qtitle ctitle = 0.08)
  /\ (~ colon_variant qtitle ctitle -> colon_variant_bonus qtitle ctitle = 0)
  /\ (qyear <> Some 0%Z -> cyear <> Some 0%Z ->
      year_term qyear cyear = year_term_as_stated qyear cyear).
Proof.
  split; [|split; [apply colon_variant_bonus_spec|split; [apply colon_variant_bonus_spec|]]].
  - unfold _sim_score. cbv zeta.
    rewrite jaccard_of_sizes by (unfold _token_set; apply dedup_NoDup).
    rewrite !_token_set_spec, _year_score_year_term.
    unfold poster_bonus, colon_variant_bonus, colon_stripped. reflexivity.
  - intros Hq Hc. unfold year_term. destruct qyear as [q|], cyear as [c|]; try reflexivity.
    destruct (q =? 0)%Z eqn:E1; [apply Z.eqb_eq in E1; congruence|].
    destruct (c =? 0)%Z eqn:E2; [apply Z.eqb_eq in E2; congruence|]. reflexivity.
Qed.

Lemma sim_score_formula_witness :
  year_term (Some 2019%Z) (Some 2018%Z) = year_term_as_stated (Some 2019%Z) (Some 2018%Z).
Proof.
  apply (sim_score_formula (txt "The Movie") (txt "Movie, The") (Some 2019%Z) (Some 2018%Z) true);
    discriminate.
Defined.

(** C3, as stated, fails for a candidate year of 0: the code scores the
    year term 0 where the stated formula gives -0.10. *)
Lemma sim_score_year_zero_counterexample :
  ~ (_sim_score (txt "Alien") (txt "Alien") (Some 1979%Z) (Some 0%Z) false
     == score_as_stated (txt "Alien") (txt "Alien") (Some 1979%Z) (Some 0%Z) false).
Proof. vm_compute. discriminate. Qed.

Example sim_score_values :
  Qred (_sim_score (txt "The Movie") (txt "The Movie") (Some 2019%Z) (Some 2019%Z) false) = 1.33
  /\ Qred (_sim_score (txt "The Movie") (txt "The Movie Part 2") (Some 2019%Z) (Some 2019%Z) false)
     = Qred ((1 # 3) + 0.25 + 0.08)
  /\ Qred (_sim_score (txt "Alien") (txt "Alien") (Some 1979%Z) (Some 0%Z) false) = Qred 1.08
  /\ Qred (score_as_stated (txt "Alien") (txt "Alien") (Some 1979%Z) (Some 0%Z) false) = Qred 0.98.
Proof. vm_compute. repeat split. Qed.

(** ** Field merges of the enrichment cache *)

Lemma nonempty_true {A : Type} (l : list A) : l <> [] -> nonempty l = true.
Proof. destruct l; [congruence | reflexivity]. Qed.

Lemma image_url_nonempty size path : image_url size path <> [].
Proof. unfold image_url. vm_compute. discriminate. Qed.

Lemma merge_best_movie_details c best :
  let c' := merge_best_movie c best in
  me_genres c' = me_genres c /\ me_runtime c' = me_runtime c /\ me_vote c' = me_vote c
  /\ me_certification c' = me_certification c /\ me_cast c' = me_cast c
  /\ me_backdrop_url c' = me_backdrop_url c /\ me_tagline c' = me_tagline c.
Proof. destruct best; simpl; repeat split; reflexivity. Qed.

Lemma merge_best_movie_identity c best :
  identity_not_emptied_movie c (merge_best_movie c best).
Proof.
  unfold identity_not_emptied_movie. destruct best as [b|]; simpl; [|tauto]. split.
  - intros H. destruct (truthy_int (mr_id b)) eqn:E; assumption.
  - intros H. destruct (mr_poster_path b) as [[|ch pp]|]; auto. apply image_url_nonempty.
Qed.

Lemma merge_details_movie_kept c det : details_kept_movie c (merge_details_movie c det).
Proof.
  unfold details_kept_movie, merge_details_movie. simpl. repeat split; intros H.
  - rewrite (nonempty_true _ H). reflexivity.
  - destruct (me_runtime c); [reflexivity | congruence].
  - destruct (me_vote c); [reflexivity | congruence].
  - rewrite H. reflexivity.
  - rewrite (nonempty_true _ H). reflexivity.
  - rewrite (nonempty_true _ H). destruct (md_backdrop_path det) as [[|ch bp]|]; reflexivity.
Qed.

Lemma fetch_details_movie_kept prov need c :
  details_kept_movie c (fetch_details_movie prov need c)
  /\ me_movie_id (fetch_details_movie prov need c) = me_movie_id c
  /\ me_poster_url (fetch_details_movie prov need c) = me_poster_url c
  /\ me_overview (fetch_details_movie prov need c) = me_overview c.
Proof.
  unfold fetch_details_movie.
  destruct (needs_details_fetch_movie need c);
    [destruct (me_movie_id c) as [mid|] eqn:Hid;
     [destruct (p_movie_details prov mid) as [det|]|]|];
    try (split; [unfold details_kept_movie; tauto | auto]).
  split; [apply merge_details_movie_kept | simpl; auto].
Qed.

Lemma enrich_movie_entry_merge prov item c :
  details_kept_movie c (fst (enrich_movie_entry prov item c))
  /\ identity_not_emptied_movie c (fst (enrich_movie_entry prov item c)).
Proof.
  unfold enrich_movie_entry.
  set (bq := if needs_search_movie c then _ else _).
  destruct bq as [best requests]. simpl fst.
  destruct (merge_best_movie_details c best) as (G & R & V & C & A & B & T).
  destruct (fetch_details_movie_kept prov (need_details_movie c) (merge_best_movie c best))
    as ((G' & R' & V' & C' & A' & B') & I' & P' & _).
  pose proof (merge_best_movie_identity c best) as (I & P).
  split.
  - unfold details_kept_movie.
    rewrite G in G'. rewrite R in R'. rewrite V in V'. rewrite C in C'.
    rewrite A in A'. rewrite B in B'. tauto.
  - unfold identity_not_emptied_movie. rewrite I', P'. tauto.
Qed.

Lemma merge_best_tv_details c best :
  let c' := merge_best_tv c best in
  te_genres c' = te_genres c /\ te_vote c' = te_vote c /\ te_cast c' = te_cast c
  /\ te_backdrop_url c' = te_backdrop_url c /\ te_tagline c' = te_tagline c.
Proof. destruct best; simpl; repeat split; reflexivity. Qed.

Lemma merge_best_tv_identity c best : identity_not_emptied_tv c (merge_best_tv c best).
Proof.
  unfold identity_not_emptied_tv. destruct best as [b|]; simpl; [|tauto]. split.
  - intros H. destruct (truthy_int (tr_id b)) eqn:E; assumption.
  - intros H. destruct (tr_poster_path b) as [[|ch pp]|]; auto. apply image_url_nonempty.
Qed.

Lemma fetch_details_tv_kept prov need c :
  details_kept_tv c (fetch_details_tv prov need c)
  /\ te_tv_id (fetch_details_tv prov need c) = te_tv_id c
  /\ te_poster_url (fetch_details_tv prov need c) = te_poster_url c.
Proof.
  unfold fetch_details_tv.
  destruct (truthy_int (te_tv_id c) && _);
    [destruct (te_tv_id c) as [tvid|] eqn:Hid;
     [destruct (p_tv_details prov tvid) as [det|]|]|];
    try (split; [unfold details_kept_tv; tauto | auto]).
  split; [|simpl; auto].
  unfold details_kept_tv, merge_details_tv. simpl. repeat split; intros H.
  - rewrite (nonempty_true _ H). reflexivity.
  - destruct (te_vote c); [reflexivity | congruence].
  - rewrite (nonempty_true _ H). reflexivity.
  - rewrite (nonempty_true _ H). destruct (td_backdrop_path det) as [[|ch bp]|]; reflexivity.
Qed.

Lemma enrich_tv_entry_merge prov title c :
  details_kept_tv c (enrich_tv_entry prov title c)
  /\ identity_not_emptied_tv c (enrich_tv_entry prov title c).
Proof.
  unfold enrich_tv_entry.
  set (best := if needs_search_tv c then _ else _).
  destruct (merge_best_tv_details c best) as (G & V & A & B & T).
  destruct (fetch_details_tv_kept prov (need_details_tv c) (merge_best_tv c best))
    as ((G' & V' & A' & B') & I' & P').
  pose proof (merge_best_tv_identity c best) as (I & P).
  split.
  - unfold details_kept_tv.
    rewrite G in G'. rewrite V in V'. rewrite A in A'. rewrite B in B'. tauto.
  - unfold identity_not_emptied_tv. rewrite I', P'. tauto.
Qed.

(** C2, as amended.  For movie-like entries the merges of genres, runtime,
    rating, certification, cast and backdrop, and for shows those of genres,
    rating, cast and backdrop, are fill-if-empty: a value that is set is
    never changed.  The provider id and the poster URL, once set, are never
    replaced by an empty value. *)
Theorem details_merge_is_fill_if_empty :
  (forall (prov : provider) (item : catalog_item) (c : movie_entry),
      details_kept_movie c (fst (enrich_movie_entry prov item c))
      /\ identity_not_emptied_movie c (fst (enrich_movie_entry prov item c)))
  /\ (forall (prov : provider) (title : text) (c : tv_entry),
      details_kept_tv c (enrich_tv_entry prov title c)
      /\ identity_not_emptied_tv c (enrich_tv_entry prov title c)).
Proof.
  split.
  - apply enrich_movie_entry_merge.
  - apply enrich_tv_entry_merge.
Qed.

Lemma details_merge_is_fill_if_empty_witness :
  me_genres (fst (enrich_movie_entry fresh_provider the_movie stale_entry))
  = me_genres stale_entry.
Proof.
  apply (proj1 (proj1 (proj1 details_merge_is_fill_if_empty fresh_provider the_movie stale_entry))).
  discriminate.
Defined.

(** C2, as stated, fails: a search that is run because the record still
    lacks a certification replaces the id, the poster URL and the overview
    that are set by the values of the fresh match. *)
Lemma populated_fields_overwritten :
  me_overview stale_entry = txt "An old overview."
  /\ me_overview (fst (enrich_movie_entry fresh_provider the_movie stale_entry))
     = txt "A new overview."
  /\ me_movie_id stale_entry = Some 11%Z
  /\ me_movie_id (fst (enrich_movie_entry fresh_provider the_movie stale_entry)) = Some 12%Z
  /\ me_poster_url stale_entry = image_url POSTER_SIZE (txt "/old.jpg")
  /\ me_poster_url (fst (enrich_movie_entry fresh_provider the_movie stale_entry))
     = image_url POSTER_SIZE (txt "/new.jpg").
Proof. vm_compute. repeat split. Qed.

(** in [enrich_shows] the first-air year is assigned from the match without
    a guard: a match without a date empties a year that was set *)
Example first_year_emptied :
  te_first_year dated_show = Some 2008%Z
  /\ te_first_year (enrich_tv_entry undated_provider (txt "Show Name") dated_show) = None.
Proof. vm_compute. split; reflexivity. Qed.

(** ** Idempotence of the enrichment pass *)

Lemma lstrip_fixed s : (forall c r, s = c :: r -> is_space c = false) -> lstrip s = s.
Proof.
  destruct s as [|c s]; [reflexivity|]. intros H. simpl. rewrite (H c s eq_refl). reflexivity.
Qed.

Lemma strip_idempotent s : strip (strip s) = strip s.
Proof.
  unfold strip at 1. rewrite (lstrip_fixed (strip s)).
  - apply strip_rstrip.
  - intros c r H. eapply strip_head; eauto.
Qed.

Lemma merge_best_movie_fixed c c2 best :
  me_movie_id c2 = me_movie_id (merge_best_movie c best) ->
  me_poster_url c2 = me_poster_url (merge_best_movie c best) ->
  me_overview c2 = me_overview (merge_best_movie c best) ->
  merge_best_movie c2 best = c2.
Proof.
  destruct best as [b|]; [|reflexivity]. simpl. intros Hi Hp Ho.
  destruct c2 as [i2 p2 o2 g2 r2 v2 ce2 ca2 b2 t2]. simpl in *. subst i2 p2 o2.
  f_equal.
  - destruct (truthy_int (mr_id b)); reflexivity.
  - destruct (mr_poster_path b) as [[|ch pp]|]; reflexivity.
  - destruct (mr_overview b) as [[|ch ov]|]; simpl; rewrite ?strip_idempotent; reflexivity.
Qed.

Lemma extract_cert_truthy rd c :
  extract_cert_from_movie_release_dates rd = Some c -> c <> [].
Proof.
  induction rd as [|[iso rels] rd IH]; simpl; [discriminate|].
  assert (Hf : forall x, first_certification rels = Some x -> x <> []).
  { induction rels as [|r rels IHr]; simpl; [discriminate|].
    destruct (strip r); [exact IHr | intros x [= <-]; discriminate]. }
  destruct (text_eqb iso _); [|exact IH].
  destruct (first_certification rels) as [x|] eqn:E; [|exact IH].
  intros [= <-]. apply Hf. reflexivity.
Qed.

Lemma merge_details_movie_idempotent c det :
  merge_details_movie (merge_details_movie c det) det = merge_details_movie c det.
Proof.
  unfold merge_details_movie.
  cbn [me_movie_id me_poster_url me_overview me_genres me_runtime me_vote
       me_certification me_cast me_backdrop_url me_tagline].
  f_equal.
  - destruct (nonempty (me_genres c)) eqn:E; [rewrite E; reflexivity|].
    destruct (nonempty (names_of (md_genres det))); reflexivity.
  - destruct (me_runtime c); [reflexivity|]. destruct (md_runtime det); reflexivity.
  - destruct (me_vote c); [reflexivity|]. destruct (md_vote_average det); reflexivity.
  - destruct (truthy_text (me_certification c)) eqn:E; [rewrite E; reflexivity|].
    destruct (truthy_text (extract_cert_from_movie_release_dates (md_release_dates det)));
      reflexivity.
  - destruct (nonempty (me_cast c)) eqn:E; [rewrite E; reflexivity|].
    destruct (nonempty (firstn 5 (names_of (md_cast det)))); reflexivity.
  - destruct (md_backdrop_path det) as [[|ch bp]|]; try reflexivity.
    destruct (nonempty (me_backdrop_url c)) eqn:E; [rewrite E; reflexivity|].
    destruct (nonempty (image_url BACKDROP_SIZE (ch :: bp))); reflexivity.
  - destruct (md_tagline det) as [[|ch tg]|]; cbn [text_or];
      rewrite ?strip_idempotent; reflexivity.
Qed.

(** once nothing is missing the record stays complete; this is where the
    cache invariant is used *)
Lemma need_details_after_merge c det :
  entry_wf c -> need_details_movie c = false ->
  need_details_movie (merge_details_movie c det) = false.
Proof.
  unfold need_details_movie, entry_wf. intros Hwf H.
  apply negb_false_iff in H. repeat rewrite andb_true_iff in H.
  destruct H as ((((Hg & Hr) & Hv) & Hc) & Ha).
  apply negb_false_iff. unfold merge_details_movie.
  cbn [me_genres me_runtime me_vote me_certification me_cast].
  rewrite Hg, Ha.
  destruct (me_runtime c); [|discriminate]. destruct (me_vote c); [|discriminate].
  destruct (me_certification c) as [[|ch ce]|];
    [exfalso; apply Hwf; reflexivity | | discriminate].
  cbn [truthy_text is_some]. rewrite ?Hg, ?Ha. reflexivity.
Qed.

Lemma need_details_merge_best c best :
  need_details_movie (merge_best_movie c best) = need_details_movie c.
Proof. destruct best; reflexivity. Qed.

Lemma fetch_details_movie_cases prov need c :
  (fetch_details_movie prov need c = c
   /\ (needs_details_fetch_movie need c = false
       \/ exists mid, me_movie_id c = Some mid /\ p_movie_details prov mid = None))
  \/ (exists mid det,
        needs_details_fetch_movie need c = true
        /\ me_movie_id c = Some mid /\ p_movie_details prov mid = Some det
        /\ fetch_details_movie prov need c = merge_details_movie c det).
Proof.
  unfold fetch_details_movie.
  destruct (needs_details_fetch_movie need c) eqn:E; [|left; auto].
  destruct (me_movie_id c) as [mid|] eqn:Hid.
  - destruct (p_movie_details prov mid) as [det|] eqn:Hd.
    + right. exists mid, det. auto.
    + left. split; [reflexivity|]. right. exists mid. auto.
  - unfold needs_details_fetch_movie in E. rewrite Hid in E. discriminate.
Qed.

Lemma fetch_details_movie_stable prov need need2 c :
  let c2 := fetch_details_movie prov need c in
  (needs_details_fetch_movie need c = false -> needs_details_fetch_movie need2 c = false) ->
  fetch_details_movie prov need2 c2 = c2.
Proof.
  intros c2 Hcond. subst c2.
  destruct (fetch_details_movie_cases prov need c)
    as [(Heq & [Hno | (mid & Hid & Hd)]) | (mid & det & Hc & Hid & Hd & Heq)].
  - rewrite Heq. unfold fetch_details_movie. rewrite (Hcond Hno). reflexivity.
  - rewrite Heq. unfold fetch_details_movie. rewrite Hid, Hd.
    destruct (needs_details_fetch_movie need2 c); reflexivity.
  - rewrite Heq. unfold fetch_details_movie at 1.
    destruct (needs_details_fetch_movie need2 (merge_details_movie c det)); [|reflexivity].
    change (me_movie_id (merge_details_movie c det)) with (me_movie_id c).
    rewrite Hid, Hd. apply merge_details_movie_idempotent.
Qed.

Lemma need_details_after_fetch prov c :
  entry_wf c -> need_details_movie c = false ->
  need_details_movie (fetch_details_movie prov false c) = false.
Proof.
  intros Hwf Hn.
  destruct (fetch_details_movie_cases prov false c)
    as [(Heq & _) | (mid & det & _ & _ & _ & Heq)]; rewrite Heq; auto.
  apply need_details_after_merge; auto.
Qed.

(** the record written for an item is a fixed point of the item's update *)
Lemma enrich_movie_entry_idempotent prov item c :
  entry_wf c ->
  fst (enrich_movie_entry prov item (fst (enrich_movie_entry prov item c)))
  = fst (enrich_movie_entry prov item c).
Proof.
  intros Hwf. unfold enrich_movie_entry.
  set (B := try_search_variants prov (ci_title item) (ci_year item) false).
  destruct B as [res st].
  set (best := option_map fst res).
  assert (Hf : forall c0,
             (let '(best0, requests) :=
                if needs_search_movie c0 then (best, sent st) else (None, []) in
              (fetch_details_movie prov (need_details_movie c0) (merge_best_movie c0 best0),
               requests))
             = (fetch_details_movie prov (need_details_movie c0)
                  (merge_best_movie c0 (if needs_search_movie c0 then best else None)),
                if needs_search_movie c0 then sent st else [])).
  { intros c0. destruct (needs_search_movie c0); reflexivity. }
  rewrite !Hf. simpl fst. clear Hf.
  remember (merge_best_movie c (if needs_search_movie c then best else None)) as c1 eqn:Hc1.
  remember (fetch_details_movie prov (need_details_movie c) c1) as c2 eqn:Hc2.
  destruct (fetch_details_movie_kept prov (need_details_movie c) c1) as (_ & Hid & Hp & Ho).
  rewrite <- Hc2 in Hid, Hp, Ho.
  assert (Hm : merge_best_movie c2 (if needs_search_movie c2 then best else None) = c2).
  { destruct (needs_search_movie c2) eqn:E2; [|reflexivity].
    destruct (needs_search_movie c) eqn:Es.
    - apply (merge_best_movie_fixed c); rewrite <- Hc1; assumption.
    - exfalso. simpl in Hc1. subst c1.
      unfold needs_search_movie in Es.
      repeat rewrite orb_false_iff in Es. destruct Es as (((Hi & Hn) & Hpo) & Hov).
      unfold needs_search_movie in E2. rewrite Hid, Hp, Ho, Hi, Hpo, Hov in E2.
      rewrite Hn in Hc2. rewrite Hc2 in E2.
      rewrite (need_details_after_fetch prov c Hwf Hn) in E2. discriminate. }
  rewrite Hm. rewrite Hc2 at 2 3.
  apply fetch_details_movie_stable.
  intros Hno.
  assert (Hc21 : c2 = c1).
  { rewrite Hc2. unfold fetch_details_movie. rewrite Hno. reflexivity. }
  assert (Hn21 : need_details_movie c2 = need_details_movie c).
  { rewrite Hc21, Hc1. apply need_details_merge_best. }
  rewrite Hn21. exact Hno.
Qed.

Lemma enrich_movie_entry_wf prov item c :
  entry_wf c -> entry_wf (fst (enrich_movie_entry prov item c)).
Proof.
  unfold entry_wf, enrich_movie_entry. intros Hwf.
  set (bq := if needs_search_movie c then _ else _).
  destruct bq as [best requests]. simpl fst.
  destruct (merge_best_movie_details c best) as (_ & _ & _ & Hc & _).
  set (c1 := merge_best_movie c best) in *.
  destruct (fetch_details_movie_cases prov (need_details_movie c) c1)
    as [(Heq & _) | (mid & det & _ & _ & _ & Heq)]; rewrite Heq.
  - rewrite Hc. exact Hwf.
  - unfold merge_details_movie. simpl me_certification. rewrite Hc.
    destruct (truthy_text (me_certification c)); [exact Hwf|].
    intros H. apply extract_cert_truthy in H. congruence.
Qed.

(** *** Cache keys determine title and year *)

Lemma uint_chars d c :
  In c (list_ascii_of_string (NilEmpty.string_of_uint d)) -> is_digit c = true.
Proof.
  induction d; simpl; try contradiction; intros [<-|H]; auto.
Qed.

Lemma str_of_int_chars v c : In c (str_of_int v) -> c = "-" \/ is_digit c = true.
Proof.
  unfold str_of_int, NilZero.string_of_int, NilZero.string_of_uint.
  destruct (Z.to_int v) as [d|d]; destruct d; simpl;
    intros H; repeat (destruct H as [<-|H]; [auto|]);
      try contradiction; try (right; eapply uint_chars; eassumption).
Qed.

Lemma str_of_int_inj a b : str_of_int a = str_of_int b -> a = b.
Proof.
  unfold str_of_int. intros H.
  apply (f_equal string_of_list_ascii) in H.
  rewrite !string_of_list_ascii_of_string in H.
  assert (Hn : forall z, Z.to_int z <> Decimal.Pos Decimal.Nil /\ Z.to_int z <> Decimal.Neg Decimal.Nil).
  { intros z. destruct z as [|p|p]; simpl; split; try discriminate;
      intros E; injection E as E; exact (DecimalPos.Unsigned.to_uint_nonnil p E). }
  pose proof (NilZero.isi _ (proj1 (Hn a)) (proj2 (Hn a))) as Ha.
  pose proof (NilZero.isi _ (proj1 (Hn b)) (proj2 (Hn b))) as Hb.
  rewrite H in Ha. rewrite Ha in Hb. injection Hb as Hb.
  apply (f_equal Z.of_int) in Hb. rewrite !DecimalZ.of_to in Hb. exact Hb.
Qed.

Lemma str_of_year_no_bar y : ~ In "|" (str_of_year y).
Proof.
  destruct y as [v|]; simpl.
  - intros H. apply str_of_int_chars in H as [H|H]; discriminate.
  - vm_compute. intuition discriminate.
Qed.

Lemma str_of_year_inj y y' : str_of_year y = str_of_year y' -> y = y'.
Proof.
  destruct y as [v|], y' as [v'|]; simpl; intros H.
  - f_equal. apply str_of_int_inj. exact H.
  - exfalso. assert (Hin : In "N" (str_of_int v)) by (rewrite H; left; reflexivity).
    apply str_of_int_chars in Hin as [Hin|Hin]; discriminate.
  - exfalso. assert (Hin : In "N" (str_of_int v')) by (rewrite <- H; left; reflexivity).
    apply str_of_int_chars in Hin as [Hin|Hin]; discriminate.
  - reflexivity.
Qed.

Lemma split_at_last_bar (t t' s s' : text) :
  ~ In "|" s -> ~ In "|" s' -> t ++ "|" :: s = t' ++ "|" :: s' -> t = t' /\ s = s'.
Proof.
  intros Hs Hs'. revert t'. induction t as [|c t IH]; intros [|c' t'] H; simpl in H.
  - injection H as ->. auto.
  - injection H as <- ->. exfalso. apply Hs. apply in_or_app. right. left. reflexivity.
  - injection H as -> <-. exfalso. apply Hs'. apply in_or_app. right. left. reflexivity.
  - injection H as -> H. destruct (IH t' H) as (-> & ->). auto.
Qed.

Lemma movie_key_inj item item' :
  movie_key item = movie_key item' ->
  ci_title item = ci_title item' /\ ci_year item = ci_year item'.
Proof.
  unfold movie_key. intros H.
  apply split_at_last_bar in H as (Ht & Hy); try apply str_of_year_no_bar.
  split; [exact Ht | apply str_of_year_inj; exact Hy].
Qed.

Lemma enrich_movie_entry_same_key prov item item' c :
  movie_key item = movie_key item' ->
  enrich_movie_entry prov item c = enrich_movie_entry prov item' c.
Proof.
  intros H. apply movie_key_inj in H as (Ht & Hy).
  unfold enrich_movie_entry. rewrite Ht, Hy. reflexivity.
Qed.

(** *** The whole pass *)

Lemma text_eqb_spec' (a b : text) : text_eqb a b = true <-> a = b.
Proof. apply text_eqb_eq. Qed.

Lemma cached_movie_wf cache key : cache_wf cache -> entry_wf (cached_movie cache key).
Proof.
  unfold cached_movie. intros Hwf.
  destruct (dict_get text_eqb cache key) as [c|] eqn:E; [eapply Hwf; eauto|].
  unfold entry_wf. simpl. discriminate.
Qed.

Lemma cache_wf_set cache key c : cache_wf cache -> entry_wf c -> cache_wf (dict_set text_eqb cache key c).
Proof.
  intros Hwf Hc k c' Hget.
  destruct (text_eqb k key) eqn:E.
  - apply text_eqb_eq in E. subst k.
    rewrite (dict_get_set_same text_eqb text_eqb_spec') in Hget. congruence.
  - apply text_eqb_neq in E.
    rewrite (dict_get_set_other text_eqb text_eqb_spec') in Hget by assumption.
    eapply Hwf; eauto.
Qed.


Lemma enrich_movies_settles prov items :
  forall cache item,
    cache_wf cache ->
    In item items \/ settled prov cache item ->
    settled prov (fst (enrich_movies prov items cache)) item
    /\ cache_wf (fst (enrich_movies prov items cache)).
Proof.
  induction items as [|it items IH]; intros cache item Hwf Hitem.
  - simpl. destruct Hitem as [[]|H]. auto.
  - simpl.
    pose proof (cached_movie_wf cache (movie_key it) Hwf) as Hcwf.
    pose proof (enrich_movie_entry_wf prov it _ Hcwf) as Hwf1.
    pose proof (enrich_movie_entry_idempotent prov it _ Hcwf) as Hidem.
    destruct (enrich_movie_entry prov it (cached_movie cache (movie_key it)))
      as [c' requests] eqn:He. simpl in Hwf1, Hidem.
    set (cache1 := dict_set text_eqb cache (movie_key it) c').
    assert (Hwf' : cache_wf cache1) by (apply cache_wf_set; assumption).
    assert (Hsettled : In item items \/ settled prov cache1 item).
    { destruct (text_eqb (movie_key item) (movie_key it)) eqn:Ek.
      - right. apply text_eqb_eq in Ek. exists c'. split.
        + unfold cache1. rewrite Ek. apply (dict_get_set_same text_eqb text_eqb_spec').
        + rewrite (enrich_movie_entry_same_key prov item it c' Ek). exact Hidem.
      - apply text_eqb_neq in Ek. destruct Hitem as [[Heq|Hin]|(c & Hget & Hfix)].
        + subst it. congruence.
        + left. exact Hin.
        + right. exists c. split; [|exact Hfix].
          unfold cache1. rewrite (dict_get_set_other text_eqb text_eqb_spec'); assumption. }
    specialize (IH cache1 item Hwf' Hsettled).
    destruct (enrich_movies prov items cache1) as [cache' requests']. simpl in *. exact IH.
Qed.





Lemma cache_wf_empty : cache_wf [].
Proof. intros key c H. discriminate. Qed.

Lemma enrich_movies_keeps_cache_wf prov items cache :
  cache_wf cache -> cache_wf (fst (enrich_movies prov items cache)).
Proof.
  intros Hwf. destruct items as [|item items].
  - exact Hwf.
  - apply (enrich_movies_settles prov (item :: items) cache item Hwf).
    left. left. reflexivity.
Qed.


(** the cache after one pass and after two, from an empty cache *)
Example rerun_demo :
  fst (enrich_movies fresh_provider [the_movie] [])
  = [(txt "The Movie|2019",
      {| me_movie_id := Some 12%Z;
         me_poster_url := txt "https://image.tmdb.org/t/p/w342/new.jpg";
         me_overview := txt "A new overview.";
         me_genres := []; me_runtime := None; me_vote := None;
         me_certification := None; me_cast := [];
         me_backdrop_url := []; me_tagline := [] |})]
  /\ fst (enrich_movies fresh_provider [the_movie]
           (fst (enrich_movies fresh_provider [the_movie] [])))
     = fst (enrich_movies fresh_provider [the_movie] []).
Proof. vm_compute. split; reflexivity. Qed.

(** ** Requests sent for stand-up and documentary entries *)

Lemma attempt_each_first_request prov fy t y qs :
  t <> [] ->
  exists rest,
    sent (snd (attempt_each prov fy {| seen := []; sent := [] |} ((t, y) :: qs)))
    = tmdb_search_query t (if fy then None else y) :: rest.
Proof.
  intros Ht. simpl. unfold attempt. destruct t as [|c t]; [congruence|].
  simpl mem_text. cbv iota.
  set (q := tmdb_search_query (c :: t) (if fy then None else y)).
  set (st1 := {| seen := _; sent := _ |}).
  assert (Hcont : exists rest, sent (snd (attempt_each prov fy st1 qs)) = q :: rest).
  { pose proof (attempt_each_outcome prov fy qs st1) as H.
    destruct (attempt_each prov fy st1 qs) as [res st']. destruct H as (requests & Hr & _).
    exists requests. exact Hr. }
  destruct (tmdb_search_movie prov (c :: t) (if fy then None else y)) as [[|r l]|];
    try exact Hcont.
  destruct (_pick_best_movie _ _ _); [|exact Hcont].
  exists []. reflexivity.
Qed.

Lemma attempt_schedule_head title y :
  y <> 0%Z ->
  exists qs, attempt_schedule title (Some y) false = (title, Some y) :: qs.
Proof.
  intros Hy0. unfold attempt_schedule, title_variants. cbv zeta. cbn [andb]. cbv iota.
  assert (Htr : truthy_int (Some y) = true).
  { simpl. apply negb_true_iff. apply Z.eqb_neq. exact Hy0. }
  rewrite Htr. cbn [flat_map map app]. eexists. reflexivity.
Qed.

(** from an empty record, the first request for an entry with a year
    carries that year *)
Lemma first_request_carries_year prov item y :
  ci_title item <> [] -> ci_year item = Some y -> y <> 0%Z ->
  exists rest,
    snd (enrich_movie_entry prov item no_movie_entry)
    = {| sq_title := ci_title item; sq_year := Some y |} :: rest.
Proof.
  intros Ht Hy Hy0. unfold enrich_movie_entry.
  change (needs_search_movie no_movie_entry) with true. cbv iota.
  unfold try_search_variants. rewrite Hy.
  destruct (attempt_schedule_head (ci_title item) y Hy0) as (qs & ->).
  destruct (attempt_each_first_request prov false (ci_title item) (Some y) qs Ht)
    as (rest & Hrest).
  destruct (attempt_each prov false _ _) as [res st'].
  simpl in *. exists rest. rewrite Hrest. unfold tmdb_search_query.
  replace (truthy_int (Some y)) with true; [reflexivity|].
  symmetry. simpl. apply negb_true_iff. apply Z.eqb_neq. exact Hy0.
Qed.

(** C1 (the code departs from it).  The stand-up pass of [build_site] calls
    [enrich_movies], which calls [try_search_variants] without
    [force_yearless]: for the folder "Comedian Title Special 2021" the first
    request sent to the search endpoint is constrained to the year 2021,
    whatever the provider answers. *)
Theorem standup_search_carries_year (prov : provider) :
  exists rest,
    snd (enrich_category prov Standup
           [(txt "Comedian Title Special 2021", IsDir)] [] [])
    = {| sq_title := txt "Comedian Title Special"; sq_year := Some 2021%Z |} :: rest.
Proof.
  unfold enrich_category.
  change (discover_category [(txt "Comedian Title Special 2021", IsDir)] [] (id_prefix_of Standup))
    with [ {| ci_id := txt "s1"; ci_title := txt "Comedian Title Special";
              ci_year := Some 2021%Z; ci_source := txt "Comedian Title Special 2021";
              ci_archived := false |} ].
  cbn [enrich_movies].
  set (item := {| ci_id := _; ci_title := _; ci_year := _; ci_source := _; ci_archived := _ |}).
  change (cached_movie [] (movie_key item)) with no_movie_entry.
  destruct (first_request_carries_year prov item 2021%Z) as (rest & Hrest);
    [discriminate | reflexivity | discriminate |].
  destruct (enrich_movie_entry prov item no_movie_entry) as [c requests].
  simpl in Hrest. subst requests. simpl. exists (rest ++ []). reflexivity.
Qed.

(** all the requests of the stand-up pass for that folder when nothing
    matches, and the requests [try_search_variants] sends for the same title
    when it is called with [force_yearless] *)
Example standup_requests :
  snd (enrich_category silent_provider Standup
         [(txt "Comedian Title Special 2021", IsDir)] [] [])
  = [ {| sq_title := txt "Comedian Title Special"; sq_year := Some 2021%Z |};
      {| sq_title := txt "Comedian Title Special"; sq_year := Some 2020%Z |};
      {| sq_title := txt "Comedian Title Special"; sq_year := Some 2022%Z |};
      {| sq_title := txt "Comedian Title Special"; sq_year := Some 2019%Z |};
      {| sq_title := txt "Comedian Title Special"; sq_year := Some 2023%Z |};
      {| sq_title := txt "Comedian Title Special"; sq_year := None |} ]
  /\ sent (snd (try_search_variants silent_provider (txt "Comedian Title Special")
                  (Some 2021%Z) true))
     = [ {| sq_title := txt "Comedian Title Special"; sq_year := None |};
         {| sq_title := txt "Comedian Title: Special"; sq_year := None |} ].
Proof. vm_compute. split; reflexivity. Qed.

(** ** Titles and years of movie-like entries *)

Lemma rstrip_fixed_tail c q : rstrip (c :: q) = c :: q -> rstrip q = q.
Proof.
  simpl. destruct (rstrip q) as [|a r] eqn:E.
  - destruct (is_space c); [discriminate|]. intros [= <-]. reflexivity.
  - intros [= <-]. reflexivity.
Qed.

Lemma rstrip_fixed_words q : rstrip q = q -> q <> [] -> split_ws q <> [].
Proof.
  intros Hr Hq Hs. apply split_ws_nil_rstrip in Hs. congruence.
Qed.

Lemma join_sp_cons w ws : ws <> [] -> join_sp (w :: ws) = w ++ " " :: join_sp ws.
Proof. destruct ws; [congruence | reflexivity]. Qed.

Lemma join_sp_cons_char c w ws : join_sp ((c :: w) :: ws) = c :: join_sp (w :: ws).
Proof. destruct ws; reflexivity. Qed.

(** collapsing the blanks of a text without trailing blank leaves its words
    joined by single blanks, after one blank if the text starts with one *)
Lemma collapse_from_words q :
  rstrip q = q ->
  sub_runs_from is_space true q = join_sp (split_ws q)
  /\ sub_runs_from is_space false q
     = match q with
       | c :: _ => if is_space c then " " :: join_sp (split_ws q) else join_sp (split_ws q)
       | [] => []
       end.
Proof.
  induction q as [|c q IH]; intros Hr; [split; reflexivity|].
  pose proof (rstrip_fixed_tail c q Hr) as Hr'.
  destruct (IH Hr') as (IHt & IHf).
  rewrite split_ws_cons. simpl sub_runs_from.
  destruct (is_space c) eqn:Hc.
  - rewrite IHt. split; reflexivity.
  - assert (Hnospace : c :: sub_runs_from is_space false q = join_sp (split_ws (c :: q))).
    { rewrite split_ws_cons, Hc, IHf. destruct q as [|c' q]; [reflexivity|].
      pose proof (rstrip_fixed_words (c' :: q) Hr') as Hw.
      destruct (is_space c') eqn:Hc'.
      - rewrite join_sp_cons by (apply Hw; discriminate). reflexivity.
      - destruct (split_ws (c' :: q)) as [|w ws] eqn:Hs;
          [exfalso; apply Hw; [discriminate | reflexivity]|].
        rewrite join_sp_cons_char. reflexivity. }
    rewrite split_ws_cons, Hc in Hnospace. split; exact Hnospace.
Qed.


Lemma lstrip_sub_runs b s :
  lstrip (sub_runs_from is_space b s) = sub_runs_from is_space true (lstrip s).
Proof.
  revert b. induction s as [|c s IH]; intros b; [reflexivity|]. simpl.
  destruct (is_space c) eqn:Hc.
  - destruct b; [apply IH|]. simpl. apply IH.
  - simpl. rewrite Hc. reflexivity.
Qed.

Lemma sub_runs_nonempty b q : rstrip q = q -> q <> [] -> sub_runs_from is_space b q <> [].
Proof.
  revert b. induction q as [|c q IH]; intros b Hr Hq; [congruence|].
  simpl. destruct (is_space c) eqn:Hc; [|discriminate].
  pose proof (rstrip_fixed_tail c q Hr) as Hr'.
  destruct q as [|c' q]; [simpl in Hr; rewrite Hc in Hr; discriminate|].
  destruct b; [|discriminate]. apply IH; [exact Hr' | discriminate].
Qed.

Lemma rstrip_cons c s :
  rstrip (c :: s) = match rstrip s with
                    | [] => if is_space c then [] else [c]
                    | a :: r => c :: a :: r
                    end.
Proof. reflexivity. Qed.

Lemma sub_runs_from_cons cls b c s :
  sub_runs_from cls b (c :: s)
  = if cls c
    then (if b then sub_runs_from cls true s else " " :: sub_runs_from cls true s)
    else c :: sub_runs_from cls false s.
Proof. reflexivity. Qed.

Lemma rstrip_sub_runs b s :
  rstrip (sub_runs_from is_space b s) = sub_runs_from is_space b (rstrip s).
Proof.
  revert b. induction s as [|c s IH]; intros b; [reflexivity|].
  rewrite sub_runs_from_cons, (rstrip_cons c s).
  destruct (rstrip s) as [|a r] eqn:Hr.
  - destruct (is_space c) eqn:Hc.
    + destruct b; [apply IH|]. rewrite rstrip_cons, IH. reflexivity.
    + rewrite rstrip_cons, IH, sub_runs_from_cons, Hc. reflexivity.
  - assert (Hfix : rstrip (a :: r) = a :: r) by (rewrite <- Hr; apply rstrip_idempotent).
    assert (Hne : forall b', sub_runs_from is_space b' (a :: r) <> [])
      by (intros b'; apply sub_runs_nonempty; [exact Hfix | discriminate]).
    remember (a :: r) as R eqn:HR.
    rewrite (sub_runs_from_cons is_space b c R).
    destruct (is_space c) eqn:Hc.
    + destruct b; [apply IH|]. rewrite rstrip_cons, IH.
      destruct (sub_runs_from is_space true R) eqn:E; [|reflexivity].
      exfalso. exact (Hne true E).
    + rewrite rstrip_cons, IH.
      destruct (sub_runs_from is_space false R) eqn:E; [|reflexivity].
      exfalso. exact (Hne false E).
Qed.

(** [re.sub(r"\s+", " ", s).strip()] is [" ".join(s.split())] as well *)
Lemma strip_collapse_words s : strip (collapse_ws s) = words_joined s.
Proof.
  unfold strip, collapse_ws, sub_runs, words_joined.
  rewrite lstrip_sub_runs, rstrip_sub_runs. fold (strip s).
  destruct (collapse_from_words (strip s) (strip_rstrip s)) as (Ht & _).
  rewrite Ht, split_ws_strip. reflexivity.
Qed.

Lemma sub_runs_from_class_head cls s :
  hd_error (sub_runs_from cls false s)
  = hd_error (map (fun c => if cls c then " " else c) s).
Proof.
  destruct s as [|c s]; [reflexivity|]. simpl. destruct (cls c); reflexivity.
Qed.

(** replacing the runs of a class by one blank leaves the words that
    replacing each of its characters by a blank leaves *)
Lemma split_ws_sub_runs cls b s :
  split_ws (sub_runs_from cls b s) = split_ws (map (fun c => if cls c then " " else c) s).
Proof.
  revert b. induction s as [|c s IH]; intros b; [reflexivity|].
  cbn [sub_runs_from map]. destruct (cls c) eqn:Hc.
  - rewrite (split_ws_cons " "). change (is_space " ") with true. cbv iota.
    destruct b; [apply IH|]. rewrite (split_ws_cons " "). change (is_space " ") with true.
    cbv iota. apply IH.
  - destruct (is_space c) eqn:Hs.
    + rewrite !(split_ws_cons c), Hs. apply IH.
    + apply split_ws_cons_word; [exact Hs | | apply IH].
      apply sub_runs_from_class_head.
Qed.


(** the cleaned show file name, likewise *)
Lemma clean_name_words name :
  clean_name name = words_joined (separators_as_blanks (txt "_.()[]{}") name).
Proof.
  unfold clean_name. cbv zeta.
  rewrite strip_collapse_words. unfold words_joined, sub_runs.
  rewrite split_ws_sub_runs. unfold separators_as_blanks, replace_char.
  rewrite !map_map. do 2 f_equal. apply map_ext. intros c.
  destruct (Ascii.eqb c "_") eqn:E1.
  - apply Ascii.eqb_eq in E1. subst c. reflexivity.
  - destruct (Ascii.eqb c ".") eqn:E2.
    + apply Ascii.eqb_eq in E2. subst c. reflexivity.
    + simpl. rewrite E1, E2. reflexivity.
Qed.









(** the scenarios of the specification *)
Example parse_the_movie :
  parse_title_year_from_folder (txt "The.Movie.2019.1080p.BluRay.x264-GROUP")
  = (txt "The Movie", Some 2019%Z).
Proof. vm_compute. reflexivity. Qed.

Example parse_comedian :
  parse_title_year_from_folder (txt "Comedian Title Special 2021")
  = (txt "Comedian Title Special", Some 2021%Z).
Proof. vm_compute. reflexivity. Qed.

Example parse_without_year :
  parse_title_year_from_folder (txt "  Home_Videos (holiday)  ")
  = (txt "Home Videos holiday", None).
Proof. vm_compute. reflexivity. Qed.

(** ** The season/episode pattern *)

Section StarFacts.
Context {A : Type} (cls : ascii -> bool) (k : text -> option A).

(** the greedy choice is taken when the rest of the pattern accepts it *)
Lemma re_star_greedy s x : k (drop_while cls s) = Some x -> re_star cls k s = Some x.
Proof.
  induction s as [|c s IH]; simpl; [auto|].
  destruct (cls c); [|auto]. intros H. rewrite (IH H). reflexivity.
Qed.

Lemma re_star_sound s x :
  re_star cls k s = Some x ->
  exists w r, s = w ++ r /\ all_of cls w /\ k r = Some x.
Proof.
  induction s as [|c s IH]; simpl.
  - intros H. exists [], []. repeat split; auto.
  - destruct (cls c) eqn:Hc.
    + destruct (re_star cls k s) as [y|] eqn:Hs.
      * intros [= <-]. destruct (IH eq_refl) as (w & r & -> & Hw & Hk).
        exists (c :: w), r. repeat split; auto. unfold all_of. simpl. rewrite Hc. exact Hw.
      * intros H. exists [], (c :: s). repeat split; auto.
    + intros H. exists [], (c :: s). repeat split; auto.
Qed.
End StarFacts.

Lemma drop_while_all cls a b :
  all_of cls a -> (forall c r, b = c :: r -> cls c = false) ->
  drop_while cls (a ++ b) = b.
Proof.
  unfold all_of. intros Ha Hb. induction a as [|c a IH]; simpl.
  - destruct b as [|c r]; [reflexivity|]. simpl. rewrite (Hb c r eq_refl). reflexivity.
  - simpl in Ha. apply andb_true_iff in Ha as (Hc & Ha). rewrite Hc. apply IH. exact Ha.
Qed.

Lemma drop_while_suffix cls a b :
  (forall c r, b = c :: r -> cls c = false) ->
  exists a1 a2, a = a1 ++ a2 /\ drop_while cls (a ++ b) = a2 ++ b.
Proof.
  intros Hb. induction a as [|c a IH]; simpl.
  - exists [], []. split; [reflexivity|].
    destruct b as [|c r]; [reflexivity|]. simpl. rewrite (Hb c r eq_refl). reflexivity.
  - destruct (cls c).
    + destruct IH as (a1 & a2 & -> & H). exists (c :: a1), a2. auto.
    + exists [], (c :: a). auto.
Qed.

Lemma all_of_app cls a b : all_of cls (a ++ b) <-> all_of cls a /\ all_of cls b.
Proof. unfold all_of. rewrite forallb_app, andb_true_iff. reflexivity. Qed.

Section DigitsFacts.
Context {A : Type} (k : text -> text -> option A).

Lemma re_digits12_complete d r x :
  digits12 d -> (forall c r', r = c :: r' -> is_digit c = false) ->
  k d r = Some x -> re_digits12 k (d ++ r) = Some x.
Proof.
  intros ([Hl|Hl] & Hd) Hr Hk; unfold all_of in Hd.
  - destruct d as [|d1 [|]]; try discriminate. simpl in Hd. rewrite andb_true_r in Hd.
    simpl. rewrite Hd. destruct r as [|c r']; [exact Hk|].
    rewrite (Hr c r' eq_refl). exact Hk.
  - destruct d as [|d1 [|d2 [|]]]; try discriminate. simpl in Hd.
    rewrite andb_true_r in Hd. apply andb_true_iff in Hd as (H1 & H2).
    simpl. rewrite H1, H2, Hk. reflexivity.
Qed.

Lemma re_digits12_sound s x :
  re_digits12 k s = Some x ->
  exists d r, s = d ++ r /\ digits12 d /\ k d r = Some x.
Proof.
  unfold re_digits12. destruct s as [|d1 s1]; [discriminate|].
  destruct (is_digit d1) eqn:H1; [|discriminate].
  assert (Hone : k [d1] s1 = Some x ->
                 exists d r, d1 :: s1 = d ++ r /\ digits12 d /\ k d r = Some x).
  { intros H. exists [d1], s1. repeat split; auto. unfold all_of. simpl. rewrite H1. reflexivity. }
  destruct s1 as [|d2 s2]; [exact Hone|].
  destruct (is_digit d2) eqn:H2; [|exact Hone].
  destruct (k [d1; d2] s2) as [y|] eqn:Hk; [|exact Hone].
  intros [= <-]. exists [d1; d2], s2. repeat split; auto.
  unfold all_of. simpl. rewrite H1, H2. reflexivity.
Qed.
End DigitsFacts.

Lemma is_digit_is_word c : is_digit c = true -> is_word c = true.
Proof. unfold is_word. intros ->. reflexivity. Qed.

Lemma digits12_last_is_word d : digits12 d -> is_word_opt (last_char d) = true.
Proof.
  intros ([Hl|Hl] & Hd); unfold all_of in Hd.
  - destruct d as [|d1 [|]]; try discriminate. simpl in *. rewrite andb_true_r in Hd.
    apply is_digit_is_word. exact Hd.
  - destruct d as [|d1 [|d2 [|]]]; try discriminate. simpl in *. rewrite andb_true_r in Hd.
    apply andb_true_iff in Hd as (_ & H2). apply is_digit_is_word. exact H2.
Qed.

Lemma digits12_head d : digits12 d -> exists c r, d = c :: r /\ is_digit c = true.
Proof.
  intros (Hl & Hd). unfold all_of in Hd. destruct d as [|c r]; [destruct Hl; discriminate|].
  simpl in Hd. apply andb_true_iff in Hd as (Hc & _). eauto.
Qed.

Lemma digit_classes c :
  is_digit c = true -> is_space c = false /\ is_sep c = false.
Proof.
  destruct c as [[|] [|] [|] [|] [|] [|] [|] [|]]; vm_compute; intros H;
    try discriminate; split; reflexivity.
Qed.

Lemma drop_while_app_all cls a b : all_of cls a -> drop_while cls (a ++ b) = drop_while cls b.
Proof.
  unfold all_of. induction a as [|c a IH]; simpl; [reflexivity|].
  intros H. apply andb_true_iff in H as (Hc & Ha). rewrite Hc. apply IH. exact Ha.
Qed.

Lemma one_of_Ss c : one_of (txt "Ss") c = true <-> c = "S" \/ c = "s".
Proof.
  unfold one_of. simpl. rewrite orb_false_r, orb_true_iff, !Ascii.eqb_eq. reflexivity.
Qed.

Lemma one_of_Ee c : one_of (txt "Ee") c = true <-> c = "E" \/ c = "e".
Proof.
  unfold one_of. simpl. rewrite orb_false_r, orb_true_iff, !Ascii.eqb_eq. reflexivity.
Qed.

Lemma drop_blanks_and_separators ws2 sep ce r :
  all_of is_space ws2 -> all_of is_sep sep -> (ce = "E" \/ ce = "e") ->
  drop_while is_sep (drop_while is_space (ws2 ++ sep ++ ce :: r)) = ce :: r.
Proof.
  intros H2 Hsep Hce.
  assert (Hsp : forall c r', ce :: r = c :: r' -> is_space c = false)
    by (intros c r' [= <- _]; destruct Hce as [->| ->]; reflexivity).
  assert (Hse : forall c r', ce :: r = c :: r' -> is_sep c = false)
    by (intros c r' [= <- _]; destruct Hce as [->| ->]; reflexivity).
  rewrite drop_while_app_all by assumption.
  destruct (drop_while_suffix is_space sep (ce :: r) Hsp) as (a1 & a2 & -> & ->).
  apply all_of_app in Hsep as (_ & Ha2).
  apply drop_while_all; assumption.
Qed.

Lemma head_not_digit ws2 sep ce r :
  all_of is_space ws2 -> all_of is_sep sep -> (ce = "E" \/ ce = "e") ->
  forall c r', ws2 ++ sep ++ ce :: r = c :: r' -> is_digit c = false.
Proof.
  unfold all_of. intros H2 Hsep Hce c r' H.
  destruct (is_digit c) eqn:Hd; [|reflexivity]. exfalso.
  destruct (digit_classes c Hd) as (Hs & Hp).
  destruct ws2 as [|a ws2]; simpl in H.
  - destruct sep as [|b sep]; simpl in H.
    + injection H as <- _. destruct Hce as [->| ->]; discriminate.
    + injection H as <- _. simpl in Hsep. rewrite Hp in Hsep. discriminate.
  - injection H as <- _. simpl in H2. rewrite Hs in H2. discriminate.
Qed.

(** a token that is delimited on both sides is matched where it stands *)
Lemma sxxeyy_at_complete prev tok sd ed post :
  sxxeyy_token tok sd ed ->
  is_word_opt prev = false -> is_word_opt (hd_error post) = false ->
  sxxeyy_at prev (tok ++ post)
  = Some {| m_season := sd; m_episode := ed; m_rest := post |}.
Proof.
  intros (cs & ws1 & ws2 & sep & ce & ws3 & -> & Hcs & Hce & H1 & H2 & H3 & Hsep & Hsd & Hed)
         Hprev Hpost.
  unfold sxxeyy_at.
  replace ((cs :: ws1 ++ sd ++ ws2 ++ sep ++ ce :: ws3 ++ ed) ++ post)
    with (cs :: ws1 ++ sd ++ (ws2 ++ sep ++ ce :: ws3 ++ ed ++ post))
    by (simpl; rewrite <- !app_assoc; simpl; rewrite <- !app_assoc; reflexivity).
  assert (Hb : word_boundary prev (hd_error (cs :: ws1 ++ sd ++ (ws2 ++ sep ++ ce :: ws3 ++ ed ++ post))) = true).
  { unfold word_boundary. rewrite Hprev. simpl. destruct Hcs as [->| ->]; reflexivity. }
  rewrite Hb. unfold re_char at 1. rewrite (proj2 (one_of_Ss cs) Hcs).
  destruct (digits12_head sd Hsd) as (s1 & sr & Hsd1 & Hs1).
  destruct (digits12_head ed Hed) as (e1 & er & Hed1 & He1).
  apply re_star_greedy. rewrite drop_while_all; auto.
  2:{ intros c r. rewrite Hsd1. intros [= <- _]. apply digit_classes. exact Hs1. }
  apply re_digits12_complete; auto.
  { apply head_not_digit; assumption. }
  apply re_star_greedy. apply re_star_greedy.
  rewrite drop_blanks_and_separators by assumption.
  unfold re_char. rewrite (proj2 (one_of_Ee ce) Hce).
  apply re_star_greedy. rewrite drop_while_all; auto.
  2:{ intros c r. rewrite Hed1. intros [= <- _]. apply digit_classes. exact He1. }
  apply re_digits12_complete; auto.
  { intros c r' ->. simpl in Hpost. destruct (is_digit c) eqn:E; [|reflexivity].
    apply is_digit_is_word in E. congruence. }
  unfold word_boundary. rewrite (digits12_last_is_word ed Hed), Hpost. reflexivity.
Qed.

(** whatever is matched is a delimited token *)
Lemma sxxeyy_at_sound prev s m :
  sxxeyy_at prev s = Some m ->
  exists tok,
    s = tok ++ m_rest m
    /\ sxxeyy_token tok (m_season m) (m_episode m)
    /\ is_word_opt prev = false
    /\ is_word_opt (hd_error (m_rest m)) = false.
Proof.
  unfold sxxeyy_at. destruct (word_boundary prev (hd_error s)) eqn:Hb; [|discriminate].
  unfold re_char at 1. destruct s as [|cs s]; [discriminate|].
  destruct (one_of (txt "Ss") cs) eqn:Hcs; [|discriminate].
  intros H.
  apply re_star_sound in H as (ws1 & r1 & -> & H1 & H).
  apply re_digits12_sound in H as (sd & r2 & -> & Hsd & H).
  apply re_star_sound in H as (ws2 & r3 & -> & H2 & H).
  apply re_star_sound in H as (sep & r4 & -> & Hsep & H).
  unfold re_char in H. destruct r4 as [|ce r4]; [discriminate|].
  destruct (one_of (txt "Ee") ce) eqn:Hce; [|discriminate].
  apply re_star_sound in H as (ws3 & r5 & -> & H3 & H).
  apply re_digits12_sound in H as (ed & rest & -> & Hed & H).
  destruct (word_boundary (last_char ed) (hd_error rest)) eqn:Hb2; [|discriminate].
  injection H as <-. simpl.
  exists (cs :: ws1 ++ sd ++ ws2 ++ sep ++ ce :: ws3 ++ ed). split; [|split; [|split]].
  - simpl. rewrite <- !app_assoc. simpl. rewrite <- !app_assoc. reflexivity.
  - exists cs, ws1, ws2, sep, ce, ws3. repeat split; auto.
    + apply one_of_Ss. exact Hcs.
    + apply one_of_Ee. exact Hce.
    + apply Hsd.
    + apply Hsd.
    + apply Hed.
    + apply Hed.
  - unfold word_boundary in Hb. simpl in Hb.
    apply one_of_Ss in Hcs. destruct (is_word_opt prev); [|reflexivity].
    destruct Hcs as [->| ->]; discriminate.
  - unfold word_boundary in Hb2. rewrite (digits12_last_is_word ed Hed) in Hb2.
    destruct (is_word_opt (hd_error rest)); [discriminate | reflexivity].
Qed.

Lemma last_char_snoc s c : last_char (s ++ [c]) = Some c.
Proof. unfold last_char. rewrite rev_app_distr. reflexivity. Qed.

Lemma firstn_succ_snoc (s : text) n c r :
  skipn n s = c :: r -> firstn (S n) s = firstn n s ++ [c].
Proof.
  revert s. induction n as [|n IH]; intros s H.
  - simpl in H. subst s. reflexivity.
  - destruct s as [|a s]; [discriminate|]. simpl in H.
    change (firstn (S (S n)) (a :: s)) with (a :: firstn (S n) s).
    rewrite (IH s H). reflexivity.
Qed.

(** the search passes every position at which the pattern does not match *)
Lemma sxxeyy_search_skips (s : text) n :
  (n <= length s)%nat ->
  (forall j, (j < n)%nat -> sxxeyy_at (last_char (firstn j s)) (skipn j s) = None) ->
  sxxeyy_search s = sxxeyy_search_from n (last_char (firstn n s)) (skipn n s).
Proof.
  induction n as [|n IH]; intros Hn Hfail; [reflexivity|].
  rewrite IH by (auto; lia).
  destruct (skipn n s) as [|c r] eqn:Hs.
  - exfalso. apply (f_equal (@length ascii)) in Hs. rewrite length_skipn in Hs. simpl in Hs. lia.
  - pose proof (Hfail n (Nat.lt_succ_diag_r n)) as Hf. rewrite Hs in Hf.
    unfold sxxeyy_search_from at 1; fold sxxeyy_search_from.
    rewrite Hf.
    rewrite (firstn_succ_snoc s n c r Hs), last_char_snoc.
    replace (skipn (S n) s) with r; [reflexivity|].
    rewrite <- (Nat.add_1_l n), <- skipn_skipn, Hs. reflexivity.
Qed.

Lemma sxxeyy_token_at_split s i sd ed post :
  sxxeyy_token_at s i sd ed post ->
  exists tok,
    skipn i s = tok ++ post /\ sxxeyy_token tok sd ed
    /\ is_word_opt (last_char (firstn i s)) = false
    /\ is_word_opt (hd_error post) = false /\ (i <= length s)%nat.
Proof.
  intros (pre & tok & -> & <- & Htok & Hpre & Hpost). exists tok.
  rewrite skipn_app, Nat.sub_diag, skipn_all, firstn_app, Nat.sub_diag, firstn_all.
  simpl. rewrite app_nil_r. repeat split; auto. rewrite length_app. lia.
Qed.

Lemma sxxeyy_first_token_found s i sd ed post :
  first_sxxeyy_token_at s i sd ed post ->
  sxxeyy_search s = Some (i, {| m_season := sd; m_episode := ed; m_rest := post |}).
Proof.
  intros (Hat & Hfirst).
  destruct (sxxeyy_token_at_split s i sd ed post Hat) as (tok & Hs & Htok & Hpre & Hpost & Hi).
  rewrite (sxxeyy_search_skips s i Hi).
  - rewrite Hs. destruct (tok ++ post) eqn:E;
      unfold sxxeyy_search_from; rewrite <- E, (sxxeyy_at_complete _ tok sd ed post); auto.
  - intros j Hj. destruct (sxxeyy_at (last_char (firstn j s)) (skipn j s)) as [m|] eqn:E; auto.
    exfalso. apply sxxeyy_at_sound in E as (tok' & Hs' & Htok' & Hpre' & Hpost').
    apply (Hfirst j (m_season m) (m_episode m) (m_rest m) Hj).
    exists (firstn j s), tok'. rewrite <- Hs', firstn_skipn. repeat split; auto.
    rewrite length_firstn. lia.
Qed.

Lemma int_of_digits_leading_zero d : int_of_digits ("0" :: d) = int_of_digits d.
Proof. reflexivity. Qed.

(** ** Episode keys *)

Lemma assign_eids_keyed sid meta : keyed sid (snd (assign_eids (sid, meta))).
Proof.
  unfold keyed, assign_eids. simpl. intros sn eps item Hin Hitem.
  apply in_map_iff in Hin as ([sn0 eps0] & Heq & _).
  unfold assign_eids_season in Heq. injection Heq as <- <-.
  apply in_map_iff in Hitem as (it0 & <- & _). reflexivity.
Qed.

Lemma discover_shows_keyed fs files sid meta :
  In (sid, meta) (snd (fst (discover_shows fs files))) -> keyed sid meta.
Proof.
  unfold discover_shows. cbv zeta. simpl. intros Hin.
  apply in_map_iff in Hin as ([sid0 meta0] & Heq & _).
  pose proof (assign_eids_keyed sid0 meta0) as Hk.
  unfold assign_eids in Heq, Hk. simpl in Hk. injection Heq as <- <-. exact Hk.
Qed.

(** C6.  The cleaned file name is the name with dots, underscores and
    brackets read as blanks and its words joined by single blanks.  When it
    has its first delimited season/episode token at some position, the
    parser returns the digits of the token as
    integers (leading zeros do not matter), the stripped text before the
    token as the show name, and the title derived from the text after it;
    every episode discovered is keyed "<show_id>_S<season:02d>E<episode:02d>";
    and "Show.Name.S01E02.WEBRip.mp4" is show "Show Name", season 1,
    episode 2, keyed "tv1_S01E02" for the first show discovered. *)
Theorem parse_show_recovers_season_and_episode :
  (forall name : text,
      clean_name name = words_joined (separators_as_blanks (txt "_.()[]{}") name))
  /\ (forall (name : text) (i : nat) (sd ed post : text),
      first_sxxeyy_token_at (clean_name name) i sd ed post ->
      parse_show_from_string name
      = Some {| show := strip (firstn i (clean_name name));
                season := int_of_digits sd;
                episode := int_of_digits ed;
                ep_title := episode_title_of post |})
  /\ (forall d, int_of_digits ("0" :: d) = int_of_digits d)
  /\ (forall fs files sid meta,
        In (sid, meta) (snd (fst (discover_shows fs files))) -> keyed sid meta)
  /\ (exists title,
        parse_show_from_string (txt "Show.Name.S01E02.WEBRip.mp4")
        = Some {| show := txt "Show Name"; season := 1; episode := 2; ep_title := title |})
  /\ snd (discover_shows demo_fs
            [(txt "/shows/Show.Name.S01E02.WEBRip.mp4", txt "Show.Name.S01E02.WEBRip.mp4")])
     = [(txt "tv1_S01E02", txt "/shows/Show.Name.S01E02.WEBRip.mp4")].
Proof.
  split; [exact clean_name_words|]. split; [|split; [|split; [|split]]].
  - intros name i sd ed post Hfirst. unfold parse_show_from_string. cbv zeta.
    rewrite (sxxeyy_first_token_found _ _ _ _ _ Hfirst). reflexivity.
  - exact int_of_digits_leading_zero.
  - exact discover_shows_keyed.
  - eexists. vm_compute. reflexivity.
  - vm_compute. reflexivity.
Qed.

Lemma parse_show_recovers_season_and_episode_witness :
  parse_show_from_string (txt "Show.Name.S01E02.WEBRip.mp4")
  = Some {| show := strip (firstn 10 (clean_name (txt "Show.Name.S01E02.WEBRip.mp4")));
            season := int_of_digits (txt "01");
            episode := int_of_digits (txt "02");
            ep_title := episode_title_of (txt " WEBRip mp4") |}.
Proof.
  apply (proj1 (proj2 parse_show_recovers_season_and_episode)
           (txt "Show.Name.S01E02.WEBRip.mp4") 10%nat (txt "01") (txt "02") (txt " WEBRip mp4")).
  split.
  - exists (txt "Show Name "), (txt "S01E02").
    split; [reflexivity|]. split; [reflexivity|]. split; [|split; reflexivity].
    exists "S", [], [], [], "E", []. simpl.
    split; [reflexivity|]. split; [left; reflexivity|]. split; [left; reflexivity|].
    repeat split; try reflexivity; right; reflexivity.
  - intros j sd' ed' post' Hj Hat.
    apply sxxeyy_token_at_split in Hat as (tok & Hs & Htok & Hpre & Hpost & _).
    pose proof (sxxeyy_at_complete _ tok sd' ed' post' Htok Hpre Hpost) as Hm.
    rewrite <- Hs in Hm.
    do 10 (destruct j as [|j]; [vm_compute in Hm; discriminate|]). lia.
Defined.

(** zero padding, letter case and separators *)
Example parse_show_variants :
  option_map (fun p => (show p, season p, episode p))
    (parse_show_from_string (txt "show name s1e2 720p.mkv"))
  = Some (txt "show name", 1%Z, 2%Z)
  /\ option_map (fun p => (show p, season p, episode p, ep_title p))
       (parse_show_from_string (txt "Show_Name.S01 - E02.The.Pilot.1080p.mkv"))
     = Some (txt "Show Name", 1%Z, 2%Z, txt "The Pilot")
  /\ option_map (fun p => (show p, season p, episode p))
       (parse_show_from_string (txt "[Show] (Name) s 12 . e 3.avi"))
     = Some (txt "Show Name", 12%Z, 3%Z)
  /\ parse_show_from_string (txt "Show.Name.S012E02.mp4") = None
  /\ parse_show_from_string (txt "Show.Name.2019.mp4") = None.
Proof. vm_compute. repeat split. Qed.

Example episode_key_format :
  episode_key (txt "tv3") 1 2 = txt "tv3_S01E02"
  /\ episode_key (txt "tv3") 12 103 = txt "tv3_S12E103".
Proof. vm_compute. split; reflexivity. Qed.

(** * Escaping *)

Ltac each_char c := destruct c as [[] [] [] [] [] [] [] []].

Lemma flat_map_flat_map {A B C : Type} (f : A -> list B) (g : B -> list C) (l : list A) :
  flat_map g (flat_map f l) = flat_map (fun a => flat_map g (f a)) l.
Proof.
  induction l as [|a l IH]; simpl; [reflexivity|].
  rewrite flat_map_app, IH. reflexivity.
Qed.

(** the five replacements act as one pass over the characters: no
    replacement touches what an earlier one wrote *)
Lemma html_text_one_pass (s : text) : html_text (Some s) = flat_map escape_char s.
Proof.
  assert (E : html_text (Some s)
              = replace_with "'" (txt "&#39;")
                  (replace_with dquote (txt "&quot;")
                     (replace_with ">" (txt "&gt;")
                        (replace_with "<" (txt "&lt;")
                           (replace_with "&" (txt "&amp;") s))))).
  { unfold html_text. destruct s; reflexivity. }
  rewrite E. unfold replace_with. rewrite !flat_map_flat_map.
  apply flat_map_ext. intros c. each_char c; reflexivity.
Qed.

Lemma html_text_none : html_text None = [].
Proof. reflexivity. Qed.

Lemma escape_char_clean c : forallb (fun x => negb (is_markup x)) (escape_char c) = true.
Proof. each_char c; reflexivity. Qed.

Lemma escape_char_cases c :
  (escape_char c = [c] /\ c <> "&")
  \/ (c = "&" /\ escape_char c = txt "&amp;")
  \/ (c = "<" /\ escape_char c = txt "&lt;")
  \/ (c = ">" /\ escape_char c = txt "&gt;")
  \/ (c = dquote /\ escape_char c = txt "&quot;")
  \/ (c = "'" /\ escape_char c = txt "&#39;").
Proof.
  each_char c;
    first [ left; split; [reflexivity | discriminate]
          | right; left; split; reflexivity
          | right; right; left; split; reflexivity
          | right; right; right; left; split; reflexivity
          | right; right; right; right; left; split; reflexivity
          | right; right; right; right; right; split; reflexivity ].
Qed.

(** the escapes form a prefix code *)
Lemma escape_char_prefix c c' (x y : text) :
  escape_char c ++ x = escape_char c' ++ y -> c = c' /\ x = y.
Proof.
  destruct (escape_char_cases c) as [(E & N)|[(-> & E)|[(-> & E)|[(-> & E)|[(-> & E)|(-> & E)]]]]];
  destruct (escape_char_cases c') as [(E' & N')|[(-> & E')|[(-> & E')|[(-> & E')|[(-> & E')|(-> & E')]]]]];
  rewrite ?E, ?E'; simpl; intros H; try (injection H; intros; subst; auto; fail);
  try (injection H; intros; subst; congruence); try discriminate.
Qed.

(** X1.  Escaped text is the text with each of [&], [<], [>], the double
    quote and the apostrophe replaced by its entity, a missing value being
    escaped like the empty text; it holds none of the characters [<], [>],
    double quote and apostrophe. *)
Theorem html_text_has_no_markup (s : option text) :
  html_text s = flat_map escape_char (text_or s [])
  /\ html_attr s = html_text s
  /\ Forall (fun c => is_markup c = false) (html_text s).
Proof.
  assert (E : html_text s = flat_map escape_char (text_or s [])).
  { destruct s as [[|c t]|]; [reflexivity | apply html_text_one_pass | reflexivity]. }
  split; [exact E|]. split; [reflexivity|].
  rewrite E. apply Forall_forall. intros c Hc.
  apply in_flat_map in Hc as (a & _ & Hc).
  pose proof (escape_char_clean a) as Ha. rewrite forallb_forall in Ha.
  apply Ha in Hc. apply negb_true_iff in Hc. exact Hc.
Qed.

(** X2.  Escaping loses nothing: two texts with the same escaped form are
    the same text. *)
Theorem html_text_is_injective (a b : text) :
  html_text (Some a) = html_text (Some b) -> a = b.
Proof.
  rewrite !html_text_one_pass. revert b.
  induction a as [|c a IH]; intros [|c' b]; simpl; intros H.
  - reflexivity.
  - exfalso. destruct (escape_char_cases c') as [(E & _)|[(_ & E)|[(_ & E)|[(_ & E)|[(_ & E)|(_ & E)]]]]];
      rewrite E in H; discriminate.
  - exfalso. destruct (escape_char_cases c) as [(E & _)|[(_ & E)|[(_ & E)|[(_ & E)|[(_ & E)|(_ & E)]]]]];
      rewrite E in H; discriminate.
  - apply escape_char_prefix in H as (-> & H). f_equal. apply IH. exact H.
Qed.

Lemma html_text_is_injective_witness :
  html_text (Some (txt "a<b")) = html_text (Some (txt "a<b")) /\ txt "a<b" = txt "a<b".
Proof.
  split; [reflexivity|].
  apply (html_text_is_injective (txt "a<b") (txt "a<b")). reflexivity.
Defined.

Example html_text_sample :
  html_text (Some (txt "Tom & Jerry's <b>")) = txt "Tom &amp; Jerry&#39;s &lt;b&gt;".
Proof. reflexivity. Qed.

(** * Durations *)

Lemma split_at_first_char (c : ascii) (x x' y y' : text) :
  ~ In c x -> ~ In c x' -> x ++ c :: y = x' ++ c :: y' -> x = x' /\ y = y'.
Proof.
  revert x'. induction x as [|a x IH]; intros [|a' x'] Hx Hx' H; simpl in H.
  - injection H as ->. auto.
  - injection H as <- _. exfalso. apply Hx'. left. reflexivity.
  - injection H as -> _. exfalso. apply Hx. left. reflexivity.
  - injection H as -> H. destruct (IH x') as (-> & ->); auto.
    + intros Hin. apply Hx. right. exact Hin.
    + intros Hin. apply Hx'. right. exact Hin.
Qed.

Lemma str_of_int_no_letter v c :
  is_digit c = false -> c <> "-" -> ~ In c (str_of_int v).
Proof.
  intros Hd Hm Hin. apply str_of_int_chars in Hin as [->|Hin]; congruence.
Qed.

Lemma truthy_int_some v : truthy_int (Some v) = negb (v =? 0)%Z.
Proof. reflexivity. Qed.

(** the text of a duration that is not zero *)
Lemma minutes_to_hm_some v :
  v <> 0%Z ->
  minutes_to_hm (Some v)
  = Some (if (v / 60 =? 0)%Z then str_of_int (v mod 60) ++ txt "m"
          else str_of_int (v / 60) ++ txt "h " ++ str_of_int (v mod 60) ++ txt "m").
Proof.
  intros Hv. unfold minutes_to_hm. rewrite !truthy_int_some.
  apply Z.eqb_neq in Hv. rewrite Hv. simpl negb. cbv iota.
  destruct (v / 60 =? 0)%Z; reflexivity.
Qed.

(** X3.  A runtime is rendered as nothing exactly when it is missing or 0;
    below one hour as the minutes alone, from one hour on as hours and the
    minutes 0..59 left over; and two runtimes that are rendered have the same
    text only when they are equal. *)
Theorem minutes_to_hm_spec :
  (forall m, minutes_to_hm m = None <-> m = None \/ m = Some 0%Z)
  /\ (forall v, (0 < v < 60)%Z -> minutes_to_hm (Some v) = Some (str_of_int v ++ txt "m"))
  /\ (forall v, (60 <= v)%Z ->
        minutes_to_hm (Some v)
        = Some (str_of_int (v / 60) ++ txt "h " ++ str_of_int (v mod 60) ++ txt "m")
        /\ (0 <= v mod 60 < 60)%Z /\ (v = 60 * (v / 60) + v mod 60)%Z)
  /\ (forall a b, a <> 0%Z -> b <> 0%Z ->
        minutes_to_hm (Some a) = minutes_to_hm (Some b) -> a = b).
Proof.
  split; [|split; [|split]].
  - intros [v|]; [|split; auto].
    destruct (Z.eq_dec v 0) as [->|Hv]; [split; auto|].
    rewrite (minutes_to_hm_some v Hv). split; [|intros [H|H]; congruence].
    destruct (v / 60 =? 0)%Z; discriminate.
  - intros v Hv. rewrite minutes_to_hm_some by lia.
    rewrite Z.div_small, Z.mod_small by lia. reflexivity.
  - intros v Hv. rewrite minutes_to_hm_some by lia.
    assert (H1 : (1 <= v / 60)%Z) by (apply Z.div_le_lower_bound; lia).
    destruct (v / 60 =? 0)%Z eqn:E; [apply Z.eqb_eq in E; lia|].
    split; [reflexivity|]. split; [apply Z.mod_pos_bound; lia | apply Z.div_mod; lia].
  - intros a b Ha Hb. rewrite (minutes_to_hm_some a Ha), (minutes_to_hm_some b Hb).
    pose proof (Z.div_mod a 60 ltac:(lia)) as Da.
    pose proof (Z.div_mod b 60 ltac:(lia)) as Db.
    assert (Nh : forall v, ~ In "h" (str_of_int v))
      by (intros v; apply str_of_int_no_letter; [reflexivity | discriminate]).
    change (txt "m") with ["m"]; change (txt "h ") with ["h"; " "].
    destruct (a / 60 =? 0)%Z eqn:Ea, (b / 60 =? 0)%Z eqn:Eb; intros [= H].
    + apply app_inv_tail in H. apply str_of_int_inj in H.
      apply Z.eqb_eq in Ea, Eb. lia.
    + exfalso. assert (Hin : In "h" (str_of_int (a mod 60) ++ ["m"])).
      { rewrite H. apply in_or_app. right. left. reflexivity. }
      apply in_app_or in Hin as [Hin|Hin]; [exact (Nh _ Hin)|].
      simpl in Hin. destruct Hin as [Hin|[]]. discriminate.
    + exfalso. assert (Hin : In "h" (str_of_int (b mod 60) ++ ["m"])).
      { rewrite <- H. apply in_or_app. right. left. reflexivity. }
      apply in_app_or in Hin as [Hin|Hin]; [exact (Nh _ Hin)|].
      simpl in Hin. destruct Hin as [Hin|[]]. discriminate.
    + cbn [app] in H.
      apply split_at_first_char in H as (Hh & Hm); try apply Nh.
      injection Hm as Hm. apply app_inv_tail in Hm.
      apply str_of_int_inj in Hh, Hm. lia.
Qed.

Lemma minutes_to_hm_spec_witness :
  minutes_to_hm (Some 125%Z) = Some (txt "2h 5m")
  /\ minutes_to_hm (Some 45%Z) = Some (txt "45m").
Proof.
  split.
  - exact (proj1 (proj1 (proj2 (proj2 minutes_to_hm_spec)) 125%Z ltac:(lia))).
  - exact (proj1 (proj2 minutes_to_hm_spec) 45%Z ltac:(lia)).
Defined.

(** * Sizes *)

Lemma round_half_even_bounds (q : Q) :
  inject_Z (round_half_even q) - (1 # 2) <= q /\ q <= inject_Z (round_half_even q) + (1 # 2).
Proof.
  unfold round_half_even. cbv zeta.
  pose proof (Qfloor_le q) as Hlo. pose proof (Qlt_floor q) as Hhi.
  rewrite inject_Z_plus in Hhi. change (inject_Z 1) with 1 in Hhi.
  destruct (Qcompare (q - inject_Z (Qfloor q)) (1 # 2)) eqn:E.
  - apply Qeq_alt in E. destruct (Z.even (Qfloor q));
      rewrite ?inject_Z_plus; change (inject_Z 1) with 1; split; lra.
  - apply Qlt_alt in E. split; lra.
  - apply Qgt_alt in E. rewrite inject_Z_plus. change (inject_Z 1) with 1. split; lra.
Qed.

Lemma inject_Z_le_inv (a b : Z) : inject_Z a <= inject_Z b -> (a <= b)%Z.
Proof. rewrite <- Zle_Qle. auto. Qed.

(** an integer within one half of a value that is at least [k], or at
    most [k], is at least [k], or at most [k] *)
Lemma near_integer_lower (d k : Z) (q : Q) :
  inject_Z k <= q -> q <= inject_Z d + (1 # 2) -> (k <= d)%Z.
Proof.
  intros H1 H2. assert (H : inject_Z k < inject_Z (d + 1)).
  { rewrite inject_Z_plus. change (inject_Z 1) with 1. lra. }
  rewrite <- Zlt_Qlt in H. lia.
Qed.

Lemma near_integer_upper (d k : Z) (q : Q) :
  q <= inject_Z k -> inject_Z d - (1 # 2) <= q -> (d <= k)%Z.
Proof.
  intros H1 H2. assert (H : inject_Z (d - 1) < inject_Z k).
  { unfold Z.sub. rewrite inject_Z_plus, inject_Z_opp. change (inject_Z 1) with 1. lra. }
  rewrite <- Zlt_Qlt in H. lia.
Qed.

Lemma size_value_bounds (nbytes base : Z) :
  (0 < base)%Z -> (base <= nbytes)%Z -> 1 <= size_value nbytes base.
Proof.
  intros Hb Hn. unfold size_value.
  apply Qle_shift_div_l.
  - change 0 with (inject_Z 0). rewrite <- Zlt_Qlt. exact Hb.
  - rewrite Qmult_1_l. rewrite <- Zle_Qle. exact Hn.
Qed.

Lemma format_size_lower_unit (nbytes : Z) :
  (1024 <= nbytes)%Z ->
  exists name base,
    In (name, base) size_units /\ (base <= nbytes)%Z
    /\ (forall name' base', In (name', base') size_units ->
          (base' <= nbytes)%Z -> (base' <= base)%Z)
    /\ format_size_lower nbytes = size_text name base nbytes.
Proof.
  intros Hn. unfold format_size_lower, size_units, format_size_in.
  destruct (nbytes >=? 1024 ^ 4)%Z eqn:E4.
  { exists (txt "tb"), (1024 ^ 4)%Z. apply Z.geb_le in E4.
    split; [simpl; auto|]. split; [exact E4|]. split; [|reflexivity].
    intros n' b' [H|[H|[H|[H|[]]]]] _; injection H as <- <-; lia. }
  destruct (nbytes >=? 1024 ^ 3)%Z eqn:E3.
  { exists (txt "gb"), (1024 ^ 3)%Z. apply Z.geb_le in E3.
    assert (E4' : (nbytes < 1024 ^ 4)%Z) by (rewrite Z.geb_leb in E4; apply Z.leb_gt in E4; exact E4).
    split; [simpl; auto|]. split; [exact E3|]. split; [|reflexivity].
    intros n' b' [H|[H|[H|[H|[]]]]] Hb; injection H as <- <-; lia. }
  destruct (nbytes >=? 1024 ^ 2)%Z eqn:E2.
  { exists (txt "mb"), (1024 ^ 2)%Z. apply Z.geb_le in E2.
    assert (E3' : (nbytes < 1024 ^ 3)%Z) by (rewrite Z.geb_leb in E3; apply Z.leb_gt in E3; exact E3).
    split; [simpl; auto|]. split; [exact E2|]. split; [|reflexivity].
    intros n' b' [H|[H|[H|[H|[]]]]] Hb; injection H as <- <-; lia. }
  destruct (nbytes >=? 1024)%Z eqn:E1.
  { exists (txt "kb"), 1024%Z. apply Z.geb_le in E1.
    assert (E2' : (nbytes < 1024 ^ 2)%Z) by (rewrite Z.geb_leb in E2; apply Z.leb_gt in E2; exact E2).
    split; [simpl; auto|]. split; [exact E1|]. split; [|reflexivity].
    intros n' b' [H|[H|[H|[H|[]]]]] Hb; injection H as <- <-; lia. }
  rewrite Z.geb_leb in E1. apply Z.leb_gt in E1. lia.
Qed.

(** X4.  Below 1024 bytes a size is written "0b".  From 1024 bytes on (and
    below 2^53, where the division is exact) it is written in the largest
    unit it reaches: as the nearest integer, at least 10, when the value in
    that unit is 10 or more, and otherwise with one decimal, as the nearest
    tenth between 1.0 and 10.0. *)
Theorem format_size_lower_spec (nbytes : Z) :
  (nbytes < 2 ^ 53)%Z ->
  ((nbytes < 1024)%Z -> format_size_lower nbytes = txt "0b")
  /\ ((1024 <= nbytes)%Z ->
      exists name base,
        In (name, base) size_units /\ (base <= nbytes)%Z
        /\ (forall name' base', In (name', base') size_units ->
              (base' <= nbytes)%Z -> (base' <= base)%Z)
        /\ ((10 <= size_value nbytes base
             /\ exists d,
                 format_size_lower nbytes = str_of_int d ++ name
                 /\ inject_Z d - (1 # 2) <= size_value nbytes base
                 /\ size_value nbytes base <= inject_Z d + (1 # 2)
                 /\ (10 <= d)%Z)
            \/ (size_value nbytes base < 10
                /\ exists t,
                    format_size_lower nbytes
                    = str_of_int (t / 10) ++ "." :: str_of_int (t mod 10) ++ name
                    /\ inject_Z t / 10 - (1 # 20) <= size_value nbytes base
                    /\ size_value nbytes base <= inject_Z t / 10 + (1 # 20)
                    /\ (10 <= t <= 100)%Z /\ (0 <= t mod 10 < 10)%Z))).
Proof.
  intros _. split.
  - intros Hn. unfold format_size_lower, size_units, format_size_in.
    repeat match goal with
           | |- context [(nbytes >=? ?b)%Z] =>
               let E := fresh "E" in
               destruct (nbytes >=? b)%Z eqn:E; [apply Z.geb_le in E; lia|]
           end.
    reflexivity.
  - intros Hn. destruct (format_size_lower_unit nbytes Hn) as (name & base & Hin & Hb & Hmax & ->).
    exists name, base. split; [exact Hin|]. split; [exact Hb|]. split; [exact Hmax|].
    assert (Hpos : (0 < base)%Z).
    { destruct Hin as [H|[H|[H|[H|[]]]]]; injection H as _ <-; lia. }
    pose proof (size_value_bounds nbytes base Hpos Hb) as H1.
    unfold size_text. cbv zeta. set (val := size_value nbytes base) in *.
    destruct (Qle_bool 10 val) eqn:E.
    + left. apply Qle_bool_iff in E. split; [exact E|].
      exists (round_half_even val). destruct (round_half_even_bounds val) as (Hlo & Hhi).
      split; [reflexivity|]. split; [exact Hlo|]. split; [exact Hhi|].
      apply (near_integer_lower _ 10 val); assumption.
    + right. assert (E' : val < 10).
      { apply Qnot_le_lt. intros H. apply Qle_bool_iff in H. congruence. }
      split; [exact E'|]. exists (round_half_even (val * 10)).
      destruct (round_half_even_bounds (val * 10)) as (Hlo & Hhi).
      split; [unfold fmt_1f; cbv zeta; rewrite <- app_assoc; reflexivity|].
      unfold Qdiv. change (/ 10) with (1 # 10).
      split; [lra|]. split; [lra|]. split.
      * split.
        -- apply (near_integer_lower _ 10 (val * 10)); [|exact Hhi].
           change (inject_Z 10) with 10. lra.
        -- apply (near_integer_upper _ 100 (val * 10)); [|exact Hlo].
           change (inject_Z 100) with 100. lra.
      * apply Z.mod_pos_bound. lia.
Qed.

Lemma format_size_lower_spec_witness :
  format_size_lower 1023 = txt "0b".
Proof.
  apply (proj1 (format_size_lower_spec 1023 ltac:(lia))). lia.
Defined.

Example format_size_lower_edges :
  map format_size_lower [0; 1024; 10189; 10240; 1048575; 1048576]%Z
  = [txt "0b"; txt "1.0kb"; txt "10.0kb"; txt "10kb"; txt "1024kb"; txt "1.0mb"].
Proof. vm_compute. reflexivity. Qed.

(** * The video of a folder *)

Section LargestFacts.
Context {R : Type} (size : R -> Z) (value : R -> text).
Hypothesis size_lower : forall r, (-1 < size r)%Z.

Lemma largest_fold_first (l : list R) :
  l <> [] ->
  exists i r,
    fold_left (largest_step size value) l (None, (-1)%Z) = (Some (value r), size r)
    /\ first_largest size l i r.
Proof.
  induction l as [|x l IH] using rev_ind; [congruence|]. intros _.
  rewrite fold_left_app. simpl.
  assert (Hl : l = [] \/ l <> []) by (destruct l; [left | right]; congruence).
  destruct Hl as [->|Hl].
  - simpl. unfold largest_step. simpl.
    assert (E : (size x >? -1)%Z = true) by (apply Z.gtb_lt; apply size_lower).
    rewrite E. exists 0%nat, x. split; [reflexivity|]. split; [reflexivity|]. split.
    + intros [|[|j]] r'; simpl; try discriminate. intros [= <-]. lia.
    + intros j r' Hj. lia.
  - destruct (IH Hl) as (i & r & Hfold & Hnth & Hmax & Hfirst).
    rewrite Hfold. unfold largest_step. simpl.
    assert (Hi : (i < length l)%nat) by (apply nth_error_Some; congruence).
    destruct (size x >? size r)%Z eqn:E.
    + apply Z.gtb_lt in E. exists (length l), x. split; [reflexivity|]. split; [|split].
      * rewrite nth_error_app2, Nat.sub_diag; auto.
      * intros j r' Hj. destruct (Nat.lt_ge_cases j (length l)) as [Hlt|Hge].
        -- rewrite nth_error_app1 in Hj by assumption. specialize (Hmax j r' Hj). lia.
        -- rewrite nth_error_app2 in Hj by assumption.
           destruct (j - length l)%nat as [|[|k]]; simpl in Hj; try discriminate.
           injection Hj as <-. lia.
      * intros j r' Hlt Hj. rewrite nth_error_app1 in Hj by assumption.
        specialize (Hmax j r' Hj). lia.
    + assert (E' : (size x <= size r)%Z).
      { rewrite Z.gtb_ltb in E. apply Z.ltb_ge in E. exact E. }
      exists i, r. split; [reflexivity|]. split; [|split].
      * rewrite nth_error_app1; auto.
      * intros j r' Hj. destruct (Nat.lt_ge_cases j (length l)) as [Hlt|Hge].
        -- rewrite nth_error_app1 in Hj by assumption. apply (Hmax j r' Hj).
        -- rewrite nth_error_app2 in Hj by assumption.
           destruct (j - length l)%nat as [|[|k]]; simpl in Hj; try discriminate.
           injection Hj as <-. exact E'.
      * intros j r' Hlt Hj. rewrite nth_error_app1 in Hj by lia.
        apply (Hfirst j r' Hlt Hj).
Qed.
End LargestFacts.

(** the loop skips what is not a video *)
Lemma video_fold_filter fs root files acc :
  fold_left (video_step fs root) files acc
  = fold_left (largest_step (fun f => safe_size fs (path_join root f)) (path_join root))
      (filter is_video files) acc.
Proof.
  revert acc. induction files as [|f files IH]; intros acc; [reflexivity|].
  simpl. unfold video_step at 2. fold (is_video f).
  destruct (is_video f) eqn:E; simpl; rewrite IH; reflexivity.
Qed.

(** X5.  With file sizes that are not negative, the video of a folder is
    the first of the largest video files of its top level, as a path inside
    the folder, and there is none exactly when the top level holds no video
    file. *)
Theorem find_video_in_folder_spec (fs : filesystem) (folder_path : text) (files : list text) :
  (forall p, (0 <= fs_size fs p)%Z) ->
  let size f := safe_size fs (path_join folder_path f) in
  match find_video_in_folder fs folder_path files with
  | None => forall f, In f files -> is_video f = false
  | Some fp =>
      exists i f,
        fp = path_join folder_path f
        /\ In f files /\ is_video f = true
        /\ first_largest size (filter is_video files) i f
  end.
Proof.
  intros Hpos size. unfold find_video_in_folder. rewrite video_fold_filter.
  destruct (filter is_video files) as [|v vs] eqn:Ev.
  - simpl. intros f Hf. destruct (is_video f) eqn:E; [|reflexivity].
    assert (Hin : In f (filter is_video files)) by (apply filter_In; auto).
    rewrite Ev in Hin. destruct Hin.
  - destruct (largest_fold_first size (path_join folder_path)) with (l := v :: vs)
      as (i & r & Hfold & Hbest).
    + intros r. unfold size, safe_size. specialize (Hpos (path_join folder_path r)). lia.
    + discriminate.
    + fold size. rewrite Hfold. simpl. exists i, r. split; [reflexivity|].
      assert (Hin : In r (filter is_video files)).
      { rewrite Ev. eapply nth_error_In. exact (proj1 Hbest). }
      apply filter_In in Hin as (Hin & Hv). auto.
Qed.

Lemma find_video_in_folder_spec_witness :
  exists i f,
    txt "/lib/A (2019)/a-long-name.mkv" = path_join (txt "/lib/A (2019)") f
    /\ In f [txt "a.mkv"; txt "notes.txt"; txt "a-long-name.mkv"] /\ is_video f = true
    /\ first_largest (fun f => safe_size demo_fs (path_join (txt "/lib/A (2019)") f))
         (filter is_video [txt "a.mkv"; txt "notes.txt"; txt "a-long-name.mkv"]) i f.
Proof.
  apply (find_video_in_folder_spec demo_fs (txt "/lib/A (2019)")
           [txt "a.mkv"; txt "notes.txt"; txt "a-long-name.mkv"]).
  intros p. simpl. lia.
Defined.

(** * Numbers and their decimal text *)

Lemma int_of_digits_uint_acc (d : Decimal.uint) (p : positive) :
  fold_left (fun acc c => 10 * acc + digit_val c)%Z
    (list_ascii_of_string (NilEmpty.string_of_uint d)) (Z.pos p)
  = Z.pos (Pos.of_uint_acc d p).
Proof.
  revert p.
  induction d; intros p;
    cbn [list_ascii_of_string NilEmpty.string_of_uint fold_left Pos.of_uint_acc];
    try reflexivity; rewrite <- IHd; f_equal;
    match goal with
    | |- context [digit_val ?c] =>
        let v := eval vm_compute in (digit_val c) in change (digit_val c) with v
    end; lia.
Qed.

Lemma int_of_digits_uint (d : Decimal.uint) :
  int_of_digits (list_ascii_of_string (NilEmpty.string_of_uint d)) = Z.of_N (Pos.of_uint d).
Proof.
  unfold int_of_digits.
  induction d; cbn [list_ascii_of_string NilEmpty.string_of_uint fold_left Pos.of_uint];
    try reflexivity;
    match goal with
    | |- context [digit_val ?c] =>
        let v := eval vm_compute in (digit_val c) in change (digit_val c) with v
    end; cbn [Z.mul Z.add]; try exact IHd; cbn [Z.of_N]; apply int_of_digits_uint_acc.
Qed.

(** [int(str(n)) == n] *)
Lemma int_of_str_of_int (n : Z) : (0 <= n)%Z -> int_of_digits (str_of_int n) = n.
Proof.
  intros Hn. unfold str_of_int. destruct n as [|p|p]; [reflexivity| |lia].
  simpl Z.to_int. unfold NilZero.string_of_int, NilZero.string_of_uint.
  pose proof (DecimalPos.Unsigned.to_uint_nonnil p) as Hnil.
  pose proof (DecimalPos.Unsigned.of_to p) as Hof.
  destruct (Pos.to_uint p) eqn:E; try congruence;
    rewrite <- E in *; rewrite int_of_digits_uint, Hof; reflexivity.
Qed.

Lemma int_of_fmt_02d (n : Z) : (0 <= n)%Z -> int_of_digits (fmt_02d n) = n.
Proof.
  intros Hn. unfold fmt_02d. cbv zeta.
  destruct (length (str_of_int n) <? 2)%nat; [rewrite int_of_digits_leading_zero|];
    apply int_of_str_of_int; exact Hn.
Qed.

Lemma fmt_02d_inj (a b : Z) : (0 <= a)%Z -> (0 <= b)%Z -> fmt_02d a = fmt_02d b -> a = b.
Proof.
  intros Ha Hb H. apply (f_equal int_of_digits) in H.
  rewrite !int_of_fmt_02d in H by assumption. exact H.
Qed.

Lemma fmt_02d_chars n c : In c (fmt_02d n) -> c = "-" \/ is_digit c = true.
Proof.
  unfold fmt_02d. cbv zeta. destruct (length (str_of_int n) <? 2)%nat.
  - intros [<-|H]; [right; reflexivity | apply (str_of_int_chars n c H)].
  - apply str_of_int_chars.
Qed.

Lemma int_of_digits_nonneg (s : text) : (0 <= int_of_digits s)%Z.
Proof.
  unfold int_of_digits.
  assert (H : forall acc, (0 <= acc)%Z ->
              (0 <= fold_left (fun acc c => 10 * acc + digit_val c) s acc)%Z).
  { induction s as [|c s IH]; intros acc Hacc; cbn [fold_left]; [exact Hacc|].
    apply IH. unfold digit_val. lia. }
  apply H. lia.
Qed.

Lemma show_sid_chars i c : In c (show_sid i) -> c <> "_".
Proof.
  unfold show_sid. intros [<-|[<-|H]]; try discriminate.
  apply str_of_int_chars in H as [->|H]; [discriminate|].
  intros ->. discriminate.
Qed.

Lemma show_sid_inj i j : show_sid i = show_sid j -> i = j.
Proof.
  unfold show_sid. intros H. injection H as H. apply str_of_int_inj in H. lia.
Qed.

(** an episode key determines the show, the season and the episode *)
Lemma episode_key_inj sid sid' sn sn' en en' :
  ~ In "_" sid -> ~ In "_" sid' ->
  (0 <= sn)%Z -> (0 <= sn')%Z -> (0 <= en)%Z -> (0 <= en')%Z ->
  episode_key sid sn en = episode_key sid' sn' en' ->
  sid = sid' /\ sn = sn' /\ en = en'.
Proof.
  intros Hs Hs' Hsn Hsn' Hen Hen'. unfold episode_key.
  change (txt "_S" ++ ?x) with ("_" :: "S" :: x).
  intros H. apply split_at_first_char in H as (-> & H); [|assumption..].
  injection H as H. change (txt "E" ++ ?x) with ("E" :: x) in H.
  apply split_at_first_char in H as (H1 & H2).
  - apply fmt_02d_inj in H1, H2; auto.
  - intros Hin. apply fmt_02d_chars in Hin as [Hin|Hin]; discriminate.
  - intros Hin. apply fmt_02d_chars in Hin as [Hin|Hin]; discriminate.
Qed.

(** * Dictionaries *)

Section DictMore.
Context {K V : Type} (keq : K -> K -> bool).
Hypothesis keq_spec : forall a b, keq a b = true <-> a = b.

Lemma keq_refl k : keq k k = true.
Proof. apply keq_spec. reflexivity. Qed.

Lemma dict_get_In (d : list (K * V)) k v : dict_get keq d k = Some v -> In (k, v) d.
Proof.
  induction d as [|[k' v'] d IH]; simpl; [discriminate|].
  destruct (keq k k') eqn:E; [|auto].
  apply keq_spec in E. subst k'. intros [= ->]. auto.
Qed.

Lemma dict_get_None (d : list (K * V)) k : dict_get keq d k = None <-> ~ In k (map fst d).
Proof.
  induction d as [|[k' v'] d IH]; simpl; [tauto|].
  destruct (keq k k') eqn:E.
  - apply keq_spec in E. subst k'. split; [discriminate | intros H; exfalso; apply H; auto].
  - rewrite IH. split; [|tauto]. intros H [Heq|Hin]; [|tauto].
    subst k'. rewrite keq_refl in E. discriminate.
Qed.

Lemma dict_get_NoDup (d : list (K * V)) k v :
  NoDup (map fst d) -> In (k, v) d -> dict_get keq d k = Some v.
Proof.
  induction d as [|[k' v'] d IH]; simpl; [contradiction|].
  intros Hnd [Heq|Hin]; inversion Hnd as [|? ? Hnot Hnd']; subst.
  - injection Heq as -> ->. rewrite keq_refl. reflexivity.
  - destruct (keq k k') eqn:E; [|auto].
    apply keq_spec in E. subst k'. exfalso. apply Hnot.
    apply in_map_iff. exists (k, v). auto.
Qed.

Lemma dict_set_new (d : list (K * V)) k v :
  dict_get keq d k = None -> dict_set keq d k v = d ++ [(k, v)].
Proof.
  induction d as [|[k' v'] d IH]; simpl; [reflexivity|].
  destruct (keq k k'); [discriminate|]. intros H. rewrite IH; auto.
Qed.

(** replacing the value of a key that is present changes nothing that the
    new value shares with the old one *)
Lemma dict_set_map {B : Type} (g : K * V -> B) (d : list (K * V)) k v v0 :
  dict_get keq d k = Some v0 -> g (k, v) = g (k, v0) ->
  map g (dict_set keq d k v) = map g d.
Proof.
  intros Hget Hg. induction d as [|[k' v'] d IH]; simpl in *; [discriminate|].
  destruct (keq k k') eqn:E.
  - apply keq_spec in E. subst k'. injection Hget as ->. simpl. rewrite Hg. reflexivity.
  - simpl. rewrite IH; auto.
Qed.

Lemma dict_set_keys (d : list (K * V)) k v v0 :
  dict_get keq d k = Some v0 -> map fst (dict_set keq d k v) = map fst d.
Proof. intros H. apply (dict_set_map fst d k v v0 H). reflexivity. Qed.

Lemma dict_set_keys_NoDup (d : list (K * V)) k v :
  NoDup (map fst d) -> NoDup (map fst (dict_set keq d k v)).
Proof.
  intros Hnd. destruct (dict_get keq d k) as [v0|] eqn:E.
  - rewrite (dict_set_keys d k v v0 E). exact Hnd.
  - rewrite (dict_set_new d k v E), map_app. simpl.
    apply NoDup_snoc; [exact Hnd | apply dict_get_None; exact E].
Qed.

Lemma dict_set_Forall_entries (P : K * V -> Prop) (d : list (K * V)) k v :
  Forall P d -> P (k, v) -> Forall P (dict_set keq d k v).
Proof.
  intros Hall Hv. induction d as [|[k' v'] d IH]; simpl.
  - constructor; [exact Hv | constructor].
  - inversion Hall as [|? ? Hv' Hd]; subst.
    destruct (keq k k') eqn:E; constructor; auto.
    apply keq_spec in E. subst k'. exact Hv.
Qed.

Lemma NoDup_keys_functional (d : list (K * V)) k v v' :
  NoDup (map fst d) -> In (k, v) d -> In (k, v') d -> v = v'.
Proof.
  intros Hnd H1 H2. apply dict_get_NoDup in H1, H2; auto. congruence.
Qed.

(** what a dictionary filled key by key holds for a key that is always
    given the same value *)
Lemma dict_fill_get (pairs : list (K * V)) (d0 : list (K * V)) k v :
  In (k, v) pairs -> (forall v', In (k, v') pairs -> v' = v) ->
  dict_get keq (fold_left (fun d kv => dict_set keq d (fst kv) (snd kv)) pairs d0) k = Some v.
Proof.
  revert d0. induction pairs as [|[k' v'] pairs IH] using rev_ind; intros d0 Hin Hfun;
    [contradiction|].
  rewrite fold_left_app. simpl.
  destruct (keq k k') eqn:E.
  - apply keq_spec in E. subst k'.
    rewrite (Hfun v') by (apply in_or_app; right; left; reflexivity).
    apply (dict_get_set_same keq keq_spec).
  - assert (Hne : k <> k') by (intros ->; rewrite keq_refl in E; discriminate).
    rewrite (dict_get_set_other keq keq_spec) by exact Hne.
    apply IH.
    + apply in_app_or in Hin as [Hin|[Heq|[]]]; [exact Hin|]. congruence.
    + intros v'' Hv. apply Hfun. apply in_or_app. left. exact Hv.
Qed.

Lemma dict_fill_keys (pairs : list (K * V)) (d0 : list (K * V)) k v :
  dict_get keq (fold_left (fun d kv => dict_set keq d (fst kv) (snd kv)) pairs d0) k = Some v ->
  In (k, v) pairs \/ dict_get keq d0 k = Some v.
Proof.
  revert d0. induction pairs as [|[k' v'] pairs IH] using rev_ind; intros d0; [auto|].
  rewrite fold_left_app. simpl.
  destruct (keq k k') eqn:E.
  - apply keq_spec in E. subst k'. rewrite (dict_get_set_same keq keq_spec).
    intros [= ->]. left. apply in_or_app. right. left. reflexivity.
  - assert (Hne : k <> k') by (intros ->; rewrite keq_refl in E; discriminate).
    rewrite (dict_get_set_other keq keq_spec) by exact Hne.
    intros H. apply IH in H as [H|H]; [left; apply in_or_app; auto | auto].
Qed.
End DictMore.

(** * Discovery of shows *)

Lemma parse_show_nonneg t p :
  parse_show_from_string t = Some p -> (0 <= season p)%Z /\ (0 <= episode p)%Z.
Proof.
  unfold parse_show_from_string. cbv zeta.
  destruct (sxxeyy_search (clean_name t)) as [[start m]|]; [|discriminate].
  intros [= <-]. simpl. split; apply int_of_digits_nonneg.
Qed.

Lemma season_list_ok meta sn :
  seasons_ok meta ->
  NoDup (map it_e (season_list (sm_seasons meta) sn))
  /\ Forall (fun e => (0 <= e)%Z) (map it_e (season_list (sm_seasons meta) sn)).
Proof.
  intros (_ & Hall). unfold season_list.
  destruct (dict_get Z.eqb (sm_seasons meta) sn) as [l|] eqn:E.
  - apply (dict_get_In Z.eqb Z_eqb_spec') in E.
    rewrite Forall_forall in Hall. apply Hall in E. simpl in E. tauto.
  - simpl. split; constructor.
Qed.

Lemma seasons_ok_unique meta : seasons_ok meta -> unique_episodes meta.
Proof. intros H sn. apply season_list_ok. exact H. Qed.

Lemma add_or_update_episode_ok fs meta sn en title file :
  seasons_ok meta -> (0 <= sn)%Z -> (0 <= en)%Z ->
  seasons_ok (_add_or_update_episode fs meta sn en title file).
Proof.
  intros Hok Hsn Hen. destruct (season_list_ok meta sn Hok) as (Hnd & Hpos).
  destruct Hok as (Hkeys & Hall).
  unfold _add_or_update_episode, seasons_ok. simpl sm_seasons.
  set (lst := season_list (sm_seasons meta) sn) in *.
  split; [apply (dict_set_keys_NoDup Z.eqb Z_eqb_spec'); exact Hkeys|].
  apply (dict_set_Forall_entries Z.eqb Z_eqb_spec'); [exact Hall|]. simpl.
  split; [exact Hsn|].
  destruct (update_episode lst en title file (safe_size fs file) (safe_mtime fs file))
    as [lst'|] eqn:Hupd.
  - destruct (update_episode_some _ _ _ _ _ _ _ Hupd) as (Hm & _).
    rewrite Hm. auto.
  - apply update_episode_none in Hupd. rewrite map_app. simpl. split.
    + apply NoDup_snoc; [exact Hnd | apply find_none_not_in; exact Hupd].
    + apply Forall_app. split; [exact Hpos | constructor; [exact Hen | constructor]].
Qed.

Lemma sm_title_add fs meta sn en title file :
  sm_title (_add_or_update_episode fs meta sn en title file) = sm_title meta.
Proof. reflexivity. Qed.

Lemma show_sid_fresh n : ~ In (show_sid (S n)) (map show_sid (seq 1 n)).
Proof.
  intros Hin. apply in_map_iff in Hin as (i & Heq & Hi).
  apply show_sid_inj in Heq. apply in_seq in Hi. lia.
Qed.

Lemma text_eqb_spec2 (a b : text) : text_eqb a b = true <-> a = b.
Proof. apply text_eqb_eq. Qed.

(** a show that is met keeps the state well formed and is known afterwards *)
Lemma with_show_ok st show_title :
  discovery_ok st ->
  discovery_ok (with_show st show_title)
  /\ exists sid meta,
       dict_get text_eqb (shows_map (with_show st show_title)) (lower show_title) = Some sid
       /\ dict_get text_eqb (shows_meta (with_show st show_title)) sid = Some meta
       /\ lower (sm_title meta) = lower show_title.
Proof.
  intros (Hids & Hseq & Hkeys & Htitles & Hnd & Hall). unfold with_show.
  destruct (dict_get text_eqb (shows_map st) (lower show_title)) as [sid|] eqn:Hget.
  - split; [repeat split; assumption|].
    exists sid.
    assert (Hin : In sid (map fst (shows_meta st))).
    { rewrite Hkeys. apply (dict_get_In text_eqb text_eqb_spec2) in Hget.
      apply in_map_iff. exists (lower show_title, sid). auto. }
    destruct (dict_get text_eqb (shows_meta st) sid) as [meta|] eqn:Hm.
    2:{ apply (dict_get_None text_eqb text_eqb_spec2) in Hm. contradiction. }
    exists meta. split; [exact Hget|]. split; [reflexivity|].
    (* the entries of the two dictionaries correspond position by position *)
    assert (Hnds : NoDup (map snd (shows_map st))).
    { rewrite Hids. apply Finite.Injective_map_NoDup; [|apply seq_NoDup].
      intros i j. apply show_sid_inj. }
    apply (dict_get_In text_eqb text_eqb_spec2) in Hget, Hm.
    clear Hids Hseq Hnd Hall Hin.
    revert Hkeys Htitles Hget Hm Hnds.
    generalize (shows_map st) as sm. generalize (shows_meta st) as mt.
    induction mt as [|[s0 m0] mt IH]; intros [|[k0 s1] sm]; simpl;
      try discriminate; try contradiction.
    intros [= -> Hk] [= Ht Hts] [Hg|Hg] [Hm|Hm] Hnds.
    + injection Hg as <- <-. injection Hm as <-. exact Ht.
    + injection Hg as -> ->. exfalso. inversion Hnds as [|? ? Hnot _]; subst.
      apply Hnot. rewrite <- Hk. apply in_map_iff. exists (sid, meta). auto.
    + injection Hm as -> ->. exfalso. inversion Hnds as [|? ? Hnot _]; subst.
      apply Hnot. apply in_map_iff. exists (lower show_title, sid). auto.
    + inversion Hnds; subst. eapply IH; eauto.
  - set (sid := txt "tv" ++ str_of_int (show_id_seq st)).
    assert (Esid : sid = show_sid (S (length (shows_map st)))).
    { unfold sid, show_sid. rewrite Hseq. f_equal. f_equal. lia. }
    assert (Hfresh : dict_get text_eqb (shows_meta st) sid = None).
    { apply (dict_get_None text_eqb text_eqb_spec2). rewrite Hkeys, Hids, Esid.
      apply show_sid_fresh. }
    cbv zeta. fold sid. simpl.
    rewrite (dict_set_new text_eqb (shows_map st) _ _ Hget).
    rewrite (dict_set_new text_eqb (shows_meta st) _ _ Hfresh).
    split.
    + unfold discovery_ok. simpl. rewrite !map_app, !length_app. simpl.
      split; [|split; [|split; [|split; [|split]]]].
      * rewrite Nat.add_1_r, seq_S, map_app. simpl. rewrite <- Hids, Esid. reflexivity.
      * rewrite Hseq. lia.
      * rewrite Hkeys. reflexivity.
      * rewrite Htitles. reflexivity.
      * apply NoDup_snoc; [exact Hnd|].
        apply (dict_get_None text_eqb text_eqb_spec2). exact Hget.
      * apply Forall_app. split; [exact Hall|]. constructor; [|constructor].
        simpl. split; constructor.
    + exists sid, {| sm_title := show_title; sm_seasons := [] |}.
      rewrite <- (dict_set_new text_eqb (shows_map st) _ _ Hget).
      rewrite <- (dict_set_new text_eqb (shows_meta st) _ _ Hfresh).
      rewrite !(dict_get_set_same text_eqb text_eqb_spec2). auto.
Qed.

Lemma is_video_spec fname : is_video fname = mem_text (lower (splitext_ext fname)) VIDEO_EXTS.
Proof. reflexivity. Qed.

Lemma handle_file_rejected fs st fp fname :
  (forall p, ~ accepted fs fp fname p) -> handle_file fs st fp fname = st.
Proof.
  intros Hrej. unfold handle_file. rewrite <- is_video_spec.
  destruct (fs_isfile fs fp) eqn:E1; [|reflexivity].
  destruct (is_video fname) eqn:E2; [|reflexivity]. simpl.
  destruct (parse_show_from_string fname) as [p|] eqn:E3; [|reflexivity].
  exfalso. apply (Hrej p). repeat split; assumption.
Qed.

Lemma accepted_dec fs fp fname :
  (exists p, accepted fs fp fname p) \/ (forall p, ~ accepted fs fp fname p).
Proof.
  unfold accepted.
  destruct (fs_isfile fs fp); [|right; intros p (H & _); discriminate].
  destruct (is_video fname); [|right; intros p (_ & H & _); discriminate].
  destruct (parse_show_from_string fname) as [p|]; [left; exists p; auto|].
  right. intros p (_ & _ & H). discriminate.
Qed.

Lemma handle_file_accepted fs st fp fname p :
  discovery_ok st -> accepted fs fp fname p ->
  exists sid meta,
    dict_get text_eqb (shows_map (with_show st (show p))) (lower (show p)) = Some sid
    /\ dict_get text_eqb (shows_meta (with_show st (show p))) sid = Some meta
    /\ lower (sm_title meta) = lower (show p)
    /\ handle_file fs st fp fname = with_episode fs (with_show st (show p)) sid meta p fp.
Proof.
  intros Hok (E1 & E2 & E3).
  destruct (with_show_ok st (show p) Hok) as (_ & sid & meta & Hs & Hm & Ht).
  exists sid, meta. split; [exact Hs|]. split; [exact Hm|]. split; [exact Ht|].
  unfold handle_file. rewrite <- is_video_spec, E1, E2, E3. simpl negb. cbv iota zeta.
  fold (with_show st (show p)). rewrite Hs, Hm. reflexivity.
Qed.

Lemma with_episode_ok fs st sid meta p fp :
  discovery_ok st ->
  dict_get text_eqb (shows_meta st) sid = Some meta ->
  (0 <= season p)%Z -> (0 <= episode p)%Z ->
  discovery_ok (with_episode fs st sid meta p fp).
Proof.
  intros (Hids & Hseq & Hkeys & Htitles & Hnd & Hall) Hm Hsn Hen.
  unfold discovery_ok, with_episode. simpl.
  rewrite (dict_set_keys text_eqb text_eqb_spec2 _ _ _ _ Hm).
  rewrite (dict_set_map text_eqb text_eqb_spec2
             (fun e => lower (sm_title (snd e))) _ _ _ _ Hm) by reflexivity.
  repeat (split; [assumption|]).
  apply (dict_set_Forall text_eqb seasons_ok); [exact Hall|].
  apply add_or_update_episode_ok; [|assumption..].
  exact (dict_get_Forall text_eqb seasons_ok _ _ _ Hall Hm).
Qed.

Lemma handle_file_ok fs st fp fname :
  discovery_ok st -> discovery_ok (handle_file fs st fp fname).
Proof.
  intros Hok. destruct (accepted_dec fs fp fname) as [(p & Hacc)|Hrej].
  - destruct (handle_file_accepted fs st fp fname p Hok Hacc) as (sid & meta & _ & Hm & _ & ->).
    destruct (parse_show_nonneg fname p (proj2 (proj2 Hacc))) as (Hsn & Hen).
    apply with_episode_ok; auto. apply with_show_ok. exact Hok.
  - rewrite (handle_file_rejected fs st fp fname Hrej). exact Hok.
Qed.

Lemma no_shows_ok : discovery_ok no_shows.
Proof. unfold discovery_ok, no_shows. simpl. repeat split; constructor. Qed.

Lemma handle_files_ok fs files st :
  discovery_ok st -> discovery_ok (handle_files fs files st).
Proof.
  revert st. induction files as [|f files IH]; intros st Hok; [exact Hok|].
  apply IH. apply handle_file_ok. exact Hok.
Qed.

(** ** No file is lost *)

Lemma dict_set_keeps {V : Type} (d : list (text * V)) k v k' v' :
  dict_get text_eqb d k = Some v -> dict_get text_eqb d k' = None ->
  dict_get text_eqb (dict_set text_eqb d k' v') k = Some v.
Proof.
  intros H1 H2. rewrite (dict_get_set_other text_eqb text_eqb_spec2); [exact H1|].
  intros ->. congruence.
Qed.

Lemma with_show_keeps st t :
  discovery_ok st ->
  (forall k sid, dict_get text_eqb (shows_map st) k = Some sid ->
                 dict_get text_eqb (shows_map (with_show st t)) k = Some sid)
  /\ (forall sid m, dict_get text_eqb (shows_meta st) sid = Some m ->
                    dict_get text_eqb (shows_meta (with_show st t)) sid = Some m).
Proof.
  intros (Hids & Hseq & Hkeys & _). unfold with_show.
  destruct (dict_get text_eqb (shows_map st) (lower t)) eqn:Hget; [auto|].
  cbv zeta. simpl. split.
  - intros k sid H. apply dict_set_keeps; assumption.
  - intros sid m H. apply dict_set_keeps; [exact H|].
    apply (dict_get_None text_eqb text_eqb_spec2). rewrite Hkeys, Hids.
    replace ("t" :: "v" :: str_of_int (show_id_seq st))
      with (show_sid (S (length (shows_map st)))).
    + apply show_sid_fresh.
    + unfold show_sid. rewrite Hseq.
      replace (Z.of_nat (S (length (shows_map st))))
        with (Z.of_nat (length (shows_map st)) + 1)%Z by lia.
      reflexivity.
Qed.

(** the episode a file is entered for lists a file at least as large as it
    and as the one listed before *)
Lemma add_episode_size fs meta sn en title fp :
  unique_episodes meta ->
  exists item,
    find_episode (_add_or_update_episode fs meta sn en title fp) sn en = Some item
    /\ (safe_size fs fp <= it_size item)%Z
    /\ (forall old, find_episode meta sn en = Some old -> (it_size old <= it_size item)%Z).
Proof.
  intros Hu. destruct (add_or_update_episode_step fs meta sn en title fp Hu) as (_ & _ & H).
  destruct (find_episode meta sn en) as [old|].
  - destruct H as (new & Hf & _ & _ & Hs & _). exists new. split; [exact Hf|].
    rewrite Hs. destruct (safe_size fs fp >? it_size old)%Z eqn:E.
    + apply Z.gtb_lt in E. split; [lia|]. intros o [= <-]. lia.
    + rewrite Z.gtb_ltb in E. apply Z.ltb_ge in E. split; [lia|]. intros o [= <-]. lia.
  - eexists. split; [exact H|]. simpl. split; [lia|]. intros o Ho. discriminate.
Qed.

Lemma handle_file_represents fs st fp fname p :
  discovery_ok st -> accepted fs fp fname p ->
  represented fs (handle_file fs st fp fname) p fp.
Proof.
  intros Hok Hacc.
  destruct (handle_file_accepted fs st fp fname p Hok Hacc) as (sid & meta & Hs & Hm & _ & ->).
  destruct (with_show_ok st (show p) Hok) as ((_ & _ & _ & _ & _ & Hall) & _).
  pose proof (dict_get_Forall text_eqb seasons_ok _ _ _ Hall Hm) as Hmeta.
  destruct (add_episode_size fs meta (season p) (episode p) (ep_title p) fp
              (seasons_ok_unique meta Hmeta)) as (item & Hf & Hsize & _).
  exists sid, (_add_or_update_episode fs meta (season p) (episode p) (ep_title p) fp), item.
  unfold with_episode. simpl.
  split; [exact Hs|]. split; [apply (dict_get_set_same text_eqb text_eqb_spec2)|].
  split; assumption.
Qed.

Lemma handle_file_keeps fs st fp fname p0 fp0 :
  discovery_ok st -> represented fs st p0 fp0 ->
  represented fs (handle_file fs st fp fname) p0 fp0.
Proof.
  intros Hok Hrep. destruct (accepted_dec fs fp fname) as [(p & Hacc)|Hrej].
  2:{ rewrite (handle_file_rejected fs st fp fname Hrej). exact Hrep. }
  destruct (handle_file_accepted fs st fp fname p Hok Hacc) as (sid & meta & Hs & Hm & _ & ->).
  destruct (with_show_keeps st (show p) Hok) as (Kmap & Kmeta).
  destruct (with_show_ok st (show p) Hok) as ((_ & _ & _ & _ & _ & Hall) & _).
  destruct Hrep as (sid0 & meta0 & item0 & H1 & H2 & H3 & H4).
  apply Kmap in H1. apply Kmeta in H2.
  unfold represented, with_episode. simpl.
  destruct (list_eq_dec ascii_dec sid0 sid) as [->|Hne].
  - assert (meta0 = meta) by congruence. subst meta0.
    pose proof (dict_get_Forall text_eqb seasons_ok _ _ _ Hall Hm) as Hmeta.
    apply seasons_ok_unique in Hmeta.
    destruct (Z.eq_dec (season p0) (season p)) as [Es|Es];
      [destruct (Z.eq_dec (episode p0) (episode p)) as [Ee|Ee]|].
    + rewrite Es, Ee in *.
      destruct (add_episode_size fs meta (season p) (episode p) (ep_title p) fp Hmeta)
        as (item & Hf & _ & Hold).
      exists sid, (_add_or_update_episode fs meta (season p) (episode p) (ep_title p) fp), item.
      split; [exact H1|].
      split; [apply (dict_get_set_same text_eqb text_eqb_spec2)|].
      split; [exact Hf|]. specialize (Hold item0 H3). lia.
    + destruct (add_or_update_episode_step fs meta (season p) (episode p) (ep_title p) fp Hmeta)
        as (_ & Hother & _).
      exists sid, (_add_or_update_episode fs meta (season p) (episode p) (ep_title p) fp), item0.
      split; [exact H1|].
      split; [apply (dict_get_set_same text_eqb text_eqb_spec2)|].
      split; [|exact H4]. rewrite Hother; [exact H3 | congruence].
    + destruct (add_or_update_episode_step fs meta (season p) (episode p) (ep_title p) fp Hmeta)
        as (_ & Hother & _).
      exists sid, (_add_or_update_episode fs meta (season p) (episode p) (ep_title p) fp), item0.
      split; [exact H1|].
      split; [apply (dict_get_set_same text_eqb text_eqb_spec2)|].
      split; [|exact H4]. rewrite Hother; [exact H3 | congruence].
  - exists sid0, meta0, item0. split; [exact H1|].
    split; [rewrite (dict_get_set_other text_eqb text_eqb_spec2); assumption|].
    split; assumption.
Qed.

Lemma handle_files_keeps fs files st p0 fp0 :
  discovery_ok st -> represented fs st p0 fp0 ->
  represented fs (handle_files fs files st) p0 fp0.
Proof.
  revert st. induction files as [|f files IH]; intros st Hok Hrep; [exact Hrep|].
  apply IH; [apply handle_file_ok; exact Hok | apply handle_file_keeps; assumption].
Qed.

Lemma handle_files_represents fs files st fp fname p :
  discovery_ok st -> In (fp, fname) files -> accepted fs fp fname p ->
  represented fs (handle_files fs files st) p fp.
Proof.
  revert st. induction files as [|f files IH]; intros st Hok Hin Hacc; [contradiction|].
  change (handle_files fs (f :: files) st)
    with (handle_files fs files (handle_file fs st (fst f) (snd f))).
  destruct Hin as [->|Hin].
  - apply handle_files_keeps; [apply handle_file_ok; exact Hok|].
    apply handle_file_represents; assumption.
  - apply IH; [apply handle_file_ok; exact Hok | assumption..].
Qed.

(** ** The result of discovery *)

Lemma assign_eids_fst e : fst (assign_eids e) = fst e.
Proof. destruct e. reflexivity. Qed.

Lemma assign_eids_title e : sm_title (snd (assign_eids e)) = sm_title (snd e).
Proof. destruct e. reflexivity. Qed.

Lemma map_fst_assign_eids d : map fst (map assign_eids d) = map fst d.
Proof. rewrite map_map. apply map_ext. apply assign_eids_fst. Qed.

Lemma dict_get_assign_eids d sid :
  dict_get text_eqb (map assign_eids d) sid
  = option_map (fun m => snd (assign_eids (sid, m))) (dict_get text_eqb d sid).
Proof.
  induction d as [|[k m] d IH]; simpl; [reflexivity|].
  destruct (text_eqb sid k) eqn:E; [|exact IH].
  apply text_eqb_eq in E. subst k. reflexivity.
Qed.

Lemma assign_eids_ok sid meta :
  seasons_ok meta -> seasons_ok (snd (assign_eids (sid, meta))).
Proof.
  intros (Hk & Hall). unfold seasons_ok. simpl. split.
  - rewrite map_map.
    replace (map (fun x => fst (assign_eids_season sid x)) (sm_seasons meta))
      with (map fst (sm_seasons meta)); [exact Hk|].
    apply map_ext. intros [sn eps]. reflexivity.
  - apply Forall_map. eapply Forall_impl; [|exact Hall].
    intros [sn eps] (H0 & Hnd & Hpos). simpl in *. rewrite map_it_e_set_eid.
    split; [exact H0|].
    assert (Hp : Permutation (map it_e eps) (map it_e (sort_by_e eps)))
      by (apply Permutation_map; symmetry; apply sort_by_e_perm).
    split; [eapply Permutation_NoDup; eassumption|].
    eapply Permutation_Forall; eassumption.
Qed.

Lemma NoDup_map_inj {A B : Type} (f : A -> B) (l : list A) a b :
  NoDup (map f l) -> In a l -> In b l -> f a = f b -> a = b.
Proof.
  induction l as [|x l IH]; simpl; [contradiction|].
  intros Hnd Ha Hb Hf. inversion Hnd as [|? ? Hnot Hnd']; subst.
  destruct Ha as [->|Ha], Hb as [->|Hb]; auto.
  - exfalso. apply Hnot. rewrite Hf. apply in_map. exact Hb.
  - exfalso. apply Hnot. rewrite <- Hf. apply in_map. exact Ha.
Qed.

(** looking an episode number up in a list without repeated numbers does
    not depend on the order of the list *)
Lemma find_episode_perm (l l' : list episode_item) en :
  NoDup (map it_e l) -> Permutation l l' ->
  find (fun it => (it_e it =? en)%Z) l' = find (fun it => (it_e it =? en)%Z) l.
Proof.
  intros Hnd Hp.
  destruct (find (fun it => (it_e it =? en)%Z) l) as [x|] eqn:E.
  - apply find_some in E as (Hx & Ex). apply Z.eqb_eq in Ex.
    destruct (find (fun it => (it_e it =? en)%Z) l') as [y|] eqn:E'.
    + apply find_some in E' as (Hy & Ey). apply Z.eqb_eq in Ey.
      f_equal. apply (NoDup_map_inj it_e l); auto; [|congruence].
      eapply Permutation_in; [symmetry; exact Hp | exact Hy].
    + exfalso. eapply find_none in E'; [|eapply Permutation_in; [exact Hp | exact Hx]].
      simpl in E'. apply Z.eqb_neq in E'. contradiction.
  - destruct (find (fun it => (it_e it =? en)%Z) l') as [y|] eqn:E'; [|reflexivity].
    exfalso. apply find_some in E' as (Hy & Ey).
    eapply find_none in E; [|eapply Permutation_in; [symmetry; exact Hp | exact Hy]].
    simpl in E. congruence.
Qed.

Lemma find_map_set_eid sid sn l en :
  find (fun it => (it_e it =? en)%Z) (map (set_eid sid sn) l)
  = option_map (set_eid sid sn) (find (fun it => (it_e it =? en)%Z) l).
Proof.
  induction l as [|x l IH]; simpl; [reflexivity|].
  destruct (it_e x =? en)%Z; [reflexivity | exact IH].
Qed.

Lemma find_episode_assign_eids sid meta sn en :
  seasons_ok meta ->
  find_episode (snd (assign_eids (sid, meta))) sn en
  = option_map (set_eid sid sn) (find_episode meta sn en).
Proof.
  intros Hok. unfold find_episode. simpl sm_seasons.
  rewrite season_list_assign_eids, find_map_set_eid. f_equal.
  apply find_episode_perm; [apply season_list_ok; exact Hok|].
  symmetry. apply sort_by_e_perm.
Qed.

(** the card list is the list of the shows with their titles *)
Lemma discover_shows_cards_eq fs files :
  fst (fst (discover_shows fs files))
  = map (fun e => (fst e, sm_title (snd e))) (snd (fst (discover_shows fs files))).
Proof.
  pose proof (handle_files_ok fs files no_shows no_shows_ok) as Hok.
  unfold discover_shows. cbv zeta. fold (handle_files fs files no_shows). simpl fst. simpl snd.
  set (st := handle_files fs files no_shows) in *.
  destruct Hok as (Hids & _ & Hkeys & _ & _ & _).
  assert (Hnd : NoDup (map fst (map assign_eids (shows_meta st)))).
  { rewrite map_fst_assign_eids, Hkeys, Hids.
    apply Finite.Injective_map_NoDup; [|apply seq_NoDup]. intros i j. apply show_sid_inj. }
  transitivity (map (fun sid => (sid, match dict_get text_eqb (map assign_eids (shows_meta st)) sid with
                                      | Some m => sm_title m
                                      | None => []
                                      end)) (map snd (shows_map st))).
  { rewrite map_map. reflexivity. }
  rewrite <- Hkeys, <- (map_fst_assign_eids (shows_meta st)), map_map.
  apply map_ext_in. intros [sid m] Hin. simpl.
  rewrite (dict_get_NoDup text_eqb text_eqb_spec2 _ sid m Hnd Hin). reflexivity.
Qed.

(** X6.  Discovery gives every show one card: the ids are tv1, tv2, ... in
    the order in which the shows are met, the shows' entries are listed in
    the same order under the same ids, each card carries the title of its
    show, and no two cards have titles that are equal up to case. *)
Theorem discover_shows_cards (fs : filesystem) (files : list (text * text)) :
  let cards := fst (fst (discover_shows fs files)) in
  let metas := snd (fst (discover_shows fs files)) in
  map fst cards = map show_sid (seq 1 (length cards))
  /\ cards = map (fun e => (fst e, sm_title (snd e))) metas
  /\ NoDup (map fst cards)
  /\ NoDup (map (fun c => lower (snd c)) cards).
Proof.
  intros cards metas.
  pose proof (discover_shows_cards_eq fs files) as Hcards. fold cards metas in Hcards.
  pose proof (handle_files_ok fs files no_shows no_shows_ok) as Hok.
  assert (Em : metas = map assign_eids (shows_meta (handle_files fs files no_shows)))
    by reflexivity.
  set (st := handle_files fs files no_shows) in *.
  destruct Hok as (Hids & _ & Hkeys & Htitles & Hnd & _).
  assert (Hfst : map fst cards = map snd (shows_map st)).
  { rewrite Hcards, map_map. simpl. rewrite Em, map_fst_assign_eids. exact Hkeys. }
  assert (Hlen : length cards = length (shows_map st)).
  { rewrite <- (length_map fst cards), Hfst, length_map. reflexivity. }
  split; [rewrite Hfst, Hlen; exact Hids|]. split; [exact Hcards|]. split.
  - rewrite Hfst, Hids. apply Finite.Injective_map_NoDup; [|apply seq_NoDup].
    intros i j. apply show_sid_inj.
  - rewrite Hcards, map_map. simpl. rewrite Em, map_map.
    replace (map (fun x => lower (sm_title (snd (assign_eids x)))) (shows_meta st))
      with (map fst (shows_map st)); [exact Hnd|].
    rewrite <- Htitles. apply map_ext. intros e. rewrite assign_eids_title. reflexivity.
Qed.

(** X7.  No file is lost: every regular file with a video extension whose
    name parses belongs to a show on the card list whose title equals the
    parsed show name up to case, and that show lists the file's season and
    episode, under the key of that episode, with a file that is at least as
    large as this one. *)
Theorem discover_shows_lists_every_file
    (fs : filesystem) (files : list (text * text)) (fp fname : text) (p : parsed_show) :
  In (fp, fname) files -> accepted fs fp fname p ->
  exists sid title meta item,
    In (sid, title) (fst (fst (discover_shows fs files)))
    /\ lower title = lower (show p)
    /\ dict_get text_eqb (snd (fst (discover_shows fs files))) sid = Some meta
    /\ find_episode meta (season p) (episode p) = Some item
    /\ it_eid item = Some (episode_key sid (season p) (episode p))
    /\ (safe_size fs fp <= it_size item)%Z.
Proof.
  intros Hin Hacc.
  pose proof (handle_files_ok fs files no_shows no_shows_ok) as Hok.
  pose proof (handle_files_represents fs files no_shows fp fname p no_shows_ok Hin Hacc) as Hrep.
  rewrite (discover_shows_cards_eq fs files).
  assert (Em : snd (fst (discover_shows fs files))
               = map assign_eids (shows_meta (handle_files fs files no_shows)))
    by reflexivity.
  rewrite Em. set (st := handle_files fs files no_shows) in *.
  destruct Hrep as (sid & meta & item & H1 & H2 & H3 & H4).
  destruct Hok as (Hids & _ & Hkeys & Htitles & Hnd & Hall).
  pose proof (dict_get_Forall text_eqb seasons_ok _ _ _ Hall H2) as Hmeta.
  exists sid, (sm_title meta), (snd (assign_eids (sid, meta))), (set_eid sid (season p) item).
  split; [|split; [|split; [|split; [|split]]]].
  - apply in_map_iff. exists (assign_eids (sid, meta)). split; [reflexivity|].
    apply in_map. apply (dict_get_In text_eqb text_eqb_spec2). exact H2.
  - (* the show is keyed by its lower-cased title *)
    apply (dict_get_In text_eqb text_eqb_spec2) in H1, H2.
    assert (Hnds : NoDup (map snd (shows_map st))).
    { rewrite Hids. apply Finite.Injective_map_NoDup; [|apply seq_NoDup].
      intros i j. apply show_sid_inj. }
    clear Hids Hnd Hall Hmeta H3 H4 Em.
    revert Hkeys Htitles H1 H2 Hnds.
    generalize (shows_map st) as sm. generalize (shows_meta st) as mt.
    induction mt as [|[s0 m0] mt IH]; intros [|[k0 s1] sm]; simpl;
      try discriminate; try contradiction.
    intros [= -> Hk] [= Ht Hts] [Hg|Hg] [Hm|Hm] Hnds.
    + injection Hg as <- <-. injection Hm as <-. exact Ht.
    + injection Hg as -> ->. exfalso. inversion Hnds as [|? ? Hnot _]; subst.
      apply Hnot. rewrite <- Hk. apply in_map_iff. exists (sid, meta). auto.
    + injection Hm as -> ->. exfalso. inversion Hnds as [|? ? Hnot _]; subst.
      apply Hnot. apply in_map_iff. exists (lower (show p), sid). auto.
    + inversion Hnds; subst. eapply IH; eauto.
  - rewrite dict_get_assign_eids, H2. reflexivity.
  - rewrite find_episode_assign_eids by exact Hmeta. rewrite H3. reflexivity.
  - simpl. apply find_some in H3 as (_ & H3). apply Z.eqb_eq in H3. rewrite H3. reflexivity.
  - exact H4.
Qed.

Lemma discover_shows_lists_every_file_witness :
  exists sid title meta item,
    In (sid, title) (fst (fst (discover_shows demo_fs [(txt "/s/Show.Name.S01E02.mkv", txt "Show.Name.S01E02.mkv")])))
    /\ lower title = txt "show name"
    /\ dict_get text_eqb (snd (fst (discover_shows demo_fs [(txt "/s/Show.Name.S01E02.mkv", txt "Show.Name.S01E02.mkv")]))) sid = Some meta
    /\ find_episode meta 1 2 = Some item
    /\ it_eid item = Some (episode_key sid 1 2)
    /\ (safe_size demo_fs (txt "/s/Show.Name.S01E02.mkv") <= it_size item)%Z.
Proof.
  apply (discover_shows_lists_every_file demo_fs
           [(txt "/s/Show.Name.S01E02.mkv", txt "Show.Name.S01E02.mkv")]
           (txt "/s/Show.Name.S01E02.mkv") (txt "Show.Name.S01E02.mkv")
           {| show := txt "Show Name"; season := 1; episode := 2; ep_title := txt "mkv" |}).
  - left. reflexivity.
  - repeat split; vm_compute; reflexivity.
Defined.

(** ** The episode index *)

Lemma fold_left_flat_map {A B C : Type} (f : A -> B -> A) (g : C -> list B) (l : list C) (a : A) :
  fold_left f (flat_map g l) a = fold_left (fun a x => fold_left f (g x) a) l a.
Proof.
  revert a. induction l as [|x l IH]; intros a; simpl; [reflexivity|].
  rewrite fold_left_app. apply IH.
Qed.

Lemma fold_left_ext {A B : Type} (f g : A -> B -> A) (l : list B) (a : A) :
  (forall a b, f a b = g a b) -> fold_left f l a = fold_left g l a.
Proof.
  intros H. revert a. induction l as [|x l IH]; intros a; simpl; [reflexivity|].
  rewrite H. apply IH.
Qed.

Lemma build_episodes_index_pairs meta :
  build_episodes_index meta
  = fold_left (fun d kv => dict_set text_eqb d (fst kv) (snd kv)) (index_pairs meta) [].
Proof.
  unfold build_episodes_index, index_pairs. rewrite fold_left_flat_map.
  apply fold_left_ext. intros idx entry. rewrite fold_left_flat_map.
  apply fold_left_ext. intros idx' se. unfold index_items. rewrite fold_left_flat_map.
  apply fold_left_ext. intros idx'' item. destruct (it_eid item); reflexivity.
Qed.

Lemma in_index_pairs meta eid file :
  In (eid, file) (index_pairs meta) <->
  exists sid m sn eps item,
    In (sid, m) meta /\ In (sn, eps) (sm_seasons m) /\ In item eps
    /\ it_eid item = Some eid /\ file = it_file item.
Proof.
  unfold index_pairs. rewrite in_flat_map. split.
  - intros ([sid m] & Hm & H). apply in_flat_map in H as ([sn eps] & Hs & H).
    apply in_flat_map in H as (item & Hi & H). simpl in *.
    destruct (it_eid item) as [e|] eqn:E; [|contradiction].
    destruct H as [[= <- <-]|[]]. exists sid, m, sn, eps, item. auto.
  - intros (sid & m & sn & eps & item & Hm & Hs & Hi & He & ->).
    exists (sid, m). split; [exact Hm|]. apply in_flat_map. exists (sn, eps).
    split; [exact Hs|]. apply in_flat_map. exists item. split; [exact Hi|].
    simpl. rewrite He. left. reflexivity.
Qed.

(** what discovery returns: the shows under distinct ids without
    underscore, well-formed seasons, every episode keyed *)
Lemma discover_shows_metas fs files :
  let metas := snd (fst (discover_shows fs files)) in
  NoDup (map fst metas)
  /\ (forall sid m, In (sid, m) metas ->
        ~ In "_" sid /\ seasons_ok m /\ keyed sid m).
Proof.
  intros metas.
  pose proof (handle_files_ok fs files no_shows no_shows_ok) as Hok.
  assert (Em : metas = map assign_eids (shows_meta (handle_files fs files no_shows)))
    by reflexivity.
  set (st := handle_files fs files no_shows) in *.
  destruct Hok as (Hids & _ & Hkeys & _ & _ & Hall).
  assert (Hfst : map fst metas = map show_sid (seq 1 (length (shows_map st)))).
  { rewrite Em, map_fst_assign_eids, Hkeys. exact Hids. }
  split.
  - rewrite Hfst. apply Finite.Injective_map_NoDup; [|apply seq_NoDup].
    intros i j. apply show_sid_inj.
  - intros sid m Hin. split; [|split].
    + assert (Hs : In sid (map fst metas)) by (apply in_map_iff; exists (sid, m); auto).
      rewrite Hfst in Hs. apply in_map_iff in Hs as (i & <- & _).
      intros H. exact (show_sid_chars i "_" H eq_refl).
    + rewrite Em in Hin. apply in_map_iff in Hin as ([sid0 m0] & Heq & Hin0).
      rewrite Forall_forall in Hall. specialize (Hall _ Hin0). simpl in Hall.
      pose proof (assign_eids_ok sid0 m0 Hall) as H. rewrite Heq in H. exact H.
    + apply (discover_shows_keyed fs files). exact Hin.
Qed.

Lemma seasons_ok_entry m sn eps item :
  seasons_ok m -> In (sn, eps) (sm_seasons m) -> In item eps ->
  (0 <= sn)%Z /\ (0 <= it_e item)%Z /\ NoDup (map it_e eps).
Proof.
  intros (_ & Hall) Hs Hi. rewrite Forall_forall in Hall.
  destruct (Hall _ Hs) as (H0 & Hnd & Hpos). simpl in *.
  split; [exact H0|]. split; [|exact Hnd].
  rewrite Forall_forall in Hpos. apply Hpos. apply in_map. exact Hi.
Qed.

(** X8.  The episode index that discovery returns holds exactly the
    episodes of the shows it returns: every episode is found under its key
    "<show id>_S<season>E<episode>" with its retained file, and every entry
    of the index is the key and the file of one episode. *)
Theorem episodes_index_is_exact (fs : filesystem) (files : list (text * text)) :
  let metas := snd (fst (discover_shows fs files)) in
  let idx := snd (discover_shows fs files) in
  (forall sid meta sn eps item,
      In (sid, meta) metas -> In (sn, eps) (sm_seasons meta) -> In item eps ->
      dict_get text_eqb idx (episode_key sid sn (it_e item)) = Some (it_file item))
  /\ (forall eid file,
      dict_get text_eqb idx eid = Some file ->
      exists sid meta sn eps item,
        In (sid, meta) metas /\ In (sn, eps) (sm_seasons meta) /\ In item eps
        /\ eid = episode_key sid sn (it_e item) /\ file = it_file item).
Proof.
  intros metas idx.
  destruct (discover_shows_metas fs files) as (Hnd & Hmeta). fold metas in Hnd, Hmeta.
  assert (Eidx : idx = build_episodes_index metas) by reflexivity.
  rewrite Eidx, build_episodes_index_pairs. split.
  - intros sid meta sn eps item Hm Hs Hi.
    destruct (Hmeta sid meta Hm) as (Hsid & Hok & Hk).
    apply (dict_fill_get text_eqb text_eqb_spec2).
    + apply in_index_pairs. exists sid, meta, sn, eps, item.
      repeat (split; [assumption|]). split; [apply (Hk sn eps item Hs Hi) | reflexivity].
    + intros file' Hin.
      apply in_index_pairs in Hin as (sid' & m' & sn' & eps' & item' & Hm' & Hs' & Hi' & He' & ->).
      destruct (Hmeta sid' m' Hm') as (Hsid' & Hok' & Hk').
      rewrite (Hk' sn' eps' item' Hs' Hi') in He'. injection He' as He'.
      destruct (seasons_ok_entry meta sn eps item Hok Hs Hi) as (H0 & H1 & H2).
      destruct (seasons_ok_entry m' sn' eps' item' Hok' Hs' Hi') as (H0' & H1' & H2').
      apply episode_key_inj in He' as (-> & -> & He'); auto.
      assert (m' = meta)
        by (apply (NoDup_keys_functional text_eqb text_eqb_spec2 metas sid); assumption).
      subst m'.
      assert (eps' = eps).
      { apply (NoDup_keys_functional Z.eqb Z_eqb_spec' (sm_seasons meta) sn);
          [apply Hok | assumption..]. }
      subst eps'. f_equal. apply (NoDup_map_inj it_e eps); assumption.
  - intros eid file Hget.
    apply (dict_fill_keys text_eqb text_eqb_spec2) in Hget as [Hin|Hget]; [|discriminate].
    apply in_index_pairs in Hin as (sid & m & sn & eps & item & Hm & Hs & Hi & He & ->).
    destruct (Hmeta sid m Hm) as (_ & _ & Hk).
    rewrite (Hk sn eps item Hs Hi) in He. injection He as <-.
    exists sid, m, sn, eps, item. auto.
Qed.

Lemma episodes_index_is_exact_witness :
  dict_get text_eqb
    (snd (discover_shows demo_fs [(txt "/s/Show.Name.S01E02.mkv", txt "Show.Name.S01E02.mkv")]))
    (episode_key (txt "tv1") 1 2)
  = Some (txt "/s/Show.Name.S01E02.mkv").
Proof.
  pose (item := {| it_eid := Some (txt "tv1_S01E02"); it_s := 1%Z; it_e := 2%Z;
                   it_title := txt "mkv"; it_file := txt "/s/Show.Name.S01E02.mkv";
                   it_size := 23%Z; it_mtime := 0%Z |}).
  apply (proj1 (episodes_index_is_exact demo_fs
                  [(txt "/s/Show.Name.S01E02.mkv", txt "Show.Name.S01E02.mkv")])
           (txt "tv1") {| sm_title := txt "Show Name"; sm_seasons := [(1%Z, [item])] |}
           1%Z [item] item);
    left; reflexivity.
Defined.

(** * Discovery of movie-like categories *)

Lemma discover_video_pool_spec listing archived start skip prefix :
  discover_video_pool listing archived start skip prefix
  = (number_from prefix archived start (filter (listed skip) listing),
     (start + Z.of_nat (length (filter (listed skip) listing)))%Z).
Proof.
  revert start. induction listing as [|[entry kind] listing IH]; intros start.
  - simpl. f_equal. lia.
  - assert (Hl : listed skip (entry, kind)
                 = negb (starts_with (txt ".") entry || mem_text entry EXCLUDED_DIRS)
                   && negb (skip && text_eqb entry ARCHIVED_DIR_NAME)
                   && match kind with
                      | IsDir => true
                      | IsFile => is_video entry
                      | IsOther => false
                      end) by reflexivity.
    cbn [discover_video_pool filter]. rewrite Hl. clear Hl.
    destruct (starts_with (txt ".") entry || mem_text entry EXCLUDED_DIRS) eqn:E1;
      cbn [negb andb]; [apply IH|].
    destruct (skip && text_eqb entry ARCHIVED_DIR_NAME) eqn:E2; cbn [negb andb]; [apply IH|].
    destruct kind.
    + rewrite IH. cbn [length number_from]. unfold pool_item, item_name. cbn [fst snd].
      destruct (parse_title_year_from_folder entry) as [title year].
      cbn [fst snd]. f_equal. lia.
    + fold (is_video entry). destruct (is_video entry) eqn:E3; [|apply IH].
      rewrite IH. cbn [length number_from]. unfold pool_item, item_name. cbn [fst snd].
      destruct (parse_title_year_from_folder (splitext_base entry)) as [title year].
      cbn [fst snd]. f_equal. lia.
    + apply IH.
Qed.

Lemma number_from_sources prefix archived start es :
  map ci_source (number_from prefix archived start es) = map fst es.
Proof.
  revert start. induction es as [|e es IH]; intros start; simpl; [reflexivity|].
  rewrite IH. reflexivity.
Qed.

Lemma number_from_length prefix archived start es :
  length (number_from prefix archived start es) = length es.
Proof.
  revert start. induction es as [|e es IH]; intros start; simpl; [reflexivity|].
  rewrite IH. reflexivity.
Qed.

Lemma number_from_ids prefix archived (k : nat) es :
  map ci_id (number_from prefix archived (Z.of_nat k) es)
  = map (fun i => prefix ++ str_of_int (Z.of_nat i)) (seq k (length es)).
Proof.
  revert k. induction es as [|e es IH]; intros k; simpl; [reflexivity|].
  f_equal. replace (Z.of_nat k + 1)%Z with (Z.of_nat (S k)) by lia. apply IH.
Qed.

Lemma number_from_archived prefix archived start es :
  map ci_archived (number_from prefix archived start es) = repeat archived (length es).
Proof.
  revert start. induction es as [|e es IH]; intros start; simpl; [reflexivity|].
  rewrite IH. reflexivity.
Qed.

(** X9.  The items of a category are its listed entries, those of the root
    first and those of the archive folder after them, flagged as archived:
    hidden entries, the site directory, the archive folder itself and files
    without a video extension give no item.  The ids are the prefix followed
    by 1, 2, ... in that order, so no two items share an id. *)
Theorem discover_category_spec
    (root_listing archived_listing : list (text * entry_kind)) (id_prefix : text) :
  let act := filter (listed true) root_listing in
  let arc := filter (listed false) archived_listing in
  let items := discover_category root_listing archived_listing id_prefix in
  items = number_from id_prefix false 1 act
          ++ number_from id_prefix true (1 + Z.of_nat (length act)) arc
  /\ map ci_source items = map fst (act ++ arc)
  /\ map ci_archived items = repeat false (length act) ++ repeat true (length arc)
  /\ map ci_id items
     = map (fun i => id_prefix ++ str_of_int (Z.of_nat i)) (seq 1 (length items))
  /\ NoDup (map ci_id items).
Proof.
  intros act arc items.
  assert (E : items = number_from id_prefix false 1 act
                      ++ number_from id_prefix true (1 + Z.of_nat (length act)) arc).
  { unfold items, discover_category. rewrite !discover_video_pool_spec. reflexivity. }
  assert (Hids : map ci_id items
                 = map (fun i => id_prefix ++ str_of_int (Z.of_nat i)) (seq 1 (length items))).
  { rewrite E, map_app, length_app, !number_from_length, seq_app, map_app.
    change 1%Z with (Z.of_nat 1) at 1. rewrite number_from_ids.
    replace (1 + Z.of_nat (length act))%Z with (Z.of_nat (1 + length act)) by lia.
    rewrite number_from_ids. reflexivity. }
  split; [exact E|]. split; [|split; [|split]].
  - rewrite E, !map_app, !number_from_sources. reflexivity.
  - rewrite E, map_app, !number_from_archived. reflexivity.
  - exact Hids.
  - rewrite Hids. apply Finite.Injective_map_NoDup; [|apply seq_NoDup].
    intros i j H. apply app_inv_head in H. apply str_of_int_inj in H. lia.
Qed.

Example discover_category_demo :
  map (fun it => (ci_id it, ci_title it, ci_year it, ci_archived it))
    (discover_category
       [(txt ".DS_Store", IsFile); (txt "0-ARCHIVED", IsDir);
        (txt "The.Movie.2019.1080p", IsDir); (txt "_cinema_site", IsDir);
        (txt "notes.txt", IsFile); (txt "Other.Film.1999.mkv", IsFile)]
       [(txt "Old.One.1950", IsDir)] (txt "m"))
  = [(txt "m1", txt "The Movie", Some 2019%Z, false);
     (txt "m2", txt "Other Film", Some 1999%Z, false);
     (txt "m3", txt "Old One", Some 1950%Z, true)].
Proof. vm_compute. reflexivity. Qed.

(** * Requests of a title search *)

Lemma mem_text_false_not_in t l : mem_text t l = false -> ~ In t l.
Proof.
  intros H Hin. apply (mem_text_In t l) in Hin. congruence.
Qed.

Lemma tmdb_search_query_kept fy t y :
  year_kept fy y ->
  request_key (tmdb_search_query t (if fy then None else y)) = attempt_key t y
  /\ (fy = true -> sq_year (tmdb_search_query t (if fy then None else y)) = None).
Proof.
  unfold year_kept, request_key, tmdb_search_query. destruct fy.
  - intros ->. simpl. auto.
  - intros Hy. simpl. split; [|discriminate].
    destruct y as [v|]; [|reflexivity]. simpl.
    destruct (v =? 0)%Z eqn:E; [|reflexivity].
    apply Z.eqb_eq in E. subst v. congruence.
Qed.

Lemma attempt_ok prov fy st t y :
  attempts_ok fy st -> year_kept fy y ->
  attempts_ok fy (snd (attempt prov fy st t y))
  /\ (length (sent (snd (attempt prov fy st t y))) <= S (length (sent st)))%nat.
Proof.
  intros (Hseen & Hnd & Hne & Hyl) Hy. unfold attempt. cbv zeta.
  destruct t as [|c t]; [split; [repeat split; assumption | simpl; lia]|].
  destruct (mem_text (attempt_key (c :: t) y) (seen st)) eqn:E;
    [split; [repeat split; assumption | simpl; lia]|].
  destruct (tmdb_search_query_kept fy (c :: t) y Hy) as (Hk & Hn).
  assert (Hok : attempts_ok fy
                  {| seen := attempt_key (c :: t) y :: seen st;
                     sent := sent st ++ [tmdb_search_query (c :: t) (if fy then None else y)] |}).
  { unfold attempts_ok. simpl. split; [|split; [|split]].
    - rewrite map_app, rev_app_distr. simpl. rewrite Hk, Hseen. reflexivity.
    - constructor; [apply mem_text_false_not_in; exact E | exact Hnd].
    - apply Forall_app. split; [exact Hne|]. constructor; [discriminate | constructor].
    - intros Hfy. apply Forall_app. split; [apply Hyl; exact Hfy|].
      constructor; [apply Hn; exact Hfy | constructor]. }
  assert (Hlen : (length (sent st ++ [tmdb_search_query (c :: t) (if fy then None else y)])
                  <= S (length (sent st)))%nat) by (rewrite length_app; simpl; lia).
  destruct (tmdb_search_movie prov (c :: t) (if fy then None else y)) as [[|r rs]|];
    try (split; [exact Hok | exact Hlen]).
  destruct (_pick_best_movie _ _ _); split; assumption.
Qed.

Lemma attempt_each_ok prov fy qs :
  forall st,
    attempts_ok fy st -> Forall (fun ty => year_kept fy (snd ty)) qs ->
    attempts_ok fy (snd (attempt_each prov fy st qs))
    /\ (length (sent (snd (attempt_each prov fy st qs))) <= length (sent st) + length qs)%nat.
Proof.
  induction qs as [|[t y] qs IH]; intros st Hok Hall; simpl; [split; [exact Hok | lia]|].
  inversion Hall as [|? ? Hy Hall']; subst. simpl in Hy.
  destruct (attempt_ok prov fy st t y Hok Hy) as (Hok1 & Hlen1).
  destruct (attempt prov fy st t y) as [[res|] st1]; simpl in *.
  - split; [exact Hok1 | lia].
  - destruct (IH st1 Hok1 Hall') as (Hok2 & Hlen2). split; [exact Hok2 | lia].
Qed.

Lemma title_variants_length title :
  length (title_variants title false) = 3%nat
  /\ (length (title_variants title true) <= 4)%nat.
Proof.
  unfold title_variants. cbv zeta. split; [reflexivity|].
  cbn [andb]. destruct (negb _); [|simpl; lia].
  destruct (split_ws _) as [|w0 [|w1 [|w2 rest]]]; rewrite ?length_app; simpl; lia.
Qed.

Lemma attempt_schedule_kept title year fy :
  sweepable year ->
  Forall (fun ty => year_kept fy (snd ty)) (attempt_schedule title year fy)
  /\ (length (attempt_schedule title year fy) <= if fy then 5 else 19)%nat.
Proof.
  intros Hy. unfold attempt_schedule. cbv zeta.
  destruct (title_variants_length title) as (L3 & L4).
  destruct fy; cbv iota.
  - split.
    + apply Forall_app. split; [|constructor; [reflexivity | constructor]].
      apply Forall_map. apply Forall_forall. intros t _. reflexivity.
    + rewrite length_app, length_map. simpl. lia.
  - set (sweep := match year with
                  | Some y => if truthy_int year then [y; y - 1; y + 1; y - 2; y + 2]%Z else []
                  | None => []
                  end).
    assert (Hsw : Forall (fun y => y <> 0%Z) sweep /\ (length sweep <= 5)%nat).
    { subst sweep. destruct year as [y|]; [|split; [constructor | simpl; lia]].
      simpl in Hy. destruct (truthy_int (Some y)); [|split; [constructor | simpl; lia]].
      split; [repeat constructor; lia | simpl; lia]. }
    destruct Hsw as (Hsw & Hlen). split.
    + apply Forall_app. split; [|apply Forall_app; split].
      * apply Forall_forall. intros [t y'] Hin.
        apply in_flat_map in Hin as (y0 & Hy0 & Hin).
        apply in_map_iff in Hin as (t0 & [= <- <-] & _). simpl.
        rewrite Forall_forall in Hsw. specialize (Hsw y0 Hy0). congruence.
      * apply Forall_map. apply Forall_forall. intros t _. simpl. discriminate.
      * constructor; [simpl; discriminate | constructor].
    + assert (Hfm : forall l : list Z,
                 length (flat_map (fun y => map (fun t => (t, Some y))
                                               (title_variants title false)) l)
                 = (3 * length l)%nat).
      { induction l as [|a l IH]; cbn [flat_map length]; [reflexivity|].
        rewrite length_app, length_map, IH, L3. lia. }
      rewrite !length_app, length_map, Hfm, L3. cbn [length]. lia.
Qed.

(** X10.  For a title whose year, if any, is above 2, one call of the
    variant search never sends a request with an empty query, never sends
    two requests that are equal once the query is lower-cased, and sends at
    most 19 requests, or 5 when it is told to search without years, in which
    case no request carries a year. *)
Theorem try_search_variants_requests
    (prov : provider) (title : text) (year : option Z) (force_yearless : bool) :
  sweepable year ->
  let requests := sent (snd (try_search_variants prov title year force_yearless)) in
  NoDup (map request_key requests)
  /\ NoDup requests
  /\ Forall (fun q => sq_title q <> []) requests
  /\ (length requests <= if force_yearless then 5 else 19)%nat
  /\ (force_yearless = true -> Forall (fun q => sq_year q = None) requests).
Proof.
  intros Hy requests. subst requests. unfold try_search_variants.
  destruct (attempt_schedule_kept title year force_yearless Hy) as (Hkept & Hlen).
  destruct (attempt_each_ok prov force_yearless (attempt_schedule title year force_yearless)
              {| seen := []; sent := [] |}) as ((Hseen & Hnd & Hne & Hyl) & Hl).
  { unfold attempts_ok. simpl. repeat split; constructor. }
  { exact Hkept. }
  simpl in Hl.
  set (st := snd (attempt_each prov force_yearless {| seen := []; sent := [] |}
                    (attempt_schedule title year force_yearless))) in *.
  assert (Hk : NoDup (map request_key (sent st))).
  { rewrite Hseen in Hnd. apply NoDup_rev in Hnd. rewrite rev_involutive in Hnd. exact Hnd. }
  split; [exact Hk|]. split; [eapply NoDup_map_inv; exact Hk|].
  split; [exact Hne|]. split; [lia | exact Hyl].
Qed.

Lemma try_search_variants_requests_witness :
  (length (sent (snd (try_search_variants silent_provider (txt "The Movie") (Some 2019%Z) false)))
   <= 19)%nat.
Proof.
  exact (proj1 (proj2 (proj2 (proj2
           (try_search_variants_requests silent_provider (txt "The Movie") (Some 2019%Z) false
              ltac:(simpl; lia)))))).
Defined.

Example try_search_variants_sweep :
  map (fun q => (sq_title q, sq_year q))
    (sent (snd (try_search_variants silent_provider (txt "The.Movie") (Some 2019%Z) false)))
  = [(txt "The.Movie", Some 2019%Z); (txt "The Movie", Some 2019%Z);
     (txt "The.Movie", Some 2018%Z); (txt "The Movie", Some 2018%Z);
     (txt "The.Movie", Some 2020%Z); (txt "The Movie", Some 2020%Z);
     (txt "The.Movie", Some 2017%Z); (txt "The Movie", Some 2017%Z);
     (txt "The.Movie", Some 2021%Z); (txt "The Movie", Some 2021%Z);
     (txt "The.Movie", None); (txt "The Movie", None)].
Proof. vm_compute. reflexivity. Qed.

(** * The cache files *)

Lemma dict_set_keys_grow {V : Type} (d : list (text * V)) k v :
  exists new, map fst (dict_set text_eqb d k v) = map fst d ++ new.
Proof.
  destruct (dict_get text_eqb d k) as [v0|] eqn:E.
  - exists []. rewrite (dict_set_keys text_eqb text_eqb_spec2 d k v v0 E), app_nil_r. reflexivity.
  - exists [k]. rewrite (dict_set_new text_eqb d k v E), map_app. reflexivity.
Qed.

Lemma enrich_movies_frame prov items :
  forall cache,
    let cache' := fst (enrich_movies prov items cache) in
    (forall key, ~ In key (map movie_key items) ->
                 dict_get text_eqb cache' key = dict_get text_eqb cache key)
    /\ (forall key, dict_get text_eqb cache key <> None -> dict_get text_eqb cache' key <> None)
    /\ (forall item, In item items -> dict_get text_eqb cache' (movie_key item) <> None)
    /\ (exists new, map fst cache' = map fst cache ++ new).
Proof.
  induction items as [|item items IH]; intros cache.
  - simpl. repeat split; auto. exists []. rewrite app_nil_r. reflexivity.
  - cbn [enrich_movies]. cbv zeta.
    destruct (enrich_movie_entry prov item (cached_movie cache (movie_key item))) as [c reqs].
    specialize (IH (dict_set text_eqb cache (movie_key item) c)).
    destruct (enrich_movies prov items (dict_set text_eqb cache (movie_key item) c))
      as [cache' reqs'].
    cbn [fst] in *. destruct IH as (Hother & Hkeep & Hin & (new & Hnew)).
    split; [|split; [|split]].
    + intros key Hk. cbn [map] in Hk. rewrite Hother by (intros H; apply Hk; right; exact H).
      apply (dict_get_set_other text_eqb text_eqb_spec2).
      intros ->. apply Hk. left. reflexivity.
    + intros key Hk. apply Hkeep.
      destruct (list_eq_dec ascii_dec key (movie_key item)) as [->|Hne].
      * rewrite (dict_get_set_same text_eqb text_eqb_spec2). discriminate.
      * rewrite (dict_get_set_other text_eqb text_eqb_spec2) by exact Hne. exact Hk.
    + intros it [<-|Hit]; [|apply Hin; exact Hit].
      apply Hkeep. rewrite (dict_get_set_same text_eqb text_eqb_spec2). discriminate.
    + destruct (dict_set_keys_grow cache (movie_key item) c) as (new0 & Hnew0).
      exists (new0 ++ new). rewrite Hnew, Hnew0, app_assoc. reflexivity.
Qed.

Lemma enrich_shows_frame prov titles :
  forall cache,
    let cache' := enrich_shows prov titles cache in
    (forall key, ~ In key (map lower titles) ->
                 dict_get text_eqb cache' key = dict_get text_eqb cache key)
    /\ (forall key, dict_get text_eqb cache key <> None -> dict_get text_eqb cache' key <> None)
    /\ (forall title, In title titles -> dict_get text_eqb cache' (lower title) <> None)
    /\ (exists new, map fst cache' = map fst cache ++ new).
Proof.
  induction titles as [|title titles IH]; intros cache.
  - simpl. repeat split; auto. exists []. rewrite app_nil_r. reflexivity.
  - cbn [enrich_shows]. cbv zeta.
    set (c := enrich_tv_entry prov title (cached_tv cache (lower title))).
    specialize (IH (dict_set text_eqb cache (lower title) c)).
    cbv zeta in IH. destruct IH as (Hother & Hkeep & Hin & (new & Hnew)).
    split; [|split; [|split]].
    + intros key Hk. cbn [map] in Hk. rewrite Hother by (intros H; apply Hk; right; exact H).
      apply (dict_get_set_other text_eqb text_eqb_spec2).
      intros ->. apply Hk. left. reflexivity.
    + intros key Hk. apply Hkeep.
      destruct (list_eq_dec ascii_dec key (lower title)) as [->|Hne].
      * rewrite (dict_get_set_same text_eqb text_eqb_spec2). discriminate.
      * rewrite (dict_get_set_other text_eqb text_eqb_spec2) by exact Hne. exact Hk.
    + intros it [<-|Hit]; [|apply Hin; exact Hit].
      apply Hkeep. rewrite (dict_get_set_same text_eqb text_eqb_spec2). discriminate.
    + destruct (dict_set_keys_grow cache (lower title) c) as (new0 & Hnew0).
      exists (new0 ++ new). rewrite Hnew, Hnew0, app_assoc. reflexivity.
Qed.

(** X11.  An enrichment pass never drops a record from its cache file and
    never touches the record of an entry that is not in the pass: the keys
    the file had stay, in their order, new keys are appended, every entry of
    the pass has a record afterwards, and every other key reads as before.
    This holds for the movie cache, keyed "<title>|<year>", and for the show
    cache, keyed by the lower-cased title. *)
Theorem enrichment_keeps_other_records
    (prov : provider) (items : list catalog_item) (titles : list text)
    (cache : movie_cache) (shows : tv_cache) :
  let cache' := fst (enrich_movies prov items cache) in
  let shows' := enrich_shows prov titles shows in
  ((forall key, ~ In key (map movie_key items) ->
                dict_get text_eqb cache' key = dict_get text_eqb cache key)
   /\ (forall item, In item items -> dict_get text_eqb cache' (movie_key item) <> None)
   /\ (exists new, map fst cache' = map fst cache ++ new))
  /\ ((forall key, ~ In key (map lower titles) ->
                   dict_get text_eqb shows' key = dict_get text_eqb shows key)
      /\ (forall title, In title titles -> dict_get text_eqb shows' (lower title) <> None)
      /\ (exists new, map fst shows' = map fst shows ++ new)).
Proof.
  intros cache' shows'.
  destruct (enrich_movies_frame prov items cache) as (H1 & _ & H2 & H3).
  destruct (enrich_shows_frame prov titles shows) as (H4 & _ & H5 & H6).
  split; split; try split; assumption.
Qed.

Lemma enrichment_keeps_other_records_witness :
  dict_get text_eqb
    (fst (enrich_movies fresh_provider [the_movie] [(txt "Other|1999", stale_entry)]))
    (txt "Other|1999")
  = Some stale_entry.
Proof.
  apply (proj1 (proj1 (enrichment_keeps_other_records fresh_provider [the_movie] []
                         [(txt "Other|1999", stale_entry)] []))).
  simpl. intros [H|[]]. discriminate.
Defined.

(** * The similarity score *)









Example sim_score_best :
  _sim_score (txt "The Movie") (txt "the movie") (Some 2019%Z) (Some 2019%Z) true == 1.38.
Proof. vm_compute. reflexivity. Qed.

(** * Certifications *)

Lemma first_certification_spec rels :
  match first_certification rels with
  | Some cert =>
      cert <> [] /\
      exists before r after,
        rels = before ++ r :: after /\ cert = strip r
        /\ Forall (fun x => strip x = []) before
  | None => Forall (fun x => strip x = []) rels
  end.
Proof.
  induction rels as [|r rels IH]; simpl; [constructor|].
  destruct (strip r) as [|c cert] eqn:E.
  - destruct (first_certification rels) as [x|].
    + destruct IH as (Hne & before & r' & after & -> & -> & Hall).
      split; [exact Hne|]. exists (r :: before), r', after.
      split; [reflexivity|]. split; [reflexivity|]. constructor; assumption.
    + constructor; assumption.
  - split; [discriminate|]. exists [], r, rels. split; [reflexivity|].
    split; [symmetry; exact E | constructor].
Qed.

(** X13.  The certification extracted from the release dates is the first
    certification, in order, of an entry for the country "US" that is not
    blank, with the blanks around it removed: it is never empty, and there is
    none exactly when every certification of every "US" entry is blank. *)
Theorem extract_cert_is_first_us_certification (results : list (text * list text)) :
  match extract_cert_from_movie_release_dates results with
  | Some cert =>
      cert <> [] /\ strip cert = cert
      /\ exists earlier rels later before r after,
           results = earlier ++ (txt "US", rels) :: later
           /\ rels = before ++ r :: after
           /\ cert = strip r
           /\ Forall (fun x => strip x = []) before
           /\ (forall rels' x, In (txt "US", rels') earlier -> In x rels' -> strip x = [])
  | None => forall rels x, In (txt "US", rels) results -> In x rels -> strip x = []
  end.
Proof.
  induction results as [|[iso rels] results IH]; [intros ? ? []|].
  cbn [extract_cert_from_movie_release_dates].
  destruct (text_eqb iso (txt "US")) eqn:E.
  - apply text_eqb_eq in E. subst iso.
    pose proof (first_certification_spec rels) as Hf.
    destruct (first_certification rels) as [cert|].
    + destruct Hf as (Hne & before & r & after & Hrels & Hcert & Hall).
      split; [exact Hne|]. split; [rewrite Hcert; apply strip_idempotent|].
      exists [], rels, results, before, r, after.
      repeat (split; [assumption || reflexivity|]). intros ? ? [].
    + destruct (extract_cert_from_movie_release_dates results) as [cert|].
      * destruct IH as (Hne & Hs & earlier & rels0 & later & before & r & after
                        & -> & Hrels & Hcert & Hall & Hearlier).
        split; [exact Hne|]. split; [exact Hs|].
        exists ((txt "US", rels) :: earlier), rels0, later, before, r, after.
        repeat (split; [assumption || reflexivity|]).
        intros rels' x Hin Hx. destruct Hin as [Heq|Hin]; [|eapply Hearlier; eassumption].
        injection Heq as <-. rewrite Forall_forall in Hf. apply Hf. exact Hx.
      * intros rels' x Hin Hx. destruct Hin as [Heq|Hin]; [|eapply IH; eassumption].
        injection Heq as <-. rewrite Forall_forall in Hf. apply Hf. exact Hx.
  - apply text_eqb_neq in E.
    destruct (extract_cert_from_movie_release_dates results) as [cert|].
    + destruct IH as (Hne & Hs & earlier & rels0 & later & before & r & after
                      & -> & Hrels & Hcert & Hall & Hearlier).
      split; [exact Hne|]. split; [exact Hs|].
      exists ((iso, rels) :: earlier), rels0, later, before, r, after.
      repeat (split; [assumption || reflexivity|]).
      intros rels' x Hin Hx. destruct Hin as [Heq|Hin]; [|eapply Hearlier; eassumption].
      injection Heq as Heq _. exfalso. apply E. exact Heq.
    + intros rels' x Hin Hx. destruct Hin as [Heq|Hin]; [|eapply IH; eassumption].
      injection Heq as Heq _. exfalso. apply E. exact Heq.
Qed.

Example extract_cert_demo :
  extract_cert_from_movie_release_dates
    [(txt "DE", [txt "12"]); (txt "US", [txt ""; txt " PG-13 "; txt "R"])]
  = Some (txt "PG-13").
Proof. reflexivity. Qed.

(** * Title search for shows *)



Example try_tv_variants_demo :
  tv_sent (snd (try_tv_variants (fun _ => None) (txt "Show.Name (2019)")))
  = [txt "Show.Name (2019)"; txt "Show Name"].
Proof. vm_compute. reflexivity. Qed.

(** * Episode titles from the provider *)

Lemma fill_episode_spec details tv_id sn st ep :
  title_filled ep (snd (fill_episode details tv_id sn st ep))
  /\ exists new,
       ef_requested (fst (fill_episode details tv_id sn st ep)) = ef_requested st ++ new
       /\ (new = [] \/ (new = [(tv_id, sn, it_e ep)] /\ it_title ep = [])).
Proof.
  unfold fill_episode. destruct (it_title ep) as [|c t] eqn:Et; simpl nonempty; cbv iota.
  2:{ split; [left; reflexivity|]. exists []. rewrite app_nil_r. auto. }
  cbv zeta.
  match goal with
  | |- context [let '(name, st') := ?X in _] => destruct X as [name st'] eqn:Ex
  end.
  simpl fst. simpl snd. split.
  - destruct name as [|c n]; simpl nonempty; cbv iota; [left; reflexivity|].
    right. split; [exact Et|]. split; [discriminate | reflexivity].
  - destruct (truthy_text _) in Ex; injection Ex as <- <-.
    + exists []. rewrite app_nil_r. auto.
    + eexists. split; [reflexivity|]. right. auto.
Qed.

Lemma fill_episodes_spec details tv_id sn eps :
  forall st,
    Forall2 title_filled eps (snd (fill_episodes details tv_id sn st eps))
    /\ exists new,
         ef_requested (fst (fill_episodes details tv_id sn st eps)) = ef_requested st ++ new
         /\ Forall (fun r => exists ep, In ep eps /\ r = (tv_id, sn, it_e ep)
                                        /\ it_title ep = []) new.
Proof.
  induction eps as [|ep eps IH]; intros st.
  - simpl. split; [constructor|]. exists []. rewrite app_nil_r. split; [reflexivity | constructor].
  - cbn [fill_episodes].
    destruct (fill_episode_spec details tv_id sn st ep) as (H1 & new1 & H2 & H3).
    destruct (fill_episode details tv_id sn st ep) as [st1 ep'].
    destruct (IH st1) as (H4 & new2 & H5 & H6).
    destruct (fill_episodes details tv_id sn st1 eps) as [st2 eps'].
    simpl in *. split; [constructor; assumption|].
    exists (new1 ++ new2). split; [rewrite H5, H2, app_assoc; reflexivity|].
    apply Forall_app. split.
    + destruct H3 as [->|(-> & Ht)]; [constructor|].
      constructor; [|constructor]. exists ep. auto.
    + eapply Forall_impl; [|exact H6]. intros r (ep0 & Hin & Hr & Ht). exists ep0. auto.
Qed.

Lemma fill_seasons_spec details tv_id seasons :
  forall st,
    Forall2 season_filled seasons (snd (fill_seasons details tv_id st seasons))
    /\ exists new,
         ef_requested (fst (fill_seasons details tv_id st seasons)) = ef_requested st ++ new
         /\ Forall (fun r => exists eps ep,
                       In (snd (fst r), eps) seasons /\ In ep eps
                       /\ r = (tv_id, snd (fst r), it_e ep) /\ it_title ep = []) new.
Proof.
  induction seasons as [|[sn eps] seasons IH]; intros st.
  - simpl. split; [constructor|]. exists []. rewrite app_nil_r. split; [reflexivity | constructor].
  - cbn [fill_seasons].
    destruct (fill_episodes_spec details tv_id sn eps st) as (H1 & new1 & H2 & H3).
    destruct (fill_episodes details tv_id sn st eps) as [st1 eps'].
    destruct (IH st1) as (H4 & new2 & H5 & H6).
    destruct (fill_seasons details tv_id st1 seasons) as [st2 seasons'].
    simpl in *. split; [constructor; [split; [reflexivity | exact H1] | exact H4]|].
    exists (new1 ++ new2). split; [rewrite H5, H2, app_assoc; reflexivity|].
    apply Forall_app. split.
    + eapply Forall_impl; [|exact H3]. intros r (ep & Hin & -> & Ht).
      exists eps, ep. simpl. auto.
    + eapply Forall_impl; [|exact H6]. intros r (eps0 & ep & Hs & Hin & Hr & Ht).
      exists eps0, ep. auto.
Qed.

Lemma Forall2_title_filled_refl eps : Forall2 title_filled eps eps.
Proof. induction eps; constructor; [left; reflexivity | assumption]. Qed.

Lemma Forall2_season_filled_refl seasons : Forall2 season_filled seasons seasons.
Proof.
  induction seasons; constructor; [|assumption].
  split; [reflexivity | apply Forall2_title_filled_refl].
Qed.

Lemma fill_show_spec details st sid entry :
  show_filled (sid, entry) (sid, snd (fill_show details st entry))
  /\ exists new,
       ef_requested (fst (fill_show details st entry)) = ef_requested st ++ new
       /\ Forall (untitled_episode [(sid, entry)]) new.
Proof.
  unfold fill_show. destruct (truthy_int (se_tv_id entry)) eqn:Et; simpl negb; cbv iota.
  2:{ split.
      - unfold show_filled. simpl. repeat (split; [reflexivity|]).
        split; [apply Forall2_season_filled_refl | reflexivity].
      - exists []. rewrite app_nil_r. split; [reflexivity | constructor]. }
  destruct (se_tv_id entry) as [tv_id|] eqn:Eid; [|discriminate].
  destruct (fill_seasons_spec details tv_id (sm_seasons (se_meta entry)) st)
    as (H1 & new & H2 & H3).
  destruct (fill_seasons details tv_id st (sm_seasons (se_meta entry))) as [st' seasons'].
  simpl in *. split.
  - unfold show_filled. simpl. rewrite Eid. repeat (split; [reflexivity|]).
    split; [exact H1 | intros H; simpl in H; congruence].
  - exists new. split; [exact H2|]. eapply Forall_impl; [|exact H3].
    intros [[tv sn] en] (eps & ep & Hs & Hin & Hr & Ht). simpl in *.
    injection Hr as Htv Hen. subst tv.
    exists sid, entry, eps, ep. simpl. rewrite Eid.
    split; [left; reflexivity|]. split; [reflexivity|].
    split; [intros ->; discriminate|]. auto.
Qed.

Lemma untitled_episode_mono shows shows' r :
  incl shows shows' -> untitled_episode shows r -> untitled_episode shows' r.
Proof.
  intros Hincl (sid & entry & eps & ep & Hin & H). exists sid, entry, eps, ep.
  split; [apply Hincl; exact Hin | exact H].
Qed.

(** X15.  Filling episode titles from the provider changes nothing but
    titles that were empty: the shows, their provider ids and titles, the
    seasons and the episodes stay as they are and in their order, an episode
    either stays as it is or gets a non-empty title where it had none, and a
    show without a provider id is left as it is.  Every request is for an
    untitled episode of a show that has a provider id. *)
Theorem fill_episode_titles_only_fills_empty
    (details : Z -> Z -> Z -> option episode_details) (st : ep_fill)
    (shows : list (text * show_entry)) :
  Forall2 show_filled shows (snd (fill_episode_titles_from_tmdb details st shows))
  /\ exists new,
       ef_requested (fst (fill_episode_titles_from_tmdb details st shows))
       = ef_requested st ++ new
       /\ Forall (untitled_episode shows) new.
Proof.
  revert st. induction shows as [|[sid entry] shows IH]; intros st.
  - simpl. split; [constructor|]. exists []. rewrite app_nil_r. split; [reflexivity | constructor].
  - cbn [fill_episode_titles_from_tmdb].
    destruct (fill_show_spec details st sid entry) as (H1 & new1 & H2 & H3).
    destruct (fill_show details st entry) as [st1 entry'].
    destruct (IH st1) as (H4 & new2 & H5 & H6).
    destruct (fill_episode_titles_from_tmdb details st1 shows) as [st2 shows'].
    simpl in *. split; [constructor; assumption|].
    exists (new1 ++ new2). split; [rewrite H5, H2, app_assoc; reflexivity|].
    apply Forall_app. split.
    + eapply Forall_impl; [|exact H3]. intros r. apply untitled_episode_mono.
      intros x [<-|[]]. left. reflexivity.
    + eapply Forall_impl; [|exact H6]. intros r. apply untitled_episode_mono.
      intros x Hx. right. exact Hx.
Qed.

(** * The newest sixteen *)

Section SortedDescendingFacts.
Context {A : Type} (key : A -> Z).

Lemma insert_desc_perm x l : Permutation (insert_desc key x l) (x :: l).
Proof.
  induction l as [|y l IH]; simpl; [reflexivity|].
  destruct (key x <? key y)%Z; [|reflexivity].
  rewrite IH. apply perm_swap.
Qed.

Lemma sorted_desc_perm l : Permutation (sorted_desc key l) l.
Proof.
  induction l as [|x l IH]; simpl; [reflexivity|].
  rewrite insert_desc_perm. constructor. exact IH.
Qed.

Lemma insert_desc_sorted x l : descending key l -> descending key (insert_desc key x l).
Proof.
  unfold descending. induction l as [|y l IH]; intros Hs; simpl.
  - constructor; constructor.
  - inversion Hs as [|? ? Hs' Hall]; subst.
    destruct (key x <? key y)%Z eqn:E.
    + apply Z.ltb_lt in E. constructor; [apply IH; exact Hs'|].
      apply Forall_forall. intros z Hz.
      apply (Permutation_in _ (insert_desc_perm x l)) in Hz. destruct Hz as [<-|Hz]; [lia|].
      rewrite Forall_forall in Hall. apply Hall. exact Hz.
    + apply Z.ltb_ge in E. constructor; [exact Hs|].
      constructor; [exact E|]. eapply Forall_impl; [|exact Hall]. simpl. intros; lia.
Qed.

Lemma sorted_desc_sorted l : descending key (sorted_desc key l).
Proof.
  induction l as [|x l IH]; simpl; [constructor|]. apply insert_desc_sorted. exact IH.
Qed.

(** in a descending list an entry among the first [k] is at least as new
    as one that is not *)
Lemma descending_firstn k l a b :
  descending key l -> In a (firstn k l) -> In b (skipn k l) -> (key b <= key a)%Z.
Proof.
  unfold descending. revert k. induction l as [|x l IH]; intros k Hs Ha Hb.
  - rewrite firstn_nil in Ha. contradiction.
  - destruct k as [|k]; [contradiction|]. simpl in Ha, Hb.
    inversion Hs as [|? ? Hs' Hall]; subst.
    destruct Ha as [<-|Ha]; [|eapply IH; eassumption].
    rewrite Forall_forall in Hall. apply Hall.
    rewrite <- (firstn_skipn k l). apply in_or_app. right. exact Hb.
Qed.
End SortedDescendingFacts.

Lemma in_firstn_in {A : Type} k (l : list A) x : In x (firstn k l) -> In x l.
Proof.
  intros H. rewrite <- (firstn_skipn k l). apply in_or_app. left. exact H.
Qed.

Lemma NoDup_firstn_of {A : Type} k (l : list A) : NoDup l -> NoDup (firstn k l).
Proof.
  intros H. rewrite <- (firstn_skipn k l) in H. apply NoDup_app_remove_r in H. exact H.
Qed.

Lemma NoDup_of_map {A B : Type} (f : A -> B) (l : list A) : NoDup (map f l) -> NoDup l.
Proof. apply NoDup_map_inv. Qed.

Lemma newest_sorted items :
  Permutation (sorted_desc mi_mtime (filter has_path items)) (filter has_path items).
Proof. apply sorted_desc_perm. Qed.

Lemma newest_eq items :
  newest items = firstn 16 (sorted_desc mi_mtime (filter has_path items)).
Proof. reflexivity. Qed.

Lemma newest_incl items m : In m (newest items) -> In m items /\ has_path m = true.
Proof.
  unfold newest. intros H. apply in_firstn_in in H.
  apply (Permutation_in _ (newest_sorted items)) in H.
  apply filter_In in H. exact H.
Qed.

Lemma is_new_iff items m :
  NoDup (map mi_id items) -> In m items ->
  (is_new items m = true <-> In m (newest items)).
Proof.
  intros Hnd Hm. unfold is_new. rewrite mem_text_In. split.
  - intros H. apply in_map_iff in H as (m' & Hid & Hin).
    destruct (newest_incl items m' Hin) as (Hm' & _).
    assert (m' = m) by (apply (NoDup_map_inj mi_id items); assumption).
    subst m'. exact Hin.
  - intros H. apply in_map. exact H.
Qed.

(** X16.  With pairwise different ids, the entries flagged as new are
    exactly the sixteen newest entries that have a file, or all of them when
    there are fewer: every flagged entry has a file, the number of flagged
    entries is the smaller of 16 and the number of entries with a file, and
    no entry with a file that is not flagged is newer than a flagged one. *)
Theorem newest_sixteen_are_flagged (items : list media_item) :
  NoDup (map mi_id items) ->
  let flagged := filter (is_new items) items in
  (forall m, In m flagged -> mi_abs_path m <> [])
  /\ length flagged = Nat.min 16 (length (filter has_path items))
  /\ (forall m m', In m flagged -> In m' items -> mi_abs_path m' <> [] ->
                   is_new items m' = false -> (mi_mtime m' <= mi_mtime m)%Z).
Proof.
  intros Hnd flagged.
  assert (Hitems : NoDup items) by (apply (NoDup_of_map mi_id); exact Hnd).
  assert (Hflag : forall m, In m flagged <-> In m (newest items)).
  { intros m. unfold flagged. rewrite filter_In. split.
    - intros (Hin & Hn). apply is_new_iff in Hn; assumption.
    - intros H. destruct (newest_incl items m H) as (Hin & _).
      split; [exact Hin | apply is_new_iff; assumption]. }
  set (sorted := sorted_desc mi_mtime (filter has_path items)).
  assert (Hsorted : NoDup sorted).
  { apply (Permutation_NoDup (l := filter has_path items));
      [symmetry; apply newest_sorted | apply NoDup_filter; exact Hitems]. }
  split; [|split].
  - intros m Hm. apply Hflag in Hm. apply newest_incl in Hm as (_ & Hp).
    unfold has_path in Hp. destruct (mi_abs_path m); [discriminate | discriminate].
  - transitivity (length (newest items)).
    + apply Permutation_length. apply NoDup_Permutation.
      * apply NoDup_filter. exact Hitems.
      * rewrite newest_eq. apply NoDup_firstn_of. exact Hsorted.
      * exact Hflag.
    + rewrite newest_eq, length_firstn.
      rewrite (Permutation_length (newest_sorted items)). reflexivity.
  - intros m m' Hm Hm' Hp Hn. apply Hflag in Hm.
    assert (Hin' : In m' sorted).
    { apply (Permutation_in m' (Permutation_sym (newest_sorted items))).
      apply filter_In. split; [exact Hm'|]. unfold has_path.
      destruct (mi_abs_path m'); [congruence | reflexivity]. }
    assert (Hnot : ~ In m' (newest items)).
    { intros H. apply (is_new_iff items m' Hnd Hm') in H. congruence. }
    rewrite <- (firstn_skipn 16 sorted) in Hin'. apply in_app_or in Hin' as [H|H].
    + exfalso. apply Hnot. rewrite newest_eq. exact H.
    + rewrite newest_eq in Hm.
      apply (descending_firstn mi_mtime 16 sorted); [apply sorted_desc_sorted | exact Hm | exact H].
Qed.

Lemma newest_sixteen_are_flagged_witness :
  length (filter (is_new [ {| mi_id := txt "m1"; mi_abs_path := txt "/a.mkv"; mi_mtime := 5 |};
                           {| mi_id := txt "m2"; mi_abs_path := []; mi_mtime := 9 |} ])
            [ {| mi_id := txt "m1"; mi_abs_path := txt "/a.mkv"; mi_mtime := 5 |};
              {| mi_id := txt "m2"; mi_abs_path := []; mi_mtime := 9 |} ])
  = 1%nat.
Proof.
  refine (proj1 (proj2 (newest_sixteen_are_flagged
            [ {| mi_id := txt "m1"; mi_abs_path := txt "/a.mkv"; mi_mtime := 5 |};
              {| mi_id := txt "m2"; mi_abs_path := []; mi_mtime := 9 |} ] _))).
  repeat constructor; simpl; intuition discriminate.
Defined.

(** * Sizes of folders *)

Section NodeInduction.
Variable P : fs_node -> Prop.
Hypothesis file_case : forall name size is_link, P (FileNode name size is_link).
Hypothesis dir_case :
  forall name is_link children, Forall P children -> P (DirNode name is_link children).

Fixpoint fs_node_induction (n : fs_node) : P n :=
  match n with
  | FileNode name size is_link => file_case name size is_link
  | DirNode name is_link children =>
      dir_case name is_link children
        ((fix all (cs : list fs_node) : Forall P cs :=
            match cs with
            | [] => Forall_nil P
            | c :: cs' => Forall_cons c (fs_node_induction c) (all cs')
            end) children)
  end.
End NodeInduction.

Lemma node_total_dir exclude name is_link children :
  node_total exclude (DirNode name is_link children)
  = if mem_text name exclude || starts_with (txt ".") name || is_link then 0%Z
    else dir_total exclude children.
Proof. reflexivity. Qed.

Lemma dir_total_cons exclude c cs :
  dir_total exclude (c :: cs) = (node_total exclude c + dir_total exclude cs)%Z.
Proof. reflexivity. Qed.

Lemma dir_total_ext exclude exclude' cs :
  Forall (fun c => node_total exclude c = node_total exclude' c) cs ->
  dir_total exclude cs = dir_total exclude' cs.
Proof.
  induction 1 as [|c cs Hc _ IH]; [reflexivity|].
  rewrite !dir_total_cons, Hc, IH. reflexivity.
Qed.

(** nothing that is counted is negative *)
Lemma node_total_nonneg exclude n : sizes_nonneg n = true -> (0 <= node_total exclude n)%Z.
Proof.
  induction n as [name size is_link|name is_link children IH] using fs_node_induction;
    intros Hs.
  - simpl in *. destruct (_ || _); [lia | apply Z.leb_le; exact Hs].
  - rewrite node_total_dir. destruct (_ || _); [lia|].
    simpl in Hs. induction children as [|c cs IHcs]; [simpl; lia|].
    rewrite dir_total_cons. inversion IH as [|? ? Hc Hcs]; subst.
    simpl in Hs. apply andb_true_iff in Hs as (H1 & H2).
    specialize (Hc H1). specialize (IHcs Hcs H2). lia.
Qed.

(** excluding a name that no directory of the tree bears changes nothing *)
Lemma node_total_unused_name exclude name n :
  has_dir_named name n = false ->
  node_total (exclude ++ [name]) n = node_total exclude n.
Proof.
  induction n as [nm size is_link|nm is_link children IH] using fs_node_induction;
    intros Hn; [reflexivity|].
  rewrite !node_total_dir. simpl in Hn. apply orb_false_iff in Hn as (Hnm & Hcs).
  assert (Hmem : mem_text nm (exclude ++ [name]) = mem_text nm exclude).
  { unfold mem_text. rewrite existsb_app. simpl. rewrite Hnm. rewrite !orb_false_r. reflexivity. }
  rewrite Hmem. destruct (_ || _); [reflexivity|].
  apply dir_total_ext. rewrite Forall_forall in *. intros c Hc. apply IH; [exact Hc|].
  destruct (has_dir_named name c) eqn:E; [|reflexivity].
  assert (Hex : existsb (has_dir_named name) children = true)
    by (apply existsb_exists; exists c; auto).
  congruence.
Qed.

Lemma node_total_archive_unused c :
  has_dir_named ARCHIVED_DIR_NAME c = false ->
  node_total [OUTPUT_DIR_NAME; ARCHIVED_DIR_NAME] c = node_total [OUTPUT_DIR_NAME] c.
Proof. apply (node_total_unused_name [OUTPUT_DIR_NAME] ARCHIVED_DIR_NAME c). Qed.

Lemma archive_not_hidden :
  starts_with (txt ".") ARCHIVED_DIR_NAME = false
  /\ mem_text ARCHIVED_DIR_NAME [OUTPUT_DIR_NAME] = false.
Proof. split; reflexivity. Qed.

(** the entries of the root: the archive folder adds what the archive walk
    counts, every other entry adds the same to both walks *)
Lemma dir_total_split children :
  NoDup (map node_name children) ->
  (forall c, In c children -> node_name c <> ARCHIVED_DIR_NAME ->
             has_dir_named ARCHIVED_DIR_NAME c = false) ->
  (forall cs, ~ In (DirNode ARCHIVED_DIR_NAME true cs) children) ->
  (dir_total [OUTPUT_DIR_NAME; ARCHIVED_DIR_NAME] children
   + folder_size (find (fun c => text_eqb (node_name c) ARCHIVED_DIR_NAME) children)
       [OUTPUT_DIR_NAME]
   = dir_total [OUTPUT_DIR_NAME] children)%Z.
Proof.
  induction children as [|c cs IH]; intros Hnd Hno Hlink; [reflexivity|].
  inversion Hnd as [|? ? Hnot Hnd']; subst.
  rewrite !dir_total_cons. cbn [find].
  destruct (text_eqb (node_name c) ARCHIVED_DIR_NAME) eqn:E.
  - apply text_eqb_eq in E.
    (* no later entry bears the name, so the rest adds the same to both *)
    assert (Hrest : dir_total [OUTPUT_DIR_NAME; ARCHIVED_DIR_NAME] cs
                    = dir_total [OUTPUT_DIR_NAME] cs).
    { apply dir_total_ext. apply Forall_forall. intros d Hd.
      apply node_total_archive_unused.
      apply Hno; [right; exact Hd|]. intros Hd'. apply Hnot. rewrite E, <- Hd'.
      apply in_map. exact Hd. }
    rewrite Hrest. destruct c as [nm size l|nm l children]; simpl in E; subst nm.
    + simpl folder_size. simpl node_total. lia.
    + destruct l; [exfalso; apply (Hlink children); left; reflexivity|].
      rewrite !node_total_dir. simpl folder_size.
      change (mem_text ARCHIVED_DIR_NAME [OUTPUT_DIR_NAME; ARCHIVED_DIR_NAME]) with true.
      destruct archive_not_hidden as (-> & ->). simpl orb. cbv iota.
      unfold dir_total. lia.
  - apply text_eqb_neq in E.
    rewrite (node_total_archive_unused c)
      by (apply Hno; [left; reflexivity | exact E]).
    rewrite <- IH; [lia | exact Hnd' | |].
    + intros d Hd. apply Hno. right. exact Hd.
    + intros cs' Hin. apply (Hlink cs'). right. exact Hin.
Qed.

(** X17.  A folder's size counts no hidden file, no symbolic link and
    nothing below a hidden, excluded or linked directory, and it is never
    negative when no file reports a negative size.  For a library root whose
    entries have pairwise different names, whose archive folder is not a
    symbolic link, and in which no other directory is named like the
    archive folder, the total that [sizes_for_category] reports (active plus
    archived bytes) is the size of the root without the site directory. *)
Theorem sizes_for_category_total (name : text) (is_link : bool) (children : list fs_node) :
  let root := Some (DirNode name is_link children) in
  NoDup (map node_name children) ->
  (forall c, In c children -> node_name c <> ARCHIVED_DIR_NAME ->
             has_dir_named ARCHIVED_DIR_NAME c = false) ->
  (forall cs, ~ In (DirNode ARCHIVED_DIR_NAME true cs) children) ->
  forallb sizes_nonneg children = true ->
  let '(active_bytes, archived_bytes, total_bytes) := sizes_for_category root in
  total_bytes = folder_size root [OUTPUT_DIR_NAME]
  /\ (0 <= active_bytes)%Z /\ (0 <= archived_bytes)%Z
  /\ (forall exclude n sz l, node_total exclude (FileNode n sz true) = 0%Z
                             /\ node_total exclude (FileNode (txt "." ++ n) sz l) = 0%Z)
  /\ (forall exclude n l cs, node_total exclude (DirNode n true cs) = 0%Z
                             /\ node_total exclude (DirNode (txt "." ++ n) l cs) = 0%Z
                             /\ node_total (n :: exclude) (DirNode n l cs) = 0%Z).
Proof.
  intros root Hnd Hno Hlink Hsizes. unfold sizes_for_category. cbv zeta.
  assert (Hpos : forall exclude cs, forallb sizes_nonneg cs = true ->
                                    (0 <= dir_total exclude cs)%Z).
  { intros exclude cs. induction cs as [|c cs IH]; intros H; [simpl; lia|].
    rewrite dir_total_cons. simpl in H. apply andb_true_iff in H as (H1 & H2).
    pose proof (node_total_nonneg exclude c H1). specialize (IH H2). lia. }
  split; [|split; [|split; [|split]]].
  - apply (dir_total_split children Hnd Hno Hlink).
  - apply (Hpos _ children Hsizes).
  - unfold root, child_named.
    destruct (find (fun c => text_eqb (node_name c) ARCHIVED_DIR_NAME) children)
      as [[nm sz l|nm l cs]|] eqn:E; simpl; try lia.
    apply (Hpos [OUTPUT_DIR_NAME] cs).
    apply find_some in E as (Hin & _).
    rewrite forallb_forall in Hsizes. apply (Hsizes _ Hin).
  - intros exclude n sz l. split; simpl; [rewrite orb_true_r|]; reflexivity.
  - intros exclude n l cs. rewrite !node_total_dir. split; [|split].
    + rewrite orb_true_r. reflexivity.
    + simpl starts_with. rewrite orb_true_r. reflexivity.
    + unfold mem_text. simpl existsb. rewrite text_eqb_refl. reflexivity.
Qed.

Lemma sizes_for_category_total_witness :
  let children :=
    [ DirNode ARCHIVED_DIR_NAME false [FileNode (txt "old.mkv") 7 false];
      FileNode (txt ".DS_Store") 1 false;
      DirNode OUTPUT_DIR_NAME false [FileNode (txt "index.html") 3 false];
      DirNode (txt "A (2019)") false [FileNode (txt "a.mkv") 40 false] ] in
  snd (sizes_for_category (Some (DirNode (txt "movies") false children)))
  = folder_size (Some (DirNode (txt "movies") false children)) [OUTPUT_DIR_NAME].
Proof.
  intros children.
  refine (proj1 (sizes_for_category_total (txt "movies") false children _ _ _ _)).
  - repeat constructor; simpl; intuition discriminate.
  - intros c [<-|[<-|[<-|[<-|[]]]]] Hc; try reflexivity. exfalso. apply Hc. reflexivity.
  - intros cs [H|[H|[H|[H|[]]]]]; discriminate.
  - reflexivity.
Defined.

Example sizes_for_category_demo :
  sizes_for_category
    (Some (DirNode (txt "movies") false
             [ DirNode ARCHIVED_DIR_NAME false [FileNode (txt "old.mkv") 7 false];
               FileNode (txt ".DS_Store") 1 false;
               DirNode OUTPUT_DIR_NAME false [FileNode (txt "index.html") 3 false];
               DirNode (txt "A (2019)") false [FileNode (txt "a.mkv") 40 false] ]))
  = (40, 7, 47)%Z.
Proof. reflexivity. Qed.

(** * The index documents *)

Lemma category_index_pairs items :
  category_index items
  = fold_left (fun d kv => dict_set text_eqb d (fst kv) (snd kv))
      (map (fun m => (mi_id m, mi_abs_path m)) (filter has_path items)) [].
Proof.
  unfold category_index. generalize (@nil (text * text)) as d.
  induction items as [|m items IH]; intros d; [reflexivity|].
  cbn [fold_left filter]. unfold has_path at 1.
  destruct (nonempty (mi_abs_path m)); [cbn [map fold_left fst snd]|]; apply IH.
Qed.

Lemma category_index_spec items id path :
  NoDup (map mi_id items) ->
  (dict_get text_eqb (category_index items) id = Some path
   <-> exists m, In m items /\ mi_id m = id /\ mi_abs_path m = path /\ path <> []).
Proof.
  intros Hnd. rewrite category_index_pairs. split.
  - intros H. apply (dict_fill_keys text_eqb text_eqb_spec2) in H as [H|H]; [|discriminate].
    apply in_map_iff in H as (m & [= <- <-] & Hm). apply filter_In in Hm as (Hm & Hp).
    exists m. repeat split; auto. unfold has_path in Hp.
    destruct (mi_abs_path m); discriminate.
  - intros (m & Hm & <- & <- & Hp).
    apply (dict_fill_get text_eqb text_eqb_spec2).
    + apply in_map_iff. exists m. split; [reflexivity|]. apply filter_In.
      split; [exact Hm|]. unfold has_path. destruct (mi_abs_path m); [congruence | reflexivity].
    + intros p' Hin. apply in_map_iff in Hin as (m' & [= Hid <-] & Hm').
      apply filter_In in Hm' as (Hm' & _).
      assert (m' = m) by (apply (NoDup_map_inj mi_id items); assumption).
      subst m'. reflexivity.
Qed.

Lemma _launch_command sv filepath root cmd :
  In cmd (_launch sv filepath root) ->
  cmd = [txt "open"; txt "-a"; txt "VLC"; filepath] \/ cmd = [txt "open"; filepath].
Proof.
  unfold _launch, Popen.
  destruct (fs_realpath (sv_fs sv) filepath); [|intros []].
  destruct (fs_realpath (sv_fs sv) root); [|intros []].
  destruct (negb _); [intros []|].
  destruct (PREFER_VLC && _);
    match goal with |- context [sv_popen_ok sv ?c] => destruct (sv_popen_ok sv c) end;
    simpl; intros H; try contradiction; destruct H as [<-|[]]; auto.
Qed.

(** X18.  With pairwise different ids, the index document of a movie-like
    category maps exactly the ids of the entries that have a file to that
    file; and a play request served from this index starts a player only for
    the id of such an entry, as [open <file>] or [open -a VLC <file>] on the
    file of that entry. *)
Theorem category_index_is_exact (items : list media_item) :
  NoDup (map mi_id items) ->
  (forall id path,
      dict_get text_eqb (category_index items) id = Some path
      <-> exists m, In m items /\ mi_id m = id /\ mi_abs_path m = path /\ path <> [])
  /\ (forall sv cat qid cmd,
        sv_json sv (index_json_of cat) = category_index items ->
        In cmd (launch_and_render sv cat qid) ->
        exists m,
          In m items /\ mi_id m = qid /\ mi_abs_path m <> []
          /\ (cmd = [txt "open"; txt "-a"; txt "VLC"; mi_abs_path m]
              \/ cmd = [txt "open"; mi_abs_path m])).
Proof.
  intros Hnd. split; [intros id path; apply category_index_spec; exact Hnd|].
  intros sv cat qid cmd Hjson. unfold launch_and_render, index_path. cbv zeta.
  rewrite Hjson.
  destruct (dict_get text_eqb (category_index items) qid) as [path|] eqn:Hget;
    [|simpl; intros []].
  apply (category_index_spec items qid path Hnd) in Hget as (m & Hm & Hid & <- & Hp).
  destruct (nonempty (mi_abs_path m) && fs_isfile (sv_fs sv) (mi_abs_path m)); [|intros []].
  intros Hin. apply _launch_command in Hin. exists m. auto.
Qed.

Lemma category_index_is_exact_witness :
  dict_get text_eqb
    (category_index [ {| mi_id := txt "m1"; mi_abs_path := txt "/a.mkv"; mi_mtime := 5 |};
                      {| mi_id := txt "m2"; mi_abs_path := []; mi_mtime := 9 |} ])
    (txt "m1")
  = Some (txt "/a.mkv").
Proof.
  refine (proj2 (proj1 (category_index_is_exact
            [ {| mi_id := txt "m1"; mi_abs_path := txt "/a.mkv"; mi_mtime := 5 |};
              {| mi_id := txt "m2"; mi_abs_path := []; mi_mtime := 9 |} ] _)
            (txt "m1") (txt "/a.mkv")) _).
  - repeat constructor; simpl; intuition discriminate.
  - eexists. split; [left; reflexivity|]. repeat split. discriminate.
Defined.

(** * Complete records and the provider *)

Lemma nonempty_false {A : Type} (l : list A) : nonempty l = false -> l = [].
Proof. destruct l; [reflexivity|discriminate]. Qed.

Lemma is_some_true {A : Type} (x : option A) : x <> None -> is_some x = true.
Proof. destruct x; [reflexivity|congruence]. Qed.

Lemma is_some_false {A : Type} (x : option A) : is_some x = false -> x = None.
Proof. destruct x; [discriminate|reflexivity]. Qed.

Lemma identified_movie_iff c : identified_movie c <-> needs_search_movie c = false.
Proof.
  unfold identified_movie, needs_search_movie, need_details_movie. split.
  - intros (Hid & Hp & Ho & Hg & Hr & Hv & Hc & Hk).
    rewrite Hid, !nonempty_true, !is_some_true by assumption. reflexivity.
  - intros H.
    destruct (truthy_int (me_movie_id c)); [|discriminate].
    destruct (me_poster_url c); [rewrite ?orb_true_r in H; discriminate|].
    destruct (me_overview c); [rewrite ?orb_true_r in H; discriminate|].
    destruct (me_genres c); [discriminate|].
    destruct (me_runtime c); [|discriminate].
    destruct (me_vote c); [|discriminate].
    destruct (me_certification c); [|discriminate].
    destruct (me_cast c); [discriminate|].
    repeat split; discriminate.
Qed.

Lemma identified_tv_iff c : identified_tv c <-> needs_search_tv c = false.
Proof.
  unfold identified_tv, needs_search_tv, need_details_tv. split.
  - intros (Hid & Hp & Ho & Hg & Hv & Hy & Hk).
    rewrite Hid, !nonempty_true, !is_some_true by assumption. reflexivity.
  - intros H.
    destruct (truthy_int (te_tv_id c)); [|discriminate].
    destruct (te_poster_url c); [rewrite ?orb_true_r in H; discriminate|].
    destruct (te_overview c); [rewrite ?orb_true_r in H; discriminate|].
    destruct (te_genres c); [discriminate|].
    destruct (te_vote c); [|discriminate].
    destruct (te_first_year c); [|discriminate].
    destruct (te_cast c); [discriminate|].
    repeat split; discriminate.
Qed.

Lemma complete_movie_untouched prov item c :
  complete_movie c -> enrich_movie_entry prov item c = (c, []).
Proof.
  intros (Hid & Hb & Ht). pose proof Hid as Hs. apply identified_movie_iff in Hs.
  unfold enrich_movie_entry. rewrite Hs. cbn [merge_best_movie].
  unfold fetch_details_movie, needs_details_fetch_movie.
  assert (Hn : need_details_movie c = false).
  { unfold needs_search_movie in Hs.
    destruct (need_details_movie c); [|reflexivity].
    rewrite orb_true_r in Hs. discriminate. }
  rewrite Hn, !nonempty_true by assumption. rewrite andb_false_r. reflexivity.
Qed.

Lemma complete_tv_untouched prov title c :
  complete_tv c -> enrich_tv_entry prov title c = c.
Proof.
  intros (Hid & Hb & Ht). pose proof Hid as Hs. apply identified_tv_iff in Hs.
  unfold enrich_tv_entry. rewrite Hs. cbn [merge_best_tv].
  unfold fetch_details_tv.
  assert (Hn : need_details_tv c = false).
  { unfold needs_search_tv in Hs.
    destruct (need_details_tv c); [|reflexivity].
    rewrite orb_true_r in Hs. discriminate. }
  rewrite Hn, !nonempty_true by assumption. rewrite andb_false_r. reflexivity.
Qed.

Lemma attempt_schedule_first title year :
  exists qs,
    attempt_schedule title year false
    = (title, if truthy_int year then year else None) :: qs.
Proof.
  unfold attempt_schedule, title_variants. cbv zeta. cbn [andb]. cbv iota.
  destruct year as [y|]; cbn [truthy_int].
  - destruct (negb (y =? 0)%Z); cbn [flat_map map app]; eexists; reflexivity.
  - cbn [flat_map map app]. eexists; reflexivity.
Qed.

Lemma incomplete_movie_searched prov item c :
  ~ identified_movie c -> ci_title item <> [] ->
  exists rest,
    snd (enrich_movie_entry prov item c)
    = tmdb_search_query (ci_title item) (ci_year item) :: rest.
Proof.
  intros Hc Ht. unfold enrich_movie_entry.
  destruct (needs_search_movie c) eqn:Hs.
  2:{ exfalso. apply Hc. apply identified_movie_iff. exact Hs. }
  unfold try_search_variants.
  destruct (attempt_schedule_first (ci_title item) (ci_year item)) as (qs & ->).
  destruct (attempt_each_first_request prov false (ci_title item)
              (if truthy_int (ci_year item) then ci_year item else None) qs Ht)
    as (rest & Hrest).
  destruct (attempt_each prov false _ _) as [res st'].
  simpl in *. exists rest. rewrite Hrest. unfold tmdb_search_query. f_equal.
  destruct (ci_year item) as [y|]; [|reflexivity].
  cbn [truthy_int]. destruct (negb (y =? 0)%Z) eqn:E; [|reflexivity].
  cbn [truthy_int]. rewrite E. reflexivity.
Qed.

(** X19.  A cache record that holds every field (provider id, poster,
    overview, genres, runtime, vote, certification, cast, backdrop, tagline)
    makes its entry free of the provider: when every entry of a pass has such
    a record, [enrich_movies] sends no search request and leaves the cache
    file as it is, whatever the provider would answer, and so does
    [enrich_shows].  A record that lacks one of the fields the search step
    looks at, for instance the certification of a film that has none in the
    United States, is searched again on every pass: the first request is the
    entry's title with its year. *)
Theorem complete_records_need_no_provider :
  (forall prov items cache,
     (forall item, In item items ->
        exists c, dict_get text_eqb cache (movie_key item) = Some c /\ complete_movie c) ->
     enrich_movies prov items cache = (cache, []))
  /\ (forall prov titles cache,
        (forall title, In title titles ->
           exists c, dict_get text_eqb cache (lower title) = Some c /\ complete_tv c) ->
        enrich_shows prov titles cache = cache)
  /\ (forall prov item c,
        ~ identified_movie c -> ci_title item <> [] ->
        exists rest,
          snd (enrich_movie_entry prov item c)
          = tmdb_search_query (ci_title item) (ci_year item) :: rest).
Proof.
  split; [|split].
  - intros prov items. induction items as [|item items IH]; intros cache H; [reflexivity|].
    cbn [enrich_movies].
    destruct (H item (or_introl eq_refl)) as (c & Hget & Hc).
    unfold cached_movie. rewrite Hget.
    rewrite (complete_movie_untouched prov item c Hc).
    rewrite (dict_set_same_value text_eqb _ _ _ Hget).
    rewrite IH; [reflexivity|].
    intros item' Hin. apply H. right. exact Hin.
  - intros prov titles. induction titles as [|title titles IH]; intros cache H; [reflexivity|].
    cbn [enrich_shows].
    destruct (H title (or_introl eq_refl)) as (c & Hget & Hc).
    unfold cached_tv. rewrite Hget.
    rewrite (complete_tv_untouched prov title c Hc).
    rewrite (dict_set_same_value text_eqb _ _ _ Hget).
    apply IH. intros t' Hin. apply H. right. exact Hin.
  - intros prov item c. apply incomplete_movie_searched.
Qed.

Lemma complete_records_need_no_provider_witness :
  let prov := silent_provider in
    let item := {| ci_id := txt "m1"; ci_title := txt "Heat"; ci_year := Some 1995%Z;
                   ci_source := txt "Heat (1995)"; ci_archived := false |} in
    let c := {| me_movie_id := Some 949%Z; me_poster_url := txt "p.jpg";
                me_overview := txt "A heist."; me_genres := [txt "Crime"];
                me_runtime := Some 170%Z; me_vote := Some (79 # 10);
                me_certification := Some (txt "R"); me_cast := [txt "Al Pacino"];
                me_backdrop_url := txt "b.jpg"; me_tagline := txt "A Los Angeles crime saga" |} in
    enrich_movies prov [item] [(txt "Heat|1995", c)] = ([(txt "Heat|1995", c)], []).
Proof.
  intros prov item c.
  apply (proj1 complete_records_need_no_provider).
  intros item' [<-|[]]. exists c. split; [reflexivity|].
  repeat split; discriminate.
Defined.

(** * The shows of the "New" home *)

Lemma collect_spec {A B : Type} (f : A -> option B) (l : list A) (ys : list B) :
  collect f l = Some ys -> map f l = map Some ys.
Proof.
  revert ys. induction l as [|x l IH]; intros ys; simpl.
  - intros [= <-]. reflexivity.
  - destruct (f x) as [y|]; [|discriminate].
    destruct (collect f l) as [ys'|]; [|discriminate].
    intros [= <-]. simpl. rewrite (IH ys' eq_refl). reflexivity.
Qed.

Lemma collect_total {A B : Type} (f : A -> option B) (l : list A) :
  (forall x, In x l -> f x <> None) -> exists ys, collect f l = Some ys.
Proof.
  induction l as [|x l IH]; intros H; simpl.
  - exists []. reflexivity.
  - destruct (f x) as [y|] eqn:E; [|exfalso; apply (H x); [left; reflexivity | exact E]].
    destruct IH as (ys & ->); [intros x' Hx'; apply H; right; exact Hx'|].
    exists (y :: ys). reflexivity.
Qed.

Lemma episodes_of_app flat1 flat2 sid :
  episodes_of (flat1 ++ flat2) sid = episodes_of flat1 sid ++ episodes_of flat2 sid.
Proof. apply filter_app. Qed.

Lemma episodes_of_In flat sid e : In e (episodes_of flat sid) <-> In e flat /\ fe_sid e = sid.
Proof. unfold episodes_of. rewrite filter_In, text_eqb_eq. reflexivity. Qed.

Lemma by_show_add_grouped d p e : grouped d p -> grouped (by_show_add d e) (p ++ [e]).
Proof.
  intros (Hnd & Hget). split.
  - apply (dict_set_keys_NoDup text_eqb text_eqb_eq). exact Hnd.
  - intros sid. unfold by_show_add. rewrite episodes_of_app.
    destruct (text_eqb (fe_sid e) sid) eqn:E.
    + apply text_eqb_eq in E. subst sid.
      rewrite (dict_get_set_same text_eqb text_eqb_eq). rewrite Hget.
      unfold episodes_of at 3. cbn [filter]. rewrite text_eqb_refl.
      destruct (episodes_of p (fe_sid e)); reflexivity.
    + rewrite (dict_get_set_other text_eqb text_eqb_eq).
      2:{ apply text_eqb_neq in E. congruence. }
      rewrite Hget. unfold episodes_of at 3. cbn [filter]. rewrite E, app_nil_r. reflexivity.
Qed.

Lemma fold_by_show_grouped flat d p :
  grouped d p -> grouped (fold_left by_show_add flat d) (p ++ flat).
Proof.
  revert d p. induction flat as [|e flat IH]; intros d p H; simpl.
  - rewrite app_nil_r. exact H.
  - replace (p ++ e :: flat) with ((p ++ [e]) ++ flat) by (rewrite <- app_assoc; reflexivity).
    apply IH. apply by_show_add_grouped. exact H.
Qed.

Lemma dict_get_map_values {V W : Type} (f : V -> W) (d : list (text * V)) k :
  dict_get text_eqb (map (fun kv => (fst kv, f (snd kv))) d) k
  = option_map f (dict_get text_eqb d k).
Proof.
  induction d as [|[k' v] d IH]; simpl; [reflexivity|].
  destruct (text_eqb k k'); [reflexivity | exact IH].
Qed.

Lemma by_show_keys flat : NoDup (map fst (by_show flat)).
Proof.
  unfold by_show. rewrite map_map. cbn [fst].
  apply (fold_by_show_grouped flat [] []). split; [constructor | reflexivity].
Qed.

Lemma by_show_get flat sid :
  dict_get text_eqb (by_show flat) sid
  = match episodes_of flat sid with
    | [] => None
    | e :: l => Some (sorted_desc fe_mtime (e :: l))
    end.
Proof.
  unfold by_show. rewrite dict_get_map_values.
  destruct (fold_by_show_grouped flat [] []) as (_ & Hget);
    [split; [constructor | reflexivity]|].
  rewrite Hget. simpl app. destruct (episodes_of flat sid); reflexivity.
Qed.

Lemma episodes_by_show_eq flat sid :
  episodes_by_show (by_show flat) sid = sorted_desc fe_mtime (episodes_of flat sid).
Proof.
  unfold episodes_by_show. rewrite by_show_get.
  destruct (episodes_of flat sid); reflexivity.
Qed.

Lemma by_show_key_iff flat sid :
  In sid (map fst (by_show flat)) <-> episodes_of flat sid <> [].
Proof.
  split.
  - intros Hin He.
    assert (Hn : dict_get text_eqb (by_show flat) sid = None)
      by (rewrite by_show_get, He; reflexivity).
    apply (dict_get_None text_eqb text_eqb_eq) in Hn. contradiction.
  - intros He. destruct (in_dec (list_eq_dec ascii_dec) sid (map fst (by_show flat))) as [H|H];
      [exact H|].
    apply (dict_get_None text_eqb text_eqb_eq) in H. rewrite by_show_get in H.
    destruct (episodes_of flat sid); [congruence | discriminate].
Qed.

Lemma included_fold (l5 : list flat_episode) (s : list text) :
  fold_left (fun s e => s ++ [fe_eid e]) l5 s = s ++ map fe_eid l5.
Proof.
  revert s. induction l5 as [|e l5 IH5]; intros s; simpl; [rewrite app_nil_r; reflexivity|].
  rewrite IH5, <- app_assoc. reflexivity.
Qed.

Lemma bytes_fold (l5 : list flat_episode) (b : Z) :
  fold_left (fun b e => (b + fe_size e)%Z) l5 b = (b + total_size l5)%Z.
Proof.
  revert b. induction l5 as [|e l5 IH5]; intros b; simpl; [lia|]. rewrite IH5. lia.
Qed.

Lemma total_size_app a b : total_size (a ++ b) = (total_size a + total_size b)%Z.
Proof.
  induction a as [|e a IHa]; simpl; [reflexivity|]. rewrite IHa. lia.
Qed.

(** what the loop over [ordered_shows] accumulates *)
Lemma new_shows_fold d l acc :
  let r := fold_left (new_shows_step d) l acc in
  ns_payload r
  = ns_payload acc
    ++ map (fun sid => (sid, (5 <? length (episodes_by_show d sid))%nat,
                        firstn 5 (episodes_by_show d sid))) l
  /\ ns_included_ep_eids r
     = ns_included_ep_eids acc
       ++ flat_map (fun sid => map fe_eid (firstn 5 (episodes_by_show d sid))) l
  /\ ns_bytes r
     = (ns_bytes acc
        + total_size (flat_map (fun sid => firstn 5 (episodes_by_show d sid)) l))%Z.
Proof.
  revert acc. induction l as [|sid l IH]; intros acc; cbn zeta.
  - simpl. rewrite !app_nil_r. repeat split; lia.
  - cbn [fold_left]. destruct (IH (new_shows_step d acc sid)) as (Hp & Hi & Hb).
    cbn zeta in Hp, Hi, Hb. rewrite Hp, Hi, Hb. clear IH Hp Hi Hb.
    cbn [new_shows_step ns_payload ns_included_ep_eids ns_bytes map flat_map].
    rewrite included_fold, bytes_fold, total_size_app, <- !app_assoc. repeat split; lia.
Qed.

Lemma total_size_perm l l' : Permutation l l' -> total_size l = total_size l'.
Proof.
  induction 1; simpl; try lia.
Qed.

Lemma descending_take {A : Type} (key : A -> Z) k (l : list A) :
  descending key l -> descending key (firstn k l).
Proof.
  unfold descending. revert k. induction l as [|x l IH]; intros k Hs.
  - rewrite firstn_nil. constructor.
  - destruct k as [|k]; [constructor|]. simpl.
    inversion Hs as [|? ? Hs' Hall]; subst. constructor; [apply IH; exact Hs'|].
    apply Forall_forall. intros y Hy. rewrite Forall_forall in Hall. apply Hall.
    apply in_firstn_in in Hy. exact Hy.
Qed.

Lemma descending_head {A : Type} (key : A -> Z) x (l : list A) y :
  descending key (x :: l) -> In y (x :: l) -> (key y <= key x)%Z.
Proof.
  intros Hs [<-|Hy]; [lia|].
  inversion Hs as [|? ? _ Hall]; subst. rewrite Forall_forall in Hall. apply Hall. exact Hy.
Qed.

Lemma NoDup_flat_map_by {A B : Type} (f : A -> list B) (g : B -> A) (l : list A) :
  NoDup l -> (forall x, In x l -> NoDup (f x)) ->
  (forall x y, In y (f x) -> g y = x) ->
  NoDup (flat_map f l).
Proof.
  intros Hl Hf Hg. induction Hl as [|x l Hx Hl IH]; simpl; [constructor|].
  apply NoDup_app.
  - apply Hf. left. reflexivity.
  - apply IH. intros x' Hx'. apply Hf. right. exact Hx'.
  - intros y Hy Hy'. apply in_flat_map in Hy' as (x' & Hx' & Hy').
    apply Hg in Hy, Hy'. subst. contradiction.
Qed.

Lemma firstn_all_In {A : Type} k (l : list A) x :
  (length l <= k)%nat -> In x l -> In x (firstn k l).
Proof. intros H Hx. rewrite firstn_all2 by exact H. exact Hx. Qed.

Section NewShows.
Variable flat : list flat_episode.
Hypothesis eids : NoDup (map fe_eid flat).

Let ordered := fst (new_shows_of flat).
Let built := snd (new_shows_of flat).

Lemma flat_NoDup : NoDup flat.
Proof. apply (NoDup_of_map fe_eid). exact eids. Qed.

Lemma ordered_eq :
  ordered = firstn 16 (sorted_desc (show_mtime (by_show flat)) (map fst (by_show flat))).
Proof. reflexivity. Qed.

Lemma ordered_In sid : In sid ordered -> episodes_of flat sid <> [].
Proof.
  rewrite ordered_eq. intros H. apply in_firstn_in in H.
  apply (Permutation_in _ (sorted_desc_perm _ _)) in H.
  apply by_show_key_iff. exact H.
Qed.

Lemma ordered_NoDup : NoDup ordered.
Proof.
  rewrite ordered_eq. apply NoDup_firstn_of.
  apply (Permutation_NoDup (Permutation_sym (sorted_desc_perm _ _))). apply by_show_keys.
Qed.

Lemma show_is_new_iff sid : show_is_new flat sid = true <-> In sid ordered.
Proof. unfold show_is_new. apply mem_text_In. Qed.

Lemma latest_of_In sid e : In e (latest_of flat sid) -> In e flat /\ fe_sid e = sid.
Proof.
  unfold latest_of. intros H. apply in_firstn_in in H.
  apply (Permutation_in _ (sorted_desc_perm _ _)) in H.
  apply episodes_of_In. exact H.
Qed.

Lemma latest_of_NoDup sid : NoDup (latest_of flat sid).
Proof.
  unfold latest_of. apply NoDup_firstn_of.
  apply (Permutation_NoDup (Permutation_sym (sorted_desc_perm _ _))).
  apply NoDup_filter. exact flat_NoDup.
Qed.

Lemma built_eq :
  ns_payload built
  = map (fun sid => (sid, (5 <? length (episodes_of flat sid))%nat, latest_of flat sid)) ordered
  /\ ns_included_ep_eids built = flat_map (fun sid => map fe_eid (latest_of flat sid)) ordered
  /\ ns_bytes built = total_size (flat_map (latest_of flat) ordered).
Proof.
  destruct (new_shows_fold (by_show flat) (ordered_shows (by_show flat))
              {| ns_payload := []; ns_included_ep_eids := []; ns_bytes := 0%Z |})
    as (Hp & Hi & Hb).
  cbn zeta in Hp, Hi, Hb. cbn [ns_payload ns_included_ep_eids ns_bytes app] in Hp, Hi, Hb.
  unfold built, ordered, new_shows_of. cbn [fst snd].
  split; [|split].
  - etransitivity; [exact Hp|]. apply map_ext. intros sid.
    rewrite episodes_by_show_eq.
    rewrite (Permutation_length (sorted_desc_perm fe_mtime (episodes_of flat sid))).
    reflexivity.
  - etransitivity; [exact Hi|]. apply flat_map_ext. intros sid.
    rewrite episodes_by_show_eq. reflexivity.
  - etransitivity; [exact Hb|]. rewrite Z.add_0_l. f_equal. apply flat_map_ext. intros sid.
    rewrite episodes_by_show_eq. reflexivity.
Qed.

Lemma new_episode_iff e :
  In e flat ->
  (new_episode flat e = true <-> In (fe_sid e) ordered /\ In e (latest_of flat (fe_sid e))).
Proof.
  intros He. unfold new_episode, episode_is_new. rewrite mem_text_In.
  fold built. rewrite (proj1 (proj2 built_eq)). rewrite in_flat_map. split.
  - intros (sid & Hsid & Hin). apply in_map_iff in Hin as (e0 & Heid & He0).
    destruct (latest_of_In sid e0 He0) as (Hf0 & Hs0).
    assert (e0 = e) by (apply (NoDup_map_inj fe_eid flat); assumption).
    subst e0. subst sid. split; assumption.
  - intros (Hsid & Hin). exists (fe_sid e). split; [exact Hsid|].
    apply in_map. exact Hin.
Qed.

Lemma flagged_of_show sid :
  In sid ordered ->
  Permutation (filter (new_episode flat) (episodes_of flat sid)) (latest_of flat sid).
Proof.
  intros Hsid. apply NoDup_Permutation.
  - apply NoDup_filter. apply NoDup_filter. exact flat_NoDup.
  - apply latest_of_NoDup.
  - intros e. rewrite filter_In, episodes_of_In. split.
    + intros ((He & Hs) & Hn). apply new_episode_iff in Hn; [|exact He].
      rewrite Hs in Hn. tauto.
    + intros H. destruct (latest_of_In sid e H) as (He & Hs).
      split; [tauto|]. apply new_episode_iff; [exact He|]. rewrite Hs. tauto.
Qed.

Lemma flagged_all :
  Permutation (filter (new_episode flat) flat) (flat_map (latest_of flat) ordered).
Proof.
  apply NoDup_Permutation.
  - apply NoDup_filter. exact flat_NoDup.
  - apply (NoDup_flat_map_by (latest_of flat) fe_sid).
    + exact ordered_NoDup.
    + intros sid _. apply latest_of_NoDup.
    + intros sid e H. apply (latest_of_In sid e H).
  - intros e. rewrite filter_In, in_flat_map. split.
    + intros (He & Hn). apply new_episode_iff in Hn; [|exact He].
      exists (fe_sid e). exact Hn.
    + intros (sid & Hsid & Hin). destruct (latest_of_In sid e Hin) as (He & Hs).
      split; [exact He|]. apply new_episode_iff; [exact He|]. rewrite Hs. tauto.
Qed.

Lemma show_mtime_head sid e l :
  sorted_desc fe_mtime (episodes_of flat sid) = e :: l ->
  show_mtime (by_show flat) sid = fe_mtime e.
Proof. intros H. unfold show_mtime. rewrite episodes_by_show_eq, H. reflexivity. Qed.

Lemma shows_ranked sid sid' e' :
  In sid ordered -> ~ In sid' ordered -> In e' (episodes_of flat sid') ->
  exists e, In e (episodes_of flat sid) /\ (fe_mtime e' <= fe_mtime e)%Z.
Proof.
  intros Hsid Hsid' He'.
  set (keys := sorted_desc (show_mtime (by_show flat)) (map fst (by_show flat))).
  assert (Hk' : In sid' (skipn 16 keys)).
  { assert (H : In sid' keys).
    { apply (Permutation_in _ (Permutation_sym (sorted_desc_perm _ _))).
      apply by_show_key_iff. intros E. rewrite E in He'. contradiction. }
    rewrite <- (firstn_skipn 16 keys) in H. apply in_app_or in H as [H|H]; [|exact H].
    exfalso. apply Hsid'. rewrite ordered_eq. exact H. }
  assert (Hle : (show_mtime (by_show flat) sid' <= show_mtime (by_show flat) sid)%Z).
  { apply (descending_firstn (show_mtime (by_show flat)) 16 keys);
      [apply sorted_desc_sorted | rewrite ordered_eq in Hsid; exact Hsid | exact Hk']. }
  pose proof (sorted_desc_perm fe_mtime (episodes_of flat sid)) as Hp.
  pose proof (sorted_desc_perm fe_mtime (episodes_of flat sid')) as Hp'.
  pose proof (sorted_desc_sorted fe_mtime (episodes_of flat sid)) as Hs.
  pose proof (sorted_desc_sorted fe_mtime (episodes_of flat sid')) as Hs'.
  destruct (sorted_desc fe_mtime (episodes_of flat sid)) as [|e l] eqn:E.
  { exfalso. apply (ordered_In sid Hsid). apply Permutation_nil in Hp. exact Hp. }
  destruct (sorted_desc fe_mtime (episodes_of flat sid')) as [|e0 l0] eqn:E'.
  { apply (Permutation_in _ (Permutation_sym Hp')) in He'. contradiction. }
  rewrite (show_mtime_head sid e l E), (show_mtime_head sid' e0 l0 E') in Hle.
  exists e. split.
  - apply (Permutation_in _ Hp). left. reflexivity.
  - apply (Permutation_in _ (Permutation_sym Hp')) in He'.
    pose proof (descending_head fe_mtime e0 l0 e' Hs' He'). lia.
Qed.

Lemma episodes_ranked e e' :
  In e flat -> In e' flat -> fe_sid e = fe_sid e' ->
  new_episode flat e = true -> new_episode flat e' = false ->
  (fe_mtime e' <= fe_mtime e)%Z.
Proof.
  intros He He' Hs Hn Hn'. apply new_episode_iff in Hn as (Hsid & Hin); [|exact He].
  set (eps := sorted_desc fe_mtime (episodes_of flat (fe_sid e))).
  assert (Hin' : In e' (skipn 5 eps)).
  { assert (H : In e' eps).
    { apply (Permutation_in _ (Permutation_sym (sorted_desc_perm _ _))).
      apply episodes_of_In. split; [exact He' | congruence]. }
    rewrite <- (firstn_skipn 5 eps) in H. apply in_app_or in H as [H|H]; [|exact H].
    exfalso. assert (Hn : new_episode flat e' = true); [|congruence].
    apply new_episode_iff; [exact He'|]. rewrite <- Hs. split; [exact Hsid | exact H]. }
  apply (descending_firstn fe_mtime 5 eps); [apply sorted_desc_sorted | exact Hin | exact Hin'].
Qed.
End NewShows.

Lemma eps_flat_lists meta flat sid m sn eps ep :
  eps_flat meta = Some flat ->
  In (sid, m) meta -> In (sn, eps) (sm_seasons m) -> In ep eps ->
  exists e, In e flat /\ flat_episode_of sid sn ep = Some e.
Proof.
  unfold eps_flat. intros H Hm Hs He. apply collect_spec in H.
  set (f := fun t : text * Z * episode_item =>
              flat_episode_of (fst (fst t)) (snd (fst t)) (snd t)) in H.
  assert (Hin : In (f (sid, sn, ep)) (map Some flat)).
  { rewrite <- H. apply in_map. apply in_flat_map. exists (sid, m). split; [exact Hm|].
    apply in_flat_map. exists (sn, eps). split; [exact Hs|].
    apply in_map_iff. exists ep. split; [reflexivity | exact He]. }
  apply in_map_iff in Hin as (e & Heq & Hin). exists e. split; [exact Hin|].
  symmetry. exact Heq.
Qed.

(** X20.  The shows of the "New" home.  [eps_flat] lists every episode of
    [shows_meta].  With pairwise different episode ids: at most 16 shows are
    flagged as new, all the shows that have an episode when there are fewer,
    ordered by their newest episode, and no show left out has an episode
    newer than the newest episode of a flagged show.  Only episodes of
    flagged shows are flagged, at most five per show (all of them when the
    show has fewer), and no episode left out is newer than a flagged episode
    of the same show.  [new_shows_bytes] is the total size of the flagged
    episodes; the payload lists the flagged shows in order, each with its
    flagged episodes, newest first, and [has_more] exactly when the show has
    more than five episodes. *)
Theorem new_home_shows (meta : list (text * show_meta)) (flat : list flat_episode) :
  eps_flat meta = Some flat ->
  NoDup (map fe_eid flat) ->
  let ordered := fst (new_shows_of flat) in
  let built := snd (new_shows_of flat) in
  (forall sid m sn eps ep,
     In (sid, m) meta -> In (sn, eps) (sm_seasons m) -> In ep eps ->
     exists e, In e flat /\ fe_sid e = sid /\ it_eid ep = Some (fe_eid e)
               /\ fe_mtime e = it_mtime ep /\ fe_size e = it_size ep)
  /\ NoDup ordered
  /\ descending (show_mtime (by_show flat)) ordered
  /\ (length ordered <= 16)%nat
  /\ (length ordered = 16%nat \/ forall e, In e flat -> show_is_new flat (fe_sid e) = true)
  /\ (forall sid, show_is_new flat sid = true -> episodes_of flat sid <> [])
  /\ (forall sid sid' e',
        show_is_new flat sid = true -> show_is_new flat sid' = false ->
        In e' (episodes_of flat sid') ->
        exists e, In e (episodes_of flat sid) /\ (fe_mtime e' <= fe_mtime e)%Z)
  /\ (forall e, In e flat -> new_episode flat e = true -> show_is_new flat (fe_sid e) = true)
  /\ (forall sid, show_is_new flat sid = true ->
        let n := length (filter (new_episode flat) (episodes_of flat sid)) in
        (n <= 5)%nat
        /\ (n = 5%nat \/ forall e, In e (episodes_of flat sid) -> new_episode flat e = true))
  /\ (forall e e',
        In e flat -> In e' flat -> fe_sid e = fe_sid e' ->
        new_episode flat e = true -> new_episode flat e' = false ->
        (fe_mtime e' <= fe_mtime e)%Z)
  /\ ns_bytes built = total_size (filter (new_episode flat) flat)
  /\ ns_payload built
     = map (fun sid => (sid, (5 <? length (episodes_of flat sid))%nat, latest_of flat sid))
           ordered
  /\ (forall sid, In sid ordered ->
        descending fe_mtime (latest_of flat sid)
        /\ forall e, In e (latest_of flat sid)
                     <-> In e (episodes_of flat sid) /\ new_episode flat e = true).
Proof.
  intros Hflat eids ordered built.
  pose proof (flat_NoDup flat eids) as Hnd.
  split; [|split; [|split; [|split; [|split; [|split; [|split; [|split; [|split;
    [|split; [|split; [|split]]]]]]]]]]].
  - intros sid m sn eps ep Hm Hs He.
    destruct (eps_flat_lists meta flat sid m sn eps ep Hflat Hm Hs He) as (e & Hin & Hof).
    exists e. split; [exact Hin|]. unfold flat_episode_of in Hof.
    destruct (it_eid ep) as [eid|]; [|discriminate].
    injection Hof as <-. repeat split; reflexivity.
  - apply ordered_NoDup.
  - unfold ordered. rewrite ordered_eq. apply descending_take. apply sorted_desc_sorted.
  - unfold ordered. rewrite ordered_eq, length_firstn. lia.
  - unfold ordered. rewrite ordered_eq, length_firstn.
    set (keys := sorted_desc (show_mtime (by_show flat)) (map fst (by_show flat))).
    destruct (le_lt_dec (length keys) 16) as [Hle|Hlt]; [right | left; lia].
    intros e He. apply show_is_new_iff. rewrite ordered_eq. fold keys.
    apply firstn_all_In; [exact Hle|].
    apply (Permutation_in _ (Permutation_sym (sorted_desc_perm _ _))).
    apply by_show_key_iff. intros E.
    assert (Hin : In e (episodes_of flat (fe_sid e))) by (apply episodes_of_In; tauto).
    rewrite E in Hin. contradiction.
  - intros sid H. apply show_is_new_iff in H. apply ordered_In. exact H.
  - intros sid sid' e' H H' He'. apply show_is_new_iff in H.
    apply (shows_ranked flat sid sid' e'); [exact H | | exact He'].
    intros Hin. apply show_is_new_iff in Hin. congruence.
  - intros e He Hn. apply show_is_new_iff.
    apply (new_episode_iff flat eids e He) in Hn. tauto.
  - intros sid H. apply show_is_new_iff in H. cbn zeta.
    rewrite (Permutation_length (flagged_of_show flat eids sid H)).
    unfold latest_of. rewrite length_firstn.
    set (eps := sorted_desc fe_mtime (episodes_of flat sid)).
    split; [lia|].
    destruct (le_lt_dec (length eps) 5) as [Hle|Hlt]; [right | left; lia].
    intros e He. pose proof He as He2. apply episodes_of_In in He2 as (Hin & Hs).
    apply (new_episode_iff flat eids e Hin). rewrite Hs. split; [exact H|].
    unfold latest_of. fold eps. apply firstn_all_In; [exact Hle|].
    apply (Permutation_in _ (Permutation_sym (sorted_desc_perm _ _))). exact He.
  - apply (episodes_ranked flat eids).
  - unfold built. rewrite (proj2 (proj2 (built_eq flat))).
    apply total_size_perm. apply Permutation_sym. apply (flagged_all flat eids).
  - apply (proj1 (built_eq flat)).
  - intros sid H. split.
    + unfold latest_of. apply descending_take. apply sorted_desc_sorted.
    + intros e. pose proof (flagged_of_show flat eids sid H) as Hp. split.
      * intros He. apply (Permutation_in _ (Permutation_sym Hp)) in He.
        apply filter_In in He. exact He.
      * intros He. apply (Permutation_in _ Hp). apply filter_In. exact He.
Qed.

Lemma new_home_shows_witness :
  ns_bytes (snd (new_shows_of
     [ {| fe_sid := txt "tv1"; fe_eid := txt "tv1_S01E01"; fe_s := 1; fe_e := 1;
          fe_title := []; fe_mtime := 10; fe_size := 700 |};
       {| fe_sid := txt "tv1"; fe_eid := txt "tv1_S01E02"; fe_s := 1; fe_e := 2;
          fe_title := []; fe_mtime := 20; fe_size := 800 |} ]))
  = total_size (filter (new_episode
     [ {| fe_sid := txt "tv1"; fe_eid := txt "tv1_S01E01"; fe_s := 1; fe_e := 1;
          fe_title := []; fe_mtime := 10; fe_size := 700 |};
       {| fe_sid := txt "tv1"; fe_eid := txt "tv1_S01E02"; fe_s := 1; fe_e := 2;
          fe_title := []; fe_mtime := 20; fe_size := 800 |} ])
     [ {| fe_sid := txt "tv1"; fe_eid := txt "tv1_S01E01"; fe_s := 1; fe_e := 1;
          fe_title := []; fe_mtime := 10; fe_size := 700 |};
       {| fe_sid := txt "tv1"; fe_eid := txt "tv1_S01E02"; fe_s := 1; fe_e := 2;
          fe_title := []; fe_mtime := 20; fe_size := 800 |} ]).
Proof.
  refine (proj1 (proj2 (proj2 (proj2 (proj2 (proj2 (proj2 (proj2 (proj2 (proj2 (proj2
    (new_home_shows
       [ (txt "tv1",
          {| sm_title := txt "Show";
             sm_seasons :=
               [ (1%Z, [ {| it_eid := Some (txt "tv1_S01E01"); it_s := 1; it_e := 1;
                            it_title := []; it_file := txt "/a.mkv";
                            it_size := 700; it_mtime := 10 |};
                         {| it_eid := Some (txt "tv1_S01E02"); it_s := 1; it_e := 2;
                            it_title := []; it_file := txt "/b.mkv";
                            it_size := 800; it_mtime := 20 |} ]) ] |}) ]
       [ {| fe_sid := txt "tv1"; fe_eid := txt "tv1_S01E01"; fe_s := 1; fe_e := 1;
            fe_title := []; fe_mtime := 10; fe_size := 700 |};
         {| fe_sid := txt "tv1"; fe_eid := txt "tv1_S01E02"; fe_s := 1; fe_e := 2;
            fe_title := []; fe_mtime := 20; fe_size := 800 |} ]
       _ _)))))))))))).
  - reflexivity.
  - repeat constructor; simpl; intuition discriminate.
Defined.

(** a show with seven episodes and a show with one: the five newest of the
    first are flagged, [has_more] is set for it only *)
Example new_home_shows_demo :
  let ep sid n mtime :=
    {| fe_sid := sid; fe_eid := sid ++ txt "_S01E" ++ fmt_02d n; fe_s := 1; fe_e := n;
       fe_title := []; fe_mtime := mtime; fe_size := 100 |} in
  let flat := [ ep (txt "tv1") 1 10; ep (txt "tv1") 2 20; ep (txt "tv1") 3 30;
                ep (txt "tv1") 4 40; ep (txt "tv1") 5 50; ep (txt "tv1") 6 60;
                ep (txt "tv1") 7 70; ep (txt "tv2") 1 90 ]%Z in
  fst (new_shows_of flat) = [txt "tv2"; txt "tv1"]
  /\ map (fun p => (fst (fst p), snd (fst p), map fe_e (snd p)))
         (ns_payload (snd (new_shows_of flat)))
     = [ (txt "tv2", false, [1]); (txt "tv1", true, [7; 6; 5; 4; 3]) ]%Z
  /\ ns_bytes (snd (new_shows_of flat)) = 600%Z
  /\ map (new_episode flat) flat = [false; false; true; true; true; true; true; true].
Proof. vm_compute. repeat split; reflexivity. Qed.

(** * The scene-filename utilities *)

(** ** Removing duplicates *)

Section DedupeFacts.
Context {A : Type} (key : A -> text).

Let dedupe := dedupe_preserve_order_by key.

Lemma dedupe_state (pre : list A) :
  let st := fold_left (dedupe_step key) pre ([], []) in
  (forall k, In k (fst st) <-> In k (map key pre))
  /\ (forall k, In k (fst st) <-> In k (map key (snd st)))
  /\ NoDup (map key (snd st)).
Proof.
  induction pre as [|x pre IH] using rev_ind; cbn zeta.
  - simpl. repeat split; try tauto. constructor.
  - rewrite fold_left_app. cbn [fold_left]. cbn zeta in IH.
    destruct (fold_left (dedupe_step key) pre ([], [])) as [seen out].
    cbn [fst snd] in IH. destruct IH as (Hpre & Hout & Hnd).
    unfold dedupe_step. cbn [fst snd].
    destruct (mem_text (key x) seen) eqn:E; cbn [fst snd].
    + apply mem_text_In in E. split; [|split; assumption].
      intros k. rewrite map_app, in_app_iff. cbn [map In]. rewrite <- Hpre.
      split; [tauto|]. intros [H|[<-|[]]]; assumption.
    + assert (Hx : ~ In (key x) seen).
      { intros H. apply mem_text_In in H. congruence. }
      split; [|split].
      * intros k. rewrite map_app, in_app_iff. cbn [map In]. rewrite <- Hpre. tauto.
      * intros k. rewrite map_app, in_app_iff. cbn [map In]. rewrite <- Hout. tauto.
      * rewrite map_app. cbn [map]. apply NoDup_app; [exact Hnd | repeat constructor; tauto |].
        intros k Hk [<-|[]]. apply Hx. apply Hout. exact Hk.
Qed.

Lemma dedupe_snoc pre x :
  dedupe (pre ++ [x])
  = dedupe pre ++ (if mem_text (key x) (map key pre) then [] else [x]).
Proof.
  unfold dedupe, dedupe_preserve_order_by. rewrite fold_left_app. cbn [fold_left].
  destruct (dedupe_state pre) as (Hpre & _ & _). cbn zeta in Hpre.
  destruct (fold_left (dedupe_step key) pre ([], [])) as [seen out].
  cbn [fst snd] in *. unfold dedupe_step. cbn [fst snd].
  assert (E : mem_text (key x) seen = mem_text (key x) (map key pre)).
  { apply eq_true_iff_eq. rewrite !mem_text_In. apply Hpre. }
  rewrite E. destruct (mem_text (key x) (map key pre)); cbn [snd];
    [rewrite app_nil_r|]; reflexivity.
Qed.

Lemma dedupe_NoDup seq : NoDup (map key (dedupe seq)).
Proof. apply (dedupe_state seq). Qed.

Lemma dedupe_fixed seq : NoDup (map key seq) -> dedupe seq = seq.
Proof.
  induction seq as [|x pre IH] using rev_ind; intros Hnd; [reflexivity|].
  rewrite dedupe_snoc. rewrite map_app in Hnd. cbn [map] in Hnd.
  rewrite IH by (apply NoDup_app_remove_r in Hnd; exact Hnd).
  destruct (mem_text (key x) (map key pre)) eqn:E; [|reflexivity].
  exfalso. apply mem_text_In in E.
  apply NoDup_remove_2 in Hnd. apply Hnd. rewrite app_nil_r. exact E.
Qed.

Lemma dedupe_first seq x :
  In x (dedupe seq)
  <-> exists pre post, seq = pre ++ x :: post /\ ~ In (key x) (map key pre).
Proof.
  induction seq as [|y seq IH] using rev_ind.
  - split; [intros [] | intros (pre & post & H & _); destruct pre; discriminate].
  - rewrite dedupe_snoc, in_app_iff, IH. split.
    + intros [(pre & post & -> & Hk)|Hin].
      * exists pre, (post ++ [y]). split; [|exact Hk].
        rewrite <- app_assoc. reflexivity.
      * destruct (mem_text (key y) (map key seq)) eqn:E; [contradiction|].
        destruct Hin as [<-|[]]. exists seq, []. split; [reflexivity|].
        intros H. apply mem_text_In in H. congruence.
    + intros (pre & post & Heq & Hk).
      destruct post as [|z post] using rev_ind.
      * apply app_inj_tail in Heq as (-> & ->). right.
        destruct (mem_text (key x) (map key pre)) eqn:E; [|left; reflexivity].
        apply mem_text_In in E. contradiction.
      * clear IHpost. left. exists pre, post. split; [|exact Hk].
        change (pre ++ x :: post ++ [z]) with (pre ++ (x :: post) ++ [z]) in Heq.
        rewrite app_assoc in Heq. apply app_inj_tail in Heq as (-> & _). reflexivity.
Qed.
End DedupeFacts.

(** X21.  [dedupe_preserve_order] keeps, in their order, exactly the items
    whose key has not occurred earlier in the sequence: an item is appended
    when its key is new and dropped otherwise, so the result has pairwise
    different keys, every item kept is the first of the sequence with its
    key, a sequence with pairwise different keys is returned as it is, and
    removing duplicates twice is the same as once.  The key is [lower] in
    [categorize_tags] and the item itself in [dedup] of [compose_name]. *)
Theorem dedupe_preserve_order_spec {A : Type} (key : A -> text) (seq : list A) :
  let out := dedupe_preserve_order_by key seq in
  NoDup (map key out)
  /\ (forall x, In x out
                <-> exists pre post, seq = pre ++ x :: post /\ ~ In (key x) (map key pre))
  /\ (forall pre x,
        dedupe_preserve_order_by key (pre ++ [x])
        = dedupe_preserve_order_by key pre
          ++ (if mem_text (key x) (map key pre) then [] else [x]))
  /\ dedupe_preserve_order_by key out = out
  /\ (NoDup (map key seq) -> out = seq).
Proof.
  cbn zeta. split; [|split; [|split; [|split]]].
  - apply dedupe_NoDup.
  - apply dedupe_first.
  - apply dedupe_snoc.
  - apply dedupe_fixed. apply dedupe_NoDup.
  - apply dedupe_fixed.
Qed.

Example dedupe_preserve_order_demo :
  dedupe_preserve_order [txt "BluRay"; txt "x264"; txt "bluray"; txt "AAC"; txt "X264"]
  = [txt "BluRay"; txt "x264"; txt "AAC"]
  /\ compose_dedup [txt "BluRay"; txt "x264"; txt "bluray"; txt "x264"]
     = [txt "BluRay"; txt "x264"; txt "bluray"].
Proof. vm_compute. split; reflexivity. Qed.

(** ** Free target paths *)

Section FreePathFacts.
Variable path_exists : text -> bool.

Lemma first_free_spec cand fuel n :
  match first_free path_exists cand fuel n with
  | Some p =>
      path_exists p = false
      /\ exists k, (k < fuel)%nat /\ p = cand (n + Z.of_nat k)%Z
                   /\ forall j, (j < k)%nat -> path_exists (cand (n + Z.of_nat j)%Z) = true
  | None => forall j, (j < fuel)%nat -> path_exists (cand (n + Z.of_nat j)%Z) = true
  end.
Proof.
  revert n. induction fuel as [|fuel IH]; intros n; simpl.
  - intros j Hj. lia.
  - destruct (path_exists (cand n)) eqn:E; simpl.
    + specialize (IH (n + 1)%Z).
      destruct (first_free path_exists cand fuel (n + 1)) as [p|].
      * destruct IH as (Hp & k & Hk & Heq & Hall). split; [exact Hp|].
        exists (S k). split; [lia|]. split.
        -- rewrite Heq. f_equal. lia.
        -- intros [|j] Hj; [rewrite Z.add_0_r; exact E|].
           replace (n + Z.of_nat (S j))%Z with (n + 1 + Z.of_nat j)%Z by lia.
           apply Hall. lia.
      * intros [|j] Hj; [rewrite Z.add_0_r; exact E|].
        replace (n + Z.of_nat (S j))%Z with (n + 1 + Z.of_nat j)%Z by lia.
        apply IH. lia.
    + split; [exact E|]. exists 0%nat. split; [lia|]. split.
      * rewrite Z.add_0_r. reflexivity.
      * intros j Hj. lia.
Qed.

(** with pairwise different candidates and finitely many existing paths,
    the loop ends before the fuel does *)
Lemma first_free_found cand (taken : list text) fuel :
  (forall a b, cand a = cand b -> a = b) ->
  (forall p, path_exists p = true -> In p taken) ->
  (length taken < fuel)%nat ->
  exists p, first_free path_exists cand fuel 1 = Some p
            /\ path_exists p = false /\ first_numbered path_exists cand p.
Proof.
  intros Hinj Htaken Hfuel. pose proof (first_free_spec cand fuel 1) as H.
  destruct (first_free path_exists cand fuel 1) as [p|].
  - destruct H as (Hp & k & Hk & Heq & Hall). exists p. split; [reflexivity|].
    split; [exact Hp|]. exists (1 + Z.of_nat k)%Z. split; [lia|]. split; [exact Heq|].
    intros j Hj. replace j with (1 + Z.of_nat (Z.to_nat (j - 1)))%Z by lia.
    apply Hall. lia.
  - exfalso.
    set (l := map (fun j => cand (1 + Z.of_nat j)%Z) (seq 0 fuel)).
    assert (Hnd : NoDup l).
    { unfold l. apply Finite.Injective_map_NoDup; [|apply seq_NoDup].
      intros a b Hab. apply Hinj in Hab. lia. }
    assert (Hincl : incl l taken).
    { intros p Hp. unfold l in Hp. apply in_map_iff in Hp as (j & <- & Hj).
      apply in_seq in Hj. apply Htaken. apply H. lia. }
    pose proof (NoDup_incl_length Hnd Hincl) as Hlen.
    unfold l in Hlen. rewrite length_map, length_seq in Hlen. lia.
Qed.

Lemma with_suffix_inj dirpath target_name a b :
  with_suffix dirpath target_name a = with_suffix dirpath target_name b -> a = b.
Proof.
  unfold with_suffix, path_join.
  assert (Hs : forall n, starts_with (txt "/") (target_name ++ "." :: str_of_int n)
                         = starts_with (txt "/") (target_name ++ ["."])).
  { intros n. destruct target_name as [|c t]; reflexivity. }
  rewrite (Hs a), (Hs b).
  destruct (starts_with (txt "/") (target_name ++ ["."])).
  - intros H. apply app_inv_head in H. injection H as H. apply str_of_int_inj. exact H.
  - destruct (last_char dirpath) as [c|].
    + destruct (Ascii.eqb c "/"); intros H; apply app_inv_head in H.
      * apply app_inv_head in H. injection H as H. apply str_of_int_inj. exact H.
      * injection H as H. apply app_inv_head in H. injection H as H.
        apply str_of_int_inj. exact H.
    + intros H. apply app_inv_head in H. injection H as H. apply str_of_int_inj. exact H.
Qed.

Lemma numbered_inj base ext a b : numbered base ext a = numbered base ext b -> a = b.
Proof.
  unfold numbered. intros H. apply app_inv_head in H. apply app_inv_head in H.
  apply app_inv_tail in H. apply str_of_int_inj. exact H.
Qed.
End FreePathFacts.

(** X22.  Where finitely many paths exist, [unique_target_path] and
    [ensure_unique] return (the loop ends within one turn more than there
    are existing paths) and never name an existing path: the result is the
    wanted path when it is free, and otherwise the numbered candidate
    ("<name>.<n>", respectively "<base>._<i><ext>") with the smallest
    number, counted from 1, that is free. *)
Theorem free_paths_are_found (path_exists : text -> bool) (taken : list text) (fuel : nat) :
  (forall p, path_exists p = true -> In p taken) ->
  (length taken < fuel)%nat ->
  (forall dirpath target_name,
     exists p,
       unique_target_path path_exists dirpath target_name fuel = Some p
       /\ path_exists p = false
       /\ (p = path_join dirpath target_name
           \/ path_exists (path_join dirpath target_name) = true
              /\ first_numbered path_exists (with_suffix dirpath target_name) p))
  /\ (forall path,
        exists p,
          ensure_unique path_exists path fuel = Some p
          /\ path_exists p = false
          /\ (p = path
              \/ path_exists path = true
                 /\ first_numbered path_exists
                      (numbered (fst (splitext path)) (snd (splitext path))) p)).
Proof.
  intros Htaken Hfuel. split.
  - intros dirpath target_name. unfold unique_target_path. cbv zeta.
    destruct (path_exists (path_join dirpath target_name)) eqn:E; cbn [negb].
    + destruct (first_free_found path_exists (with_suffix dirpath target_name) taken fuel
                  (with_suffix_inj dirpath target_name) Htaken Hfuel) as (p & Hp & Hf & Hn).
      exists p. split; [exact Hp|]. split; [exact Hf|]. right. split; [reflexivity | exact Hn].
    + exists (path_join dirpath target_name). split; [reflexivity|]. split; [exact E|].
      left. reflexivity.
  - intros path. unfold ensure_unique.
    destruct (path_exists path) eqn:E; cbn [negb].
    + destruct (splitext path) as [base ext]. cbn [fst snd].
      destruct (first_free_found path_exists (numbered base ext) taken fuel
                  (numbered_inj base ext) Htaken Hfuel) as (p & Hp & Hf & Hn).
      exists p. split; [exact Hp|]. split; [exact Hf|]. right. split; [reflexivity | exact Hn].
    + exists path. split; [reflexivity|]. split; [exact E|]. left. reflexivity.
Qed.

Lemma free_paths_are_found_witness :
  exists p,
    unique_target_path (fun p => mem_text p [txt "/in/Heat.1995"; txt "/in/Heat.1995.1"])
      (txt "/in") (txt "Heat.1995") 3 = Some p
    /\ mem_text p [txt "/in/Heat.1995"; txt "/in/Heat.1995.1"] = false.
Proof.
  destruct (proj1 (free_paths_are_found
                     (fun p => mem_text p [txt "/in/Heat.1995"; txt "/in/Heat.1995.1"])
                     [txt "/in/Heat.1995"; txt "/in/Heat.1995.1"] 3
                     (fun p H => proj1 (mem_text_In p _) H)
                     (le_n 3))
                  (txt "/in") (txt "Heat.1995")) as (p & Hp & Hf & _).
  exists p. split; [exact Hp | exact Hf].
Defined.

Example free_paths_demo :
  let taken := [txt "/in/Heat.1995"; txt "/in/Heat.1995.1"; txt "/tv/S01/a.mkv"] in
  unique_target_path (fun p => mem_text p taken) (txt "/in") (txt "Heat.1995") 4
  = Some (txt "/in/Heat.1995.2")
  /\ ensure_unique (fun p => mem_text p taken) (txt "/tv/S01/a.mkv") 4
     = Some (txt "/tv/S01/a._1.mkv")
  /\ ensure_unique (fun p => mem_text p taken) (txt "/tv/S01/b.mkv") 4
     = Some (txt "/tv/S01/b.mkv").
Proof. vm_compute. repeat split; reflexivity. Qed.

(** ** Token spellings *)

Lemma canonical_tokens_fixed c : In c canonical_tokens -> normalize_token c = c.
Proof.
  intros H. unfold canonical_tokens, QUALITY in H. cbn [app In] in H.
  repeat (destruct H as [<-|H]; [vm_compute; reflexivity|]). destruct H.
Qed.

Ltac in_list := repeat (first [left; reflexivity | right]).

Lemma normalize_token_cases tok :
  normalize_token tok = tok \/ In (normalize_token tok) canonical_tokens.
Proof.
  unfold normalize_token. cbv zeta.
  repeat match goal with
         | |- context [if ?b then _ else _] =>
             let E := fresh "E" in destruct b eqn:E;
             [ right;
               first [ solve [unfold canonical_tokens, QUALITY; cbn [app In]; in_list]
                     | apply mem_text_In in E; cbn [In] in E;
                       unfold canonical_tokens, QUALITY; cbn [app In];
                       repeat (destruct E as [<-|E]; [in_list|]); destruct E ]
             | ]
         end.
  left. reflexivity.
Qed.

(** X23.  [normalize_token] either returns the token as it is or one of
    its canonical spellings, every canonical spelling is a fixed point, and
    so normalising twice is the same as once; the spelling of a token that
    is changed depends only on the token upper-cased with blanks,
    underscores and dashes removed. *)
Theorem normalize_token_idempotent (tok : text) :
  normalize_token (normalize_token tok) = normalize_token tok
  /\ (normalize_token tok = tok \/ In (normalize_token tok) canonical_tokens)
  /\ (forall c, In c canonical_tokens -> normalize_token c = c)
  /\ (forall tok', squeezed tok' = squeezed tok ->
        normalize_token tok' = normalize_token tok
        \/ (normalize_token tok' = tok' /\ normalize_token tok = tok)).
Proof.
  split; [|split; [|split]].
  - destruct (normalize_token_cases tok) as [H|H].
    + rewrite H. exact H.
    + apply canonical_tokens_fixed. exact H.
  - apply normalize_token_cases.
  - apply canonical_tokens_fixed.
  - intros tok' Hs. unfold normalize_token. cbv zeta. rewrite Hs.
    repeat match goal with
           | |- context [if ?b then _ else _] => destruct b; [left; reflexivity|]
           end.
    right. split; reflexivity.
Qed.

Example normalize_token_demo :
  map normalize_token [txt "web_dl"; txt "Blu-Ray"; txt "h264"; txt "ddp2.0"; txt "1080p"; txt "Proper"]
  = [txt "WEB-DL"; txt "BluRay"; txt "H.264"; txt "DDP5.1"; txt "1080P"; txt "Proper"].
Proof. vm_compute. reflexivity. Qed.

(** * Dotted names *)

Lemma list_ind2 {A : Type} (P : list A -> Prop) :
  P [] -> (forall a, P [a]) ->
  (forall a b l, P l -> P (b :: l) -> P (a :: b :: l)) ->
  forall l, P l.
Proof.
  intros H0 H1 H2 l.
  assert (H : P l /\ forall a, P (a :: l)); [|apply H].
  induction l as [|b l (IHl & IHc)]; [split; [exact H0 | exact H1]|].
  split; [apply IHc|]. intros a. apply H2; [exact IHl | apply IHc].
Qed.

Lemma starts_with_one c s :
  starts_with [c] s = match hd_error s with Some d => Ascii.eqb c d | None => false end.
Proof. destruct s; simpl; [reflexivity | apply andb_true_r]. Qed.

Lemma adjacent_app a b x y : adjacent a b (x ++ y) = false ->
  adjacent a b x = false /\ adjacent a b y = false.
Proof.
  induction x as [|c x IH]; simpl; [tauto|].
  intros H. apply orb_false_iff in H as (H1 & H2). destruct (IH H2) as (Hx & Hy).
  split; [|exact Hy]. rewrite Hx, orb_false_r.
  destruct x as [|d x]; [apply andb_false_r | exact H1].
Qed.

(** ** One dot of every run *)

Lemma squeeze_dots_hd s : hd_error (squeeze_dots s) = hd_error s.
Proof.
  induction s as [|c s IH]; [reflexivity|]. cbn [squeeze_dots]. rewrite starts_with_one.
  destruct (hd_error s) as [d|] eqn:Hd; [|rewrite andb_false_r; reflexivity].
  destruct (Ascii.eqb c "." && Ascii.eqb "." d) eqn:E; [|reflexivity].
  rewrite IH. apply andb_true_iff in E as (E1 & E2).
  apply Ascii.eqb_eq in E1, E2. subst. reflexivity.
Qed.

Lemma squeeze_dots_In s c : In c (squeeze_dots s) -> In c s.
Proof.
  induction s as [|d s IH]; [tauto|]. cbn [squeeze_dots].
  destruct (Ascii.eqb d "." && starts_with ["."] s); simpl; tauto.
Qed.

Lemma squeeze_dots_clean s : adjacent "." "." (squeeze_dots s) = false.
Proof.
  induction s as [|c s IH]; [reflexivity|]. cbn [squeeze_dots]. rewrite starts_with_one.
  destruct (hd_error s) as [d|] eqn:Hd.
  - destruct (Ascii.eqb c "." && Ascii.eqb "." d) eqn:E; [exact IH|].
    cbn [adjacent]. rewrite squeeze_dots_hd, Hd, IH, orb_false_r.
    rewrite (Ascii.eqb_sym d "."). exact E.
  - rewrite andb_false_r. cbn [adjacent]. rewrite squeeze_dots_hd, Hd, IH, andb_false_r. reflexivity.
Qed.

Lemma squeeze_dots_fixed s : adjacent "." "." s = false -> squeeze_dots s = s.
Proof.
  induction s as [|c s IH]; [reflexivity|]. cbn [squeeze_dots adjacent]. rewrite starts_with_one.
  intros H. apply orb_false_iff in H as (H1 & H2). rewrite (IH H2).
  destruct (hd_error s) as [d|]; [|rewrite andb_false_r; reflexivity].
  rewrite (Ascii.eqb_sym "." d), H1. reflexivity.
Qed.

(** ** No dot before a dash *)

Lemma sub_dot_dash_In s c : In c (sub_dot_dash s) -> In c s.
Proof.
  induction s as [|a|a b s IH1 IH2] using list_ind2; [tauto | tauto |].
  change (sub_dot_dash (a :: b :: s))
    with (if Ascii.eqb a "." && Ascii.eqb b "-" then "-" :: sub_dot_dash s
          else a :: sub_dot_dash (b :: s)).
  destruct (Ascii.eqb a "." && Ascii.eqb b "-") eqn:E.
  - apply andb_true_iff in E as (_ & E). apply Ascii.eqb_eq in E. subst b.
    intros [<-|H]; [right; left; reflexivity | right; right; apply IH1; exact H].
  - intros [<-|H]; [left; reflexivity | right; apply IH2; exact H].
Qed.

Lemma sub_dot_dash_hd s :
  hd_error (sub_dot_dash s) = hd_error s
  \/ (hd_error (sub_dot_dash s) = Some "-" /\ hd_error s = Some ".").
Proof.
  destruct s as [|a [|b s]]; [left; reflexivity | left; reflexivity |].
  change (sub_dot_dash (a :: b :: s))
    with (if Ascii.eqb a "." && Ascii.eqb b "-" then "-" :: sub_dot_dash s
          else a :: sub_dot_dash (b :: s)).
  destruct (Ascii.eqb a "." && Ascii.eqb b "-") eqn:E; [|left; reflexivity].
  apply andb_true_iff in E as (E & _). apply Ascii.eqb_eq in E. subst a.
  right. split; reflexivity.
Qed.

Lemma sub_dot_dash_clean s :
  adjacent "." "." s = false ->
  adjacent "." "." (sub_dot_dash s) = false /\ adjacent "." "-" (sub_dot_dash s) = false.
Proof.
  induction s as [|a|a b s IH1 IH2] using list_ind2.
  - split; reflexivity.
  - intros _. cbn [sub_dot_dash adjacent hd_error]. rewrite !andb_false_r. split; reflexivity.
  - intros H.
    assert (Hab : Ascii.eqb a "." && Ascii.eqb b "." = false
                  /\ adjacent "." "." (b :: s) = false).
    { cbn [adjacent hd_error] in H. apply orb_false_iff in H. exact H. }
    destruct Hab as (Hab & Hbs).
    assert (Hs : adjacent "." "." s = false).
    { cbn [adjacent hd_error] in Hbs. apply orb_false_iff in Hbs. tauto. }
    change (sub_dot_dash (a :: b :: s))
      with (if Ascii.eqb a "." && Ascii.eqb b "-" then "-" :: sub_dot_dash s
            else a :: sub_dot_dash (b :: s)).
    destruct (Ascii.eqb a "." && Ascii.eqb b "-") eqn:E.
    + destruct (IH1 Hs) as (H1 & H2). cbn [adjacent]. rewrite H1, H2. split; reflexivity.
    + destruct (IH2 Hbs) as (H1 & H2). cbn [adjacent]. rewrite H1, H2, !orb_false_r.
      destruct (Ascii.eqb a ".") eqn:Ea; [|split; reflexivity]. cbn [andb] in *.
      destruct (sub_dot_dash_hd (b :: s)) as [Hh|(Hh & Hb)]; rewrite Hh; cbn [hd_error].
      * split; [exact Hab | exact E].
      * injection Hb as ->. discriminate.
Qed.

Lemma sub_dot_dash_fixed s : adjacent "." "-" s = false -> sub_dot_dash s = s.
Proof.
  induction s as [|a|a b s IH1 IH2] using list_ind2; [reflexivity | reflexivity |].
  intros H. cbn [adjacent hd_error] in H. apply orb_false_iff in H as (Hab & Hbs).
  change (sub_dot_dash (a :: b :: s))
    with (if Ascii.eqb a "." && Ascii.eqb b "-" then "-" :: sub_dot_dash s
          else a :: sub_dot_dash (b :: s)).
  rewrite Hab. rewrite IH2; [reflexivity|]. exact Hbs.
Qed.

(** ** No dot after a dash *)

Lemma sub_dash_dot_In s c : In c (sub_dash_dot s) -> In c s.
Proof.
  induction s as [|a|a b s IH1 IH2] using list_ind2; [tauto | tauto |].
  change (sub_dash_dot (a :: b :: s))
    with (if Ascii.eqb a "-" && Ascii.eqb b "." then "-" :: sub_dash_dot s
          else a :: sub_dash_dot (b :: s)).
  destruct (Ascii.eqb a "-" && Ascii.eqb b ".") eqn:E.
  - apply andb_true_iff in E as (E & _). apply Ascii.eqb_eq in E. subst a.
    intros [<-|H]; [left; reflexivity | right; right; apply IH1; exact H].
  - intros [<-|H]; [left; reflexivity | right; apply IH2; exact H].
Qed.

Lemma sub_dash_dot_hd s : hd_error (sub_dash_dot s) = hd_error s.
Proof.
  destruct s as [|a [|b s]]; [reflexivity | reflexivity |].
  change (sub_dash_dot (a :: b :: s))
    with (if Ascii.eqb a "-" && Ascii.eqb b "." then "-" :: sub_dash_dot s
          else a :: sub_dash_dot (b :: s)).
  destruct (Ascii.eqb a "-" && Ascii.eqb b ".") eqn:E; [|reflexivity].
  apply andb_true_iff in E as (E & _). apply Ascii.eqb_eq in E. subst a. reflexivity.
Qed.

Lemma sub_dash_dot_clean s :
  adjacent "." "." s = false -> adjacent "." "-" s = false ->
  adjacent "." "." (sub_dash_dot s) = false
  /\ adjacent "." "-" (sub_dash_dot s) = false
  /\ adjacent "-" "." (sub_dash_dot s) = false.
Proof.
  induction s as [|a|a b s IH1 IH2] using list_ind2.
  - repeat split; reflexivity.
  - intros _ _. cbn [sub_dash_dot adjacent hd_error]. rewrite !andb_false_r. repeat split; reflexivity.
  - intros Hdd Hdm. cbn [adjacent hd_error] in Hdd, Hdm.
    apply orb_false_iff in Hdd as (Hab1 & Hbs1). apply orb_false_iff in Hdm as (Hab2 & Hbs2).
    assert (Hs1 : adjacent "." "." s = false).
    { apply orb_false_iff in Hbs1. tauto. }
    assert (Hs2 : adjacent "." "-" s = false).
    { apply orb_false_iff in Hbs2. tauto. }
    change (sub_dash_dot (a :: b :: s))
      with (if Ascii.eqb a "-" && Ascii.eqb b "." then "-" :: sub_dash_dot s
            else a :: sub_dash_dot (b :: s)).
    destruct (Ascii.eqb a "-" && Ascii.eqb b ".") eqn:E.
    + destruct (IH1 Hs1 Hs2) as (H1 & H2 & H3).
      apply andb_true_iff in E as (_ & Eb). apply Ascii.eqb_eq in Eb. subst b.
      cbn [adjacent]. rewrite H1, H2, H3, sub_dash_dot_hd. cbn [andb orb].
      repeat split; try reflexivity.
      rewrite orb_false_r.
      apply orb_false_iff in Hbs1 as (Hb & _). cbn [Ascii.eqb andb] in Hb.
      destruct (hd_error s); [|reflexivity]. exact Hb.
    + destruct (IH2 Hbs1 Hbs2) as (H1 & H2 & H3).
      cbn [adjacent]. rewrite H1, H2, H3, sub_dash_dot_hd, !orb_false_r. cbn [hd_error].
      repeat split; assumption.
Qed.

Lemma sub_dash_dot_fixed s : adjacent "-" "." s = false -> sub_dash_dot s = s.
Proof.
  induction s as [|a|a b s IH1 IH2] using list_ind2; [reflexivity | reflexivity |].
  intros H. cbn [adjacent hd_error] in H. apply orb_false_iff in H as (Hab & Hbs).
  change (sub_dash_dot (a :: b :: s))
    with (if Ascii.eqb a "-" && Ascii.eqb b "." then "-" :: sub_dash_dot s
          else a :: sub_dash_dot (b :: s)).
  rewrite Hab. rewrite IH2; [reflexivity|]. exact Hbs.
Qed.

(** ** Stripping *)

Lemma last_char_cons c r : r <> [] -> last_char (c :: r) = last_char r.
Proof.
  intros Hr. unfold last_char. simpl.
  destruct (rev r) as [|d r'] eqn:E; [|reflexivity].
  exfalso. apply Hr. rewrite <- (rev_involutive r), E. reflexivity.
Qed.

Section StripOf.
Variable cls : ascii -> bool.

Lemma lstrip_of_suffix s : exists pre, s = pre ++ lstrip_of cls s.
Proof.
  induction s as [|c s (pre & IH)]; [exists []; reflexivity|]. simpl.
  destruct (cls c); [|exists []; reflexivity].
  exists (c :: pre). simpl. rewrite <- IH. reflexivity.
Qed.

Lemma rstrip_of_prefix s : exists post, s = rstrip_of cls s ++ post.
Proof.
  induction s as [|c s (post & IH)]; [exists []; reflexivity|]. simpl.
  destruct (rstrip_of cls s) as [|d r] eqn:E.
  - destruct (cls c); [exists (c :: s) | exists s]; reflexivity.
  - exists post. simpl. rewrite IH at 1. reflexivity.
Qed.

Lemma lstrip_of_hd s c : hd_error (lstrip_of cls s) = Some c -> cls c = false.
Proof.
  induction s as [|d s IH]; [discriminate|]. simpl.
  destruct (cls d) eqn:E; [exact IH|]. simpl. intros [= <-]. exact E.
Qed.

Lemma rstrip_of_hd s : rstrip_of cls s <> [] -> hd_error (rstrip_of cls s) = hd_error s.
Proof.
  destruct s as [|c s]; [reflexivity|]. simpl.
  destruct (rstrip_of cls s); [|reflexivity].
  destruct (cls c); [congruence | reflexivity].
Qed.

Lemma rstrip_of_last s c : last_char (rstrip_of cls s) = Some c -> cls c = false.
Proof.
  induction s as [|d s IH]; [discriminate|]. simpl.
  destruct (rstrip_of cls s) as [|e r] eqn:E.
  - destruct (cls d) eqn:Ed; [discriminate|]. unfold last_char. simpl. intros [= <-]. exact Ed.
  - rewrite last_char_cons by discriminate. exact IH.
Qed.

Lemma lstrip_of_fixed s : (forall c, hd_error s = Some c -> cls c = false) -> lstrip_of cls s = s.
Proof.
  destruct s as [|c s]; [reflexivity|]. intros H. simpl. rewrite (H c eq_refl). reflexivity.
Qed.

Lemma rstrip_of_fixed s : (forall c, last_char s = Some c -> cls c = false) -> rstrip_of cls s = s.
Proof.
  induction s as [|d s IH]; [reflexivity|]. intros H. simpl.
  destruct s as [|e s].
  - simpl. rewrite (H d eq_refl). reflexivity.
  - rewrite IH; [reflexivity|]. intros c Hc. apply H.
    rewrite last_char_cons by discriminate. exact Hc.
Qed.
End StripOf.

Lemma lstrip_In s c : In c (lstrip s) -> In c s.
Proof.
  induction s as [|d s IH]; [tauto|]. simpl. destruct (is_space d); [|tauto].
  intros H. right. apply IH. exact H.
Qed.

Lemma rstrip_In s c : In c (rstrip s) -> In c s.
Proof.
  induction s as [|d s IH]; [tauto|]. simpl.
  destruct (rstrip s) as [|e r].
  - destruct (is_space d); [intros []|]. intros [<-|[]]. left. reflexivity.
  - intros [<-|H]; [left; reflexivity | right; apply IH; exact H].
Qed.

Lemma sub_runs_from_In cls b s c :
  In c (sub_runs_from cls b s) -> c = " " \/ (In c s /\ cls c = false).
Proof.
  revert b. induction s as [|d s IH]; intros b; [intros []|]. simpl.
  destruct (cls d) eqn:E.
  - destruct b.
    + intros H. destruct (IH _ H) as [->|(Hin & Hc)]; [left; reflexivity | right; tauto].
    + intros [<-|H]; [left; reflexivity|].
      destruct (IH _ H) as [->|(Hin & Hc)]; [left; reflexivity | right; tauto].
  - intros [<-|H]; [right; split; [left; reflexivity | exact E]|].
    destruct (IH _ H) as [->|(Hin & Hc)]; [left; reflexivity | right; tauto].
Qed.

Lemma sub_runs_from_fixed cls b s :
  (forall c, In c s -> cls c = false) -> sub_runs_from cls b s = s.
Proof.
  revert b. induction s as [|d s IH]; intros b H; [reflexivity|]. simpl.
  rewrite (H d (or_introl eq_refl)). rewrite IH; [reflexivity|].
  intros c Hc. apply H. right. exact Hc.
Qed.

Lemma map_fixed (f : ascii -> ascii) (s : text) :
  (forall c, In c s -> f c = c) -> map f s = s.
Proof.
  induction s as [|d s IH]; intros H; [reflexivity|]. simpl.
  rewrite (H d (or_introl eq_refl)), IH; [reflexivity|].
  intros c Hc. apply H. right. exact Hc.
Qed.

Lemma lstrip_no_space s : (forall c, In c s -> is_space c = false) -> lstrip s = s.
Proof.
  intros H. apply lstrip_fixed. intros c r ->. apply H. left. reflexivity.
Qed.

Lemma rstrip_no_space s : (forall c, In c s -> is_space c = false) -> rstrip s = s.
Proof.
  induction s as [|d s IH]; intros H; [reflexivity|]. simpl.
  rewrite IH by (intros c Hc; apply H; right; exact Hc).
  destruct s; [|reflexivity]. rewrite (H d (or_introl eq_refl)). reflexivity.
Qed.

(** ** [norm_spaces] *)

(** blanks are the only blank characters left, brackets and underscores are gone *)
Lemma norm_spaces_chars s c :
  In c (norm_spaces s) ->
  (c = " " \/ is_space c = false) /\ one_of (txt "()[]{}_") c = false.
Proof.
  unfold norm_spaces, strip, collapse_ws, sub_runs. cbv zeta. intros H.
  apply rstrip_In, lstrip_In, sub_runs_from_In in H.
  destruct H as [->|(Hin & Hs)]; [split; [left|]; reflexivity|].
  split; [right; exact Hs|].
  unfold replace_char in Hin. apply in_map_iff in Hin as (d & <- & Hd).
  destruct (Ascii.eqb d "_") eqn:E; [reflexivity|].
  unfold sub_each in Hd. apply in_map_iff in Hd as (e & <- & _).
  destruct (one_of (txt "()[]{}") e) eqn:Ee; [reflexivity|].
  revert Ee E. unfold one_of, txt. simpl.
  intros Ee E. rewrite !orb_false_r in *.
  repeat (apply orb_false_iff in Ee as (? & Ee)).
  repeat match goal with H : _ = false |- _ => rewrite H; clear H end.
  reflexivity.
Qed.

Lemma norm_spaces_fixed s :
  (forall c, In c s -> is_space c = false /\ one_of (txt "()[]{}_") c = false) ->
  norm_spaces s = s.
Proof.
  intros H. unfold norm_spaces. cbv zeta.
  assert (H1 : sub_each (one_of (txt "()[]{}")) s = s).
  { apply map_fixed. intros c Hc. destruct (H c Hc) as (_ & Hb).
    destruct (one_of (txt "()[]{}") c) eqn:E; [|reflexivity].
    exfalso. revert E Hb. unfold one_of, txt. simpl. rewrite !orb_false_r.
    intros E Hb. repeat (apply orb_false_iff in Hb as (? & Hb)).
    repeat match goal with H : _ = false |- _ => rewrite H in E; clear H end.
    discriminate. }
  assert (H2 : replace_char "_" " " s = s).
  { apply map_fixed. intros c Hc. destruct (H c Hc) as (_ & Hb).
    destruct (Ascii.eqb c "_") eqn:E; [|reflexivity].
    apply Ascii.eqb_eq in E. subst c. discriminate. }
  rewrite H1, H2. unfold strip, collapse_ws, sub_runs.
  rewrite sub_runs_from_fixed by (intros c Hc; apply H; exact Hc).
  rewrite lstrip_no_space by (intros c Hc; apply H; exact Hc).
  apply rstrip_no_space. intros c Hc. apply H. exact Hc.
Qed.

(** ** [dotify] *)

Lemma dotted_name_fixed s : dotted_name s -> dotify s = s.
Proof.
  intros (Hc & Hdd & Hdm & Hmd & Hh & Hl). unfold dotify. cbv zeta.
  rewrite (norm_spaces_fixed s Hc).
  assert (H1 : replace_char " " "." s = s).
  { apply map_fixed. intros c Hin. destruct (Hc c Hin) as (Hs & _).
    destruct (Ascii.eqb c " ") eqn:E; [|reflexivity].
    apply Ascii.eqb_eq in E. subst c. discriminate. }
  rewrite H1, (squeeze_dots_fixed s Hdd), (sub_dot_dash_fixed s Hdm), (sub_dash_dot_fixed s Hmd).
  unfold strip_of.
  assert (Hcls : forall c, one_of (txt ".") c = true -> c = ".").
  { intros c H. unfold one_of, txt in H. simpl in H. rewrite orb_false_r in H.
    apply Ascii.eqb_eq in H. exact H. }
  rewrite lstrip_of_fixed.
  - apply rstrip_of_fixed. intros c Hlast.
    destruct (one_of (txt ".") c) eqn:E; [|reflexivity].
    apply Hcls in E. subst c. contradiction.
  - intros c Hhd. destruct (one_of (txt ".") c) eqn:E; [|reflexivity].
    apply Hcls in E. subst c. contradiction.
Qed.

Lemma dotify_dotted s : dotted_name (dotify s).
Proof.
  unfold dotify. cbv zeta.
  set (s1 := replace_char " " "." (norm_spaces s)).
  set (s2 := squeeze_dots s1). set (s3 := sub_dot_dash s2). set (s4 := sub_dash_dot s3).
  assert (Hc1 : forall c, In c s1 -> is_space c = false /\ one_of (txt "()[]{}_") c = false).
  { intros c Hin. unfold s1, replace_char in Hin. apply in_map_iff in Hin as (d & <- & Hd).
    destruct (norm_spaces_chars s d Hd) as ([->|Hs] & Hb); [split; reflexivity|].
    destruct (Ascii.eqb d " "); [split; reflexivity | split; assumption]. }
  assert (H2 : adjacent "." "." s2 = false) by apply squeeze_dots_clean.
  destruct (sub_dot_dash_clean s2 H2) as (H3a & H3b). fold s3 in H3a, H3b.
  destruct (sub_dash_dot_clean s3 H3a H3b) as (H4a & H4b & H4c). fold s4 in H4a, H4b, H4c.
  unfold strip_of.
  destruct (lstrip_of_suffix (one_of (txt ".")) s4) as (pre & Hpre).
  set (l := lstrip_of (one_of (txt ".")) s4) in *.
  destruct (rstrip_of_prefix (one_of (txt ".")) l) as (post & Hpost).
  set (r := rstrip_of (one_of (txt ".")) l) in *.
  assert (Hseg : forall a b, adjacent a b s4 = false -> adjacent a b r = false).
  { intros a b H. rewrite Hpre in H. apply adjacent_app in H as (_ & H).
    rewrite Hpost in H. apply adjacent_app in H as (H & _). exact H. }
  split; [|split; [|split; [|split; [|split]]]].
  - intros c Hin. apply Hc1. apply squeeze_dots_In, sub_dot_dash_In, sub_dash_dot_In.
    fold s1 s2 s3 s4. rewrite Hpre. apply in_or_app. right.
    rewrite Hpost. apply in_or_app. left. exact Hin.
  - apply Hseg. exact H4a.
  - apply Hseg. exact H4b.
  - apply Hseg. exact H4c.
  - intros Hh. destruct r as [|c r'] eqn:Er; [discriminate|].
    assert (Hne : rstrip_of (one_of (txt ".")) l <> []) by (fold r; rewrite Er; discriminate).
    pose proof (rstrip_of_hd (one_of (txt ".")) l Hne) as Hhd. fold r in Hhd.
    rewrite Er in Hhd. rewrite Hh in Hhd. symmetry in Hhd.
    apply (lstrip_of_hd (one_of (txt ".")) s4) in Hhd. discriminate.
  - intros Hl. apply (rstrip_of_last (one_of (txt ".")) l) in Hl. discriminate.
Qed.

(** X24.  The names [dotify] writes: the result has no blank, bracket or
    underscore, no two dots in a row, no dot next to a dash, and no dot at
    either end; the names of that shape are exactly the ones [dotify]
    leaves unchanged, so applying it twice is the same as applying it once. *)
Theorem dotify_names (s : text) :
  dotted_name (dotify s)
  /\ (dotify s = s <-> dotted_name s)
  /\ dotify (dotify s) = dotify s.
Proof.
  split; [apply dotify_dotted|]. split.
  - split; [|apply dotted_name_fixed].
    intros H. rewrite <- H. apply dotify_dotted.
  - apply dotted_name_fixed. apply dotify_dotted.
Qed.

Example dotify_demo :
  dotify (txt "  The_Show (US) - [Part 1].. ") = txt "The.Show.US-Part.1"
  /\ norm_spaces (txt "  The_Show (US) - [Part 1].. ") = txt "The Show US - Part 1 .."
  /\ dotify (txt "The.Show.US-Part.1") = txt "The.Show.US-Part.1".
Proof. vm_compute. repeat split; reflexivity. Qed.
